(** * Family-Tree: a shallow embedding of FileName1.cpp

    The C++ program keeps every [FamilyMember] it allocates in
    [FamilyTree::memberPool], in allocation order, and frees nothing before
    exit.  An object's address is therefore modelled by its pool index and
    the pool itself is the heap: a [FamilyMember*] is an [option nat]
    ([None] is [NULL]), dereferencing is list lookup, and a write through a
    pointer is a list update.  A lookup that fails stands for undefined
    behaviour of the C++ code; every function that dereferences returns an
    [option]. *)

From Stdlib Require Import ZArith Lia Ascii.
From stdpp Require Import base option list numbers strings relations.

Open Scope Z_scope.
Open Scope nat_scope.

(** ** Text *)

(** A C string is modelled by the characters of its buffer; reading stops at
    the first NUL or at the end of the written characters. *)
Abbreviation text := (list ascii) (only parsing).
Abbreviation lit s := (String.list_ascii_of_string s%string) (only parsing).

Definition NUL : ascii := Ascii.zero.

Definition is_nul (c : ascii) : bool := bool_decide (c = NUL).

(** Characters of [s] seen by a reader of the C string. *)
Fixpoint c_str (s : text) : text :=
  match s with
  | [] => []
  | c :: r => if is_nul c then [] else c :: c_str r
  end.

Definition MAX_NAME : nat := 15.
Definition HSPACE : nat := 6.

(** A pointer to a [FamilyMember]. *)
Abbreviation ptr := (option nat) (only parsing).

(** ** class FamilyMember *)
Module FamilyMember.

Record t := mk {
  name : text;          (* char name[64], up to the terminator *)
  gender : ascii;
  alive : bool;
  father : ptr;
  mother : ptr;
  firstChild : ptr;
  nextSibling : ptr
}.

(** [copyName]: [while (src[i] != 0 && i < 63) name[i] = src[i]]. *)
Fixpoint copyName_from (room : nat) (src : text) : text :=
  match room, src with
  | S k, c :: r => if is_nul c then [] else c :: copyName_from k r
  | _, _ => []
  end.

Definition copyName (src : text) : text := copyName_from 63 src.

(** The constructor [FamilyMember(n, g, isAlive)]. *)
Definition new (n : text) (g : ascii) (isAlive : bool) : t :=
  {| name := copyName n;
     gender := if bool_decide (g = "M"%char) || bool_decide (g = "m"%char)
               then "M"%char else "F"%char;
     alive := isAlive;
     father := None; mother := None;
     firstChild := None; nextSibling := None |}.

Definition setAlive (a : bool) (m : t) : t :=
  {| name := name m; gender := gender m; alive := a;
     father := father m; mother := mother m;
     firstChild := firstChild m; nextSibling := nextSibling m |}.

Definition setFather (f : ptr) (m : t) : t :=
  {| name := name m; gender := gender m; alive := alive m;
     father := f; mother := mother m;
     firstChild := firstChild m; nextSibling := nextSibling m |}.

Definition setMother (mo : ptr) (m : t) : t :=
  {| name := name m; gender := gender m; alive := alive m;
     father := father m; mother := mo;
     firstChild := firstChild m; nextSibling := nextSibling m |}.

Definition setNextSibling (s : ptr) (m : t) : t :=
  {| name := name m; gender := gender m; alive := alive m;
     father := father m; mother := mother m;
     firstChild := firstChild m; nextSibling := s |}.

(** The assignment [firstChild = child] inside [addChild]. *)
Definition setFirstChild (c : ptr) (m : t) : t :=
  {| name := name m; gender := gender m; alive := alive m;
     father := father m; mother := mother m;
     firstChild := c; nextSibling := nextSibling m |}.

(** [addChild(child)], called on the member at address [self] of the heap
    [h].  The loop [while (t->nextSibling) t = t->nextSibling] follows
    pointers in the heap and is bounded by [fuel]; running out of fuel, like
    a dangling pointer, gives [None]. *)
Fixpoint lastSibling (fuel : nat) (h : list t) (x : nat) : option nat :=
  match fuel with
  | 0 => None
  | S k =>
      m ← h !! x;
      match nextSibling m with
      | None => Some x
      | Some s => lastSibling k h s
      end
  end.

Definition addChild (fuel : nat) (h : list t) (self : nat) (child : ptr)
  : option (list t) :=
  match child with
  | None => Some h
  | Some _ =>
      m ← h !! self;
      match firstChild m with
      | None => Some (<[self := setFirstChild child m]> h)
      | Some fc =>
          x ← lastSibling fuel h fc;
          xm ← h !! x;
          Some (<[x := setNextSibling child xm]> h)
      end
  end.

End FamilyMember.

(** The heap of members, indexed by address. *)
Abbreviation heap := (list FamilyMember.t) (only parsing).

(** ** class FamilyPair *)
Module FamilyPair.

(** [children] is the allocated array ([childCap] cells, [[]] before the
    first allocation); cells at [childCount] and above are unwritten and
    are modelled as [NULL].  Reading the array outside its allocation is
    an invalid access. *)
Record t := mk {
  father : ptr;
  mother : ptr;
  children : list ptr;
  childCount : nat;
  childCap : nat
}.

Definition new (f m : ptr) : t :=
  {| father := f; mother := m; children := []; childCount := 0; childCap := 0 |}.

Definition ensureCap (p : t) : t :=
  if bool_decide (childCap p = 0) then
    {| father := father p; mother := mother p;
       children := replicate 4 None; childCount := childCount p; childCap := 4 |}
  else if bool_decide (childCap p ≤ childCount p) then
    let nc := childCap p * 2 in
    {| father := father p; mother := mother p;
       children := take (childCount p) (children p)
                   ++ replicate (nc - childCount p) None;
       childCount := childCount p; childCap := nc |}
  else p.

Definition addChild (c : ptr) (p : t) : t :=
  match c with
  | None => p
  | Some _ =>
      let q := ensureCap p in
      {| father := father q; mother := mother q;
         children := <[childCount q := c]> (children q);
         childCount := S (childCount q); childCap := childCap q |}
  end.

Definition getChildCount (p : t) : nat := childCount p.

(** [getChild(i)]: the outer [option] is [None] on an access outside the
    allocated array, the inner one is the returned pointer. *)
Definition getChild (p : t) (i : Z) : option ptr :=
  if bool_decide (0 ≤ i)%Z && bool_decide (i < Z.of_nat (childCount p))%Z
  then children p !! Z.to_nat i
  else Some None.

(** The children a pair holds: cells [0 .. childCount-1]. *)
Definition kids (p : t) : list ptr := take (childCount p) (children p).

(** Representation invariant kept by the constructor and [addChild]. *)
Definition wf (p : t) : Prop :=
  length (children p) = childCap p ∧ childCount p ≤ childCap p.

End FamilyPair.

(** ** Formatting of names and lines *)

(** The truncation loop of [parentLine]:
    [for (; i < MAX_NAME && fn[i] != 0; ++i) tf[i] = fn[i]]. *)
Fixpoint truncName_from (left : nat) (fn : text) : text :=
  match left, fn with
  | S k, c :: r => if is_nul c then [] else c :: truncName_from k r
  | _, _ => []
  end.

Definition truncName (fn : text) : text := truncName_from MAX_NAME fn.

(** Number of cells still writable under the guard [p < outSize - 1], for a
    buffer already holding [out]. *)
Definition room (outSize : Z) (out : text) : nat :=
  Z.to_nat (outSize - 1 - Z.of_nat (length out)).

(** [while (src[k] != 0 && p < outSize - 1) out[p++] = src[k++]]. *)
Fixpoint copyRoom (rm : nat) (src : text) : text :=
  match rm, src with
  | S k, c :: r => if is_nul c then [] else c :: copyRoom k r
  | _, _ => []
  end.

(** The inner loop of [childrenLine]:
    [while (c < MAX_NAME && cn[c] != 0 && p < outSize - 1) out[p++] = cn[c++]]. *)
Fixpoint copyChars (left rm : nat) (cn : text) : text :=
  match left, rm, cn with
  | S k, S r, c :: rest => if is_nul c then [] else c :: copyChars k r rest
  | _, _, _ => []
  end.

(** [FamilyTree::formatName(src, out, outSize)]. *)
Fixpoint formatName_from (left rm : nat) (src : text) : text :=
  match left, rm, src with
  | S k, S r, c :: rest => if is_nul c then [] else c :: formatName_from k r rest
  | _, _, _ => []
  end.

Definition formatName (src : text) (outSize : Z) : text :=
  formatName_from MAX_NAME (Z.to_nat (outSize - 1)) src.

(** A guarded block write [if (p < outSize - 1) { out[p++] = ...; ... }]. *)
Definition putBlock (outSize : Z) (blk out : text) : text :=
  if bool_decide (Z.of_nat (length out) < outSize - 1)%Z then out ++ blk else out.

Definition nameOf (h : heap) (p : ptr) : option text :=
  match p with
  | Some a => FamilyMember.name <$> h !! a
  | None => Some (lit "Unknown")
  end.

Definition genderOf (h : heap) (dflt : ascii) (p : ptr) : option ascii :=
  match p with
  | Some a => FamilyMember.gender <$> h !! a
  | None => Some dflt
  end.

(** [FamilyPair::parentLine(out, outSize)]: the C string left in [out].
    The two copy loops are guarded cell by cell; the three blocks are guarded
    at their first cell only, and the terminators [out[p] = 0] written after
    each copy loop are not guarded at all.  [p] only grows, so every write
    lies inside the buffer exactly when the two terminators do ([p < outSize]
    after the father's and after the mother's name) and the last block ends
    at [outSize] or before; otherwise the result is [None]. *)
Definition parentLine (h : heap) (p : FamilyPair.t) (outSize : Z) : option text :=
  fn ← nameOf h (FamilyPair.father p);
  mn ← nameOf h (FamilyPair.mother p);
  let tf := truncName fn in
  let tm := truncName mn in
  fg ← genderOf h "M"%char (FamilyPair.father p);
  mg ← genderOf h "F"%char (FamilyPair.mother p);
  let o1 := copyRoom (room outSize []) tf in
  let o2 := putBlock outSize [" "; "("; fg; ")"]%char o1 in
  let o3 := putBlock outSize [" "; "-"; " "]%char o2 in
  let o4 := o3 ++ copyRoom (room outSize o3) tm in
  let o5 := putBlock outSize [" "; "("; mg; ")"]%char o4 in
  let n := Z.of_nat (length o5) in
  if bool_decide (Z.of_nat (length o1) < outSize)%Z
     && bool_decide (Z.of_nat (length o4) < outSize)%Z
     && bool_decide (n ≤ outSize)%Z then
    Some (c_str (take (Z.to_nat (if bool_decide (n < outSize)%Z then n else outSize - 1)) o5))
  else None.

(** The cells [children[0] .. children[childCount-1]], read one by one. *)
Definition cells (p : FamilyPair.t) : option (list ptr) :=
  mapM (λ i, FamilyPair.children p !! i) (seq 0 (FamilyPair.childCount p)).

(** The body of the [for] loop of [childrenLine], over the remaining cells. *)
Fixpoint childrenLine_from (h : heap) (outSize : Z) (cs : list ptr) (out : text)
  : option text :=
  match cs with
  | [] => Some out
  | c :: rest =>
      a ← c;
      m ← h !! a;
      let o1 := out ++ copyChars MAX_NAME (room outSize out) (FamilyMember.name m) in
      let o2 := match rest with
                | [] => o1
                | _ => putBlock outSize [" "%char] o1
                end in
      childrenLine_from h outSize rest o2
  end.

(** [FamilyPair::childrenLine(out, outSize)]: the C string left in [out]. *)
Definition childrenLine (h : heap) (p : FamilyPair.t) (outSize : Z) : option text :=
  cs ← cells p;
  out ← childrenLine_from h outSize cs [];
  if bool_decide (1 ≤ outSize)%Z then Some (c_str out) else None.

(** ** Grouping members into family pairs *)

(** The linked list of [FamilyPair] nodes ([head], [tail], [next]) is
    modelled by the list of its nodes in link order. *)
Abbreviation pairs := (list FamilyPair.t) (only parsing).

(** The search-or-append step that [buildFamilyPairsForMembers] and both
    grouping loops of [showCenteredTree] run for one member:
    [[
      cur = head; found = false;
      while (cur) {
        if (cur->getFather() == f && cur->getMother() == m)
          { cur->addChild(child); found = true; break; }
        cur = cur->getNext();
      }
      if (!found) { np = new FamilyPair(f, m); np->addChild(child); append np }
    ]] *)
Fixpoint addToPairs (f m child : ptr) (head : pairs) : pairs :=
  match head with
  | [] => [FamilyPair.addChild child (FamilyPair.new f m)]
  | cur :: rest =>
      if bool_decide (FamilyPair.father cur = f)
         && bool_decide (FamilyPair.mother cur = m)
      then FamilyPair.addChild child cur :: rest
      else cur :: addToPairs f m child rest
  end.

(** The [for] loop of [buildFamilyPairsForMembers], from the current list. *)
Fixpoint buildFamilyPairs_from (h : heap) (members : list ptr) (head : pairs)
  : option pairs :=
  match members with
  | [] => Some head
  | child :: rest =>
      c ← child;
      cm ← h !! c;
      buildFamilyPairs_from h rest
        (addToPairs (FamilyMember.father cm) (FamilyMember.mother cm) child head)
  end.

Definition buildFamilyPairsForMembers (h : heap) (members : list ptr) : option pairs :=
  buildFamilyPairs_from h members [].

(** ** class FamilyTree *)
Module FamilyTree.

Record t := mk {
  root : ptr;
  memberPool : list FamilyMember.t
}.

Definition new : t := {| root := None; memberPool := [] |}.

Definition memCount (tr : t) : nat := length (memberPool tr).

(** [poolAdd]: the new member's address is its pool index. *)
Definition poolAdd (m : FamilyMember.t) (tr : t) : t :=
  {| root := root tr; memberPool := memberPool tr ++ [m] |}.

Definition setRoot (r : ptr) (tr : t) : t :=
  {| root := r; memberPool := memberPool tr |}.

Definition setPool (h : list FamilyMember.t) (tr : t) : t :=
  {| root := root tr; memberPool := h |}.

End FamilyTree.

(** [FamilyTree::eq]: equality of two C strings. *)
Fixpoint eq_name (a b : text) : bool :=
  match a, b with
  | ca :: ra, cb :: rb =>
      if is_nul ca && is_nul cb then true
      else if bool_decide (ca = cb) then eq_name ra rb else false
  | ca :: _, [] => is_nul ca
  | [], cb :: _ => is_nul cb
  | [], [] => true
  end.

(** [findByName]: linear search of the pool, from index [i]. *)
Fixpoint findByName_from (i : nat) (pool : heap) (nm : text) : ptr :=
  match pool with
  | [] => None
  | m :: rest =>
      if eq_name (FamilyMember.name m) nm then Some i
      else findByName_from (S i) rest nm
  end.

Definition findByName (tr : FamilyTree.t) (nm : text) : ptr :=
  findByName_from 0 (FamilyTree.memberPool tr) nm.

(** ** The console *)

(** What one prompt takes from [cin], each entry ended by the Enter key: a
    line of text, or a single character.  Every reader of the program
    removes the newline that ends the entry it accepts, so each read begins
    at the beginning of a line.  [Line s] is the string that the [getline]
    of [readLine] delivers; [readLine] first drops a newline that is next
    on [cin], so the empty string [Line []] stands for Enter pressed
    twice. *)
Inductive Entry :=
  | Line (s : text)
  | Key (c : ascii).

(** The characters of an entry, without the newline that ends it. *)
Definition typed (e : Entry) : text :=
  match e with
  | Line s => s
  | Key c => [c]
  end.

(** The white space that a formatted extraction [cin >> x] skips before it
    reads: space, tab, line feed, vertical tab, form feed, carriage return. *)
Definition isSpace (c : ascii) : bool :=
  bool_decide (c = " "%char) || bool_decide (c = "009"%char)
  || bool_decide (c = "010"%char) || bool_decide (c = "011"%char)
  || bool_decide (c = "012"%char) || bool_decide (c = "013"%char).

(** The state of a run: the tree, the entries still to be read from [cin]
    and the chunks written to [cout] so far. *)
Record World := mkWorld {
  tree : FamilyTree.t;
  input : list Entry;
  output : list text
}.

(** Commands read and write the world; [None] is a run the model does not
    cover (input exhausted or of the wrong kind, undefined behaviour, fuel
    exhausted). *)
Definition Cmd (A : Type) : Type := World → option (A * World).

Definition ret {A} (a : A) : Cmd A := λ w, Some (a, w).

Definition bind {A B} (c : Cmd A) (k : A → Cmd B) : Cmd B :=
  λ w, match c w with
       | Some (a, w') => k a w'
       | None => None
       end.

Declare Scope cmd_scope.
Delimit Scope cmd_scope with cmd.
Notation "x <- c ;; k" := (bind c (λ x, k))
  (at level 100, c at next level, right associativity) : cmd_scope.
Notation "c ;; k" := (bind c (λ _, k))
  (at level 100, right associativity) : cmd_scope.

Definition getTree : Cmd FamilyTree.t := λ w, Some (tree w, w).

Definition putTree (tr : FamilyTree.t) : Cmd unit :=
  λ w, Some (tt, {| tree := tr; input := input w; output := output w |}).

(** [cout << s]. *)
Definition say (s : text) : Cmd unit :=
  λ w, Some (tt, {| tree := tree w; input := input w; output := output w ++ [s] |}).

(** A command for a step that may be undefined. *)
Definition lift {A} (o : option A) : Cmd A :=
  λ w, match o with Some a => Some (a, w) | None => None end.

Definition nl : text := ["010"%char].

(** [readLine(prompt, buffer, size)], over entries: the prompt is printed,
    a newline that is next on [cin] is dropped and [getline] stores the
    line that follows, of at most [size - 1] characters; a longer line puts
    [cin] in a failed state, which the model does not follow.
    [readLine_chars] below is the same read over the characters of
    [cin]. *)
Definition readLine (prompt : text) (size : nat) : Cmd text :=
  λ w, match input w with
       | Line s :: rest =>
           if bool_decide (length s < size) then
             Some (s, {| tree := tree w; input := rest; output := output w ++ [prompt] |})
           else None
       | _ => None
       end.

(** [buffer[0] == 0]. *)
Definition emptyName (s : text) : bool :=
  match s with
  | [] => true
  | c :: _ => is_nul c
  end.

Definition isGender (g : ascii) : bool :=
  bool_decide (g = "M"%char) || bool_decide (g = "m"%char)
  || bool_decide (g = "F"%char) || bool_decide (g = "f"%char).

(** The loop of [readGender] over the entries still to be read.  [out]
    holds the output up to the pending [cin >> g], the prompt of the current
    turn included: an entry that is white space is skipped by the extraction
    itself, which goes on to the next entry without a message or a new
    prompt. *)
Fixpoint readGender_loop (prompt : text) (inp : list Entry) (out : list text)
  : option (ascii * list Entry * list text) :=
  match inp with
  | Key g :: rest =>
      if isSpace g then readGender_loop prompt rest out
      else if isGender g then
        Some (if bool_decide (g = "M"%char) || bool_decide (g = "m"%char)
              then "M"%char else "F"%char, rest, out)
      else readGender_loop prompt rest
             (out ++ [lit "Invalid gender. Enter M or F." ++ nl; prompt])
  | _ => None
  end.

Definition readGender (prompt : text) : Cmd ascii :=
  λ w, match readGender_loop prompt (input w) (output w ++ [prompt]) with
       | Some (g, inp, out) => Some (g, {| tree := tree w; input := inp; output := out |})
       | None => None
       end.

(** The loop shared by [readYesNo] and [readYesNoDefaultYes]; [cin >> ch]
    skips an entry that is white space. *)
Fixpoint readYesNo_loop (inp : list Entry) (out : list text)
  : option (bool * list Entry * list text) :=
  match inp with
  | Key ch :: rest =>
      if isSpace ch then readYesNo_loop rest out
      else if bool_decide (ch = "y"%char) || bool_decide (ch = "Y"%char) then
        Some (true, rest, out)
      else if bool_decide (ch = "n"%char) || bool_decide (ch = "N"%char) then
        Some (false, rest, out)
      else readYesNo_loop rest (out ++ [lit "Please enter y or n: "])
  | _ => None
  end.

Definition readYesNo (defaultNo : bool) : Cmd bool :=
  λ w, match readYesNo_loop (input w) (output w) with
       | Some (b, inp, out) => Some (b, {| tree := tree w; input := inp; output := out |})
       | None => None
       end.

Definition readYesNoDefaultYes (prompt : text) : Cmd bool :=
  λ w, match readYesNo_loop (input w) (output w ++ [prompt]) with
       | Some (b, inp, out) => Some (b, {| tree := tree w; input := inp; output := out |})
       | None => None
       end.

(** ** Operations of the menu *)

Local Open Scope cmd_scope.

(** [x = new FamilyMember(n, g, a); poolAdd(x);] gives the new address. *)
Definition newMember (n : text) (g : ascii) (a : bool) : Cmd nat :=
  tr <- getTree;;
  putTree (FamilyTree.poolAdd (FamilyMember.new n g a) tr);;
  ret (FamilyTree.memCount tr).

(** [self->addChild(child)]. *)
Definition addChildOf (fuel : nat) (self child : ptr) : Cmd unit :=
  tr <- getTree;;
  s <- lift self;;
  h <- lift (FamilyMember.addChild fuel (FamilyTree.memberPool tr) s child);;
  putTree (FamilyTree.setPool h tr).

(** A write [a->field = v] through the pointer [a]. *)
Definition updMember (a : nat) (f : FamilyMember.t → FamilyMember.t) : Cmd unit :=
  tr <- getTree;;
  m <- lift (FamilyTree.memberPool tr !! a);;
  putTree (FamilyTree.setPool (<[a := f m]> (FamilyTree.memberPool tr)) tr).

Definition createRootInteractive : Cmd bool :=
  tr <- getTree;;
  match FamilyTree.root tr with
  | Some _ => say (lit "Root already exists." ++ nl);; ret false
  | None =>
      name <- readLine (lit "Enter root ancestor full name: ") 64;;
      if emptyName name then say (lit "Empty name. Aborted." ++ nl);; ret false
      else
        g <- readGender (lit "Enter gender (M/F): ");;
        alive <- readYesNoDefaultYes (lit "Is ancestor alive? (y/n) [y]: ");;
        m <- newMember name g alive;;
        tr' <- getTree;;
        putTree (FamilyTree.setRoot (Some m) tr');;
        say (lit "Root '");; say (c_str name);; say (lit "' created." ++ nl);;
        ret true
  end.

(** The block of [addMemberInteractive] that asks for one parent by name;
    the father's and the mother's blocks differ in their texts only
    ([lo] is "father" or "mother", [cap] the capitalised word). *)
Definition askParent (fuel : nat) (lo cap : text) : Cmd ptr :=
  pname <- readLine (lit "Enter " ++ lo ++ lit "'s name (or blank if unknown): ") 64;;
  if emptyName pname then ret None
  else
    tr <- getTree;;
    match findByName tr pname with
    | Some a => ret (Some a)
    | None =>
        say (cap ++ lit " not found. Create " ++ lo ++ lit " now? (y/n): ");;
        yes <- readYesNo false;;
        if yes then
          g <- readGender (lit "Enter " ++ lo ++ lit "'s gender (M/F): ");;
          al <- readYesNoDefaultYes (lit "Is " ++ lo ++ lit " alive? (y/n) [y]: ");;
          a <- newMember pname g al;;
          addChildOf fuel (FamilyTree.root tr) (Some a);;
          say (cap ++ lit " created and attached under root for visibility." ++ nl);;
          ret (Some a)
        else ret None
    end.

(** The block that offers to create or set the missing spouse ([sug] is the
    suggested gender letter of the prompt). *)
Definition askSpouse (fuel : nat) (lo cap sug : text) : Cmd ptr :=
  say (cap ++ lit " missing. Create/set " ++ lo ++ lit " now? (y/n): ");;
  yes <- readYesNo false;;
  if yes then
    pname2 <- readLine (lit "Enter " ++ lo ++ lit "'s name: ") 64;;
    if emptyName pname2 then ret None
    else
      tr <- getTree;;
      match findByName tr pname2 with
      | Some a => ret (Some a)
      | None =>
          g <- readGender (lit "Enter " ++ lo ++ lit "'s gender (M/F) [" ++ sug
                           ++ lit " suggested]: ");;
          al <- readYesNoDefaultYes (lit "Is " ++ lo ++ lit " alive? (y/n) [y]: ");;
          a <- newMember pname2 g al;;
          addChildOf fuel (FamilyTree.root tr) (Some a);;
          ret (Some a)
      end
  else ret None.

(** The part of [addMemberInteractive] inside [if (specify)]. *)
Definition askParents (fuel : nat) : Cmd (ptr * ptr) :=
  father <- askParent fuel (lit "father") (lit "Father");;
  mother <- askParent fuel (lit "mother") (lit "Mother");;
  match father, mother with
  | Some _, None =>
      mother' <- askSpouse fuel (lit "mother") (lit "Mother") (lit "F");;
      ret (father, mother')
  | None, Some _ =>
      father' <- askSpouse fuel (lit "father") (lit "Father") (lit "M");;
      ret (father', mother)
  | _, _ => ret (father, mother)
  end.

(** The end of [addMemberInteractive]: create the member and link it. *)
Definition linkMember (fuel : nat) (name : text) (gender : ascii) (alive : bool)
    (father mother : ptr) : Cmd unit :=
  tr <- getTree;;
  nm <- newMember name gender alive;;
  match father with
  | Some _ =>
      updMember nm (FamilyMember.setFather father);;
      addChildOf fuel father (Some nm)
  | None => ret tt
  end;;
  match mother with
  | Some _ =>
      updMember nm (FamilyMember.setMother mother);;
      match father with
      | None => addChildOf fuel mother (Some nm)
      | Some _ => ret tt
      end
  | None => ret tt
  end;;
  match father, mother with
  | None, None =>
      addChildOf fuel (FamilyTree.root tr) (Some nm);;
      say (lit "No parents specified; member attached under root for visibility." ++ nl)
  | _, _ => ret tt
  end;;
  say (lit "Member '");; say (c_str name);; say (lit "' added successfully." ++ nl).

Definition addMemberInteractive (fuel : nat) : Cmd unit :=
  tr <- getTree;;
  match FamilyTree.root tr with
  | None => say (lit "Create root first (option 1)." ++ nl)
  | Some _ =>
      name <- readLine (lit "Enter new member full name: ") 64;;
      if emptyName name then say (lit "Empty name. Aborted." ++ nl)
      else
        match findByName tr name with
        | Some _ => say (lit "Member already exists. Aborted." ++ nl)
        | None =>
            gender <- readGender (lit "Enter gender (M/F): ");;
            alive <- readYesNoDefaultYes (lit "Is person alive? (y/n) [y]: ");;
            say (lit "Do you want to specify parents for this member? (y/n): ");;
            specify <- readYesNo false;;
            fm <- (if specify then askParents fuel else ret (None, None));;
            linkMember fuel name gender alive fm.1 fm.2
        end
  end.

Definition markLateInteractive : Cmd unit :=
  tr <- getTree;;
  match FamilyTree.root tr with
  | None => say (lit "No tree exists." ++ nl)
  | Some _ =>
      name <- readLine (lit "Enter member name to mark as Late: ") 64;;
      if emptyName name then say (lit "Empty name." ++ nl)
      else
        match findByName tr name with
        | None => say (lit "Member not found." ++ nl)
        | Some a =>
            m <- lift (FamilyTree.memberPool tr !! a);;
            if negb (FamilyMember.alive m) then say (lit "Already marked Late." ++ nl)
            else
              say (lit "Confirm marking '");; say (c_str (FamilyMember.name m));;
              say (lit "' as Late? (y/n): ");;
              yes <- readYesNo false;;
              if yes then
                updMember a (FamilyMember.setAlive false);;
                say (lit "Marked Late." ++ nl)
              else say (lit "Cancelled." ++ nl)
        end
  end.

Definition showAllNames : Cmd unit :=
  tr <- getTree;;
  say (nl ++ lit "All members:" ++ nl);;
  say (concat (map (λ m, lit "- " ++ c_str (FamilyMember.name m) ++ nl)
                   (FamilyTree.memberPool tr))).

(** ** showCenteredTree *)

(** The test that puts the member at address [i] into generation 0:
    [[
      include = false;
      if (f == root || m == root) include = true;
      if (!f && !m && ch == root) include = true;
    ]] *)
Definition included (root i : nat) (ch : FamilyMember.t) : bool :=
  bool_decide (FamilyMember.father ch = Some root)
  || bool_decide (FamilyMember.mother ch = Some root)
  || (bool_decide (FamilyMember.father ch = None)
      && bool_decide (FamilyMember.mother ch = None)
      && bool_decide (i = root)).

(** The loop [for (i = 0; i < total; ++i)] over [all = memberPool], from
    index [i] with the list [genHead] built so far. *)
Fixpoint seed_from (root i : nat) (all : list FamilyMember.t) (genHead : pairs) : pairs :=
  match all with
  | [] => genHead
  | ch :: rest =>
      seed_from root (S i) rest
        (if included root i ch
         then addToPairs (FamilyMember.father ch) (FamilyMember.mother ch) (Some i) genHead
         else genHead)
  end.

Definition seedGeneration (h : heap) (root : nat) : pairs := seed_from root 0 h [].

(** [currentGen] at the head of the generation loop, after the fallback. *)
Definition startGeneration (h : heap) (root : nat) : pairs :=
  match seedGeneration h root with
  | [] => [FamilyPair.addChild (Some root) (FamilyPair.new None None)]
  | genHead => genHead
  end.

(** Length of a C string held in a line buffer, as an [int]. *)
Definition strlen (s : text) : Z := Z.of_nat (length s).

(** [ww = w > w2 ? w : w2; if (ww < 6) ww = 6;] *)
Definition unitWidth (pl cl : text) : Z :=
  let w := strlen pl in
  let w2 := strlen cl in
  let ww := if bool_decide (w > w2)%Z then w else w2 in
  if bool_decide (ww < 6)%Z then 6%Z else ww.

(** [for (sp = 0; sp < n; ++sp) cout << ' ']. *)
Definition spaces (n : Z) : text := replicate (Z.to_nat n) " "%char.

(** [padLeft = (widths[i] - len) / 2], with the division of C. *)
Definition padLeft (width : Z) (s : text) : Z := Z.quot (width - strlen s) 2.

(** One centred block of the parents row or of the children row. *)
Definition centered (width : Z) (s : text) : text :=
  spaces (padLeft width s) ++ s ++ spaces (width - padLeft width s - strlen s).

(** The UTF-8 bytes of the connector glyph. *)
Definition connectorGlyph : text := ["226"; "148"; "130"]%char.

Definition connector (width : Z) (pl : text) : text :=
  let pre := (padLeft width pl + Z.quot (strlen pl) 2)%Z in
  spaces pre ++ connectorGlyph ++ spaces (width - (pre + 1)).

(** The blocks of one row, with [HSPACE] spaces after all but the last. *)
Fixpoint row (blocks : list text) : text :=
  match blocks with
  | [] => []
  | [b] => b
  | b :: rest => b ++ spaces (Z.of_nat HSPACE) ++ row rest
  end.

(** The two line buffers of every pair of a generation. *)
Definition linesOf (h : heap) (gen : pairs) : option (list (text * text)) :=
  mapM (λ t, pl ← parentLine h t 256; cl ← childrenLine h t 256; Some (pl, cl)) gen.

(** The three rows and the blank line printed for a generation. *)
Definition renderLines (ls : list (text * text)) : text :=
  row (map (λ l, centered (unitWidth l.1 l.2) l.1) ls) ++ nl
  ++ row (map (λ l, connector (unitWidth l.1 l.2) l.1) ls) ++ nl
  ++ row (map (λ l, centered (unitWidth l.1 l.2) l.2) ls) ++ nl ++ nl.

Definition renderGeneration (h : heap) (gen : pairs) : option text :=
  renderLines <$> linesOf h gen.

(** The loop [for (k = 0; k < cc; ++k)] that copies the children of one
    pair into [childList], skipping those already there. *)
Fixpoint collect_cells (t : FamilyPair.t) (ks : list nat) (childList : list ptr)
  : option (list ptr) :=
  match ks with
  | [] => Some childList
  | k :: r =>
      ch ← FamilyPair.getChild t (Z.of_nat k);
      collect_cells t r (if bool_decide (ch ∈ childList) then childList
                         else childList ++ [ch])
  end.

Fixpoint collectChildren (gen : pairs) (childList : list ptr) : option (list ptr) :=
  match gen with
  | [] => Some childList
  | t :: r =>
      cl ← collect_cells t (seq 0 (FamilyPair.getChildCount t)) childList;
      collectChildren r cl
  end.

(** The loop [while (cnode)] that groups the children of one parent into
    the next generation. *)
Fixpoint expandChain (fuel : nat) (h : heap) (cnode : ptr) (nextGen : pairs)
  : option pairs :=
  match cnode with
  | None => Some nextGen
  | Some c =>
      match fuel with
      | 0 => None
      | S k =>
          cm ← h !! c;
          expandChain k h (FamilyMember.nextSibling cm)
            (addToPairs (FamilyMember.father cm) (FamilyMember.mother cm) cnode nextGen)
      end
  end.

(** The loop over [childList] that builds the next generation. *)
Fixpoint expandAll (fuel : nat) (h : heap) (childList : list ptr) (nextGen : pairs)
  : option pairs :=
  match childList with
  | [] => Some nextGen
  | potentialParent :: rest =>
      a ← potentialParent;
      pm ← h !! a;
      ng ← expandChain fuel h (FamilyMember.firstChild pm) nextGen;
      expandAll fuel h rest ng
  end.

Definition nextGeneration (fuel : nat) (h : heap) (currentGen : pairs) : option pairs :=
  childList ← collectChildren currentGen [];
  expandAll fuel h childList [].

(** The loop [while (currentGen != NULL)]: every generation it goes
    through, with the text printed for it. *)
Fixpoint walk (fuel : nat) (h : heap) (currentGen : pairs) : option (list (pairs * text)) :=
  match currentGen with
  | [] => Some []
  | _ =>
      match fuel with
      | 0 => None
      | S k =>
          block ← renderGeneration h currentGen;
          nextGen ← nextGeneration k h currentGen;
          later ← walk k h nextGen;
          Some ((currentGen, block) :: later)
      end
  end.

Definition showCenteredTree (fuel : nat) : Cmd unit :=
  tr <- getTree;;
  match FamilyTree.root tr with
  | None => say (lit "No tree. Create root first." ++ nl)
  | Some r =>
      say (nl ++ lit "=== CENTERED FAMILY TREE ===" ++ nl ++ nl);;
      gens <- lift (walk fuel (FamilyTree.memberPool tr)
                      (startGeneration (FamilyTree.memberPool tr) r));;
      say (concat (map snd gens));;
      say (lit "=== END OF TREE ===" ++ nl)
  end.

(** ** The menu *)

Inductive Op := CreateRoot | AddMember | MarkLate | ShowTree | ListMembers.

(** What [Menu::run] calls for a choice. *)
Definition exec (fuel : nat) (op : Op) : Cmd unit :=
  match op with
  | CreateRoot => createRootInteractive;; ret tt
  | AddMember => addMemberInteractive fuel
  | MarkLate => markLateInteractive
  | ShowTree => showCenteredTree fuel
  | ListMembers => showAllNames
  end.

(** One turn of the menu loop, and the worlds a run can be in. *)
Definition step (w w' : World) : Prop :=
  ∃ fuel op, exec fuel op w = Some (tt, w').

Definition initial (w : World) : Prop :=
  tree w = FamilyTree.new.

Definition reachable (w : World) : Prop :=
  ∃ w0, initial w0 ∧ rtc step w0 w.

Local Close Scope cmd_scope.

(** ** Reference descriptions used in the statements *)

(** The reference rendering of a name: its first [MAX_NAME] characters. *)
Definition first15 (n : text) : text := take MAX_NAME (c_str n).

(** Names separated by single spaces, as the children line is described. *)
Fixpoint joinNames (ns : list text) : text :=
  match ns with
  | [] => []
  | [n] => n
  | n :: r => n ++ " "%char :: joinNames r
  end.

(** The names of the members a list of cells points to. *)
Definition namesOf (h : heap) (cs : list ptr) : option (list text) :=
  mapM (λ c : ptr, a ← c; FamilyMember.name <$> h !! a) cs.

(** The grouping key of a pair, and the key a member is filed under. *)
Definition key (p : FamilyPair.t) : ptr * ptr :=
  (FamilyPair.father p, FamilyPair.mother p).

Definition memberKey (h : heap) (c : ptr) : option (ptr * ptr) :=
  a ← c; m ← h !! a; Some (FamilyMember.father m, FamilyMember.mother m).

(** A [FamilyPair] object in general: its constructor followed by any
    sequence of [addChild] calls, the only method that writes its fields. *)
Definition builtPair (f m : ptr) (cs : list ptr) : FamilyPair.t :=
  foldl (λ p c, FamilyPair.addChild c p) (FamilyPair.new f m) cs.

(** A sequence of menu choices. *)
Fixpoint runOps (fuel : nat) (ops : list Op) (w : World) : option World :=
  match ops with
  | [] => Some w
  | op :: r =>
      match exec fuel op w with
      | Some (_, w') => runOps fuel r w'
      | None => None
      end
  end.

Definition freshWorld (inp : list Entry) : World :=
  {| tree := FamilyTree.new; input := inp; output := [] |}.

(** *** Example registries *)

(** Carol is the root and Dave her son (scenario C of the specification). *)
Definition carolDave : list FamilyMember.t :=
  [ {| FamilyMember.name := lit "Carol"; FamilyMember.gender := "F"%char;
       FamilyMember.alive := true; FamilyMember.father := None;
       FamilyMember.mother := None; FamilyMember.firstChild := Some 1;
       FamilyMember.nextSibling := None |};
    {| FamilyMember.name := lit "Dave"; FamilyMember.gender := "M"%char;
       FamilyMember.alive := true; FamilyMember.father := Some 0;
       FamilyMember.mother := None; FamilyMember.firstChild := None;
       FamilyMember.nextSibling := None |} ].

Definition carolDaveInput : list Entry :=
  [ Line (lit "Carol"); Key "F"%char; Key "y"%char;
    Line (lit "Dave"); Key "M"%char; Key "y"%char; Key "y"%char;
    Line (lit "Carol"); Line []; Key "n"%char ].

(** The pair (Carol, unknown mother) with Dave as its child. *)
Definition davePair : FamilyPair.t :=
  FamilyPair.addChild (Some 1) (FamilyPair.new (Some 0) None).

(** A root and seventeen members added without parents, whose names have
    seventeen characters each. *)
Definition crowdName (i : nat) : text :=
  lit "Great-grandchild" ++ [ascii_of_nat (65 + i)].

Definition crowdInput : list Entry :=
  [Line (lit "Ancestor"); Key "F"%char; Key "y"%char]
  ++ concat (map (λ i, [Line (crowdName i); Key "F"%char; Key "y"%char; Key "n"%char])
                 (seq 0 17)).

Definition crowdWorld : option World :=
  runOps 20 (CreateRoot :: replicate 17 AddMember) (freshWorld crowdInput).

(** *** Grouping as the specification words it *)

(** A family unit seen as its key and its children. *)
Abbreviation unit_view := ((ptr * ptr) * list ptr)%type (only parsing).

(** "If a unit with that exact key already exists, append the individual to
    that unit's children; otherwise create a new unit, in output order, with
    that key and this individual as its first child." *)
Fixpoint insertGroup (k : ptr * ptr) (c : ptr) (gs : list unit_view) : list unit_view :=
  match gs with
  | [] => [(k, [c])]
  | g :: r =>
      if bool_decide (g.1 = k) then (g.1, g.2 ++ [c]) :: r
      else g :: insertGroup k c r
  end.

(** "Iterate the input in order; for each individual compute its
    parent-pair key ..." *)
Definition groupSpec (kcs : list ((ptr * ptr) * ptr)) : list unit_view :=
  foldl (λ gs kc, insertGroup kc.1 kc.2 gs) [] kcs.

(** The keys of a sequence in the order in which each is first met. *)
Definition firstSeen (ks : list (ptr * ptr)) : list (ptr * ptr) :=
  foldl (λ acc k, if bool_decide (k ∈ acc) then acc else acc ++ [k]) [] ks.

Definition view (units : pairs) : list unit_view :=
  map (λ u, (key u, FamilyPair.kids u)) units.

(** What a grouping of the keyed sequence [kcs] must look like: one unit
    per key, every key of the sequence present, and each unit holding, in
    order, the members filed under its key. *)
Definition groups_ok (kcs : list ((ptr * ptr) * ptr)) (gs : list unit_view) : Prop :=
  NoDup (map fst gs)
  ∧ (∀ kc, kc ∈ kcs → kc.1 ∈ map fst gs)
  ∧ ∀ g, g ∈ gs → g.2 = map snd (filter (λ kc, kc.1 = g.1) kcs) ∧ g.2 ≠ [].

(** *** Generation 0 *)

(** Whether the member at address [i] passes the test of the seeding loop. *)
Definition seeded (h : heap) (root i : nat) : bool :=
  match h !! i with
  | Some ch => included root i ch
  | None => false
  end.

(** The members that seed generation 0, in pool order. *)
Definition seedMembers (h : heap) (root : nat) : list ptr :=
  Some <$> filter (λ i, seeded h root i) (seq 0 (length h)).

(** "No individual references the root as a parent." *)
Definition noChildOfRoot (h : heap) (root : nat) : Prop :=
  ∀ i ch, h !! i = Some ch →
    FamilyMember.father ch ≠ Some root ∧ FamilyMember.mother ch ≠ Some root.

(** "The root itself has no recorded parents." *)
Definition rootUnparented (h : heap) (root : nat) : Prop :=
  ∃ rm, h !! root = Some rm
        ∧ FamilyMember.father rm = None ∧ FamilyMember.mother rm = None.

(** The registry that holds only the root Alice (scenario A). *)
Definition aliceOnly : list FamilyMember.t :=
  [ FamilyMember.new (lit "Alice") "F"%char true ].

(** *** Shape of the registry *)

Definition ptr_below (n : nat) (p : ptr) : Prop :=
  match p with
  | Some b => b < n
  | None => True
  end.

Definition ptr_between (lo hi : nat) (p : ptr) : Prop :=
  match p with
  | Some b => lo < b < hi
  | None => True
  end.

Definition gender_ok (m : FamilyMember.t) : Prop :=
  FamilyMember.gender m = "M"%char ∨ FamilyMember.gender m = "F"%char.

(** The member at address [a] of a pool of [n] members: its parents are in
    the pool, its first child and next sibling were created after it and
    lie below [bound], its gender is a letter M or F. *)
Definition member_ok (n bound a : nat) (m : FamilyMember.t) : Prop :=
  ptr_below n (FamilyMember.father m) ∧ ptr_below n (FamilyMember.mother m)
  ∧ ptr_between a bound (FamilyMember.firstChild m)
  ∧ ptr_between a bound (FamilyMember.nextSibling m)
  ∧ gender_ok m.

Definition ordered (bound : nat) (h : heap) : Prop :=
  ∀ a m, h !! a = Some m → member_ok (length h) bound a m.

Definition unparented (h : heap) (r : nat) : Prop :=
  ∃ rm, h !! r = Some rm
        ∧ FamilyMember.father rm = None ∧ FamilyMember.mother rm = None.

(** The registry between two menu choices, with [r] the root. *)
Definition inv (r : nat) (tr : FamilyTree.t) : Prop :=
  FamilyTree.root tr = Some r
  ∧ r < length (FamilyTree.memberPool tr)
  ∧ ordered (length (FamilyTree.memberPool tr)) (FamilyTree.memberPool tr)
  ∧ unparented (FamilyTree.memberPool tr) r.

(** The registry just after the member at address [a] has been created and
    before it is put on a child list. *)
Definition mid (r a : nat) (tr : FamilyTree.t) : Prop :=
  FamilyTree.root tr = Some r
  ∧ r < a
  ∧ length (FamilyTree.memberPool tr) = S a
  ∧ ordered a (FamilyTree.memberPool tr)
  ∧ unparented (FamilyTree.memberPool tr) r.

Definition tree_inv (tr : FamilyTree.t) : Prop :=
  match FamilyTree.root tr with
  | None => FamilyTree.memberPool tr = []
  | Some r => inv r tr
  end.

(** Every pointer of the registry points into it. *)
Definition heap_linked (h : heap) : Prop :=
  ∀ a m, h !! a = Some m →
    ptr_below (length h) (FamilyMember.father m)
    ∧ ptr_below (length h) (FamilyMember.mother m)
    ∧ ptr_below (length h) (FamilyMember.firstChild m)
    ∧ ptr_below (length h) (FamilyMember.nextSibling m).

(** The child-list links: [b] is the first child or the next sibling of [a]. *)
Definition link (h : heap) (a b : nat) : Prop :=
  ∃ m, h !! a = Some m
       ∧ (FamilyMember.firstChild m = Some b ∨ FamilyMember.nextSibling m = Some b).

(** No member is reached from itself along child-list links. *)
Definition acyclic (h : heap) : Prop := Irreflexive (tc (link h)).

(** The members on the sibling chain that starts at [c]. *)
Fixpoint chainFrom (fuel : nat) (h : heap) (c : ptr) : option (list nat) :=
  match c with
  | None => Some []
  | Some x =>
      match fuel with
      | 0 => None
      | S k =>
          m ← h !! x;
          l ← chainFrom k h (FamilyMember.nextSibling m);
          Some (x :: l)
      end
  end.

(** The child list of the member at address [a]. *)
Definition childrenOf (fuel : nat) (h : heap) (a : nat) : option (list nat) :=
  m ← h !! a; chainFrom fuel h (FamilyMember.firstChild m).

(** Two records of the same person: all fields but the child-list links
    agree. *)
Definition same_person (m m' : FamilyMember.t) : Prop :=
  FamilyMember.name m' = FamilyMember.name m
  ∧ FamilyMember.gender m' = FamilyMember.gender m
  ∧ FamilyMember.alive m' = FamilyMember.alive m
  ∧ FamilyMember.father m' = FamilyMember.father m
  ∧ FamilyMember.mother m' = FamilyMember.mother m.

(** The world after Alice has been created as the root (scenarios A and B),
    with [rest] still to be read. *)
Definition aliceWorld (rest : list Entry) : World :=
  {| tree := {| FamilyTree.root := Some 0; FamilyTree.memberPool := aliceOnly |};
     input := rest;
     output := [lit "Enter root ancestor full name: "; lit "Enter gender (M/F): ";
                lit "Is ancestor alive? (y/n) [y]: "; lit "Root '"; lit "Alice";
                lit "' created." ++ nl] |}.

(** The entries that add Bob without parents (scenario B). *)
Definition bobInput : list Entry :=
  [Line (lit "Bob"); Key "M"%char; Key "y"%char; Key "n"%char].

(** *** Answers at the prompts *)

Definition isYes (c : ascii) : bool :=
  bool_decide (c = "y"%char) || bool_decide (c = "Y"%char).

Definition isYesNo (c : ascii) : bool :=
  isYes c || bool_decide (c = "n"%char) || bool_decide (c = "N"%char).

(** The entries given at a prompt that waits for one of the characters
    [ok]: any number of entries of one other character, then the answer
    [k]. *)
Definition answers (ok : ascii → bool) (es : list Entry) (k : ascii) : Prop :=
  ∃ bad, es = map Key bad ++ [Key k] ∧ Forall (λ c, ok c = false) bad ∧ ok k = true.

(** The entries at the prompt for a parent's name that name nobody: a
    blank line, or a name that is not in the pool followed by a refusal to
    create that parent. *)
Inductive namesNobody (tr : FamilyTree.t) : list Entry → Prop :=
  | blank_name s :
      length s < 64 → emptyName s = true → namesNobody tr [Line s]
  | declined_name s es k :
      length s < 64 → emptyName s = false → findByName tr s = None →
      answers isYesNo es k → isYes k = false →
      namesNobody tr (Line s :: es).

(** The entries after the alive question with which no parent is
    specified: a refusal to specify parents, or the agreement to do so
    followed by entries that name no father and no mother. *)
Inductive specifiesNoParent (tr : FamilyTree.t) : list Entry → Prop :=
  | not_specified es k :
      answers isYesNo es k → isYes k = false → specifiesNoParent tr es
  | nobody_named es k ef em :
      answers isYesNo es k → isYes k = true →
      namesNobody tr ef → namesNobody tr em →
      specifiesNoParent tr (es ++ ef ++ em).

(** *** The generation walk *)

(** No chain of child-list links from [x] is longer than [n]. *)
Definition bounded (h : heap) (n x : nat) : Prop :=
  ∀ k y, nsteps (link h) k x y → k ≤ n.

(** How many times the member at address [c] is entered as a child of a
    unit in the course of a walk. *)
Definition visits (gens : list (pairs * text)) (c : nat) : nat :=
  length (filter (λ k, k = Some c) (gens ≫= λ g, g.1 ≫= FamilyPair.kids)).

(** A root R, its son A and A's son B. *)
Definition threeGenerations : list FamilyMember.t :=
  [ {| FamilyMember.name := lit "R"; FamilyMember.gender := "F"%char;
       FamilyMember.alive := true; FamilyMember.father := None;
       FamilyMember.mother := None; FamilyMember.firstChild := Some 1;
       FamilyMember.nextSibling := None |};
    {| FamilyMember.name := lit "A"; FamilyMember.gender := "M"%char;
       FamilyMember.alive := true; FamilyMember.father := None;
       FamilyMember.mother := Some 0; FamilyMember.firstChild := Some 2;
       FamilyMember.nextSibling := None |};
    {| FamilyMember.name := lit "B"; FamilyMember.gender := "M"%char;
       FamilyMember.alive := true; FamilyMember.father := Some 1;
       FamilyMember.mother := None; FamilyMember.firstChild := None;
       FamilyMember.nextSibling := None |} ].

Definition threeGenerationsInput : list Entry :=
  [ Line (lit "R"); Key "F"%char; Key "y"%char;
    Line (lit "A"); Key "M"%char; Key "y"%char; Key "y"%char;
    Line []; Line (lit "R"); Key "n"%char;
    Line (lit "B"); Key "M"%char; Key "y"%char; Key "y"%char;
    Line (lit "A"); Line []; Key "n"%char ].

(** The entries that build R, her son A and A's children B and C. *)
Definition fourMembersInput : list Entry :=
  threeGenerationsInput
  ++ [ Line (lit "C"); Key "F"%char; Key "y"%char; Key "y"%char;
       Line (lit "A"); Line []; Key "n"%char ].

(** The pointers of [l] not yet in [acc], added to it in order. *)
Definition addDistinct (acc l : list ptr) : list ptr :=
  foldl (λ acc c, if bool_decide (c ∈ acc) then acc else acc ++ [c]) acc l.

(** A pair of a generation over the registry [h]: its array is well formed,
    its parents and children are in the registry, and no chain of links from
    a child is longer than [n]. *)
Definition pair_ok (h : heap) (n : nat) (p : FamilyPair.t) : Prop :=
  FamilyPair.wf p
  ∧ ptr_below (length h) (FamilyPair.father p)
  ∧ ptr_below (length h) (FamilyPair.mother p)
  ∧ Forall (λ c, ∃ a, c = Some a ∧ a < length h ∧ bounded h n a) (FamilyPair.kids p).

(** [tr'] still holds every member of [tr], under the same address and with
    the same name and gender. *)
Definition keeps (tr tr' : FamilyTree.t) : Prop :=
  ∀ a m, FamilyTree.memberPool tr !! a = Some m →
    ∃ m', FamilyTree.memberPool tr' !! a = Some m'
          ∧ FamilyMember.name m' = FamilyMember.name m
          ∧ FamilyMember.gender m' = FamilyMember.gender m.

(** A command that only ever leaves the registry in a state that [keeps]
    the one it started from. *)
Definition keeping {A} (c : Cmd A) : Prop :=
  ∀ w a w', c w = Some (a, w') → keeps (tree w) (tree w').

(** The units of every generation of a walk, and the text printed for them. *)
Definition shownUnits (gens : list (pairs * text)) : list (list unit_view) :=
  map (λ g, view g.1) gens.

Definition shownText (gens : list (pairs * text)) : String.string :=
  String.string_of_list_ascii (concat (map snd gens)).

(** *** Widths of the printed rows *)

(** The display widths [widths[i]] of the units of a generation. *)
Definition widthsOf (ls : list (text * text)) : list Z :=
  map (λ l, unitWidth l.1 l.2) ls.

(** [totalLineWidth]:
    [[
      for (i = 0; i < count; ++i) totalLineWidth += widths[i];
      totalLineWidth += (count - 1) * HSPACE;
    ]] *)
Definition totalLineWidth (widths : list Z) : Z :=
  (foldl Z.add 0 widths + (Z.of_nat (length widths) - 1) * Z.of_nat HSPACE)%Z.

(** *** Columns of a row *)

(** The column at which the block of unit [i] starts in a row: the widths
    of the units before it and [HSPACE] columns after each of them. *)
Fixpoint blockStart (ws : list Z) (i : nat) : Z :=
  match i, ws with
  | S k, w :: r => (w + Z.of_nat HSPACE + blockStart r k)%Z
  | _, _ => 0%Z
  end.

(** The [n] characters of [s] from column [i] on. *)
Definition columns (i n : Z) (s : text) : text :=
  take (Z.to_nat n) (drop (Z.to_nat i) s).

(** *** What an operation changes *)

(** [tr'] still holds every member of [tr] under the same address, and as
    the same person. *)
Definition frames (tr tr' : FamilyTree.t) : Prop :=
  ∀ a m, FamilyTree.memberPool tr !! a = Some m →
    ∃ m', FamilyTree.memberPool tr' !! a = Some m' ∧ same_person m m'.

(** [tr'] is [tr] with the same root, at most [k] members more, and the
    members of [tr] kept. *)
Definition grown (k : nat) (tr tr' : FamilyTree.t) : Prop :=
  FamilyTree.root tr' = FamilyTree.root tr
  ∧ length (FamilyTree.memberPool tr) ≤ length (FamilyTree.memberPool tr')
    ≤ length (FamilyTree.memberPool tr) + k
  ∧ frames tr tr'.

(** [tr'] is [tr] with one member more, called [name], who has no recorded
    parents and is the last of the pool and of the child list of the root
    [r]; every other child list and every other member's data are as in
    [tr], and grouping files the new member under the key without father
    and mother. *)
Definition addedUnderRoot (fuel r : nat) (name : text) (tr tr' : FamilyTree.t) : Prop :=
  let pool := FamilyTree.memberPool tr in
  let pool' := FamilyTree.memberPool tr' in
  let n := length pool in
  FamilyTree.root tr' = Some r
  ∧ length pool' = S n
  ∧ (∃ nm, pool' !! n = Some nm
           ∧ FamilyMember.name nm = FamilyMember.copyName name
           ∧ FamilyMember.father nm = None ∧ FamilyMember.mother nm = None)
  ∧ (∃ kids, childrenOf fuel pool r = Some kids
             ∧ childrenOf (S fuel) pool' r = Some (kids ++ [n]))
  ∧ (∀ q k l, q ≠ r → childrenOf k pool q = Some l → childrenOf k pool' q = Some l)
  ∧ memberKey pool' (Some n) = Some (None, None)
  ∧ (∃ units, buildFamilyPairsForMembers pool' [Some n] = Some units
              ∧ view units = [((None, None), [Some n])])
  ∧ frames tr tr'.

(** The entries with which Bob is added after a blank father's name and an
    unknown mother's name whose creation is declined at the second try. *)
Definition bobNobodyInput : list Entry :=
  [ Line (lit "Bob"); Key "?"%char; Key "m"%char; Key "y"%char; Key "y"%char;
    Line []; Line (lit "Eve"); Key "x"%char; Key "n"%char ].

(** *** The child lists as a tree *)

(** The member at [a] is on the child list of the member at [p]. *)
Definition child (h : heap) (p a : nat) : Prop :=
  ∃ fuel l, childrenOf fuel h p = Some l ∧ a ∈ l.

(** Every member below [bnd], the root apart, is on a child list. *)
Definition attached_below (r bnd : nat) (h : heap) : Prop :=
  ∀ a, a < bnd → a ≠ r → ∃ p, child h p a.

(** The registry between two menu choices, with every member but the root
    on a child list. *)
Definition conn (r : nat) (tr : FamilyTree.t) : Prop :=
  inv r tr
  ∧ attached_below r (length (FamilyTree.memberPool tr)) (FamilyTree.memberPool tr).

(** The registry just after the member at address [a] has been created:
    the members before it are on child lists, [a] not yet. *)
Definition conn_mid (r a : nat) (tr : FamilyTree.t) : Prop :=
  mid r a tr ∧ attached_below r a (FamilyTree.memberPool tr).

Definition tree_conn (tr : FamilyTree.t) : Prop :=
  match FamilyTree.root tr with
  | None => FamilyTree.memberPool tr = []
  | Some r => conn r tr
  end.

(** The member at [a] is among the children of a unit of some generation of
    a walk. *)
Definition placed (gens : list (pairs * text)) (a : nat) : Prop :=
  ∃ g, g ∈ gens ∧ Some a ∈ g.1 ≫= FamilyPair.kids.

(** A list of addresses in the order of creation of its members. *)
Definition increasing (l : list nat) : Prop :=
  ∀ i j x y, l !! i = Some x → l !! j = Some y → i < j → x < y.

(** *** The characters behind the entries *)





(** ** class Menu *)
Module Menu.

Local Open Scope cmd_scope.

(** The value of a decimal digit. *)
Definition digitOf (c : ascii) : option Z :=
  let n := nat_of_ascii c in
  if bool_decide (48 ≤ n ≤ 57) then Some (Z.of_nat n - 48)%Z else None.

(** The digits at the head of [s], accumulated onto [acc], and the
    characters that follow them. *)
Fixpoint digits (acc : Z) (s : text) : Z * text :=
  match s with
  | c :: r =>
      match digitOf c with
      | Some d => digits (10 * acc + d) r
      | None => (acc, s)
      end
  | [] => (acc, [])
  end.

Fixpoint skipSpace (s : text) : text :=
  match s with
  | c :: r => if isSpace c then skipSpace r else s
  | [] => []
  end.

Definition INT_MIN : Z := (- 2 ^ 31)%Z.
Definition INT_MAX : Z := (2 ^ 31 - 1)%Z.

(** What the extraction [cin >> c] of an [int c] makes of an entry:
    - [Blank]: the entry is white space only, which the extraction skips,
      newline included, before it reads on;
    - [NoNumber]: after the white space there is no optional sign followed
      by a digit, or the digits give a value outside [int]: the extraction
      fails;
    - [Value n]: the entry is the decimal numeral of [n] and nothing more;
    - [Trailing]: a numeral is followed by more characters, which stay in
      the stream for the next read. *)
Inductive Scan :=
  | Blank
  | NoNumber
  | Value (n : Z)
  | Trailing.

#[global] Instance Scan_eq_dec : EqDecision Scan.
Proof. solve_decision. Defined.

Definition scan (s : text) : Scan :=
  match skipSpace s with
  | [] => Blank
  | c :: r =>
      let neg := bool_decide (c = "-"%char) in
      let body := if neg || bool_decide (c = "+"%char) then r else c :: r in
      match body with
      | [] => NoNumber
      | d :: _ =>
          match digitOf d with
          | None => NoNumber
          | Some _ =>
              let vr := digits 0 body in
              let n := if neg then (- vr.1)%Z else vr.1 in
              if bool_decide (INT_MIN ≤ n ≤ INT_MAX)%Z then
                match vr.2 with
                | [] => Value n
                | _ => Trailing
                end
              else NoNumber
          end
      end
  end.

(** The loop of [readChoice] over the entries still to be read:
    [[
      while (!(cin >> c)) {
        cout << "Invalid number, enter again: ";
        cin.clear(); cin.ignore(1000, '\n');
      }
    ]]
    A failed extraction drops the rest of the entry with [ignore], which
    the model follows for entries of at most 1000 characters.  A number
    with characters after it is not followed: they would be read by the
    next prompt. *)
Fixpoint readChoice_loop (inp : list Entry) (out : list text)
  : option (Z * list Entry * list text) :=
  match inp with
  | e :: rest =>
      match scan (typed e) with
      | Blank => readChoice_loop rest out
      | NoNumber =>
          if bool_decide (length (typed e) ≤ 1000) then
            readChoice_loop rest (out ++ [lit "Invalid number, enter again: "])
          else None
      | Value n => Some (n, rest, out)
      | Trailing => None
      end
  | [] => None
  end.

Definition readChoice : Cmd Z :=
  λ w, match readChoice_loop (input w) (output w) with
       | Some (n, inp, out) => Some (n, {| tree := tree w; input := inp; output := out |})
       | None => None
       end.

Definition menuText : text :=
  nl ++ lit "1. Create Root Ancestor" ++ nl ++ lit "2. Add Member" ++ nl
  ++ lit "3. Mark Member as Late" ++ nl ++ lit "4. Show Centered Tree" ++ nl
  ++ lit "5. List All Members" ++ nl ++ lit "0. Exit" ++ nl ++ lit "Enter choice: ".

(** The loop [while (true)] of [run], for at most [turns] turns; [fuel]
    bounds the pointer loops of the operations. *)
Fixpoint run_loop (turns fuel : nat) : Cmd unit :=
  match turns with
  | 0 => λ _, None
  | S t =>
      say menuText;;
      ch <- readChoice;;
      if bool_decide (ch = 0%Z) then say (lit "Exiting..." ++ nl)
      else
        (if bool_decide (ch = 1%Z) then createRootInteractive;; ret tt
         else if bool_decide (ch = 2%Z) then addMemberInteractive fuel
         else if bool_decide (ch = 3%Z) then markLateInteractive
         else if bool_decide (ch = 4%Z) then showCenteredTree fuel
         else if bool_decide (ch = 5%Z) then showAllNames
         else say (lit "Invalid choice." ++ nl));;
        run_loop t fuel
  end.

Definition run (turns fuel : nat) : Cmd unit :=
  say (lit "===== CENTERED FAMILY TREE SYSTEM =====" ++ nl);;
  run_loop turns fuel.

Local Close Scope cmd_scope.

End Menu.

(** [main]: a [Menu] with an empty tree is run on the entries of [cin]. *)
Definition main (turns fuel : nat) (inp : list Entry) : option World :=
  snd <$> Menu.run turns fuel (freshWorld inp).

(** The operation behind a choice of the menu. *)
Definition opOf (ch : Z) : option Op :=
  if bool_decide (ch = 1%Z) then Some CreateRoot
  else if bool_decide (ch = 2%Z) then Some AddMember
  else if bool_decide (ch = 3%Z) then Some MarkLate
  else if bool_decide (ch = 4%Z) then Some ShowTree
  else if bool_decide (ch = 5%Z) then Some ListMembers
  else None.

(** *** Each member on one child list *)

(** The two link fields of a member. *)
Inductive Link := FirstChild | NextSibling.

Definition linkOf (k : Link) (m : FamilyMember.t) : ptr :=
  match k with
  | FirstChild => FamilyMember.firstChild m
  | NextSibling => FamilyMember.nextSibling m
  end.

(** No member is the target of two child-list links. *)
Definition single_linked (h : heap) : Prop :=
  ∀ a b ma mb ka kb c,
    h !! a = Some ma → h !! b = Some mb →
    linkOf ka ma = Some c → linkOf kb mb = Some c → a = b ∧ ka = kb.

(** The registry between two menu choices, and just after the member at
    address [a] has been created, with no member linked twice. *)
Definition uni (r : nat) (tr : FamilyTree.t) : Prop :=
  inv r tr ∧ single_linked (FamilyTree.memberPool tr).

Definition uni_mid (r a : nat) (tr : FamilyTree.t) : Prop :=
  mid r a tr ∧ single_linked (FamilyTree.memberPool tr).

Definition tree_uni (tr : FamilyTree.t) : Prop :=
  match FamilyTree.root tr with
  | None => FamilyTree.memberPool tr = []
  | Some r => uni r tr
  end.

(** * Properties *)

(** ** C strings and the copy loops *)

Lemma is_nul_true c : is_nul c = true ↔ c = NUL.
Proof. unfold is_nul. by rewrite bool_decide_eq_true. Qed.

Lemma is_nul_false c : is_nul c = false ↔ c ≠ NUL.
Proof. unfold is_nul. by rewrite bool_decide_eq_false. Qed.

Lemma c_str_no_nul s : Forall (λ c, c ≠ NUL) (c_str s).
Proof.
  induction s as [|c r IH]; simpl; [constructor|].
  destruct (is_nul c) eqn:E; [constructor|].
  constructor; [by apply is_nul_false|done].
Qed.

Lemma c_str_id s : Forall (λ c, c ≠ NUL) s → c_str s = s.
Proof.
  induction 1 as [|c r Hc _ IH]; simpl; [done|].
  apply is_nul_false in Hc. by rewrite Hc, IH.
Qed.

Lemma c_str_idem s : c_str (c_str s) = c_str s.
Proof. apply c_str_id, c_str_no_nul. Qed.

Lemma c_str_take n s : c_str (take n (c_str s)) = take n (c_str s).
Proof. apply c_str_id, Forall_take, c_str_no_nul. Qed.

Lemma c_str_app s1 s2 :
  Forall (λ c, c ≠ NUL) s1 → c_str (s1 ++ s2) = s1 ++ c_str s2.
Proof.
  induction 1 as [|c r Hc _ IH]; simpl; [done|].
  apply is_nul_false in Hc. by rewrite Hc, IH.
Qed.

Lemma truncName_from_take n s : truncName_from n s = take n (c_str s).
Proof.
  revert s. induction n as [|n IH]; intros [|c r]; simpl; try done.
  destruct (is_nul c); [done|]. by rewrite IH.
Qed.

Lemma truncName_first15 s : truncName s = first15 s.
Proof. apply truncName_from_take. Qed.

Lemma copyName_take s : FamilyMember.copyName s = take 63 (c_str s).
Proof.
  unfold FamilyMember.copyName. generalize 63.
  intros n. revert s. induction n as [|n IH]; intros [|c r]; simpl; try done.
  destruct (is_nul c); [done|]. by rewrite IH.
Qed.

Lemma copyRoom_take n s : copyRoom n s = take n (c_str s).
Proof.
  revert s. induction n as [|n IH]; intros [|c r]; simpl; try done.
  destruct (is_nul c); [done|]. by rewrite IH.
Qed.

Lemma copyChars_take l n s : copyChars l n s = take n (take l (c_str s)).
Proof.
  revert n s. induction l as [|l IH]; intros [|n] [|c r]; simpl; try done.
  destruct (is_nul c); [done|]. by rewrite IH.
Qed.

Lemma formatName_take s outSize :
  formatName s outSize = take (Z.to_nat (outSize - 1)) (first15 s).
Proof.
  unfold formatName, first15. generalize (Z.to_nat (outSize - 1)) MAX_NAME.
  intros n l. revert n s. induction l as [|l IH]; intros [|n] [|c r]; simpl; try done.
  destruct (is_nul c); [done|]. by rewrite IH.
Qed.

Lemma first15_length s : length (first15 s) ≤ 15.
Proof. unfold first15, MAX_NAME. rewrite length_take. lia. Qed.

Lemma first15_no_nul s : Forall (λ c, c ≠ NUL) (first15 s).
Proof. apply Forall_take, c_str_no_nul. Qed.

Lemma first15_long s :
  15 < length (c_str s) → first15 s = take 15 (c_str s) ∧ length (first15 s) = 15.
Proof. intros H. unfold first15, MAX_NAME. rewrite length_take. split; [done|lia]. Qed.

Lemma first15_short s : length (c_str s) ≤ 15 → first15 s = c_str s.
Proof. intros H. unfold first15, MAX_NAME. by apply take_ge. Qed.

(** Writing under the guard [p < outSize - 1] keeps the first
    [outSize - 1] characters of what an unbounded buffer would hold. *)
Lemma take_fill (R : nat) (x y : text) :
  take R x ++ take (R - length (take R x)) y = take R (x ++ y).
Proof.
  rewrite take_app, length_take.
  destruct (decide (length x ≤ R)) as [Hle|Hgt].
  - rewrite (take_ge x) by done. by replace (R - R `min` length x) with (R - length x) by lia.
  - replace (R - R `min` length x) with 0 by lia.
    replace (R - length x) with 0 by lia. done.
Qed.

Lemma room_spec outSize out :
  room outSize out = Z.to_nat (outSize - 1) - length out.
Proof. unfold room. lia. Qed.

Lemma putBlock_char outSize c out :
  putBlock outSize [c] out = out ++ take (Z.to_nat (outSize - 1) - length out) [c].
Proof.
  unfold putBlock. case_bool_decide as H.
  - replace (Z.to_nat (outSize - 1) - length out) with (S (Z.to_nat (outSize - 1) - length out - 1)) by lia.
    simpl. by rewrite take_nil.
  - replace (Z.to_nat (outSize - 1) - length out) with 0 by lia.
    simpl. by rewrite app_nil_r.
Qed.

Lemma space_not_nul : " "%char ≠ NUL.
Proof. done. Qed.

Lemma joinNames_no_nul ns :
  Forall (λ n, Forall (λ c, c ≠ NUL) n) ns → Forall (λ c, c ≠ NUL) (joinNames ns).
Proof.
  induction 1 as [|n r Hn Hr IH]; [constructor|].
  destruct r as [|n2 r]; [done|].
  change (joinNames (n :: n2 :: r)) with (n ++ " "%char :: joinNames (n2 :: r)).
  apply Forall_app. split; [done|]. constructor; [done|apply IH].
Qed.

Lemma joinNames_first15_no_nul names :
  Forall (λ c, c ≠ NUL) (joinNames (map first15 names)).
Proof.
  apply joinNames_no_nul, Forall_map, Forall_forall. intros n _. apply first15_no_nul.
Qed.

Lemma namesOf_cons h c rest names :
  namesOf h (c :: rest) = Some names →
  ∃ a m names', c = Some a ∧ h !! a = Some m ∧ namesOf h rest = Some names'
                ∧ names = FamilyMember.name m :: names'.
Proof.
  unfold namesOf. simpl. intros H.
  destruct c as [a|]; simpl in H; [|done].
  destruct (h !! a) as [m|] eqn:Hm; simpl in H; [|done].
  destruct (mapM _ rest) as [names'|] eqn:Hr; simpl in H; [|done].
  injection H as <-. eauto 10.
Qed.

Lemma childrenLine_from_cons h outSize a m rest out :
  h !! a = Some m →
  childrenLine_from h outSize (Some a :: rest) out
  = childrenLine_from h outSize rest
      (let o1 := out ++ copyChars MAX_NAME (room outSize out) (FamilyMember.name m) in
       match rest with [] => o1 | _ => putBlock outSize [" "%char] o1 end).
Proof. intros H. cbn -[copyChars putBlock room]. by rewrite H. Qed.

Lemma childrenLine_from_spec h outSize cs names pre :
  namesOf h cs = Some names →
  childrenLine_from h outSize cs (take (Z.to_nat (outSize - 1)) pre)
  = Some (take (Z.to_nat (outSize - 1)) (pre ++ joinNames (map first15 names))).
Proof.
  set (R := Z.to_nat (outSize - 1)).
  revert names pre. induction cs as [|c rest IH]; intros names pre Hn.
  - injection Hn as <-. simpl. by rewrite app_nil_r.
  - apply namesOf_cons in Hn as (a & m & names' & -> & Hm & Hr & ->).
    rewrite (childrenLine_from_cons _ _ _ _ _ _ Hm). cbv zeta.
    rewrite copyChars_take, room_spec. fold R.
    change (take MAX_NAME (c_str (FamilyMember.name m))) with (first15 (FamilyMember.name m)).
    rewrite take_fill.
    destruct rest as [|c2 rest].
    + injection Hr as <-. done.
    + rewrite putBlock_char. fold R. rewrite take_fill.
      rewrite (IH names' _ Hr).
      apply namesOf_cons in Hr as (a2 & m2 & names2 & _ & _ & _ & ->).
      simpl. by rewrite <- !app_assoc.
Qed.

(** ** FamilyPair: the array of children *)

Lemma wf_new f m : FamilyPair.wf (FamilyPair.new f m).
Proof. split; simpl; lia. Qed.

Lemma kids_new f m : FamilyPair.kids (FamilyPair.new f m) = [].
Proof. done. Qed.

Lemma ensureCap_spec p :
  FamilyPair.wf p →
  let q := FamilyPair.ensureCap p in
  FamilyPair.wf q ∧ FamilyPair.childCount q < FamilyPair.childCap q
  ∧ FamilyPair.childCount q = FamilyPair.childCount p
  ∧ FamilyPair.kids q = FamilyPair.kids p
  ∧ FamilyPair.father q = FamilyPair.father p
  ∧ FamilyPair.mother q = FamilyPair.mother p.
Proof.
  intros [Hlen Hle]. unfold FamilyPair.ensureCap, FamilyPair.wf, FamilyPair.kids.
  repeat case_bool_decide; simpl.
  - replace (FamilyPair.childCount p) with 0 by lia. repeat split; lia.
  - rewrite length_app, length_take, length_replicate.
    rewrite take_app_le by (rewrite length_take; lia).
    rewrite take_take. repeat split; try lia. f_equal; lia.
  - repeat split; lia.
Qed.

Lemma addChild_None p : FamilyPair.addChild None p = p.
Proof. done. Qed.

Lemma addChild_spec c p :
  FamilyPair.wf p →
  let q := FamilyPair.addChild (Some c) p in
  FamilyPair.wf q
  ∧ FamilyPair.kids q = FamilyPair.kids p ++ [Some c]
  ∧ FamilyPair.childCount q = S (FamilyPair.childCount p)
  ∧ FamilyPair.father q = FamilyPair.father p
  ∧ FamilyPair.mother q = FamilyPair.mother p.
Proof.
  intros Hwf. destruct (ensureCap_spec p Hwf) as ([Hlen Hle] & Hlt & Hc & Hk & Hf & Hm).
  unfold FamilyPair.addChild, FamilyPair.wf, FamilyPair.kids in *. simpl.
  rewrite length_insert. repeat split; try lia; try done.
  rewrite <- Hk. erewrite take_S_r; [|apply list_lookup_insert_eq; lia].
  by rewrite take_insert_ge by lia.
Qed.

Lemma cells_wf p : FamilyPair.wf p → cells p = Some (FamilyPair.kids p).
Proof.
  intros [Hlen Hle]. unfold cells, FamilyPair.kids. apply mapM_Some_2.
  apply Forall2_same_length_lookup. split.
  - rewrite length_seq, length_take. lia.
  - intros i x y Hx Hy. apply lookup_seq in Hx as [-> _].
    by apply lookup_take_Some in Hy as [? _].
Qed.

Lemma kids_length p : FamilyPair.wf p → length (FamilyPair.kids p) = FamilyPair.childCount p.
Proof. intros [Hlen Hle]. unfold FamilyPair.kids. rewrite length_take. lia. Qed.

Lemma getChild_in_range p i :
  FamilyPair.wf p → (0 ≤ i < Z.of_nat (FamilyPair.childCount p))%Z →
  FamilyPair.getChild p i = FamilyPair.kids p !! Z.to_nat i ∧
  is_Some (FamilyPair.kids p !! Z.to_nat i).
Proof.
  intros [Hlen Hle] Hi. unfold FamilyPair.getChild, FamilyPair.kids.
  rewrite !bool_decide_eq_true_2 by lia. simpl.
  rewrite lookup_take_lt by lia.
  destruct (lookup_lt_is_Some_2 (FamilyPair.children p) (Z.to_nat i)) as [x Hx]; [lia|].
  rewrite Hx. eauto.
Qed.

(** ** The parent line in the 256-byte buffer of the renderer *)

Lemma copyRoom_fits rm s :
  length (first15 s) ≤ rm → copyRoom rm (truncName s) = first15 s.
Proof.
  intros H. rewrite copyRoom_take, truncName_first15.
  unfold first15. rewrite c_str_take. by apply take_ge.
Qed.

Lemma putBlock_fits outSize blk out :
  (Z.of_nat (length out) < outSize - 1)%Z → putBlock outSize blk out = out ++ blk.
Proof. intros H. unfold putBlock. by rewrite bool_decide_eq_true_2. Qed.

Lemma parentLine_256 h p fn mn fg mg :
  nameOf h (FamilyPair.father p) = Some fn →
  nameOf h (FamilyPair.mother p) = Some mn →
  genderOf h "M"%char (FamilyPair.father p) = Some fg →
  genderOf h "F"%char (FamilyPair.mother p) = Some mg →
  parentLine h p 256
  = Some (c_str (first15 fn ++ [" "; "("; fg; ")"; " "; "-"; " "]%char
                 ++ first15 mn ++ [" "; "("; mg; ")"]%char)).
Proof.
  intros Hfn Hmn Hfg Hmg. unfold parentLine.
  rewrite Hfn, Hmn, Hfg, Hmg. cbn [mbind option_bind].
  pose proof (first15_length fn) as Lf. pose proof (first15_length mn) as Lm.
  rewrite (copyRoom_fits _ fn) by (rewrite room_spec; simpl length; lia).
  rewrite (putBlock_fits 256 _ (first15 fn)) by lia.
  rewrite (putBlock_fits 256 [" "; "-"; " "]%char)
    by (rewrite length_app; simpl length; lia).
  rewrite (copyRoom_fits _ mn) by (rewrite room_spec, !length_app; simpl length; lia).
  rewrite putBlock_fits by (rewrite !length_app; simpl length; lia).
  rewrite (bool_decide_eq_true_2 (Z.of_nat (length (first15 fn)) < 256)%Z) by lia.
  rewrite (bool_decide_eq_true_2 (Z.of_nat (length (_ ++ first15 mn)) < 256)%Z)
    by (rewrite !length_app; simpl length; lia).
  set (o5 := ((((first15 fn ++ _) ++ _) ++ _) ++ _)).
  assert (length o5 ≤ 41) as Ho by (unfold o5; rewrite !length_app; simpl length; lia).
  rewrite !bool_decide_eq_true_2 by lia. simpl andb. cbv iota.
  rewrite take_ge by lia. unfold o5. by rewrite <- !app_assoc.
Qed.

Lemma centered_length w s :
  (strlen s ≤ w)%Z → strlen (centered w s) = w ∧ padLeft w s = ((w - strlen s) / 2)%Z.
Proof.
  intros H. unfold centered, padLeft, spaces, strlen in *.
  rewrite Z.quot_div_nonneg by lia.
  rewrite !length_app, !length_replicate.
  assert (0 ≤ (w - Z.of_nat (length s)) / 2 ≤ w - Z.of_nat (length s))%Z.
  { split; [apply Z.div_pos; lia|]. apply Z.div_le_upper_bound; lia. }
  split; lia.
Qed.

Lemma unitWidth_max pl cl :
  unitWidth pl cl = Z.max (Z.max (strlen pl) (strlen cl)) 6.
Proof. unfold unitWidth. repeat case_bool_decide; lia. Qed.

Lemma carolDave_run :
  tree <$> runOps 4 [CreateRoot; AddMember] (freshWorld carolDaveInput)
  = Some {| FamilyTree.root := Some 0; FamilyTree.memberPool := carolDave |}.
Proof. reflexivity. Qed.

Lemma childrenLine_spec h p outSize cs names :
  (1 ≤ outSize)%Z →
  cells p = Some cs →
  namesOf h cs = Some names →
  childrenLine h p outSize
  = Some (take (Z.to_nat (outSize - 1)) (joinNames (map first15 names))).
Proof.
  intros Ho Hc Hn. unfold childrenLine. rewrite Hc. cbn [mbind option_bind].
  pose proof (childrenLine_from_spec h outSize cs names [] Hn) as H.
  rewrite take_nil in H. rewrite H. cbn [mbind option_bind app].
  rewrite bool_decide_eq_true_2 by done.
  f_equal. apply c_str_id, Forall_take, joinNames_first15_no_nul.
Qed.

(** C6 (amended). In the parent line every name appears as its first 15
    characters: a name longer than 15 characters yields exactly 15, a
    shorter one is unchanged, and nothing marks the cut.  The children line
    is the first 255 characters of the truncated names joined by single
    spaces, so the same holds there whenever that text fits the 255
    characters of the line buffer. *)
Theorem C6_truncation h p fn mn fg mg cs names :
  nameOf h (FamilyPair.father p) = Some fn →
  nameOf h (FamilyPair.mother p) = Some mn →
  genderOf h "M"%char (FamilyPair.father p) = Some fg →
  genderOf h "F"%char (FamilyPair.mother p) = Some mg →
  fg ≠ NUL → mg ≠ NUL →
  cells p = Some cs →
  namesOf h cs = Some names →
  parentLine h p 256
  = Some (truncName fn ++ [" "; "("; fg; ")"; " "; "-"; " "]%char
          ++ truncName mn ++ [" "; "("; mg; ")"]%char)
  ∧ childrenLine h p 256 = Some (take 255 (joinNames (map truncName names)))
  ∧ (length (joinNames (map truncName names)) ≤ 255 →
     childrenLine h p 256 = Some (joinNames (map truncName names)))
  ∧ (∀ n : text,
       truncName n = take 15 (c_str n)
       ∧ (15 < length (c_str n) → length (truncName n) = 15)
       ∧ (length (c_str n) ≤ 15 → truncName n = c_str n)
       ∧ formatName n 256 = truncName n).
Proof.
  intros Hfn Hmn Hfg Hmg Nf Nm Hc Hn.
  assert (map truncName names = map first15 names) as ->.
  { apply map_ext. intros. apply truncName_first15. }
  rewrite !truncName_first15.
  assert (childrenLine h p 256 = Some (take 255 (joinNames (map first15 names)))) as Hcl.
  { by rewrite (childrenLine_spec h p 256 cs names). }
  split; [|split; [done|split]].
  - rewrite (parentLine_256 h p fn mn fg mg) by done. f_equal.
    apply c_str_id. rewrite !Forall_app. split; [apply first15_no_nul|].
    split; [by repeat constructor|]. split; [apply first15_no_nul|by repeat constructor].
  - intros Hfit. rewrite Hcl. f_equal. by apply take_ge.
  - intros n. rewrite truncName_first15. split; [done|]. split; [|split].
    + intros H. by apply first15_long.
    + apply first15_short.
    + rewrite formatName_take. apply take_ge. pose proof (first15_length n). simpl. lia.
Qed.

Lemma C6_truncation_witness :
  parentLine carolDave davePair 256 = Some (lit "Carol (F) - Unknown (F)")
  ∧ childrenLine carolDave davePair 256 = Some (lit "Dave").
Proof.
  destruct (C6_truncation carolDave davePair (lit "Carol") (lit "Unknown")
              "F"%char "F"%char [Some 1] [lit "Dave"]) as (Hp & _ & Hc & _);
    [reflexivity|reflexivity|reflexivity|reflexivity|done|done|reflexivity|reflexivity|].
  split; [exact Hp|]. apply Hc. vm_compute. lia.
Defined.

(** C6 as stated fails in the children line: with seventeen children whose
    names have more than 15 characters, the line stops after 255 characters
    and the last name is not rendered by its first 15 characters. *)
Lemma C6_children_line_cut :
  ∃ w gens p cs names,
    crowdWorld = Some w
    ∧ walk 20 (FamilyTree.memberPool (tree w))
        (startGeneration (FamilyTree.memberPool (tree w)) 0) = Some gens
    ∧ fst <$> gens !! 1 = Some [p]
    ∧ cells p = Some cs
    ∧ namesOf (FamilyTree.memberPool (tree w)) cs = Some names
    ∧ length names = 17
    ∧ Forall (λ n, 15 < length (c_str n)) names
    ∧ childrenLine (FamilyTree.memberPool (tree w)) p 256
      ≠ Some (joinNames (map (λ n, take 15 (c_str n)) names)).
Proof.
  eexists _, _, _, _, _.
  split; [vm_compute; reflexivity|].
  split; [vm_compute; reflexivity|].
  split; [vm_compute; reflexivity|].
  split; [vm_compute; reflexivity|].
  split; [vm_compute; reflexivity|].
  split; [reflexivity|].
  split; [repeat constructor|].
  intros H. apply (f_equal (fmap (M:=option) length)) in H. vm_compute in H. discriminate.
Qed.

(** ** FamilyPair objects *)

Lemma foldl_addChild_spec cs p :
  FamilyPair.wf p →
  FamilyPair.wf (foldl (λ p c, FamilyPair.addChild c p) p cs)
  ∧ FamilyPair.kids (foldl (λ p c, FamilyPair.addChild c p) p cs)
    = FamilyPair.kids p ++ (Some <$> omap id cs)
  ∧ FamilyPair.father (foldl (λ p c, FamilyPair.addChild c p) p cs) = FamilyPair.father p
  ∧ FamilyPair.mother (foldl (λ p c, FamilyPair.addChild c p) p cs) = FamilyPair.mother p.
Proof.
  revert p. induction cs as [|c cs IH]; intros p Hwf; cbn [foldl].
  - simpl. by rewrite app_nil_r.
  - destruct c as [c|]; cbn [omap id fmap list_fmap].
    + destruct (addChild_spec c p Hwf) as (Hwf' & Hk & _ & Hf & Hm).
      destruct (IH _ Hwf') as (? & Hk' & Hf' & Hm').
      rewrite Hk', Hk, Hf', Hm', Hf, Hm, <- app_assoc. done.
    + by apply IH.
Qed.

Lemma builtPair_spec f m cs :
  FamilyPair.wf (builtPair f m cs)
  ∧ FamilyPair.kids (builtPair f m cs) = Some <$> omap id cs
  ∧ key (builtPair f m cs) = (f, m).
Proof.
  destruct (foldl_addChild_spec cs (FamilyPair.new f m) (wf_new f m)) as (? & ? & Hf & Hm).
  unfold key, builtPair. rewrite Hf, Hm. done.
Qed.

(** C10. [getChild(i)] of any pair object never reads outside the array:
    for [0 ≤ i < childCount] it returns the i-th child added, for every
    other [i] it returns [NULL]. *)
Theorem C10_getChild_total f m cs (i : Z) :
  let p := builtPair f m cs in
  let ks := omap id cs in
  FamilyPair.getChildCount p = length ks
  ∧ FamilyPair.getChild p i
    = Some (if bool_decide (0 ≤ i)%Z then ks !! Z.to_nat i else None)
  ∧ ((0 ≤ i < Z.of_nat (FamilyPair.getChildCount p))%Z →
     ∃ c, FamilyPair.getChild p i = Some (Some c) ∧ ks !! Z.to_nat i = Some c)
  ∧ ((i < 0 ∨ Z.of_nat (FamilyPair.getChildCount p) ≤ i)%Z →
     FamilyPair.getChild p i = Some None).
Proof.
  intros p ks. destruct (builtPair_spec f m cs) as (Hwf & Hk & _). fold p ks in Hwf, Hk.
  assert (FamilyPair.getChildCount p = length ks) as Hn.
  { unfold FamilyPair.getChildCount. rewrite <- (kids_length p Hwf), Hk.
    by rewrite length_fmap. }
  assert (∀ j, (0 ≤ j < Z.of_nat (length ks))%Z →
            FamilyPair.getChild p j = Some (ks !! Z.to_nat j)) as Hin.
  { intros j Hj. destruct (getChild_in_range p j Hwf) as [-> _].
    - unfold FamilyPair.getChildCount in Hn. lia.
    - rewrite Hk, list_lookup_fmap.
      destruct (lookup_lt_is_Some_2 ks (Z.to_nat j)) as [x ->]; [lia|done]. }
  assert (∀ j, (j < 0 ∨ Z.of_nat (length ks) ≤ j)%Z →
            FamilyPair.getChild p j = Some None) as Hout.
  { intros j Hj. unfold FamilyPair.getChild. unfold FamilyPair.getChildCount in Hn.
    rewrite Hn. destruct Hj.
    - by rewrite (bool_decide_eq_false_2 (0 ≤ j)%Z) by lia.
    - rewrite (bool_decide_eq_false_2 (j < _)%Z) by lia. by rewrite andb_false_r. }
  split; [done|]. rewrite Hn. split; [|split].
  - case_bool_decide as H0.
    + destruct (decide (i < Z.of_nat (length ks))%Z) as [Hlt|Hge].
      * apply Hin. lia.
      * rewrite Hout by lia. f_equal. symmetry. apply lookup_ge_None. lia.
    + apply Hout. lia.
  - intros Hi. rewrite (Hin i Hi).
    destruct (lookup_lt_is_Some_2 ks (Z.to_nat i)) as [x Hx]; [lia|].
    exists x. by rewrite Hx.
  - apply Hout.
Qed.

Lemma C10_getChild_total_witness :
  FamilyPair.getChild (builtPair (Some 0) None [Some 1; None; Some 2]) 1 = Some (Some 2)
  ∧ FamilyPair.getChild (builtPair (Some 0) None [Some 1; None; Some 2]) 2 = Some None
  ∧ FamilyPair.getChild (builtPair (Some 0) None [Some 1; None; Some 2]) (-1) = Some None.
Proof.
  split; [|split].
  - destruct (C10_getChild_total (Some 0) None [Some 1; None; Some 2] 1)
      as (_ & _ & H & _).
    destruct H as (c & Hc & Hk); [simpl; lia|].
    vm_compute in Hk. injection Hk as <-. exact Hc.
  - destruct (C10_getChild_total (Some 0) None [Some 1; None; Some 2] 2)
      as (_ & _ & _ & H).
    apply H. simpl. lia.
  - destruct (C10_getChild_total (Some 0) None [Some 1; None; Some 2] (-1))
      as (_ & _ & _ & H).
    apply H. lia.
Defined.

(** ** Grouping *)

Lemma filter_none {A} (P : A → Prop) `{!∀ x, Decision (P x)} (l : list A) :
(∀ x, x ∈ l → ¬ P x) → filter P l = [].
Proof.
induction l as [|x l IH]; intros Hl; [done|].
rewrite filter_cons_False by (apply Hl, list_elem_of_here).
apply IH. intros y Hy. apply Hl. by apply list_elem_of_further.
Qed.

Section groups.
Implicit Types (k : option nat * option nat) (c : option nat).
Implicit Types (gs : list ((option nat * option nat) * list (option nat))).
Implicit Types (kcs : list ((option nat * option nat) * option nat)).

Lemma insertGroup_keys k c gs :
  map fst (insertGroup k c gs)
  = if bool_decide (k ∈ map fst gs) then map fst gs else map fst gs ++ [k].
Proof.
  induction gs as [|g r IH]; simpl; [done|].
  destruct (decide (g.1 = k)) as [Hg|Hg].
  - rewrite (bool_decide_eq_true_2 (g.1 = k)) by done. simpl.
    rewrite bool_decide_eq_true_2; [done|]. rewrite Hg. apply list_elem_of_here.
  - rewrite (bool_decide_eq_false_2 (g.1 = k)) by done. simpl. rewrite IH.
    destruct (decide (k ∈ map fst r)) as [Hk|Hk].
    + rewrite !bool_decide_eq_true_2; [done|by apply list_elem_of_further|done].
    + rewrite !bool_decide_eq_false_2; [done| |done].
      intros [?|?]%elem_of_cons; congruence.
Qed.

Lemma foldl_insertGroup_keys kcs gs :
  map fst (foldl (λ gs kc, insertGroup kc.1 kc.2 gs) gs kcs)
  = foldl (λ acc k, if bool_decide (k ∈ acc) then acc else acc ++ [k])
      (map fst gs) (map fst kcs).
Proof.
  revert gs. induction kcs as [|kc kcs IH]; intros gs; simpl; [done|].
  by rewrite IH, insertGroup_keys.
Qed.

Lemma groupSpec_keys kcs : map fst (groupSpec kcs) = firstSeen (map fst kcs).
Proof. apply (foldl_insertGroup_keys kcs []). Qed.

Lemma insertGroup_elem k c gs g :
  NoDup (map fst gs) →
  g ∈ insertGroup k c gs →
  (g.1 ≠ k ∧ g ∈ gs)
  ∨ (g.1 = k ∧ ∃ cs, (k, cs) ∈ gs ∧ g.2 = cs ++ [c])
  ∨ (g = (k, [c]) ∧ k ∉ map fst gs).
Proof.
  induction gs as [|g0 r IH]; simpl; intros Hnd Hin.
  - apply list_elem_of_singleton in Hin as ->. right; right. split; [done|]. set_solver.
  - apply NoDup_cons in Hnd as [Hnotin Hnd].
    destruct (decide (g0.1 = k)) as [Hg|Hg].
    + rewrite (bool_decide_eq_true_2 (g0.1 = k)) in Hin by done.
      apply elem_of_cons in Hin as [->|Hin].
      * right; left. simpl. split; [done|]. exists g0.2. split; [|done].
        rewrite <- Hg. destruct g0; simpl. apply list_elem_of_here.
      * left. split; [|by apply list_elem_of_further].
        intros Heq. apply Hnotin. rewrite Hg, <- Heq.
        apply list_elem_of_fmap. eauto.
    + rewrite (bool_decide_eq_false_2 (g0.1 = k)) in Hin by done.
      apply elem_of_cons in Hin as [->|Hin].
      * left. split; [done|apply list_elem_of_here].
      * destruct (IH Hnd Hin) as [[? ?]|[[? (cs & ? & ?)]|[? ?]]].
        -- left. split; [done|by apply list_elem_of_further].
        -- right; left. split; [done|]. exists cs. split; [by apply list_elem_of_further|done].
        -- right; right. split; [done|].
           intros [?|?]%elem_of_cons; congruence.
Qed.

Lemma insertGroup_NoDup k c gs : NoDup (map fst gs) → NoDup (map fst (insertGroup k c gs)).
Proof.
  intros Hnd. rewrite insertGroup_keys. case_bool_decide as H; [done|].
  apply NoDup_app. split; [done|]. split; [|apply NoDup_singleton].
  intros x Hx ->%list_elem_of_singleton. done.
Qed.

Lemma groups_ok_insert kcs gs k c :
  groups_ok kcs gs → groups_ok (kcs ++ [(k, c)]) (insertGroup k c gs).
Proof.
  intros (Hnd & Hcov & Hgs). split; [by apply insertGroup_NoDup|]. split.
  - intros kc Hkc. rewrite insertGroup_keys.
    apply elem_of_app in Hkc as [Hkc| ->%list_elem_of_singleton].
    + specialize (Hcov kc Hkc). case_bool_decide; [done|].
      apply elem_of_app. by left.
    + simpl. case_bool_decide; [done|].
      apply elem_of_app. right. apply list_elem_of_here.
  - intros g Hg. rewrite filter_app, map_app.
    destruct (insertGroup_elem k c gs g Hnd Hg)
      as [[Hne Hin]|[[Heq (cs & Hin & Hcs)]|[-> Hnotin]]].
    + rewrite (filter_cons_False _ (k, c)) by (simpl; congruence).
      rewrite filter_nil. simpl. rewrite app_nil_r. by apply Hgs.
    + rewrite (filter_cons_True _ (k, c)) by done.
      rewrite filter_nil. simpl. rewrite Hcs, Heq.
      destruct (Hgs _ Hin) as [Hc _]. simpl in Hc. rewrite <- Hc.
      split; [done|]. by destruct cs.
    + simpl. rewrite (filter_cons_True _ (k, c)) by done. rewrite filter_nil. simpl.
      split; [|done].
      assert (filter (λ kc, kc.1 = k) kcs = []) as ->; [|done].
      apply filter_none. intros kc Hkc Heq.
      apply Hnotin. rewrite <- Heq. by apply Hcov.
Qed.

Lemma groups_ok_foldl kcs kcs0 gs :
  groups_ok kcs0 gs →
  groups_ok (kcs0 ++ kcs) (foldl (λ gs kc, insertGroup kc.1 kc.2 gs) gs kcs).
Proof.
  revert kcs0 gs. induction kcs as [|[k c] kcs IH]; intros kcs0 gs Hok; simpl.
  - by rewrite app_nil_r.
  - replace (kcs0 ++ (k, c) :: kcs) with ((kcs0 ++ [(k, c)]) ++ kcs)
      by (by rewrite <- app_assoc).
    apply IH. by apply groups_ok_insert.
Qed.

Lemma groupSpec_ok kcs : groups_ok kcs (groupSpec kcs).
Proof.
  apply (groups_ok_foldl kcs [] []). split; [constructor|].
  split; intros ? Hin; by apply elem_of_nil in Hin.
Qed.
End groups.

Lemma addToPairs_view f m c head :
  Forall FamilyPair.wf head →
  Forall FamilyPair.wf (addToPairs f m (Some c) head)
  ∧ view (addToPairs f m (Some c) head) = insertGroup (f, m) (Some c) (view head).
Proof.
  induction 1 as [|u r Hu Hr [IHwf IHv]]; cbn [addToPairs].
  - destruct (addChild_spec c _ (wf_new f m)) as (Hwf & Hk & _ & Hf & Hm).
    split; [by repeat constructor|]. unfold view, key. cbn [map insertGroup].
    rewrite Hk, Hf, Hm. done.
  - unfold view in *. cbn [map insertGroup fst snd]. unfold key at 2.
    destruct (decide (FamilyPair.father u = f)) as [Ef|Ef];
      [destruct (decide (FamilyPair.mother u = m)) as [Em|Em]|].
    + rewrite !bool_decide_eq_true_2 by congruence. cbn [andb].
      destruct (addChild_spec c u Hu) as (Hwf & Hk & _ & Hf & Hm).
      split; [by constructor|]. cbn [map]. unfold key. by rewrite Hk, Hf, Hm.
    + rewrite (bool_decide_eq_false_2 (FamilyPair.mother u = m)) by done.
      rewrite andb_false_r, bool_decide_eq_false_2 by congruence.
      split; [by constructor|]. cbn [map]. by rewrite IHv.
    + rewrite (bool_decide_eq_false_2 (FamilyPair.father u = f)) by done.
      cbn [andb]. rewrite bool_decide_eq_false_2 by congruence.
      split; [by constructor|]. cbn [map]. by rewrite IHv.
Qed.

(** The search-or-append step in terms of the position of the unit found. *)
Lemma addToPairs_find f m c head :
  addToPairs f m c head
  = match list_find (λ u, key u = (f, m)) head with
    | Some (i, u) => <[i := FamilyPair.addChild c u]> head
    | None => head ++ [FamilyPair.addChild c (FamilyPair.new f m)]
    end.
Proof.
  induction head as [|u r IH]; cbn [addToPairs list_find]; [done|].
  destruct (decide (FamilyPair.father u = f)) as [Ef|Ef];
    [destruct (decide (FamilyPair.mother u = m)) as [Em|Em]|].
  - rewrite !bool_decide_eq_true_2 by done.
    rewrite decide_True by (unfold key; congruence). done.
  - rewrite (bool_decide_eq_false_2 (FamilyPair.mother u = m)) by done.
    rewrite andb_false_r, decide_False by (unfold key; congruence). rewrite IH.
    by destruct (list_find _ r) as [[i v]|].
  - rewrite (bool_decide_eq_false_2 (FamilyPair.father u = f)) by done.
    cbn [andb]. rewrite decide_False by (unfold key; congruence). rewrite IH.
    by destruct (list_find _ r) as [[i v]|].
Qed.

Lemma buildFamilyPairs_from_app h ms1 ms2 head :
  buildFamilyPairs_from h (ms1 ++ ms2) head
  = buildFamilyPairs_from h ms1 head ≫= buildFamilyPairs_from h ms2.
Proof.
  revert head. induction ms1 as [|c ms1 IH]; intros head; cbn [app buildFamilyPairs_from].
  - done.
  - destruct c as [a|]; [|done]. cbn [mbind option_bind].
    destruct (h !! a) as [cm|]; [|done]. cbn [mbind option_bind]. apply IH.
Qed.

Lemma memberKey_Some h c k :
  memberKey h c = Some k ↔
  ∃ a cm, c = Some a ∧ h !! a = Some cm
          ∧ k = (FamilyMember.father cm, FamilyMember.mother cm).
Proof.
  unfold memberKey. split.
  - destruct c as [a|]; [|done]. simpl. destruct (h !! a) as [cm|] eqn:Hcm; [|done].
    simpl. intros [= <-]. exists a, cm. done.
  - intros (a & cm & -> & Hcm & ->). simpl. by rewrite Hcm.
Qed.

Lemma buildFamilyPairs_from_view h members ks head :
  mapM (memberKey h) members = Some ks →
  Forall FamilyPair.wf head →
  ∃ units, buildFamilyPairs_from h members head = Some units
    ∧ Forall FamilyPair.wf units
    ∧ view units = foldl (λ gs kc, insertGroup kc.1 kc.2 gs) (view head) (zip ks members).
Proof.
  revert ks head. induction members as [|c members IH]; intros ks head Hks Hwf.
  - injection Hks as <-. exists head. done.
  - cbn [mapM] in Hks. destruct (memberKey h c) as [k|] eqn:Hk; [|done].
    cbn [mbind option_bind] in Hks.
    destruct (mapM _ members) as [ks'|] eqn:Hks'; [|done].
    injection Hks as <-.
    apply memberKey_Some in Hk as (a & cm & -> & Hcm & ->).
    cbn [buildFamilyPairs_from mbind option_bind]. rewrite Hcm. cbn [mbind option_bind].
    destruct (addToPairs_view (FamilyMember.father cm) (FamilyMember.mother cm) a head Hwf)
      as [Hwf' Hv].
    destruct (IH ks' _ eq_refl Hwf') as (units & Hb & Hwu & Hvu).
    exists units. split; [done|]. split; [done|]. rewrite Hvu, Hv. done.
Qed.

Lemma zip_filter_key h members ks k :
  mapM (memberKey h) members = Some ks →
  map snd (filter (λ kc, kc.1 = k) (zip ks members))
  = filter (λ c, memberKey h c = Some k) members.
Proof.
  revert ks. induction members as [|c members IH]; intros ks Hks.
  - by destruct ks.
  - cbn [mapM] in Hks. destruct (memberKey h c) as [k0|] eqn:Hk; [|done].
    cbn [mbind option_bind] in Hks.
    destruct (mapM _ members) as [ks'|] eqn:Hks'; [|done].
    injection Hks as <-. cbn [zip zip_with].
    rewrite !filter_cons. simpl. rewrite Hk.
    destruct (decide (k0 = k)) as [->|Hne].
    + rewrite decide_True by done. simpl. f_equal. by apply IH.
    + rewrite decide_False by congruence. by apply IH.
Qed.

Lemma zip_fst_keys h members ks :
  mapM (memberKey h) members = Some ks → map fst (zip ks members) = ks.
Proof.
  intros H. apply mapM_Some_1, Forall2_length in H.
  change (map fst (zip ks members)) with (fst <$> zip ks members).
  apply fst_zip. lia.
Qed.


(** ** Generation 0 *)

Lemma seed_from_build h root i all head :
  all = drop i h →
  buildFamilyPairs_from h (Some <$> filter (λ j, seeded h root j) (seq i (length all))) head
  = Some (seed_from root i all head).
Proof.
  revert i head. induction all as [|ch rest IH]; intros i head Hall; [done|].
  assert (h !! i = Some ch) as Hi.
  { assert (drop i h !! 0 = Some ch) as H0 by (by rewrite <- Hall).
    by rewrite lookup_drop, Nat.add_0_r in H0. }
  assert (rest = drop (S i) h) as Hrest.
  { assert (drop 1 (drop i h) = rest) as H1 by (by rewrite <- Hall).
    rewrite drop_drop in H1. by replace (i + 1) with (S i) in H1 by lia. }
  assert (seeded h root i = included root i ch) as Hs by (unfold seeded; by rewrite Hi).
  cbn [length seq seed_from]. rewrite filter_cons.
  destruct (included root i ch) eqn:Hinc.
  - rewrite decide_True by (rewrite Hs; exact I).
    cbn [fmap list_fmap buildFamilyPairs_from mbind option_bind].
    rewrite Hi. cbn [mbind option_bind]. by apply IH.
  - rewrite decide_False by (rewrite Hs; exact id). by apply IH.
Qed.

Lemma seedGeneration_build h root :
  buildFamilyPairsForMembers h (seedMembers h root) = Some (seedGeneration h root).
Proof. by apply (seed_from_build h root 0 h []). Qed.

Lemma included_iff root i ch :
  included root i ch = true ↔
  FamilyMember.father ch = Some root ∨ FamilyMember.mother ch = Some root
  ∨ (i = root ∧ FamilyMember.father ch = None ∧ FamilyMember.mother ch = None).
Proof.
  unfold included. rewrite !orb_true_iff, !andb_true_iff, !bool_decide_eq_true.
  tauto.
Qed.

Lemma seedMembers_elem h root c :
  c ∈ seedMembers h root ↔
  ∃ i ch, c = Some i ∧ h !! i = Some ch
    ∧ (FamilyMember.father ch = Some root ∨ FamilyMember.mother ch = Some root
       ∨ (i = root ∧ FamilyMember.father ch = None ∧ FamilyMember.mother ch = None)).
Proof.
  unfold seedMembers. rewrite list_elem_of_fmap. split.
  - intros (i & -> & Hi). apply list_elem_of_filter in Hi as [Hs _].
    unfold seeded in Hs. destruct (h !! i) as [ch|] eqn:Hch; [|done].
    exists i, ch. split; [done|]. split; [done|].
    apply included_iff. by apply Is_true_eq_true.
  - intros (i & ch & -> & Hch & Hinc). exists i. split; [done|].
    apply list_elem_of_filter. split.
    + unfold seeded. rewrite Hch. apply Is_true_eq_left. by apply included_iff.
    + apply elem_of_seq. apply lookup_lt_Some in Hch. lia.
Qed.

Lemma seedMembers_keys h root :
  ∃ ks, mapM (memberKey h) (seedMembers h root) = Some ks.
Proof.
  apply (mapM_is_Some_2 (memberKey h)), Forall_forall. intros c Hc.
  apply seedMembers_elem in Hc as (i & ch & -> & Hch & _).
  simpl. unfold memberKey. simpl. rewrite Hch. by eexists.
Qed.

Lemma addToPairs_not_nil f m c head : addToPairs f m c head ≠ [].
Proof. destruct head; simpl; [done|]. by destruct (_ && _). Qed.

Lemma seed_from_nil root i all head :
  seed_from root i all head = [] ↔
  head = [] ∧ ∀ j ch, all !! j = Some ch → included root (i + j) ch = false.
Proof.
  revert i head. induction all as [|ch rest IH]; intros i head; cbn [seed_from].
  - split; [intros ->; split; [done|intros j ch Hj; by destruct j]|by intros [-> _]].
  - rewrite IH. split.
    + intros [Hh Hrest]. destruct (included root i ch) eqn:Hinc.
      { by apply addToPairs_not_nil in Hh. }
      split; [done|]. intros [|j] c Hj.
      * injection Hj as <-. by rewrite Nat.add_0_r.
      * replace (i + S j) with (S i + j) by lia. by apply Hrest.
    + intros [-> Hall]. pose proof (Hall 0 ch eq_refl) as H0.
      rewrite Nat.add_0_r in H0. rewrite H0. split; [done|].
      intros j c Hj. replace (S i + j) with (i + S j) by lia. by apply Hall.
Qed.

Lemma seedGeneration_nil h root :
  seedGeneration h root = [] ↔ ∀ i ch, h !! i = Some ch → included root i ch = false.
Proof.
  unfold seedGeneration. rewrite seed_from_nil. split; [by intros [_ ?]|done].
Qed.

Lemma seedGeneration_nil_members h root :
  seedGeneration h root = [] ↔ seedMembers h root = [].
Proof.
  rewrite seedGeneration_nil. split.
  - intros Hall. destruct (seedMembers h root) as [|c r] eqn:Hs; [done|].
    assert (c ∈ seedMembers h root) as Hc by (rewrite Hs; apply list_elem_of_here).
    apply seedMembers_elem in Hc as (i & ch & _ & Hch & Hinc).
    apply included_iff in Hinc. by rewrite (Hall i ch Hch) in Hinc.
  - intros Hnil i ch Hch. destruct (included root i ch) eqn:Hinc; [|done].
    assert (Some i ∈ seedMembers h root) as Hin.
    { apply seedMembers_elem. exists i, ch. by rewrite <- included_iff. }
    rewrite Hnil in Hin. by apply elem_of_nil in Hin.
Qed.

(** C2. Generation 0 is seeded with exactly the members whose father or
    mother pointer is the root, and with the root itself when both of its
    parent pointers are null; what the seeding loop builds is the grouping
    of these members, in pool order, by their (father, mother) key. *)
Theorem C2_generation0_seed h root :
  (∀ c, c ∈ seedMembers h root ↔
     ∃ i ch, c = Some i ∧ h !! i = Some ch
       ∧ (FamilyMember.father ch = Some root ∨ FamilyMember.mother ch = Some root
          ∨ (i = root ∧ FamilyMember.father ch = None ∧ FamilyMember.mother ch = None)))
  ∧ buildFamilyPairsForMembers h (seedMembers h root) = Some (seedGeneration h root)
  ∧ (∃ ks, mapM (memberKey h) (seedMembers h root) = Some ks
           ∧ view (seedGeneration h root) = groupSpec (zip ks (seedMembers h root)))
  ∧ (seedMembers h root ≠ [] → startGeneration h root = seedGeneration h root).
Proof.
  split; [apply seedMembers_elem|]. split; [apply seedGeneration_build|]. split.
  - destruct (seedMembers_keys h root) as [ks Hks]. exists ks. split; [done|].
    destruct (buildFamilyPairs_from_view h _ ks [] Hks) as (units & Hb & _ & Hv);
      [constructor|].
    pose proof (seedGeneration_build h root) as Hs.
    unfold buildFamilyPairsForMembers in Hs. rewrite Hs in Hb. by injection Hb as ->.
  - intros Hne. unfold startGeneration.
    destruct (seedGeneration h root) eqn:Hs; [|done].
    by apply seedGeneration_nil_members in Hs.
Qed.

Lemma C2_generation0_seed_witness :
  seedMembers carolDave 0 = [Some 0; Some 1]
  ∧ view (startGeneration carolDave 0)
    = [((None, None), [Some 0]); ((Some 0, None), [Some 1])].
Proof.
  destruct (C2_generation0_seed carolDave 0) as (_ & _ & _ & Hs).
  split; [reflexivity|]. rewrite Hs; [reflexivity|discriminate].
Defined.

Lemma walk_not_nil fuel h gen gens :
  gen ≠ [] → walk fuel h gen = Some gens → gens ≠ [].
Proof.
  intros Hne. destruct gen as [|p r]; [done|]. destruct fuel as [|k]; [done|].
  cbn [walk]. destruct (renderGeneration _ _); [|done]. cbn [mbind option_bind].
  destruct (nextGeneration _ _ _); [|done]. cbn [mbind option_bind].
  destruct (walk _ _ _); [|done]. cbn [mbind option_bind]. by intros [= <-].
Qed.


(** ** Marking a member late *)

Lemma findByName_from_lookup i pool nm a :
  findByName_from i pool nm = Some a →
  ∃ m, pool !! (a - i) = Some m ∧ i ≤ a ∧ eq_name (FamilyMember.name m) nm = true.
Proof.
  revert i. induction pool as [|m0 rest IH]; intros i; cbn [findByName_from]; [done|].
  destruct (eq_name (FamilyMember.name m0) nm) eqn:E.
  - intros [= <-]. exists m0. rewrite Nat.sub_diag. done.
  - intros H. destruct (IH _ H) as (m & Hm & Hle & Hn). exists m.
    replace (a - i) with (S (a - S i)) by lia. split; [done|]. split; [lia|done].
Qed.

Lemma findByName_lookup tr nm a :
  findByName tr nm = Some a →
  ∃ m, FamilyTree.memberPool tr !! a = Some m ∧ eq_name (FamilyMember.name m) nm = true.
Proof.
  intros H. destruct (findByName_from_lookup 0 _ nm a H) as (m & Hm & _ & Hn).
  rewrite Nat.sub_0_r in Hm. eauto.
Qed.

Section markLate.
Variables (w : World) (r : nat) (name : list ascii) (rest : list Entry).
Hypothesis Hroot : FamilyTree.root (tree w) = Some r.
Hypothesis Hinput : input w = Line name :: rest.
Hypothesis Hlen : length name < 64.
Hypothesis Hname : emptyName name = false.

Local Abbreviation prompt := (String.list_ascii_of_string "Enter member name to mark as Late: ").
Local Abbreviation pool := (FamilyTree.memberPool (tree w)).

Lemma markLate_not_found :
  findByName (tree w) name = None →
  markLateInteractive w
  = Some (tt, {| tree := tree w; input := rest;
                 output := output w ++ [prompt] ++ [lit "Member not found." ++ nl] |}).
Proof.
  intros Hf. unfold markLateInteractive, bind, getTree, readLine, say.
  rewrite Hroot, Hinput. rewrite bool_decide_eq_true_2 by done.
  cbn [tree input output]. rewrite Hname, Hf. cbn [tree input output].
  by rewrite <- app_assoc.
Qed.

Lemma markLate_already a m :
  findByName (tree w) name = Some a →
  pool !! a = Some m →
  FamilyMember.alive m = false →
  markLateInteractive w
  = Some (tt, {| tree := tree w; input := rest;
                 output := output w ++ [prompt] ++ [lit "Already marked Late." ++ nl] |}).
Proof.
  intros Hf Hm Ha. unfold markLateInteractive, bind, getTree, readLine, say, lift.
  rewrite Hroot, Hinput. rewrite bool_decide_eq_true_2 by done.
  cbn [tree input output]. rewrite Hname, Hf. rewrite Hm, Ha.
  cbn [negb tree input output]. by rewrite <- app_assoc.
Qed.

Lemma markLate_confirm a m b rest' out' :
  findByName (tree w) name = Some a →
  pool !! a = Some m →
  FamilyMember.alive m = true →
  readYesNo_loop rest
    (output w ++ [prompt] ++ [lit "Confirm marking '"; c_str (FamilyMember.name m);
                              lit "' as Late? (y/n): "])
  = Some (b, rest', out') →
  markLateInteractive w
  = Some (tt,
          if b then
            {| tree := FamilyTree.setPool (<[a := FamilyMember.setAlive false m]> pool) (tree w);
               input := rest'; output := out' ++ [lit "Marked Late." ++ nl] |}
          else
            {| tree := tree w; input := rest'; output := out' ++ [lit "Cancelled." ++ nl] |}).
Proof.
  intros Hf Hm Ha Hyn.
  unfold markLateInteractive, updMember, bind, getTree, readLine, say, lift, readYesNo, putTree.
  rewrite Hroot, Hinput. rewrite bool_decide_eq_true_2 by done.
  cbn [tree input output]. rewrite Hname, Hf. rewrite Hm, Ha.
  cbn [negb tree input output].
  rewrite <- !app_assoc. cbn [app]. cbn [app] in Hyn.
  rewrite Hyn. destruct b; cbn [tree input output]; [|done].
  rewrite Hm. done.
Qed.
End markLate.

(** C8. Marking late: an unknown name is reported and nothing changes; a
    member already late is reported and nothing changes; a live member,
    once the confirmation is answered yes, has its alive flag set to false
    and nothing else in the registry changes. *)
Theorem C8_mark_late w r name rest :
  FamilyTree.root (tree w) = Some r →
  input w = Line name :: rest →
  length name < 64 →
  emptyName name = false →
  let pool := FamilyTree.memberPool (tree w) in
  let prompt := lit "Enter member name to mark as Late: " in
  (findByName (tree w) name = None →
   markLateInteractive w
   = Some (tt, {| tree := tree w; input := rest;
                  output := output w ++ [prompt] ++ [lit "Member not found." ++ nl] |}))
  ∧ (∀ a m, findByName (tree w) name = Some a → pool !! a = Some m →
       (FamilyMember.alive m = false →
        markLateInteractive w
        = Some (tt, {| tree := tree w; input := rest;
                       output := output w ++ [prompt]
                                 ++ [lit "Already marked Late." ++ nl] |}))
       ∧ (FamilyMember.alive m = true →
          ∀ rest' out',
            readYesNo_loop rest
              (output w ++ [prompt]
               ++ [lit "Confirm marking '"; c_str (FamilyMember.name m);
                   lit "' as Late? (y/n): "])
            = Some (true, rest', out') →
            ∃ w', markLateInteractive w = Some (tt, w')
              ∧ FamilyTree.root (tree w') = FamilyTree.root (tree w)
              ∧ FamilyTree.memberPool (tree w')
                = <[a := FamilyMember.setAlive false m]> pool
              ∧ (∀ j, j ≠ a → FamilyTree.memberPool (tree w') !! j = pool !! j)
              ∧ ∃ m', FamilyTree.memberPool (tree w') !! a = Some m'
                  ∧ FamilyMember.alive m' = false
                  ∧ FamilyMember.name m' = FamilyMember.name m
                  ∧ FamilyMember.gender m' = FamilyMember.gender m
                  ∧ FamilyMember.father m' = FamilyMember.father m
                  ∧ FamilyMember.mother m' = FamilyMember.mother m
                  ∧ FamilyMember.firstChild m' = FamilyMember.firstChild m
                  ∧ FamilyMember.nextSibling m' = FamilyMember.nextSibling m)).
Proof.
  intros Hroot Hinput Hlen Hname pool prompt. split.
  - by apply (markLate_not_found w r name rest).
  - intros a m Hf Hm. split.
    + by apply (markLate_already w r name rest Hroot Hinput Hlen Hname a m).
    + intros Ha rest' out' Hyn.
      rewrite (markLate_confirm w r name rest Hroot Hinput Hlen Hname a m true rest' out')
        by done.
      eexists. split; [done|]. cbn [tree FamilyTree.setPool FamilyTree.root FamilyTree.memberPool].
      split; [done|]. split; [done|]. split.
      * intros j Hj. subst pool. rewrite list_lookup_insert_ne; [done|congruence].
      * exists (FamilyMember.setAlive false m). split; [|done].
        apply list_lookup_insert_eq. by eapply lookup_lt_Some.
Qed.

Lemma C8_mark_late_witness :
  ∃ w', markLateInteractive
          {| tree := {| FamilyTree.root := Some 0; FamilyTree.memberPool := carolDave |};
             input := [Line (lit "Dave"); Key "y"%char]; output := [] |}
        = Some (tt, w')
    ∧ FamilyMember.alive <$> FamilyTree.memberPool (tree w') = [true; false].
Proof.
  set (w := {| tree := {| FamilyTree.root := Some 0; FamilyTree.memberPool := carolDave |};
               input := [Line (lit "Dave"); Key "y"%char]; output := [] |}).
  destruct (C8_mark_late w 0 (lit "Dave") [Key "y"%char]) as [_ H];
    [reflexivity|reflexivity|simpl; lia|reflexivity|].
  edestruct (H 1) as [_ Hc]; [reflexivity|reflexivity|].
  edestruct Hc as (w' & Hrun & _ & Hpool & _); [reflexivity|reflexivity|].
  exists w'. split; [exact Hrun|]. rewrite Hpool. reflexivity.
Defined.

(** ** Running commands *)

Lemma bind_Some {A B} (c : Cmd A) (k : A → Cmd B) w b w' :
  bind c k w = Some (b, w') ↔ ∃ a w1, c w = Some (a, w1) ∧ k a w1 = Some (b, w').
Proof.
  unfold bind. split.
  - destruct (c w) as [[a w1]|]; [|done]. intros H. by exists a, w1.
  - intros (a & w1 & -> & H). done.
Qed.

Lemma ret_Some {A} (a b : A) w w' : ret a w = Some (b, w') ↔ b = a ∧ w' = w.
Proof. unfold ret. split; [by intros [= -> ->]|by intros [-> ->]]. Qed.

Lemma getTree_Some t w w' : getTree w = Some (t, w') ↔ t = tree w ∧ w' = w.
Proof. unfold getTree. split; [by intros [= <- <-]|by intros [-> ->]]. Qed.

Lemma putTree_Some tr u w w' : putTree tr w = Some (u, w') → tree w' = tr.
Proof. unfold putTree. by intros [= <- <-]. Qed.

Lemma say_Some s u w w' : say s w = Some (u, w') → tree w' = tree w.
Proof. unfold say. by intros [= <- <-]. Qed.

Lemma lift_Some {A} (o : option A) a w w' : lift o w = Some (a, w') ↔ o = Some a ∧ w' = w.
Proof.
  unfold lift. destruct o as [x|]; split; try done.
  - by intros [= -> ->].
  - by intros [[= ->] ->].
  - by intros [? _].
Qed.

Lemma readLine_Some p n s w w' : readLine p n w = Some (s, w') → tree w' = tree w.
Proof.
  unfold readLine. destruct (input w) as [|[l|c] rest]; try done.
  case_bool_decide; [|done]. by intros [= <- <-].
Qed.

Lemma readGender_loop_letter p inp out g inp' out' :
  readGender_loop p inp out = Some (g, inp', out') → g = "M"%char ∨ g = "F"%char.
Proof.
  revert out. induction inp as [|[l|c] rest IH]; intros out; cbn [readGender_loop]; try done.
  destruct (isSpace c); [by apply IH|].
  destruct (isGender c); [|by apply IH].
  destruct (_ || _); intros [= <- _ _]; auto.
Qed.

Lemma readGender_Some p g w w' :
  readGender p w = Some (g, w') → tree w' = tree w ∧ (g = "M"%char ∨ g = "F"%char).
Proof.
  unfold readGender. destruct (readGender_loop _ _ _) as [[[g0 inp] out]|] eqn:E; [|done].
  intros [= <- <-]. split; [done|]. by eapply readGender_loop_letter.
Qed.

Lemma readYesNo_Some d b w w' : readYesNo d w = Some (b, w') → tree w' = tree w.
Proof.
  unfold readYesNo. destruct (readYesNo_loop _ _) as [[[b0 inp] out]|]; [|done].
  by intros [= <- <-].
Qed.

Lemma readYesNoDefaultYes_Some p b w w' :
  readYesNoDefaultYes p w = Some (b, w') → tree w' = tree w.
Proof.
  unfold readYesNoDefaultYes. destruct (readYesNo_loop _ _) as [[[b0 inp] out]|]; [|done].
  by intros [= <- <-].
Qed.

(** *** Running the prompts forward *)

Lemma isGender_iff c : isGender c = true ↔ c ∈ ["M"; "m"; "F"; "f"]%char.
Proof.
  unfold isGender. rewrite !orb_true_iff, !bool_decide_eq_true.
  rewrite !elem_of_cons, elem_of_nil. tauto.
Qed.

Lemma isGender_not_space c : isGender c = true → isSpace c = false.
Proof.
  intros H. apply isGender_iff in H.
  repeat (apply elem_of_cons in H as [->|H]); [done..|]. by apply elem_of_nil in H.
Qed.

Lemma yesNo_not_space k : k ∈ ["y"; "Y"; "n"; "N"]%char → isSpace k = false.
Proof.
  intros H. repeat (apply elem_of_cons in H as [->|H]); [done..|]. by apply elem_of_nil in H.
Qed.

Lemma readLine_run p n s rest w :
  input w = Line s :: rest → length s < n →
  readLine p n w = Some (s, {| tree := tree w; input := rest; output := output w ++ [p] |}).
Proof. intros Hin Hlen. unfold readLine. rewrite Hin. by rewrite bool_decide_eq_true_2. Qed.

Lemma readGender_loop_run p g rest out :
  isGender g = true →
  readGender_loop p (Key g :: rest) out
  = Some (if bool_decide (g = "M"%char) || bool_decide (g = "m"%char)
          then "M"%char else "F"%char, rest, out).
Proof.
  intros Hg. cbn [readGender_loop]. by rewrite (isGender_not_space g Hg), Hg.
Qed.

Lemma readGender_run p g rest w :
  input w = Key g :: rest → isGender g = true →
  readGender p w
  = Some (if bool_decide (g = "M"%char) || bool_decide (g = "m"%char)
          then "M"%char else "F"%char,
          {| tree := tree w; input := rest; output := output w ++ [p] |}).
Proof. intros Hin Hg. unfold readGender. by rewrite Hin, readGender_loop_run. Qed.

Lemma readYesNo_loop_run k rest out :
  k ∈ ["y"; "Y"; "n"; "N"]%char →
  readYesNo_loop (Key k :: rest) out
  = Some (bool_decide (k = "y"%char) || bool_decide (k = "Y"%char), rest, out).
Proof.
  intros Hk. repeat (apply elem_of_cons in Hk as [->|Hk]); [done..|].
  by apply elem_of_nil in Hk.
Qed.

Lemma readYesNo_run d k rest w :
  input w = Key k :: rest → k ∈ ["y"; "Y"; "n"; "N"]%char →
  readYesNo d w
  = Some (bool_decide (k = "y"%char) || bool_decide (k = "Y"%char),
          {| tree := tree w; input := rest; output := output w |}).
Proof. intros Hin Hk. unfold readYesNo. by rewrite Hin, readYesNo_loop_run. Qed.

Lemma readYesNoDefaultYes_run p k rest w :
  input w = Key k :: rest → k ∈ ["y"; "Y"; "n"; "N"]%char →
  readYesNoDefaultYes p w
  = Some (bool_decide (k = "y"%char) || bool_decide (k = "Y"%char),
          {| tree := tree w; input := rest; output := output w ++ [p] |}).
Proof. intros Hin Hk. unfold readYesNoDefaultYes. by rewrite Hin, readYesNo_loop_run. Qed.

Lemma readGender_loop_skips prompt bad g rest out :
  Forall (λ c, isGender c = false) bad →
  isGender g = true →
  readGender_loop prompt (map Key bad ++ Key g :: rest) out
  = Some (if bool_decide (g = "M"%char) || bool_decide (g = "m"%char)
          then "M"%char else "F"%char,
          rest,
          out ++ concat (map (λ _, [lit "Invalid gender. Enter M or F." ++ nl; prompt])
                           (filter (λ c, isSpace c = false) bad))).
Proof.
  intros Hbad Hg. revert out. induction Hbad as [|c bad Hc _ IH]; intros out.
  - cbn [map app]. rewrite readGender_loop_run by done.
    rewrite filter_nil. cbn [map concat]. by rewrite app_nil_r.
  - cbn [map app readGender_loop]. rewrite Hc. destruct (isSpace c) eqn:Hs.
    + rewrite IH. rewrite filter_cons_False by (by rewrite Hs). done.
    + rewrite IH. rewrite filter_cons_True by done. cbn [map concat].
      by rewrite <- !app_assoc.
Qed.

Lemma readYesNo_loop_skips bad k rest out :
  Forall (λ c, c ∉ ["y"; "Y"; "n"; "N"]%char) bad →
  k ∈ ["y"; "Y"; "n"; "N"]%char →
  readYesNo_loop (map Key bad ++ Key k :: rest) out
  = Some (bool_decide (k = "y"%char) || bool_decide (k = "Y"%char), rest,
          out ++ replicate (length (filter (λ c, isSpace c = false) bad))
                   (lit "Please enter y or n: ")).
Proof.
  intros Hbad Hk. revert out. induction Hbad as [|c bad Hc _ IH]; intros out.
  - cbn [map app]. rewrite readYesNo_loop_run by done.
    rewrite filter_nil. cbn [length replicate]. by rewrite app_nil_r.
  - cbn [map app readYesNo_loop].
    rewrite !elem_of_cons, elem_of_nil in Hc.
    rewrite !(bool_decide_eq_false_2 (c = _)) by tauto. simpl orb. cbv iota.
    destruct (isSpace c) eqn:Hs.
    + rewrite IH. rewrite filter_cons_False by (by rewrite Hs). done.
    + rewrite IH. rewrite filter_cons_True by done. cbn [length replicate].
      by rewrite <- app_assoc.
Qed.

Lemma no_is_answer k : k ∈ ["n"; "N"]%char → k ∈ ["y"; "Y"; "n"; "N"]%char.
Proof. intros Hk. do 2 (apply elem_of_cons; right). done. Qed.

Lemma yes_is_answer k : k ∈ ["y"; "Y"]%char → k ∈ ["y"; "Y"; "n"; "N"]%char.
Proof.
  intros Hk. repeat (apply elem_of_cons in Hk as [->|Hk]).
  - apply elem_of_cons. by left.
  - apply elem_of_cons. right. apply elem_of_cons. by left.
  - by apply elem_of_nil in Hk.
Qed.

Lemma no_is_false k :
  k ∈ ["n"; "N"]%char → bool_decide (k = "y"%char) || bool_decide (k = "Y"%char) = false.
Proof.
  intros Hk. repeat (apply elem_of_cons in Hk as [->|Hk]); [done..|].
  by apply elem_of_nil in Hk.
Qed.

Lemma yes_is_true k :
  k ∈ ["y"; "Y"]%char → bool_decide (k = "y"%char) || bool_decide (k = "Y"%char) = true.
Proof.
  intros Hk. repeat (apply elem_of_cons in Hk as [->|Hk]); [done..|].
  by apply elem_of_nil in Hk.
Qed.

(** Breaks a successful run of a command into the runs of its steps. *)
Ltac cmd_step :=
  match goal with
  | H : bind _ _ _ = Some _ |- _ =>
      let a := fresh "x" in let w := fresh "w" in let H1 := fresh "Hrun" in
      apply bind_Some in H as (a & w & H1 & H)
  | H : ret _ _ = Some _ |- _ => apply ret_Some in H as [? ?]; subst
  | H : getTree _ = Some _ |- _ => apply getTree_Some in H as [? ?]; subst
  | H : lift _ _ = Some _ |- _ => apply lift_Some in H as [? ?]; subst
  | H : putTree _ _ = Some _ |- _ => apply putTree_Some in H
  | H : say _ _ = Some _ |- _ => apply say_Some in H
  | H : readLine _ _ _ = Some _ |- _ => apply readLine_Some in H
  | H : readGender _ _ = Some _ |- _ => apply readGender_Some in H as [H ?]
  | H : readYesNo _ _ = Some _ |- _ => apply readYesNo_Some in H
  | H : readYesNoDefaultYes _ _ = Some _ |- _ => apply readYesNoDefaultYes_Some in H
  end.

(** Replaces the tree of every intermediate world by its value. *)
Ltac tree_simpl :=
  repeat match goal with
         | H : tree ?w = _ |- _ => is_var w; progress (rewrite !H in * )
         end.

Ltac cmd_inv := repeat cmd_step; tree_simpl.

(** ** The registry keeps its shape *)

Lemma ptr_below_mono n n' p : n ≤ n' → ptr_below n p → ptr_below n' p.
Proof. destruct p; simpl; [lia|done]. Qed.

Lemma ptr_between_mono a n n' p : n ≤ n' → ptr_between a n p → ptr_between a n' p.
Proof. destruct p; simpl; [lia|done]. Qed.

Lemma member_ok_mono n n' b b' a m :
  n ≤ n' → b ≤ b' → member_ok n b a m → member_ok n' b' a m.
Proof.
  intros Hn Hb (? & ? & ? & ? & ?).
  repeat split; eauto using ptr_below_mono, ptr_between_mono.
Qed.

Lemma new_gender_ok n g a : gender_ok (FamilyMember.new n g a).
Proof. unfold gender_ok. simpl. destruct (_ || _); auto. Qed.

Lemma new_member_ok len b a n g al : member_ok len b a (FamilyMember.new n g al).
Proof. repeat split; try done. apply new_gender_ok. Qed.

Lemma ordered_app_new b h n g al :
  ordered b h → ordered b (h ++ [FamilyMember.new n g al]).
Proof.
  intros Hord a m Hm. rewrite length_app. simpl.
  apply lookup_app_Some in Hm as [Hm|[_ Hm]].
  - eapply member_ok_mono; [| |by apply Hord]; lia.
  - apply list_lookup_singleton_Some in Hm as [_ <-]. apply new_member_ok.
Qed.

Lemma unparented_app h r m : unparented h r → unparented (h ++ [m]) r.
Proof. intros (rm & Hr & ?). exists rm. split; [by apply lookup_app_l_Some|done]. Qed.

Lemma ordered_update b h a m (f : FamilyMember.t → FamilyMember.t) :
  ordered b h → h !! a = Some m →
  (member_ok (length h) b a m → member_ok (length h) b a (f m)) →
  ordered b (<[a := f m]> h).
Proof.
  intros Hord Hm Hf j mj Hj. rewrite length_insert.
  destruct (decide (a = j)) as [->|Hne].
  - rewrite list_lookup_insert_eq in Hj by (by eapply lookup_lt_Some).
    injection Hj as <-. apply Hf. by apply Hord.
  - rewrite list_lookup_insert_ne in Hj by done. by apply Hord.
Qed.

Lemma unparented_update h r a m (f : FamilyMember.t → FamilyMember.t) :
  unparented h r → h !! a = Some m →
  (a = r → FamilyMember.father (f m) = FamilyMember.father m
           ∧ FamilyMember.mother (f m) = FamilyMember.mother m) →
  unparented (<[a := f m]> h) r.
Proof.
  intros (rm & Hr & Hf & Hmo) Hm Hsame.
  destruct (decide (a = r)) as [->|Hne].
  - rewrite Hm in Hr. injection Hr as <-. exists (f m).
    rewrite list_lookup_insert_eq by (by eapply lookup_lt_Some).
    destruct (Hsame eq_refl) as [-> ->]. done.
  - exists rm. by rewrite list_lookup_insert_ne.
Qed.

Lemma lastSibling_ordered fuel h b x t :
  ordered b h → x < b → FamilyMember.lastSibling fuel h x = Some t →
  x ≤ t < b ∧ ∃ tm, h !! t = Some tm ∧ FamilyMember.nextSibling tm = None.
Proof.
  intros Hord. revert x. induction fuel as [|k IH]; intros x Hx; cbn [FamilyMember.lastSibling]; [done|].
  destruct (h !! x) as [m|] eqn:Hm; [|done]. cbn [mbind option_bind].
  destruct (FamilyMember.nextSibling m) as [s|] eqn:Hs.
  - intros Hl. destruct (Hord x m Hm) as (_ & _ & _ & Hns & _). rewrite Hs in Hns.
    simpl in Hns. destruct (IH s) as [? ?]; [lia|done|]. split; [lia|done].
  - intros [= <-]. split; [lia|]. by exists m.
Qed.

Lemma lastSibling_total fuel h b x :
  ordered b h → b ≤ length h → x < b → b - x ≤ fuel → is_Some (FamilyMember.lastSibling fuel h x).
Proof.
  intros Hord Hb. revert x. induction fuel as [|k IH]; intros x Hx Hfuel; [lia|].
  cbn [FamilyMember.lastSibling]. destruct (lookup_lt_is_Some_2 h x) as [m Hm]; [lia|].
  rewrite Hm. cbn [mbind option_bind].
  destruct (FamilyMember.nextSibling m) as [s|] eqn:Hs; [|by eexists].
  destruct (Hord x m Hm) as (_ & _ & _ & Hns & _). rewrite Hs in Hns. simpl in Hns.
  apply IH; lia.
Qed.

Lemma setFirstChild_ok n s a m :
  s < a → member_ok n a s m → member_ok n (S a) s (FamilyMember.setFirstChild (Some a) m).
Proof.
  intros Hs (? & ? & ? & ? & ?). repeat split; try done; simpl; try lia.
  apply (ptr_between_mono _ a); [lia|done].
Qed.

Lemma setNextSibling_ok n a t m :
  t < a → member_ok n a t m → member_ok n (S a) t (FamilyMember.setNextSibling (Some a) m).
Proof.
  intros Hs (? & ? & ? & ? & ?). repeat split; try done; simpl; try lia.
  apply (ptr_between_mono _ a); [lia|done].
Qed.

Lemma ordered_weaken b b' h : b ≤ b' → ordered b h → ordered b' h.
Proof. intros Hb Hord a m Hm. eapply member_ok_mono; [| |by apply Hord]; lia. Qed.

(** Putting the newest member [a] on the child list of an older one. *)
Lemma member_addChild_ordered fuel h s a h' r :
  length h = S a → s < a → ordered a h → unparented h r →
  FamilyMember.addChild fuel h s (Some a) = Some h' →
  length h' = S a ∧ ordered (S a) h' ∧ unparented h' r.
Proof.
  intros Hlen Hs Hord Hun. unfold FamilyMember.addChild.
  destruct (h !! s) as [m|] eqn:Hm; [|done]. cbn [mbind option_bind].
  destruct (FamilyMember.firstChild m) as [fc|] eqn:Hfc.
  - destruct (FamilyMember.lastSibling fuel h fc) as [t|] eqn:Ht; [|done]. cbn [mbind option_bind].
    destruct (h !! t) as [tm|] eqn:Htm; [|done]. cbn [mbind option_bind].
    intros [= <-]. rewrite length_insert. split; [done|].
    destruct (Hord s m Hm) as (_ & _ & Hfcb & _). rewrite Hfc in Hfcb. simpl in Hfcb.
    destruct (lastSibling_ordered fuel h a fc t Hord) as [Ht' _]; [lia|done|].
    split.
    + apply ordered_update; [apply (ordered_weaken a); [lia|done]|done|].
      intros _. rewrite Hlen. apply setNextSibling_ok; [lia|]. rewrite <- Hlen. by apply Hord.
    + by apply unparented_update.
  - intros [= <-]. rewrite length_insert. split; [done|]. split.
    + apply ordered_update; [apply (ordered_weaken a); [lia|done]|done|].
      intros _. rewrite Hlen. apply setFirstChild_ok; [lia|]. rewrite <- Hlen. by apply Hord.
    + by apply unparented_update.
Qed.

Lemma member_addChild_total fuel h s a :
  length h = S a → s < a → ordered a h → a ≤ fuel →
  is_Some (FamilyMember.addChild fuel h s (Some a)).
Proof.
  intros Hlen Hs Hord Hfuel. unfold FamilyMember.addChild.
  destruct (lookup_lt_is_Some_2 h s) as [m Hm]; [lia|]. rewrite Hm. cbn [mbind option_bind].
  destruct (FamilyMember.firstChild m) as [fc|] eqn:Hfc; [|by eexists].
  destruct (Hord s m Hm) as (_ & _ & Hfcb & _). rewrite Hfc in Hfcb. simpl in Hfcb.
  destruct (lastSibling_total fuel h a fc Hord) as [t Ht]; [lia..|].
  rewrite Ht. cbn [mbind option_bind].
  destruct (lastSibling_ordered fuel h a fc t Hord) as [_ (tm & Htm & _)]; [lia|done|].
  rewrite Htm. by eexists.
Qed.

(** *** The steps of [addMemberInteractive] *)

Lemma newMember_mid r n g al w a w' :
  inv r (tree w) → newMember n g al w = Some (a, w') →
  a = length (FamilyTree.memberPool (tree w)) ∧ mid r a (tree w').
Proof.
  intros (Hroot & Hr & Hord & Hun) Hrun. unfold newMember in Hrun. cmd_inv.
  split; [done|]. unfold mid, FamilyTree.memCount. simpl.
  split; [done|]. split; [done|]. split; [rewrite length_app; simpl; lia|].
  split; [by apply ordered_app_new|by apply unparented_app].
Qed.

Lemma addChildOf_inv r a fuel s w u w' :
  mid r a (tree w) → s < a → addChildOf fuel (Some s) (Some a) w = Some (u, w') →
  inv r (tree w') ∧ length (FamilyTree.memberPool (tree w')) = S a.
Proof.
  intros (Hroot & Hr & Hlen & Hord & Hun) Hs Hrun. unfold addChildOf in Hrun. cmd_inv.
  match goal with H : Some s = Some _ |- _ => injection H as <- end.
  match goal with H : FamilyMember.addChild _ _ _ _ = Some _ |- _ =>
    destruct (member_addChild_ordered _ _ _ _ _ r Hlen Hs Hord Hun H) as (Hl & Ho & Hu) end.
  unfold inv. simpl. rewrite Hl. split; [|done]. split; [done|]. split; [lia|done].
Qed.

Lemma setFather_ok n b a f m :
  ptr_below n f → member_ok n b a m → member_ok n b a (FamilyMember.setFather f m).
Proof. intros Hf (? & ? & ? & ? & ?). by repeat split. Qed.

Lemma setMother_ok n b a f m :
  ptr_below n f → member_ok n b a m → member_ok n b a (FamilyMember.setMother f m).
Proof. intros Hf (? & ? & ? & ? & ?). by repeat split. Qed.

Lemma setAlive_ok n b a al m :
  member_ok n b a m → member_ok n b a (FamilyMember.setAlive al m).
Proof. intros (? & ? & ? & ? & ?). by repeat split. Qed.

Lemma updMember_mid r a w u w' (f : FamilyMember.t → FamilyMember.t) :
  mid r a (tree w) →
  (∀ m, member_ok (S a) a a m → member_ok (S a) a a (f m)) →
  updMember a f w = Some (u, w') → mid r a (tree w').
Proof.
  intros (Hroot & Hr & Hlen & Hord & Hun) Hf Hrun. unfold updMember in Hrun. cmd_inv.
  unfold mid. simpl. rewrite length_insert.
  split; [done|]. split; [done|]. split; [done|]. split.
  - apply ordered_update; [done..|]. rewrite Hlen. apply Hf.
  - apply unparented_update; [done..|]. lia.
Qed.

Lemma updMember_inv r a w u w' (f : FamilyMember.t → FamilyMember.t) :
  inv r (tree w) →
  (∀ b m, member_ok (length (FamilyTree.memberPool (tree w))) b a m →
          member_ok (length (FamilyTree.memberPool (tree w))) b a (f m)) →
  (∀ m, FamilyMember.father (f m) = FamilyMember.father m
        ∧ FamilyMember.mother (f m) = FamilyMember.mother m) ∨ a ≠ r →
  updMember a f w = Some (u, w') →
  inv r (tree w')
  ∧ length (FamilyTree.memberPool (tree w')) = length (FamilyTree.memberPool (tree w)).
Proof.
  intros (Hroot & Hr & Hord & Hun) Hf Hsame Hrun. unfold updMember in Hrun. cmd_inv.
  unfold inv. simpl. rewrite length_insert.
  split; [|done]. split; [done|]. split; [done|]. split.
  - apply ordered_update; [done..|]. apply Hf.
  - apply unparented_update; [done..|]. intros ->. by destruct Hsame as [Hs|?].
Qed.

Lemma inv_root r tr : inv r tr → FamilyTree.root tr = Some r.
Proof. by intros [? _]. Qed.

(** Creating a parent on the fly and putting it under the root. *)
Lemma newUnderRoot_inv r fuel n g al w a w1 u w2 :
  inv r (tree w) →
  newMember n g al w = Some (a, w1) →
  addChildOf fuel (Some r) (Some a) w1 = Some (u, w2) →
  inv r (tree w2)
  ∧ ptr_below (length (FamilyTree.memberPool (tree w2))) (Some a)
  ∧ length (FamilyTree.memberPool (tree w)) ≤ length (FamilyTree.memberPool (tree w2)).
Proof.
  intros Hinv Hnew Hadd.
  destruct (newMember_mid r n g al w a w1 Hinv Hnew) as [Ha Hmid].
  pose proof Hmid as (_ & Hra & _).
  destruct (addChildOf_inv r a fuel r w1 u w2 Hmid Hra Hadd) as [Hinv' Hlen].
  split; [done|]. simpl. lia.
Qed.

Lemma askParent_inv r fuel lo cap w p w' :
  inv r (tree w) → askParent fuel lo cap w = Some (p, w') →
  inv r (tree w')
  ∧ ptr_below (length (FamilyTree.memberPool (tree w'))) p
  ∧ length (FamilyTree.memberPool (tree w)) ≤ length (FamilyTree.memberPool (tree w')).
Proof.
  intros Hinv Hrun. unfold askParent in Hrun. cmd_inv.
  destruct (emptyName _); cmd_inv; [done|].
  destruct (findByName _ _) as [a|] eqn:Hfind; cmd_inv.
  { split; [done|]. split; [|done]. apply findByName_lookup in Hfind as (m & Hm & _).
    simpl. by eapply lookup_lt_Some. }
  match goal with H : (if ?b then _ else _) _ = Some _ |- _ => destruct b end; cmd_inv;
    [|done].
  rewrite (inv_root r _ Hinv) in *.
  match goal with
  | Hn : newMember _ _ _ ?w4 = Some _, He : tree ?w4 = tree w |- _ =>
      rewrite <- He; eapply newUnderRoot_inv; [by rewrite He|done..]
  end.
Qed.

Lemma askSpouse_inv r fuel lo cap sug w p w' :
  inv r (tree w) → askSpouse fuel lo cap sug w = Some (p, w') →
  inv r (tree w')
  ∧ ptr_below (length (FamilyTree.memberPool (tree w'))) p
  ∧ length (FamilyTree.memberPool (tree w)) ≤ length (FamilyTree.memberPool (tree w')).
Proof.
  intros Hinv Hrun. unfold askSpouse in Hrun. cmd_inv.
  match goal with H : (if ?b then _ else _) _ = Some _ |- _ => destruct b end; cmd_inv;
    [|done].
  destruct (emptyName _); cmd_inv; [done|].
  destruct (findByName _ _) as [a|] eqn:Hfind; cmd_inv.
  { split; [done|]. split; [|done]. apply findByName_lookup in Hfind as (m & Hm & _).
    simpl. by eapply lookup_lt_Some. }
  rewrite (inv_root r _ Hinv) in *.
  match goal with
  | Hn : newMember _ _ _ ?w4 = Some _, He : tree ?w4 = tree w |- _ =>
      rewrite <- He; eapply newUnderRoot_inv; [by rewrite He|done..]
  end.
Qed.

Lemma askParents_inv r fuel w fm w' :
  inv r (tree w) → askParents fuel w = Some (fm, w') →
  inv r (tree w')
  ∧ ptr_below (length (FamilyTree.memberPool (tree w'))) fm.1
  ∧ ptr_below (length (FamilyTree.memberPool (tree w'))) fm.2.
Proof.
  intros Hinv Hrun. unfold askParents in Hrun.
  apply bind_Some in Hrun as (f & w1 & Hf & Hrun).
  apply bind_Some in Hrun as (m & w2 & Hm & Hrun).
  destruct (askParent_inv r _ _ _ _ _ _ Hinv Hf) as (Hinv1 & Hfv & _).
  destruct (askParent_inv r _ _ _ _ _ _ Hinv1 Hm) as (Hinv2 & Hmv & Hle).
  apply (ptr_below_mono _ _ _ Hle) in Hfv.
  destruct f as [f|], m as [m|].
  - cmd_inv. done.
  - apply bind_Some in Hrun as (m' & w3 & Hs & Hrun). cmd_inv.
    destruct (askSpouse_inv r _ _ _ _ _ _ _ Hinv2 Hs) as (Hinv3 & Hsv & Hle3).
    split; [done|]. split; [|done]. by apply (ptr_below_mono _ _ _ Hle3).
  - apply bind_Some in Hrun as (f' & w3 & Hs & Hrun). cmd_inv.
    destruct (askSpouse_inv r _ _ _ _ _ _ _ Hinv2 Hs) as (Hinv3 & Hsv & Hle3).
    split; [done|]. split; [done|]. by apply (ptr_below_mono _ _ _ Hle3).
  - cmd_inv. done.
Qed.

Lemma linkMember_inv r fuel name g al f m w u w' :
  inv r (tree w) →
  ptr_below (length (FamilyTree.memberPool (tree w))) f →
  ptr_below (length (FamilyTree.memberPool (tree w))) m →
  linkMember fuel name g al f m w = Some (u, w') →
  inv r (tree w').
Proof.
  intros Hinv Hf Hm Hrun. unfold linkMember in Hrun.
  apply bind_Some in Hrun as (tr & w0 & Hg & Hrun). apply getTree_Some in Hg as [-> ->].
  apply bind_Some in Hrun as (nm & w1 & Hnew & Hrun).
  destruct (newMember_mid r _ _ _ _ _ _ Hinv Hnew) as [-> Hmid].
  set (a := length (FamilyTree.memberPool (tree w))) in *.
  pose proof Hmid as (_ & Hra & Hlen & _).
  rewrite (inv_root r _ Hinv) in Hrun.
  destruct f as [f|], m as [m|]; simpl in Hf, Hm.
  - apply bind_Some in Hrun as (? & w2 & Hstep & Hrun).
    apply bind_Some in Hstep as (? & w3 & Hupd & Hadd).
    apply (updMember_mid r a) in Hupd;
      [|done|intros ?; apply setFather_ok; simpl; lia].
    destruct (addChildOf_inv r a fuel f _ _ _ Hupd Hf Hadd) as [Hinv2 Hlen2].
    apply bind_Some in Hrun as (? & w4 & Hstep & Hrun).
    apply bind_Some in Hstep as (? & w5 & Hupd2 & Hret). cmd_inv.
    assert (a ≠ r) as Har by lia.
    assert (∀ b mm, member_ok (length (FamilyTree.memberPool (tree w2))) b a mm →
              member_ok (length (FamilyTree.memberPool (tree w2))) b a
                (FamilyMember.setMother (Some m) mm)) as Hok.
    { intros b mm. apply setMother_ok. rewrite Hlen2. simpl. lia. }
    by destruct (updMember_inv r a _ _ _ _ Hinv2 Hok (or_intror Har) Hupd2) as [Hi _].
  - apply bind_Some in Hrun as (? & w2 & Hstep & Hrun).
    apply bind_Some in Hstep as (? & w3 & Hupd & Hadd).
    apply (updMember_mid r a) in Hupd;
      [|done|intros ?; apply setFather_ok; simpl; lia].
    destruct (addChildOf_inv r a fuel f _ _ _ Hupd Hf Hadd) as [Hinv2 Hlen2].
    cmd_inv. done.
  - cmd_inv.
    match goal with H : updMember _ _ _ = Some _ |- _ =>
      apply (updMember_mid r a) in H;
        [|by rewrite ?Hrun0|intros ?; apply setMother_ok; simpl; lia] end.
    match goal with
    | H : addChildOf _ _ _ _ = Some _, Hm' : mid _ _ _ |- _ =>
        by destruct (addChildOf_inv r a fuel m _ _ _ Hm' Hm H) end.
  - cmd_inv.
    match goal with
    | H : addChildOf _ _ _ _ = Some _ |- _ =>
        by destruct (addChildOf_inv r a fuel r _ _ _ Hmid Hra H) end.
Qed.

Lemma addMemberInteractive_inv r fuel w u w' :
  inv r (tree w) → addMemberInteractive fuel w = Some (u, w') → inv r (tree w').
Proof.
  intros Hinv Hrun. unfold addMemberInteractive in Hrun.
  apply bind_Some in Hrun as (tr & w0 & Hg & Hrun). apply getTree_Some in Hg as [-> ->].
  rewrite (inv_root r _ Hinv) in Hrun. cmd_inv.
  destruct (emptyName _); cmd_inv; [done|].
  destruct (findByName _ _); cmd_inv; [done|].
  match goal with H : (if ?b then _ else _) _ = Some _ |- _ => destruct b end.
  - match goal with
    | H : askParents _ ?w5 = Some _, He : tree ?w5 = tree w |- _ =>
        rewrite <- He in Hinv;
        destruct (askParents_inv r _ _ _ _ Hinv H) as (Hinv' & Hv1 & Hv2)
    end.
    match goal with
    | Hl : linkMember _ _ _ _ _ _ _ = Some _ |- _ =>
        exact (linkMember_inv r _ _ _ _ _ _ _ _ _ Hinv' Hv1 Hv2 Hl)
    end.
  - cmd_inv.
    match goal with
    | Hl : linkMember _ _ _ _ _ _ ?w5 = Some _, He : tree ?w5 = tree w |- _ =>
        rewrite <- He in Hinv; simpl in Hl;
        exact (linkMember_inv r _ _ _ _ None None _ _ _ Hinv I I Hl)
    end.
Qed.

Lemma markLateInteractive_inv r w u w' :
  inv r (tree w) → markLateInteractive w = Some (u, w') → inv r (tree w').
Proof.
  intros Hinv Hrun. unfold markLateInteractive in Hrun.
  apply bind_Some in Hrun as (tr & w0 & Hg & Hrun). apply getTree_Some in Hg as [-> ->].
  rewrite (inv_root r _ Hinv) in Hrun. cmd_inv.
  destruct (emptyName _); cmd_inv; [done|].
  destruct (findByName _ _); cmd_inv; [|done].
  destruct (negb _); cmd_inv; [done|].
  match goal with H : (if ?b then _ else _) _ = Some _ |- _ => destruct b end; cmd_inv;
    [|done].
  match goal with
  | Hu : updMember ?a ?f ?w5 = Some _, He : tree ?w5 = tree w |- _ =>
      rewrite <- He in Hinv;
      assert (∀ b mm, member_ok (length (FamilyTree.memberPool (tree w5))) b a mm →
                member_ok (length (FamilyTree.memberPool (tree w5))) b a (f mm)) as Hok
        by (intros b mm; apply setAlive_ok);
      by destruct (updMember_inv r a w5 _ _ f Hinv Hok (or_introl (λ m, conj eq_refl eq_refl)) Hu)
  end.
Qed.

Lemma createRootInteractive_inv w b w' :
  tree_inv (tree w) → createRootInteractive w = Some (b, w') → tree_inv (tree w').
Proof.
  intros Hinv Hrun. unfold createRootInteractive in Hrun.
  apply bind_Some in Hrun as (tr & w0 & Hg & Hrun). apply getTree_Some in Hg as [-> ->].
  unfold tree_inv in Hinv. destruct (FamilyTree.root (tree w)) as [r|] eqn:Hroot.
  - cmd_inv. unfold tree_inv. by rewrite Hroot.
  - cmd_inv. destruct (emptyName _); cmd_inv.
    { unfold tree_inv. by rewrite Hroot. }
    match goal with H : newMember _ _ _ _ = Some _ |- _ => unfold newMember in H end.
    cmd_inv. unfold tree_inv, inv, FamilyTree.memCount. simpl. rewrite Hinv. simpl.
    split; [done|]. split; [lia|]. split.
    + apply (ordered_app_new 1 []). by intros [|?] ?.
    + eexists. split; [done|]. done.
Qed.

Lemma showCenteredTree_tree fuel w u w' :
  showCenteredTree fuel w = Some (u, w') → tree w' = tree w.
Proof.
  intros Hrun. unfold showCenteredTree in Hrun.
  apply bind_Some in Hrun as (tr & w0 & Hg & Hrun). apply getTree_Some in Hg as [-> ->].
  destruct (FamilyTree.root (tree w)); cmd_inv; done.
Qed.

Lemma showAllNames_tree w u w' : showAllNames w = Some (u, w') → tree w' = tree w.
Proof. intros Hrun. unfold showAllNames in Hrun. cmd_inv. done. Qed.

Lemma not_rooted_inv fuel op w u w' :
  FamilyTree.root (tree w) = None → op ≠ CreateRoot →
  exec fuel op w = Some (u, w') → tree w' = tree w.
Proof.
  intros Hroot Hop Hrun. destruct op; [done| | | |]; simpl in Hrun.
  - unfold addMemberInteractive in Hrun.
    apply bind_Some in Hrun as (tr & w0 & Hg & Hrun). apply getTree_Some in Hg as [-> ->].
    rewrite Hroot in Hrun. cmd_inv. done.
  - unfold markLateInteractive in Hrun.
    apply bind_Some in Hrun as (tr & w0 & Hg & Hrun). apply getTree_Some in Hg as [-> ->].
    rewrite Hroot in Hrun. cmd_inv. done.
  - by eapply showCenteredTree_tree.
  - by eapply showAllNames_tree.
Qed.

Lemma exec_inv fuel op w u w' :
  tree_inv (tree w) → exec fuel op w = Some (u, w') → tree_inv (tree w').
Proof.
  intros Hinv Hrun.
  assert (op = CreateRoot ∨ op ≠ CreateRoot) as [->|Hop] by (destruct op; auto).
  - simpl in Hrun. cmd_inv. by eapply createRootInteractive_inv.
  - destruct (FamilyTree.root (tree w)) as [r|] eqn:Hroot.
    + unfold tree_inv in *. rewrite Hroot in Hinv.
      assert (inv r (tree w')) as Hinv'.
      { destruct op; [done| | | |]; simpl in Hrun.
        - by eapply addMemberInteractive_inv.
        - by eapply markLateInteractive_inv.
        - by rewrite (showCenteredTree_tree _ _ _ _ Hrun).
        - by rewrite (showAllNames_tree _ _ _ Hrun). }
      by rewrite (inv_root r _ Hinv').
    + by rewrite (not_rooted_inv fuel op w u w' Hroot Hop Hrun).
Qed.

Lemma steps_inv w0 w : rtc step w0 w → tree_inv (tree w0) → tree_inv (tree w).
Proof.
  induction 1 as [w0|w0 w1 w2 Hstep _ IH]; [done|].
  intros Hinv. apply IH. destruct Hstep as (fuel & op & Hrun). by eapply exec_inv.
Qed.

(** Every registry a run of the menu can reach has the shape [tree_inv]. *)
Lemma reachable_inv w : reachable w → tree_inv (tree w).
Proof.
  intros (w0 & Hinit & Hsteps). apply (steps_inv w0 w Hsteps).
  unfold tree_inv. by rewrite Hinit.
Qed.

Lemma tree_inv_genders tr : tree_inv tr → Forall gender_ok (FamilyTree.memberPool tr).
Proof.
  unfold tree_inv. destruct (FamilyTree.root tr) as [r|].
  - intros (_ & _ & Hord & _). apply Forall_lookup. intros a m Hm.
    by destruct (Hord a m Hm) as (_ & _ & _ & _ & ?).
  - intros ->. constructor.
Qed.


(** ** Child lists *)

Lemma chainFrom_app fuel h m c l :
  chainFrom fuel h c = Some l → chainFrom fuel (h ++ [m]) c = Some l.
Proof.
  revert c l. induction fuel as [|k IH]; intros [x|] l; cbn [chainFrom]; try done.
  destruct (h !! x) as [xm|] eqn:Hx; [|done]. cbn [mbind option_bind].
  rewrite (lookup_app_l_Some _ _ _ _ Hx). cbn [mbind option_bind].
  destruct (chainFrom k h _) as [l'|] eqn:Hl; [|done].
  by rewrite (IH _ _ Hl).
Qed.

Lemma chainFrom_total fuel h b c :
  ordered b h → b ≤ length h → ptr_below b c → b ≤ fuel + default b c →
  is_Some (chainFrom fuel h c).
Proof.
  intros Hord Hb. revert c. induction fuel as [|k IH]; intros [x|] Hc Hfuel;
    cbn [chainFrom]; try by eexists.
  - simpl in *. lia.
  - simpl in Hc, Hfuel. destruct (lookup_lt_is_Some_2 h x) as [m Hm]; [lia|].
    rewrite Hm. cbn [mbind option_bind].
    destruct (Hord x m Hm) as (_ & _ & _ & Hns & _).
    destruct (IH (FamilyMember.nextSibling m)) as [l Hl].
    + destruct (FamilyMember.nextSibling m); simpl in *; [lia|done].
    + destruct (FamilyMember.nextSibling m); simpl in *; lia.
    + rewrite Hl. by eexists.
Qed.

Lemma chainFrom_S k h x :
  chainFrom (S k) h (Some x)
  = m ← h !! x; l ← chainFrom k h (FamilyMember.nextSibling m); Some (x :: l).
Proof. done. Qed.

Lemma chainFrom_None k h : chainFrom k h None = Some [].
Proof. by destruct k. Qed.

Lemma lastSibling_S k h x :
  FamilyMember.lastSibling (S k) h x
  = m ← h !! x;
    match FamilyMember.nextSibling m with
    | None => Some x
    | Some s => FamilyMember.lastSibling k h s
    end.
Proof. done. Qed.

(** The chain from [x] after the newest member [a] has been hung on its
    last element [t]. *)
Lemma chainFrom_append fuel h a am x l t tm :
  ordered a h → h !! a = Some am → FamilyMember.nextSibling am = None →
  h !! t = Some tm →
  x < a →
  chainFrom fuel h (Some x) = Some l →
  FamilyMember.lastSibling fuel h x = Some t →
  chainFrom (S fuel) (<[t := FamilyMember.setNextSibling (Some a) tm]> h) (Some x)
  = Some (l ++ [a]).
Proof.
  intros Hord Ha Hans Htm. revert x l.
  induction fuel as [|k IH]; intros x l Hx; [done|].
  rewrite (chainFrom_S k h), lastSibling_S, (chainFrom_S (S k)).
  destruct (h !! x) as [m|] eqn:Hm; [|done]. cbn [mbind option_bind].
  destruct (Hord x m Hm) as (_ & _ & _ & Hns & _).
  destruct (FamilyMember.nextSibling m) as [s|] eqn:Hs; simpl in Hns.
  - destruct (chainFrom k h (Some s)) as [l'|] eqn:Hl; [|done]. cbn [mbind option_bind].
    intros [= <-] Hlast.
    destruct (lastSibling_ordered k h a s t Hord) as [Hst _]; [lia|done|].
    rewrite list_lookup_insert_ne by lia. rewrite Hm. cbn [mbind option_bind].
    rewrite Hs. rewrite (IH s l') by (done || lia). done.
  - rewrite chainFrom_None. cbn [mbind option_bind]. intros [= <-] [= <-].
    rewrite Hm in Htm. injection Htm as <-.
    rewrite list_lookup_insert_eq by (by eapply lookup_lt_Some).
    cbn [mbind option_bind FamilyMember.setNextSibling FamilyMember.nextSibling].
    rewrite chainFrom_S. rewrite list_lookup_insert_ne by lia. rewrite Ha.
    cbn [mbind option_bind]. rewrite Hans, chainFrom_None. done.
Qed.

Lemma member_addChild_children fuel h s a am h' kids :
  length h = S a → s < a → ordered a h →
  h !! a = Some am → FamilyMember.nextSibling am = None →
  FamilyMember.addChild fuel h s (Some a) = Some h' →
  childrenOf fuel h s = Some kids →
  childrenOf (S fuel) h' s = Some (kids ++ [a])
  ∧ h' !! a = Some am
  ∧ ∀ j m, h !! j = Some m → ∃ m', h' !! j = Some m' ∧ same_person m m'.
Proof.
  intros Hlen Hs Hord Ha Hans. unfold FamilyMember.addChild, childrenOf.
  destruct (h !! s) as [m|] eqn:Hm; [|done]. cbn [mbind option_bind].
  destruct (Hord s m Hm) as (_ & _ & Hfcb & _).
  destruct (FamilyMember.firstChild m) as [fc|] eqn:Hfc; simpl in Hfcb.
  - destruct (FamilyMember.lastSibling fuel h fc) as [t|] eqn:Ht; [|done]. cbn [mbind option_bind].
    destruct (h !! t) as [tm|] eqn:Htm; [|done]. cbn [mbind option_bind].
    intros [= <-] Hkids.
    destruct (lastSibling_ordered fuel h a fc t Hord) as [Ht' _]; [lia|done|].
    split; [|split].
    + rewrite list_lookup_insert_ne by lia. rewrite Hm. cbn [mbind option_bind].
      rewrite Hfc. eapply chainFrom_append; try done. lia.
    + rewrite list_lookup_insert_ne by lia. done.
    + intros j mj Hj. destruct (decide (t = j)) as [->|Hne].
      * rewrite list_lookup_insert_eq by (by eapply lookup_lt_Some).
        rewrite Htm in Hj. injection Hj as <-. eexists. split; [done|]. by repeat split.
      * rewrite list_lookup_insert_ne by done. exists mj. split; [done|]. by repeat split.
  - intros [= <-]. rewrite chainFrom_None. intros [= <-]. split; [|split].
    + rewrite list_lookup_insert_eq by (by eapply lookup_lt_Some).
      cbn [mbind option_bind FamilyMember.setFirstChild FamilyMember.firstChild].
      rewrite chainFrom_S. rewrite list_lookup_insert_ne by lia. rewrite Ha.
      cbn [mbind option_bind]. rewrite Hans, chainFrom_None. done.
    + rewrite list_lookup_insert_ne by lia. done.
    + intros j mj Hj. destruct (decide (s = j)) as [->|Hne].
      * rewrite list_lookup_insert_eq by (by eapply lookup_lt_Some).
        rewrite Hm in Hj. injection Hj as <-. eexists. split; [done|]. by repeat split.
      * rewrite list_lookup_insert_ne by done. exists mj. split; [done|]. by repeat split.
Qed.

Lemma childrenOf_total fuel h r :
  ordered (length h) h → r < length h → length h ≤ fuel → is_Some (childrenOf fuel h r).
Proof.
  intros Hord Hr Hfuel. unfold childrenOf.
  destruct (lookup_lt_is_Some_2 h r Hr) as [m Hm]. rewrite Hm. cbn [mbind option_bind].
  destruct (Hord r m Hm) as (_ & _ & Hfc & _).
  apply (chainFrom_total fuel h (length h)); [done|lia| |].
  - destruct (FamilyMember.firstChild m); simpl in *; [lia|done].
  - destruct (FamilyMember.firstChild m); simpl in *; lia.
Qed.

Lemma childrenOf_app fuel h m r kids :
  childrenOf fuel h r = Some kids → childrenOf fuel (h ++ [m]) r = Some kids.
Proof.
  unfold childrenOf. destruct (h !! r) as [rm|] eqn:Hr; [|done].
  rewrite (lookup_app_l_Some _ _ _ _ Hr). cbn [mbind option_bind]. apply chainFrom_app.
Qed.

(** *** A member added without parents *)

Lemma linkMember_unparented fuel name g al w r :
  inv r (tree w) →
  length (FamilyTree.memberPool (tree w)) ≤ fuel →
  let pool := FamilyTree.memberPool (tree w) in
  let n := length pool in
  ∃ w' kids,
    linkMember fuel name g al None None w = Some (tt, w')
    ∧ input w' = input w
    ∧ FamilyTree.root (tree w') = Some r
    ∧ length (FamilyTree.memberPool (tree w')) = S n
    ∧ FamilyTree.memberPool (tree w') !! n = Some (FamilyMember.new name g al)
    ∧ childrenOf fuel pool r = Some kids
    ∧ childrenOf (S fuel) (FamilyTree.memberPool (tree w')) r = Some (kids ++ [n])
    ∧ ∀ j m, pool !! j = Some m →
        ∃ m', FamilyTree.memberPool (tree w') !! j = Some m' ∧ same_person m m'.
Proof.
  intros Hinv Hfuel pool n. pose proof Hinv as (Hroot & Hr & Hord & Hun).
  destruct (childrenOf_total fuel pool r Hord Hr Hfuel) as [kids Hkids].
  set (h1 := pool ++ [FamilyMember.new name g al]).
  assert (length h1 = S n) as Hlen1 by (unfold h1; rewrite length_app; simpl; lia).
  assert (ordered n h1) as Hord1 by (by apply ordered_app_new).
  assert (h1 !! n = Some (FamilyMember.new name g al)) as Hn1.
  { unfold h1. rewrite lookup_app_r by done. by rewrite Nat.sub_diag. }
  destruct (member_addChild_total fuel h1 r n Hlen1 Hr Hord1 Hfuel) as [h2 Hh2].
  destruct (member_addChild_children fuel h1 r n _ h2 kids Hlen1 Hr Hord1 Hn1 eq_refl Hh2
              (childrenOf_app _ _ _ _ _ Hkids)) as (Hkids2 & Hn2 & Hsame).
  destruct (member_addChild_ordered fuel h1 r n h2 r Hlen1 Hr Hord1
              (unparented_app _ _ _ Hun) Hh2) as (Hlen2 & _ & _).
  eexists _, kids.
  split.
  { unfold linkMember, newMember, addChildOf, bind, getTree, putTree, ret, say, lift.
    cbn [tree input output]. rewrite Hroot.
    unfold FamilyTree.poolAdd, FamilyTree.memCount. cbn [FamilyTree.memberPool].
    fold pool. fold h1. fold n. rewrite Hh2. cbn [tree input output]. reflexivity. }
  cbn [tree input output FamilyTree.setPool FamilyTree.memberPool FamilyTree.root].
  split; [done|]. split; [done|]. split; [done|]. split; [done|]. split; [done|].
  split; [done|].
  intros j m Hj. apply Hsame. unfold h1. by apply lookup_app_l_Some.
Qed.

Lemma addMember_no_parents fuel w r name gk ak nk rest :
  FamilyTree.root (tree w) = Some r →
  input w = Line name :: Key gk :: Key ak :: Key nk :: rest →
  length name < 64 →
  emptyName name = false →
  findByName (tree w) name = None →
  isGender gk = true →
  ak ∈ ["y"; "Y"; "n"; "N"]%char →
  nk ∈ ["n"; "N"]%char →
  ∃ out,
    addMemberInteractive fuel w
    = linkMember fuel name
        (if bool_decide (gk = "M"%char) || bool_decide (gk = "m"%char)
         then "M"%char else "F"%char)
        (bool_decide (ak = "y"%char) || bool_decide (ak = "Y"%char))
        None None
        {| tree := tree w; input := rest; output := out |}.
Proof.
  intros Hroot Hinput Hlen Hname Hfind Hg Ha Hn.
  unfold addMemberInteractive. unfold bind at 1. unfold getTree at 1. rewrite Hroot.
  unfold bind at 1. rewrite (readLine_run _ _ _ _ _ Hinput Hlen), Hname, Hfind.
  unfold bind at 1. erewrite readGender_run; [|reflexivity|done].
  unfold bind at 1. erewrite readYesNoDefaultYes_run; [|reflexivity|done].
  unfold bind at 1. unfold say at 1.
  unfold bind at 1. erewrite readYesNo_run; [|reflexivity|by apply no_is_answer].
  rewrite (no_is_false nk Hn). unfold bind at 1. unfold ret at 1. cbn [fst snd].
  by eexists.
Qed.

Lemma aliceWorld_reachable rest : reachable (aliceWorld rest).
Proof.
  exists (freshWorld (Line (lit "Alice") :: Key "F"%char :: Key "y"%char :: rest)).
  split; [done|]. eapply rtc_l; [|apply rtc_refl]. exists 0, CreateRoot. reflexivity.
Defined.

Lemma threeGenerations_run :
  tree <$> runOps 4 [CreateRoot; AddMember; AddMember] (freshWorld threeGenerationsInput)
  = Some {| FamilyTree.root := Some 0; FamilyTree.memberPool := threeGenerations |}.
Proof. reflexivity. Qed.

(** ** Acyclic registries *)

Lemma ordered_linked h : ordered (length h) h → heap_linked h.
Proof.
  intros Hord a m Hm. destruct (Hord a m Hm) as (Hf & Hmo & Hfc & Hns & _).
  split; [done|]. split; [done|].
  split; [destruct (FamilyMember.firstChild m)|destruct (FamilyMember.nextSibling m)];
    simpl in *; try done; lia.
Qed.

Lemma ordered_link h b x y : ordered b h → link h x y → x < y.
Proof.
  intros Hord (m & Hm & Hl). destruct (Hord x m Hm) as (_ & _ & Hfc & Hns & _).
  destruct Hl as [Hl|Hl]; rewrite Hl in *; simpl in *; lia.
Qed.

Lemma ordered_acyclic h b : ordered b h → acyclic h.
Proof.
  intros Hord x Hx.
  assert (∀ a c, tc (link h) a c → a < c) as Hlt.
  { induction 1 as [a c Hl|a c d Hl _ IH].
    - by eapply ordered_link.
    - apply (ordered_link _ _ _ _ Hord) in Hl. lia. }
  specialize (Hlt x x Hx). lia.
Qed.

Lemma link_target h x y : heap_linked h → link h x y → y < length h.
Proof.
  intros Hl (m & Hm & Hxy). destruct (Hl x m Hm) as (_ & _ & Hfc & Hns).
  destruct Hxy as [Hxy|Hxy]; rewrite Hxy in *; done.
Qed.

Lemma linked_sn h x : heap_linked h → acyclic h → sn (link h) x.
Proof.
  intros Hl Hac. apply tc_finite_sn; [done|].
  exists (seq 0 (length h)). intros y Hy. apply elem_of_seq.
  assert (y < length h); [|lia].
  induction Hy as [a c Hl'|a c d _ _ IH]; [by eapply link_target|done].
Qed.

Lemma bounded_mono h n n' x : n ≤ n' → bounded h n x → bounded h n' x.
Proof. intros Hn Hb k y Hk. specialize (Hb k y Hk). lia. Qed.

Lemma bounded_link h n x y : bounded h n x → link h x y → ∃ n', n = S n' ∧ bounded h n' y.
Proof.
  intros Hb Hl. destruct n as [|n'].
  - assert (nsteps (link h) 1 x y) as H1 by (by apply nsteps_once).
    specialize (Hb 1 y H1). lia.
  - exists n'. split; [done|]. intros k z Hk.
    assert (nsteps (link h) (S k) x z) as H1 by (by eapply nsteps_l).
    specialize (Hb (S k) z H1). lia.
Qed.

Lemma bounded_leaf h x : (∀ y, ¬ link h x y) → bounded h 0 x.
Proof.
  intros Hno k y Hk. destruct Hk as [|k a b c Hl _]; [done|]. by destruct (Hno b).
Qed.

Lemma sn_bounded h x : sn (link h) x → ∃ n, bounded h n x.
Proof.
  induction 1 as [x _ IH]. simpl in IH.
  destruct (h !! x) as [m|] eqn:Hm.
  - assert (∀ p : option nat, (∀ y, p = Some y → link h x y) →
              ∃ n, ∀ y, p = Some y → bounded h n y) as Hp.
    { intros [y|] Hy; [|by exists 0].
      destruct (IH y (Hy y eq_refl)) as [n Hn]. exists n. by intros ? [= <-]. }
    destruct (Hp (FamilyMember.firstChild m)) as [n1 Hn1].
    { intros y Hy. exists m. auto. }
    destruct (Hp (FamilyMember.nextSibling m)) as [n2 Hn2].
    { intros y Hy. exists m. auto. }
    exists (S (n1 `max` n2)). intros k z Hk. destruct Hk as [|k a b c Hl Hk]; [lia|].
    destruct Hl as (m' & Hm' & Hl). rewrite Hm in Hm'. injection Hm' as <-.
    destruct Hl as [Hl|Hl].
    + specialize (Hn1 b Hl k c Hk). lia.
    + specialize (Hn2 b Hl k c Hk). lia.
  - exists 0. apply bounded_leaf. intros y (m & Hm' & _). congruence.
Qed.

(** In a finite acyclic registry the chains of links have a common bound. *)
Lemma acyclic_bounded h :
  heap_linked h → acyclic h → ∃ n, ∀ x, bounded h n x.
Proof.
  intros Hl Hac.
  assert (∀ len, ∃ n, ∀ x, x < len → bounded h n x) as Hlen.
  { induction len as [|len [n IH]]; [exists 0; intros; lia|].
    destruct (sn_bounded h len (linked_sn h len Hl Hac)) as [n' Hn'].
    exists (n `max` n'). intros x Hx. destruct (decide (x = len)) as [->|Hne].
    - eapply bounded_mono; [|done]. lia.
    - eapply bounded_mono; [|apply IH]; lia. }
  destruct (Hlen (length h)) as [n Hn]. exists n. intros x.
  destruct (decide (x < length h)) as [Hx|Hx]; [by apply Hn|].
  eapply bounded_mono; [|apply bounded_leaf]; [lia|].
  intros y (m & Hm & _). apply lookup_lt_Some in Hm. lia.
Qed.

(** ** The generation walk *)

(** Expanding a parent files the members of its child list, in order. *)
Lemma expandChain_chain fuel h c nextGen :
  expandChain fuel h c nextGen
  = l ← chainFrom fuel h c; buildFamilyPairs_from h (Some <$> l) nextGen.
Proof.
  revert c nextGen. induction fuel as [|k IH]; intros [x|] nextGen; try done.
  rewrite chainFrom_S. cbn [expandChain].
  destruct (h !! x) as [m|] eqn:Hm; [|done]. cbn [mbind option_bind].
  rewrite IH. destruct (chainFrom k h _) as [l|]; [|done].
  cbn [mbind option_bind fmap list_fmap buildFamilyPairs_from]. by rewrite Hm.
Qed.

Lemma childrenOf_Some fuel h a pm :
  h !! a = Some pm → childrenOf fuel h a = chainFrom fuel h (FamilyMember.firstChild pm).
Proof. intros H. unfold childrenOf. by rewrite H. Qed.

Lemma childrenOf_None fuel h a : h !! a = None → childrenOf fuel h a = None.
Proof. intros H. unfold childrenOf. by rewrite H. Qed.

Lemma expandAll_chains fuel h childList nextGen :
  expandAll fuel h childList nextGen
  = ls ← mapM (λ p : option nat, a ← p; childrenOf fuel h a) childList;
    buildFamilyPairs_from h (Some <$> concat ls) nextGen.
Proof.
  revert nextGen. induction childList as [|p rest IH]; intros nextGen; [done|].
  cbn [expandAll mapM]. destruct p as [a|]; [|reflexivity]. cbn [mbind option_bind].
  destruct (h !! a) as [pm|] eqn:Hpm.
  - rewrite (childrenOf_Some _ _ _ _ Hpm). cbn [mbind option_bind].
    rewrite expandChain_chain.
    destruct (chainFrom fuel h _) as [l|]; [|reflexivity]. cbn [mbind option_bind].
    destruct (mapM _ rest) as [ls|] eqn:Hls.
    + cbn [mbind option_bind mret option_ret concat]. rewrite fmap_app.
      rewrite buildFamilyPairs_from_app.
      destruct (buildFamilyPairs_from h (Some <$> l) nextGen) as [ng|]; [|done].
      cbn [mbind option_bind]. by rewrite IH.
    + cbn [mbind option_bind].
      destruct (buildFamilyPairs_from h (Some <$> l) nextGen) as [ng|]; [|done].
      cbn [mbind option_bind]. by rewrite IH.
  - by rewrite (childrenOf_None _ _ _ Hpm).
Qed.

(** C1. Grouping goes through the members in order; a member whose
    (father, mother) key, compared as pointers, is already the key of a unit
    is appended to that unit's children, otherwise a new unit with that key
    and this only child is appended at the end.  So the units come in the
    order in which their keys are first met, and each unit holds, in input
    order, exactly the members filed under its key.  The expansion loop of
    [showCenteredTree] is this same grouping, applied to the child lists of
    the children of the current generation. *)
Theorem C1_grouping h members ks :
  mapM (memberKey h) members = Some ks →
  ∃ units,
    buildFamilyPairsForMembers h members = Some units
    ∧ view units = groupSpec (zip ks members)
    ∧ map key units = firstSeen ks
    ∧ NoDup (map key units)
    ∧ (∀ u, u ∈ units →
         FamilyPair.kids u = filter (λ c, memberKey h c = Some (key u)) members
         ∧ FamilyPair.kids u ≠ [])
    ∧ (∀ c cm, h !! c = Some cm →
         let f := FamilyMember.father cm in
         let m := FamilyMember.mother cm in
         buildFamilyPairsForMembers h (members ++ [Some c])
         = Some (match list_find (λ u, key u = (f, m)) units with
                 | Some (i, u) => <[i := FamilyPair.addChild (Some c) u]> units
                 | None => units ++ [FamilyPair.addChild (Some c) (FamilyPair.new f m)]
                 end)
         ∧ FamilyPair.kids (FamilyPair.addChild (Some c) (FamilyPair.new f m)) = [Some c]
         ∧ ∀ u, u ∈ units →
             FamilyPair.kids (FamilyPair.addChild (Some c) u) = FamilyPair.kids u ++ [Some c]
             ∧ key (FamilyPair.addChild (Some c) u) = key u)
    ∧ (∀ fuel childList,
         expandAll fuel h childList []
         = ls ← mapM (λ p : option nat, a ← p; childrenOf fuel h a) childList;
           buildFamilyPairsForMembers h (Some <$> concat ls)).
Proof.
  intros Hks.
  destruct (buildFamilyPairs_from_view h members ks [] Hks) as (units & Hb & Hwf & Hv);
    [constructor|].
  exists units. change (view units = groupSpec (zip ks members)) in Hv.
  pose proof (groupSpec_ok (zip ks members)) as (Hnd & _ & Hgs). rewrite <- Hv in Hnd, Hgs.
  assert (map fst (view units) = map key units) as Hkeys.
  { unfold view. rewrite map_map. done. }
  split; [done|]. split; [done|]. split; [|split; [|split; [|split]]].
  - rewrite <- Hkeys, Hv, groupSpec_keys. f_equal. by eapply zip_fst_keys.
  - by rewrite <- Hkeys.
  - intros u Hu.
    destruct (Hgs (key u, FamilyPair.kids u)) as [Hk Hne].
    { unfold view. apply list_elem_of_fmap. by exists u. }
    simpl in Hk, Hne. split; [|done]. rewrite Hk. by apply zip_filter_key.
  - intros c cm Hcm f m. split; [|split].
    + unfold buildFamilyPairsForMembers in *.
      rewrite buildFamilyPairs_from_app, Hb. cbn [mbind option_bind buildFamilyPairs_from].
      rewrite Hcm. cbn [mbind option_bind]. by rewrite addToPairs_find.
    + by destruct (addChild_spec c _ (wf_new f m)) as (_ & -> & _).
    + intros u Hu. rewrite Forall_forall in Hwf.
      destruct (addChild_spec c u (Hwf u Hu)) as (_ & -> & _ & Hf & Hm).
      unfold key. by rewrite Hf, Hm.
  - intros fuel childList. apply expandAll_chains.
Qed.

Lemma C1_grouping_witness :
  ∃ units,
    buildFamilyPairsForMembers carolDave [Some 0; Some 1] = Some units
    ∧ view units = [((None, None), [Some 0]); ((Some 0, None), [Some 1])].
Proof.
  destruct (C1_grouping carolDave [Some 0; Some 1] [(None, None); (Some 0, None)])
    as (units & Hb & Hv & _); [reflexivity|].
  exists units. split; [exact Hb|exact Hv].
Defined.

Lemma collect_cells_spec t i n acc :
  FamilyPair.wf t → i + n = FamilyPair.childCount t →
  collect_cells t (seq i n) acc
  = Some (addDistinct acc (take n (drop i (FamilyPair.kids t)))).
Proof.
  intros Hwf. revert i acc. induction n as [|n IH]; intros i acc Hin; [done|].
  cbn [seq collect_cells].
  destruct (getChild_in_range t (Z.of_nat i) Hwf) as [Hg [c Hc]]; [lia|].
  rewrite Nat2Z.id in Hg, Hc. rewrite Hg, Hc. cbn [mbind option_bind].
  rewrite IH by lia.
  rewrite (drop_S _ c i) by done. cbn [take]. done.
Qed.

Lemma collectChildren_spec gen acc :
  Forall FamilyPair.wf gen →
  collectChildren gen acc = Some (addDistinct acc (gen ≫= FamilyPair.kids)).
Proof.
  intros Hwf. revert acc. induction Hwf as [|t r Ht _ IH]; intros acc; [done|].
  cbn [collectChildren]. unfold FamilyPair.getChildCount.
  rewrite (collect_cells_spec t 0) by (done || lia). cbn [mbind option_bind].
  rewrite IH. rewrite drop_0. 
  assert (take (FamilyPair.childCount t) (FamilyPair.kids t) = FamilyPair.kids t) as ->.
  { apply take_ge. rewrite kids_length by done. lia. }
  unfold addDistinct. cbn [mbind list_bind]. by rewrite foldl_app.
Qed.

Lemma addDistinct_NoDup acc l : NoDup acc → NoDup (addDistinct acc l).
Proof.
  revert acc. induction l as [|c l IH]; intros acc Hnd; [done|].
  unfold addDistinct. cbn [foldl]. apply IH. case_bool_decide as Hc; [done|].
  apply NoDup_app. split; [done|]. split; [|apply NoDup_singleton].
  by intros x Hx ->%list_elem_of_singleton.
Qed.

Lemma addDistinct_elem acc l c : c ∈ addDistinct acc l ↔ c ∈ acc ∨ c ∈ l.
Proof.
  revert acc. induction l as [|x l IH]; intros acc.
  - unfold addDistinct. simpl. rewrite elem_of_nil. tauto.
  - unfold addDistinct in *. cbn [foldl]. rewrite IH, elem_of_cons.
    case_bool_decide as Hx.
    + split; [tauto|]. intros [?|[->|?]]; tauto.
    + rewrite elem_of_app, list_elem_of_singleton. tauto.
Qed.

Lemma pair_ok_mono h n n' p : n ≤ n' → pair_ok h n p → pair_ok h n' p.
Proof.
  intros Hn (? & ? & ? & Hk). split; [done|]. split; [done|]. split; [done|].
  eapply Forall_impl; [done|]. intros c (a & -> & ? & Hb). exists a.
  split; [done|]. split; [done|]. by eapply bounded_mono.
Qed.

Lemma addToPairs_ok h n f m c head :
  ptr_below (length h) f → ptr_below (length h) m →
  c < length h → bounded h n c →
  Forall (pair_ok h n) head →
  Forall (pair_ok h n) (addToPairs f m (Some c) head).
Proof.
  intros Hf Hm Hc Hb.
  assert (∀ p, pair_ok h n p → pair_ok h n (FamilyPair.addChild (Some c) p)) as Hadd.
  { intros p (Hwf & Hpf & Hpm & Hk).
    destruct (addChild_spec c p Hwf) as (Hwf' & Hk' & _ & Hf' & Hm').
    split; [done|]. rewrite Hf', Hm', Hk'. split; [done|]. split; [done|].
    apply Forall_app. split; [done|]. constructor; [|constructor]. by exists c. }
  induction 1 as [|u r Hu Hr IH]; cbn [addToPairs].
  - constructor; [|constructor]. apply Hadd. split; [apply wf_new|].
    split; [done|]. split; [done|]. constructor.
  - destruct (_ && _); constructor; auto.
Qed.

Lemma buildFamilyPairs_from_ok h n members head :
  heap_linked h →
  Forall (λ a, a < length h ∧ bounded h n a) members →
  Forall (pair_ok h n) head →
  ∃ units, buildFamilyPairs_from h (Some <$> members) head = Some units
           ∧ Forall (pair_ok h n) units.
Proof.
  intros Hl Hms. revert head. induction Hms as [|a ms [Ha Hb] _ IH]; intros head Hh.
  - by exists head.
  - cbn [fmap list_fmap buildFamilyPairs_from mbind option_bind].
    destruct (lookup_lt_is_Some_2 h a Ha) as [cm Hcm]. rewrite Hcm.
    cbn [mbind option_bind]. apply IH.
    destruct (Hl a cm Hcm) as (? & ? & _). by apply addToPairs_ok.
Qed.

Lemma nameOf_total h p : ptr_below (length h) p → is_Some (nameOf h p).
Proof.
  destruct p as [a|]; simpl; [|by eexists]. intros Ha.
  destruct (lookup_lt_is_Some_2 h a Ha) as [m ->]. by eexists.
Qed.

Lemma genderOf_total h d p : ptr_below (length h) p → is_Some (genderOf h d p).
Proof.
  destruct p as [a|]; simpl; [|by eexists]. intros Ha.
  destruct (lookup_lt_is_Some_2 h a Ha) as [m ->]. by eexists.
Qed.

Lemma linesOf_total h n gen : Forall (pair_ok h n) gen → is_Some (linesOf h gen).
Proof.
  intros Hgen. unfold linesOf. apply mapM_is_Some_2.
  eapply Forall_impl; [done|]. intros p (Hwf & Hf & Hm & Hk). simpl.
  destruct (nameOf_total h _ Hf) as [fn Hfn]. destruct (nameOf_total h _ Hm) as [mn Hmn].
  destruct (genderOf_total h "M"%char _ Hf) as [fg Hfg].
  destruct (genderOf_total h "F"%char _ Hm) as [mg Hmg].
  rewrite (parentLine_256 h p fn mn fg mg) by done. cbn [mbind option_bind].
  assert (is_Some (namesOf h (FamilyPair.kids p))) as [names Hnames].
  { unfold namesOf. apply mapM_is_Some_2. eapply Forall_impl; [done|].
    intros c (a & -> & Ha & _). simpl.
    destruct (lookup_lt_is_Some_2 h a Ha) as [m' ->]. by eexists. }
  rewrite (childrenLine_spec h p 256 _ names) by (done || by apply cells_wf).
  by eexists.
Qed.

(** The chain from [x] stays within the bound of [x]. *)
Lemma chainFrom_bounded fuel h n x :
  heap_linked h → x < length h → bounded h n x → n < fuel →
  ∃ l, chainFrom fuel h (Some x) = Some l
       ∧ Forall (λ a, a < length h ∧ bounded h n a) l.
Proof.
  intros Hl. revert n x. induction fuel as [|k IH]; intros n x Hx Hb Hfuel; [lia|].
  rewrite chainFrom_S. destruct (lookup_lt_is_Some_2 h x Hx) as [m Hm]. rewrite Hm.
  cbn [mbind option_bind].
  destruct (FamilyMember.nextSibling m) as [s|] eqn:Hs.
  - assert (link h x s) as Hxs by (exists m; auto).
    destruct (bounded_link h n x s Hb Hxs) as (n' & -> & Hb').
    destruct (IH n' s) as (l & -> & Hall); [by eapply link_target|done|lia|].
    cbn [mbind option_bind]. eexists. split; [done|]. constructor; [done|].
    eapply Forall_impl; [done|]. intros a [? ?]. split; [done|].
    eapply bounded_mono; [|done]. lia.
  - rewrite chainFrom_None. cbn [mbind option_bind]. eexists. split; [done|].
    by repeat constructor.
Qed.

Lemma childrenOf_bounded fuel h n a :
  heap_linked h → a < length h → bounded h n a → n ≤ fuel →
  ∃ l, childrenOf fuel h a = Some l
       ∧ Forall (λ c, c < length h ∧ bounded h (pred n) c) l
       ∧ (n = 0 → l = []).
Proof.
  intros Hl Ha Hb Hfuel. destruct (lookup_lt_is_Some_2 h a Ha) as [m Hm].
  rewrite (childrenOf_Some _ _ _ _ Hm).
  destruct (FamilyMember.firstChild m) as [fc|] eqn:Hfc.
  - assert (link h a fc) as Hafc by (exists m; auto).
    destruct (bounded_link h n a fc Hb Hafc) as (n' & -> & Hb').
    destruct (chainFrom_bounded fuel h n' fc) as (l & Hc & Hall);
      [done|by eapply link_target|done|lia|].
    exists l. split; [done|]. split; [done|lia].
  - rewrite chainFrom_None. exists []. split; [done|]. split; [constructor|done].
Qed.

Lemma nextGeneration_ok fuel h n gen :
  heap_linked h → Forall (pair_ok h n) gen → n ≤ fuel →
  ∃ nextGen cl,
    nextGeneration fuel h gen = Some nextGen
    ∧ collectChildren gen [] = Some cl ∧ NoDup cl
    ∧ Forall (pair_ok h (pred n)) nextGen
    ∧ (n = 0 → nextGen = []).
Proof.
  intros Hl Hgen Hfuel. unfold nextGeneration.
  assert (Forall FamilyPair.wf gen) as Hwf.
  { eapply Forall_impl; [done|]. by intros p [? _]. }
  rewrite (collectChildren_spec gen [] Hwf). cbn [mbind option_bind].
  set (cl := addDistinct [] (gen ≫= FamilyPair.kids)).
  assert (Forall (λ c, ∃ a, c = Some a ∧ a < length h ∧ bounded h n a) cl) as Hcl.
  { apply Forall_forall. intros c Hc. apply addDistinct_elem in Hc as [Hc|Hc].
    - by apply elem_of_nil in Hc.
    - apply list_elem_of_bind in Hc as (p & Hc & Hp).
      rewrite Forall_forall in Hgen. destruct (Hgen p Hp) as (_ & _ & _ & Hk).
      rewrite Forall_forall in Hk. by apply Hk. }
  assert (∃ ls, mapM (λ p : option nat, a ← p; childrenOf fuel h a) cl = Some ls
                ∧ Forall (λ a, a < length h ∧ bounded h (pred n) a) (concat ls)
                ∧ (n = 0 → concat ls = [])) as (ls & Hls & Hall & Hnil).
  { clearbody cl. induction Hcl as [|c cl' (a & -> & Ha & Hb) _ (ls & Hls & Hall & Hnil)].
    - exists []. split; [done|]. split; [constructor|done].
    - destruct (childrenOf_bounded fuel h n a Hl Ha Hb Hfuel) as (l & Hc & Hlall & Hlnil).
      exists (l :: ls). cbn [mapM mbind option_bind]. rewrite Hc, Hls.
      split; [done|]. cbn [concat]. split; [by apply Forall_app|].
      intros Hn. by rewrite Hlnil, Hnil. }
  rewrite expandAll_chains, Hls. cbn [mbind option_bind].
  destruct (buildFamilyPairs_from_ok h (pred n) (concat ls) [] Hl Hall) as (units & Hb & Hu);
    [constructor|].
  exists units, cl. split; [done|]. split; [done|].
  split; [apply addDistinct_NoDup; constructor|]. split; [done|].
  intros Hn. rewrite (Hnil Hn) in Hb. by injection Hb as <-.
Qed.

(** The walk from a generation whose children have chains of at most [n]
    links ends within [n + 1] generations. *)
Lemma walk_total h n : 
  heap_linked h →
  ∀ fuel gen, Forall (pair_ok h n) gen → n < fuel →
  ∃ gens, walk fuel h gen = Some gens
          ∧ length gens ≤ S n
          ∧ Forall (λ g, ∃ cl, collectChildren g.1 [] = Some cl ∧ NoDup cl) gens.
Proof.
  intros Hl. induction n as [|n IH]; intros fuel gen Hgen Hfuel.
  - destruct gen as [|p r]; [exists []; destruct fuel; by repeat split; simpl; try lia|].
    destruct fuel as [|k]; [lia|]. cbn [walk].
    destruct (linesOf_total h 0 _ Hgen) as [ls Hls].
    unfold renderGeneration. rewrite Hls. cbn [fmap option_fmap option_map mbind option_bind].
    destruct (nextGeneration_ok k h 0 _ Hl Hgen) as (ng & cl & Hng & Hcl & Hnd & _ & Hnil);
      [lia|].
    rewrite Hng, (Hnil eq_refl). cbn [mbind option_bind].
    assert (walk k h [] = Some []) as -> by (by destruct k).
    cbn [mbind option_bind]. eexists. split; [done|]. split; [simpl; lia|].
    constructor; [|constructor]. by exists cl.
  - destruct gen as [|p r]; [exists []; destruct fuel; by repeat split; simpl; try lia|].
    destruct fuel as [|k]; [lia|]. cbn [walk].
    destruct (linesOf_total h _ _ Hgen) as [ls Hls].
    unfold renderGeneration. rewrite Hls. cbn [fmap option_fmap option_map mbind option_bind].
    destruct (nextGeneration_ok k h (S n) _ Hl Hgen) as (ng & cl & Hng & Hcl & Hnd & Hok & _);
      [lia|].
    rewrite Hng. cbn [mbind option_bind].
    destruct (IH k ng Hok) as (gens & Hw & Hlen & Hall); [lia|].
    rewrite Hw. cbn [mbind option_bind]. eexists. split; [done|]. split; [simpl; lia|].
    constructor; [|done]. by exists cl.
Qed.

Lemma startGeneration_ok h n r :
  heap_linked h → (∀ x, bounded h n x) → r < length h →
  Forall (pair_ok h n) (startGeneration h r).
Proof.
  intros Hl Hb Hr.
  destruct (buildFamilyPairs_from_ok h n
              (filter (λ i, seeded h r i) (seq 0 (length h))) [] Hl) as (units & Hu & Hok).
  { apply Forall_forall. intros a Ha. apply list_elem_of_filter in Ha as [_ Ha].
    apply elem_of_seq in Ha. split; [lia|done]. }
  { constructor. }
  pose proof (seedGeneration_build h r) as Hs.
  unfold buildFamilyPairsForMembers, seedMembers in Hs. rewrite Hs in Hu.
  injection Hu as <-. unfold startGeneration.
  destruct (seedGeneration h r) as [|p g]; [|done].
  constructor; [|constructor].
  destruct (addChild_spec r _ (wf_new None None)) as (Hwf & Hk & _ & Hf & Hm).
  split; [done|]. rewrite Hf, Hm, Hk. split; [done|]. split; [done|].
  constructor; [|constructor]. by exists r.
Qed.

(** *** More fuel changes nothing *)

Lemma chainFrom_mono k k' h c l :
  k ≤ k' → chainFrom k h c = Some l → chainFrom k' h c = Some l.
Proof.
  revert k' c l. induction k as [|k IH]; intros k' [x|] l Hk;
    rewrite ?chainFrom_None; try done.
  destruct k' as [|k']; [lia|]. rewrite !chainFrom_S.
  destruct (h !! x) as [m|]; [|done]. cbn [mbind option_bind].
  destruct (chainFrom k h _) as [l'|] eqn:Hl; [|done].
  rewrite (IH k' _ l') by (done || lia). done.
Qed.

Lemma childrenOf_mono k k' h a l :
  k ≤ k' → childrenOf k h a = Some l → childrenOf k' h a = Some l.
Proof.
  intros Hk. unfold childrenOf. destruct (h !! a); [|done]. by apply chainFrom_mono.
Qed.

Lemma nextGeneration_mono k k' h gen ng :
  k ≤ k' → nextGeneration k h gen = Some ng → nextGeneration k' h gen = Some ng.
Proof.
  intros Hk. unfold nextGeneration. destruct (collectChildren gen []) as [cl|]; [|done].
  cbn [mbind option_bind]. rewrite !expandAll_chains.
  destruct (mapM _ cl) as [ls|] eqn:Hls; [|done]. cbn [mbind option_bind].
  assert (mapM (λ p : option nat, a ← p; childrenOf k' h a) cl = Some ls) as ->; [|done].
  apply mapM_Some. apply mapM_Some in Hls.
  eapply Forall2_impl; [done|]. intros [a|] l; [|done]. simpl. by apply childrenOf_mono.
Qed.

Lemma walk_mono k k' h gen gens :
  k ≤ k' → walk k h gen = Some gens → walk k' h gen = Some gens.
Proof.
  revert k' gen gens. induction k as [|k IH]; intros k' gen gens Hk.
  - destruct gen; [|done]. intros [= <-]. by destruct k'.
  - destruct gen as [|p r]; [intros [= <-]; by destruct k'|].
    destruct k' as [|k']; [lia|]. cbn [walk].
    destruct (renderGeneration h (p :: r)); [|done]. cbn [mbind option_bind].
    destruct (nextGeneration k h (p :: r)) as [ng|] eqn:Hng; [|done].
    rewrite (nextGeneration_mono k k' _ _ _ ltac:(lia) Hng). cbn [mbind option_bind].
    destruct (walk k h ng) as [later|] eqn:Hw; [|done].
    rewrite (IH k' _ _ ltac:(lia) Hw). done.
Qed.

Lemma threeGenerations_ordered : ordered 3 threeGenerations.
Proof.
  intros [|[|[|a]]] m Hm; [injection Hm as <-..|done];
    (split; [|split; [|split; [|split]]]); unfold gender_ok; simpl;
    first [lia | exact I | by left | by right].
Defined.

(** C4 as stated fails: in the registry of R, her son A and his son B, all
    created through the menu, A has a parent and one child, and the walk
    visits that child twice, as a child of generation 1 and again as a
    child of generation 2. *)
Lemma C4_children_visited_twice :
  ∃ w gens,
    runOps 4 [CreateRoot; AddMember; AddMember] (freshWorld threeGenerationsInput) = Some w
    ∧ FamilyTree.memberPool (tree w) = threeGenerations
    ∧ acyclic threeGenerations
    ∧ (∀ fuel, 4 ≤ fuel →
         walk fuel threeGenerations (startGeneration threeGenerations 0) = Some gens)
    ∧ memberKey threeGenerations (Some 1) = Some (None, Some 0)
    ∧ childrenOf 4 threeGenerations 1 = Some [2]
    ∧ visits gens 2 = 2.
Proof.
  eexists _, _.
  split; [vm_compute; reflexivity|]. split; [reflexivity|].
  split; [apply (ordered_acyclic threeGenerations 3 threeGenerations_ordered)|].
  split.
  { intros fuel Hfuel. apply (walk_mono 4); [done|]. vm_compute. reflexivity. }
  split; [reflexivity|]. split; [reflexivity|]. reflexivity.
Qed.

(** ** No operation rewrites a name or a gender *)

Lemma keeps_refl tr : keeps tr tr.
Proof. intros a m Hm. by exists m. Qed.

Lemma keeps_eq tr tr' : tr' = tr → keeps tr tr'.
Proof. intros ->. apply keeps_refl. Qed.

Lemma keeps_trans tr1 tr2 tr3 : keeps tr1 tr2 → keeps tr2 tr3 → keeps tr1 tr3.
Proof.
  intros H12 H23 a m Hm. destruct (H12 a m Hm) as (m2 & Hm2 & Hn2 & Hg2).
  destruct (H23 a m2 Hm2) as (m3 & Hm3 & Hn3 & Hg3). exists m3.
  split; [done|]. split; congruence.
Qed.

Lemma keeps_update tr a m (f : FamilyMember.t → FamilyMember.t) :
  FamilyTree.memberPool tr !! a = Some m →
  FamilyMember.name (f m) = FamilyMember.name m →
  FamilyMember.gender (f m) = FamilyMember.gender m →
  keeps tr (FamilyTree.setPool (<[a := f m]> (FamilyTree.memberPool tr)) tr).
Proof.
  intros Hm Hn Hg j mj Hj. simpl. destruct (decide (a = j)) as [->|Hne].
  - rewrite list_lookup_insert_eq by (by eapply lookup_lt_Some).
    rewrite Hm in Hj. injection Hj as <-. by exists (f m).
  - rewrite list_lookup_insert_ne by done. by exists mj.
Qed.

Lemma keeping_ret {A} (a : A) : keeping (ret a).
Proof. intros w x w' H. apply ret_Some in H as [_ ->]. apply keeps_refl. Qed.

Lemma keeping_bind {A B} (c : Cmd A) (k : A → Cmd B) :
  keeping c → (∀ a, keeping (k a)) → keeping (bind c k).
Proof.
  intros Hc Hk w b w' H. apply bind_Some in H as (a & w1 & H1 & H2).
  eapply keeps_trans; [by eapply Hc|by eapply Hk].
Qed.

Lemma keeping_getTree : keeping getTree.
Proof. intros w x w' H. apply getTree_Some in H as [_ ->]. apply keeps_refl. Qed.

Lemma keeping_say s : keeping (say s).
Proof. intros w x w' H. by apply keeps_eq, (say_Some s x). Qed.

Lemma keeping_lift {A} (o : option A) : keeping (lift o).
Proof. intros w x w' H. apply lift_Some in H as [_ ->]. apply keeps_refl. Qed.

Lemma keeping_readLine p n : keeping (readLine p n).
Proof. intros w x w' H. by apply keeps_eq, (readLine_Some p n x). Qed.

Lemma keeping_readGender p : keeping (readGender p).
Proof. intros w x w' H. apply keeps_eq. by apply readGender_Some in H as [? _]. Qed.

Lemma keeping_readYesNo d : keeping (readYesNo d).
Proof. intros w x w' H. by apply keeps_eq, (readYesNo_Some d x). Qed.

Lemma keeping_readYesNoDefaultYes p : keeping (readYesNoDefaultYes p).
Proof. intros w x w' H. by apply keeps_eq, (readYesNoDefaultYes_Some p x). Qed.

Lemma keeping_newMember n g al : keeping (newMember n g al).
Proof.
  intros w x w' H. unfold newMember in H. cmd_inv.
  intros a m Hm. exists m. split; [|done]. simpl. by apply lookup_app_l_Some.
Qed.

Lemma keeping_updMember a (f : FamilyMember.t → FamilyMember.t) :
  (∀ m, FamilyMember.name (f m) = FamilyMember.name m
        ∧ FamilyMember.gender (f m) = FamilyMember.gender m) →
  keeping (updMember a f).
Proof.
  intros Hf w x w' H. unfold updMember in H. cmd_inv.
  match goal with Hm : _ !! a = Some ?m |- _ =>
    destruct (Hf m); by apply keeps_update end.
Qed.

Lemma keeping_addChildOf fuel s c : keeping (addChildOf fuel s c).
Proof.
  intros w x w' H. unfold addChildOf in H. cmd_inv.
  match goal with Hm : FamilyMember.addChild _ _ _ _ = Some _ |- _ =>
    unfold FamilyMember.addChild in Hm end.
  destruct c as [c|]; [|cmd_inv].
  2: { match goal with Hm : Some _ = Some _ |- _ => injection Hm as <- end.
       destruct (tree w); apply keeps_refl. }
  match goal with Hm : (_ ≫= _) = Some _ |- _ => rename Hm into Hadd end.
  destruct (FamilyTree.memberPool (tree w) !! _) as [m|] eqn:Hm; [|done].
  cbn [mbind option_bind] in Hadd.
  destruct (FamilyMember.firstChild m).
  - destruct (FamilyMember.lastSibling _ _ _) as [t|]; [|done]. cbn [mbind option_bind] in Hadd.
    destruct (FamilyTree.memberPool (tree w) !! t) as [tm|] eqn:Htm; [|done].
    cbn [mbind option_bind] in Hadd. injection Hadd as <-. by apply keeps_update.
  - injection Hadd as <-. by apply keeps_update.
Qed.

(** Goes through the structure of a command built from the steps above. *)
Ltac keeping_tac :=
  repeat first
    [ apply keeping_newMember
    | apply keeping_addChildOf
    | apply keeping_updMember; intros ?; split; reflexivity
    | apply keeping_ret | apply keeping_getTree | apply keeping_say | apply keeping_lift
    | apply keeping_readLine | apply keeping_readGender | apply keeping_readYesNo
    | apply keeping_readYesNoDefaultYes
    | apply keeping_bind; [|intros ?]
    | match goal with
      | |- keeping (if ?b then _ else _) => destruct b
      | |- keeping (match ?o with Some _ => _ | None => _ end) => destruct o
      end ].

Lemma keeping_askParent fuel lo cap : keeping (askParent fuel lo cap).
Proof. unfold askParent. keeping_tac. Qed.

Lemma keeping_askSpouse fuel lo cap sug : keeping (askSpouse fuel lo cap sug).
Proof. unfold askSpouse. keeping_tac. Qed.

Lemma keeping_askParents fuel : keeping (askParents fuel).
Proof.
  unfold askParents. apply keeping_bind; [apply keeping_askParent|intros f].
  apply keeping_bind; [apply keeping_askParent|intros m].
  destruct f, m; keeping_tac; apply keeping_askSpouse.
Qed.

Lemma keeping_linkMember fuel name g al f m : keeping (linkMember fuel name g al f m).
Proof. unfold linkMember. destruct f, m; keeping_tac. Qed.

Lemma keeping_addMemberInteractive fuel : keeping (addMemberInteractive fuel).
Proof.
  unfold addMemberInteractive. keeping_tac;
    first [apply keeping_askParents | apply keeping_linkMember].
Qed.

Lemma keeping_markLateInteractive : keeping markLateInteractive.
Proof. unfold markLateInteractive. keeping_tac. Qed.

Lemma keeping_createRootInteractive : keeping createRootInteractive.
Proof.
  intros w x w' H. unfold createRootInteractive in H.
  apply bind_Some in H as (tr & w0 & Hg & H). apply getTree_Some in Hg as [-> ->].
  destruct (FamilyTree.root (tree w)); cmd_inv; [apply keeps_refl|].
  destruct (emptyName _); cmd_inv; [apply keeps_refl|].
  match goal with Hn : newMember _ _ _ _ = Some _ |- _ => unfold newMember in Hn end.
  cmd_inv. intros a m Hm. exists m. split; [|done]. simpl. by apply lookup_app_l_Some.
Qed.

Lemma keeping_exec fuel op : keeping (exec fuel op).
Proof.
  destruct op; simpl.
  - apply keeping_bind; [apply keeping_createRootInteractive|intros ?; apply keeping_ret].
  - apply keeping_addMemberInteractive.
  - apply keeping_markLateInteractive.
  - intros w x w' H. by apply keeps_eq, (showCenteredTree_tree fuel w x).
  - intros w x w' H. by apply keeps_eq, (showAllNames_tree w x).
Qed.

(** C9. The constructor stores 'M' for an argument 'M' or 'm' and 'F' for
    every other character; no setter touches the gender and no menu
    operation changes the gender of a member already in the registry; so
    every member of every registry the program can reach has gender 'M' or
    'F'. *)
Theorem C9_gender_normalised :
  (∀ n g al,
     FamilyMember.gender (FamilyMember.new n g al)
     = if bool_decide (g = "M"%char ∨ g = "m"%char) then "M"%char else "F"%char)
  ∧ (∀ m b p,
       FamilyMember.gender (FamilyMember.setAlive b m) = FamilyMember.gender m
       ∧ FamilyMember.gender (FamilyMember.setFather p m) = FamilyMember.gender m
       ∧ FamilyMember.gender (FamilyMember.setMother p m) = FamilyMember.gender m
       ∧ FamilyMember.gender (FamilyMember.setNextSibling p m) = FamilyMember.gender m
       ∧ FamilyMember.gender (FamilyMember.setFirstChild p m) = FamilyMember.gender m)
  ∧ (∀ w w', step w w' →
       ∀ a m, FamilyTree.memberPool (tree w) !! a = Some m →
         ∃ m', FamilyTree.memberPool (tree w') !! a = Some m'
               ∧ FamilyMember.gender m' = FamilyMember.gender m)
  ∧ (∀ w, reachable w →
       Forall (λ m, FamilyMember.gender m = "M"%char ∨ FamilyMember.gender m = "F"%char)
         (FamilyTree.memberPool (tree w))).
Proof.
  split; [|split; [|split]].
  - intros n g al. simpl.
    destruct (decide (g = "M"%char)) as [->|H1]; [done|].
    destruct (decide (g = "m"%char)) as [->|H2]; [done|].
    rewrite !bool_decide_eq_false_2; [done|tauto|done|done].
  - done.
  - intros w w' (fuel & op & Hrun) a m Hm.
    destruct (keeping_exec fuel op w tt w' Hrun a m Hm) as (m' & Hm' & _ & Hg).
    by exists m'.
  - intros w Hw. by apply tree_inv_genders, reachable_inv.
Qed.

(** The world after Zoe has been created as the root with the entry 'f'. *)
Lemma zoe_reachable :
  reachable {| tree := {| FamilyTree.root := Some 0;
                          FamilyTree.memberPool := [FamilyMember.new (lit "Zoe") "f"%char true] |};
               input := [];
               output := [lit "Enter root ancestor full name: "; lit "Enter gender (M/F): ";
                          lit "Is ancestor alive? (y/n) [y]: "; lit "Root '"; lit "Zoe";
                          lit "' created." ++ nl] |}.
Proof.
  exists (freshWorld [Line (lit "Zoe"); Key "f"%char; Key "y"%char]). split; [done|].
  eapply rtc_l; [|apply rtc_refl]. exists 0, CreateRoot. reflexivity.
Defined.

Lemma C9_gender_normalised_witness :
  Forall (λ m, FamilyMember.gender m = "M"%char ∨ FamilyMember.gender m = "F"%char)
    [FamilyMember.new (lit "Zoe") "f"%char true].
Proof.
  destruct C9_gender_normalised as (_ & _ & _ & H).
  exact (H _ zoe_reachable).
Defined.

(** ** The scenarios of the specification, run on the model *)

(** Scenario A: Alice alone gives one generation, the unit without parents
    whose child is Alice. *)
Example scenario_A :
  (λ gens, (shownUnits gens, shownText gens))
    <$> walk 2 aliceOnly (startGeneration aliceOnly 0)
  = Some ([[((None, None), [Some 0])]],
          "Unknown (M) - Unknown (F)
            │            
          Alice          

"%string).
Proof. reflexivity. Qed.

(** Scenario B: Bob, added without parents, is shown in generation 1 as the
    child of a unit without parents. *)
Example scenario_B :
  match runOps 2 [AddMember] (aliceWorld bobInput) with
  | Some w =>
      shownUnits <$> walk 3 (FamilyTree.memberPool (tree w))
                       (startGeneration (FamilyTree.memberPool (tree w)) 0)
  | None => None
  end
  = Some [[((None, None), [Some 0])]; [((None, None), [Some 1])]].
Proof. reflexivity. Qed.

(** Scenario C: Dave, whose father is the root Carol, is shown in
    generation 0 beside Carol and again in generation 1. *)
Example scenario_C :
  (λ gens, (shownUnits gens, shownText gens))
    <$> walk 3 carolDave (startGeneration carolDave 0)
  = Some ([[((None, None), [Some 0]); ((Some 0, None), [Some 1])];
           [((Some 0, None), [Some 1])]],
          "Unknown (M) - Unknown (F)      Carol (F) - Unknown (F)
            │                             │           
          Carol                         Dave          

Carol (F) - Unknown (F)
           │           
         Dave          

"%string).
Proof. reflexivity. Qed.

(** ** Names: storing, comparing, finding *)

Lemma eq_name_c_str a b : eq_name a b = true ↔ c_str a = c_str b.
Proof.
  revert b. induction a as [|ca ra IH]; intros [|cb rb]; simpl.
  - done.
  - destruct (is_nul cb); split; done.
  - destruct (is_nul ca); split; done.
  - destruct (is_nul ca) eqn:Ha, (is_nul cb) eqn:Hb; simpl.
    + done.
    + apply is_nul_true in Ha. apply is_nul_false in Hb.
      case_bool_decide; [congruence|]. split; done.
    + apply is_nul_false in Ha. apply is_nul_true in Hb.
      case_bool_decide; [congruence|]. split; done.
    + case_bool_decide as Hc.
      * subst cb. rewrite IH. split; [congruence|]. by intros [= ->].
      * split; [done|]. intros [= ? _]. done.
Qed.

Lemma copyName_length s : length (FamilyMember.copyName s) ≤ 63.
Proof. rewrite copyName_take, length_take. lia. Qed.

Lemma copyName_short s :
  length (c_str s) ≤ 63 → FamilyMember.copyName s = c_str s.
Proof. intros H. rewrite copyName_take. by apply take_ge. Qed.

Lemma copyName_c_str s : c_str (FamilyMember.copyName s) = FamilyMember.copyName s.
Proof. rewrite copyName_take. apply c_str_take. Qed.

(** X1. [copyName] never fills more than 63 of the 64 bytes of [name]: the
    stored name has at most 63 characters and no NUL among them, it is the
    beginning of the source string, the whole of it when that has at most 63
    characters, and copying a stored name again changes nothing. *)
Theorem copyName_bounds src :
  length (FamilyMember.copyName src) ≤ 63
  ∧ Forall (λ c, c ≠ NUL) (FamilyMember.copyName src)
  ∧ FamilyMember.copyName src `prefix_of` c_str src
  ∧ (length (c_str src) ≤ 63 → FamilyMember.copyName src = c_str src)
  ∧ (63 ≤ length (c_str src) → length (FamilyMember.copyName src) = 63)
  ∧ FamilyMember.copyName (FamilyMember.copyName src) = FamilyMember.copyName src.
Proof.
  split; [apply copyName_length|].
  split; [rewrite copyName_take; apply Forall_take, c_str_no_nul|].
  split; [rewrite copyName_take; apply prefix_take|].
  split; [apply copyName_short|].
  split; [intros H; rewrite copyName_take, length_take; lia|].
  rewrite (copyName_take (FamilyMember.copyName src)), copyName_c_str.
  apply take_ge, copyName_length.
Qed.

(** X2. [eq] decides equality of two C strings: it answers true exactly
    when both hold the same characters up to their terminators, whatever
    follows the terminators in the buffers; in particular it is an
    equivalence, and a name of at most 63 characters is equal to the copy
    that [copyName] stores of it. *)
Theorem eq_name_spec :
  (∀ a b, eq_name a b = true ↔ c_str a = c_str b)
  ∧ (∀ a, eq_name a a = true)
  ∧ (∀ a b, eq_name a b = eq_name b a)
  ∧ (∀ a b c, eq_name a b = true → eq_name b c = true → eq_name a c = true)
  ∧ (∀ a ta tb, eq_name (c_str a ++ NUL :: ta) (c_str a ++ NUL :: tb) = true)
  ∧ (∀ n, length (c_str n) ≤ 63 → eq_name (FamilyMember.copyName n) n = true).
Proof.
  split; [apply eq_name_c_str|].
  split; [intros a; by apply eq_name_c_str|].
  split.
  { intros a b. apply eq_true_iff_eq. rewrite !eq_name_c_str. split; congruence. }
  split.
  { intros a b c. rewrite !eq_name_c_str. congruence. }
  split.
  { intros a ta tb. apply eq_name_c_str.
    by rewrite !c_str_app by apply c_str_no_nul. }
  intros n Hn. apply eq_name_c_str.
  by rewrite copyName_c_str, copyName_short.
Qed.

Lemma findByName_from_Some i pool nm a :
  findByName_from i pool nm = Some a ↔
  ∃ m, i ≤ a ∧ pool !! (a - i) = Some m ∧ eq_name (FamilyMember.name m) nm = true
       ∧ ∀ j m', j < a - i → pool !! j = Some m' → eq_name (FamilyMember.name m') nm = false.
Proof.
  revert i. induction pool as [|m0 rest IH]; intros i; simpl.
  - split; [done|]. by intros (m & _ & ? & _).
  - destruct (eq_name (FamilyMember.name m0) nm) eqn:E.
    + split.
      * intros [= <-]. exists m0. rewrite Nat.sub_diag. simpl.
        repeat split; try done. intros j m' Hj. lia.
      * intros (m & Hi & Hm & He & Hfirst).
        destruct (a - i) as [|k] eqn:Hk; [f_equal; lia|].
        specialize (Hfirst 0 m0 ltac:(lia) eq_refl). congruence.
    + rewrite IH. split.
      * intros (m & Hi & Hm & He & Hfirst). exists m.
        replace (a - i) with (S (a - S i)) by lia. simpl.
        repeat split; try done; [lia|].
        intros [|j] m' Hj Hm'; simpl in Hm'; [congruence|].
        apply (Hfirst j); [lia|done].
      * intros (m & Hi & Hm & He & Hfirst).
        destruct (a - i) as [|k] eqn:Hk; simpl in Hm; [congruence|].
        exists m. replace (a - S i) with k by lia.
        repeat split; try done; [lia|].
        intros j m' Hj Hm'. apply (Hfirst (S j)); [lia|done].
Qed.

Lemma findByName_from_None i pool nm :
  findByName_from i pool nm = None ↔
  ∀ j m', pool !! j = Some m' → eq_name (FamilyMember.name m') nm = false.
Proof.
  revert i. induction pool as [|m0 rest IH]; intros i; simpl.
  - split; [|done]. intros _ j m'. by rewrite lookup_nil.
  - destruct (eq_name (FamilyMember.name m0) nm) eqn:E.
    + split; [done|]. intros H. specialize (H 0 m0 eq_refl). congruence.
    + rewrite IH. split.
      * intros H [|j] m' Hm'; simpl in Hm'; [congruence|]. by apply (H j).
      * intros H j m' Hm'. by apply (H (S j)).
Qed.

Lemma findByName_Some tr nm a :
  findByName tr nm = Some a ↔
  ∃ m, FamilyTree.memberPool tr !! a = Some m
       ∧ eq_name (FamilyMember.name m) nm = true
       ∧ ∀ j m', j < a → FamilyTree.memberPool tr !! j = Some m' →
           eq_name (FamilyMember.name m') nm = false.
Proof.
  unfold findByName. rewrite findByName_from_Some. rewrite Nat.sub_0_r.
  split.
  - intros (m & _ & ? & ? & ?). by exists m.
  - intros (m & ? & ? & ?). exists m. repeat split; try done. lia.
Qed.

Lemma findByName_None tr nm :
  findByName tr nm = None ↔
  ∀ j m', FamilyTree.memberPool tr !! j = Some m' →
    eq_name (FamilyMember.name m') nm = false.
Proof. apply findByName_from_None. Qed.

(** X3. [findByName] returns the first member of the pool whose name
    equals the given one as a C string, and [NULL] exactly when no member
    has that name; a returned pointer is always a member of the pool. *)
Theorem findByName_first_match tr nm :
  (∀ a, findByName tr nm = Some a ↔
     ∃ m, FamilyTree.memberPool tr !! a = Some m
          ∧ c_str (FamilyMember.name m) = c_str nm
          ∧ ∀ j m', j < a → FamilyTree.memberPool tr !! j = Some m' →
              c_str (FamilyMember.name m') ≠ c_str nm)
  ∧ (findByName tr nm = None ↔
     ∀ j m', FamilyTree.memberPool tr !! j = Some m' →
       c_str (FamilyMember.name m') ≠ c_str nm)
  ∧ (∀ a, findByName tr nm = Some a → a < FamilyTree.memCount tr).
Proof.
  assert (Hne : ∀ x, eq_name x nm = false ↔ c_str x ≠ c_str nm).
  { intros x. rewrite <- eq_name_c_str. by destruct (eq_name x nm). }
  split; [|split].
  - intros a. rewrite findByName_Some. split.
    + intros (m & Hm & He & Hf). exists m. split; [done|].
      split; [by apply eq_name_c_str|].
      intros j m' Hj Hm'. apply Hne. by apply (Hf j).
    + intros (m & Hm & He & Hf). exists m. split; [done|].
      split; [by apply eq_name_c_str|].
      intros j m' Hj Hm'. apply Hne. by apply (Hf j).
  - rewrite findByName_None. split; intros H j m' Hm'; apply Hne; by apply (H j).
  - intros a. rewrite findByName_Some. intros (m & Hm & _).
    by apply lookup_lt_Some in Hm.
Qed.

(** ** The children array of a pair *)

Lemma addChild_capacity c p :
  FamilyPair.wf p →
  (FamilyPair.childCount p = 0 ∧ FamilyPair.childCap p = 0
   ∨ 0 < FamilyPair.childCount p
     ∧ (∃ k, FamilyPair.childCap p = 4 * 2 ^ k)
     ∧ (FamilyPair.childCap p = 4
        ∨ FamilyPair.childCap p < 2 * FamilyPair.childCount p)) →
  let q := FamilyPair.addChild (Some c) p in
  0 < FamilyPair.childCount q
  ∧ (∃ k, FamilyPair.childCap q = 4 * 2 ^ k)
  ∧ (FamilyPair.childCap q = 4 ∨ FamilyPair.childCap q < 2 * FamilyPair.childCount q).
Proof.
  intros [Hlen Hle] Hcap. unfold FamilyPair.addChild, FamilyPair.ensureCap. simpl.
  case_bool_decide as H0; simpl.
  - split; [lia|]. split; [by exists 0|by left].
  - destruct Hcap as [[? ?]|(Hpos & [k Hk] & Hhalf)]; [done|].
    case_bool_decide as Hfull; simpl.
    + split; [lia|]. split; [|right; lia].
      exists (S k). rewrite Hk, Nat.pow_succ_r'. lia.
    + split; [lia|]. split; [by exists k|]. destruct Hhalf; [by left|right; lia].
Qed.

(** X4. A pair built by its constructor and any calls of [addChild] keeps
    its array consistent: the array has [childCap] cells and holds
    [childCount] children; it is unallocated exactly while the pair has no
    child, and once allocated its capacity is 4 doubled some number of
    times, never more than twice the number of children unless it is 4.
    Adding a child, with or without a reallocation, keeps the children
    already stored, in order; adding [NULL] changes nothing. *)
Theorem pair_capacity f m cs :
  let p := builtPair f m cs in
  length (FamilyPair.children p) = FamilyPair.childCap p
  ∧ FamilyPair.childCount p ≤ FamilyPair.childCap p
  ∧ (FamilyPair.childCount p = 0 ↔ FamilyPair.childCap p = 0)
  ∧ (0 < FamilyPair.childCount p →
     (∃ k, FamilyPair.childCap p = 4 * 2 ^ k)
     ∧ (FamilyPair.childCap p = 4
        ∨ FamilyPair.childCap p < 2 * FamilyPair.childCount p))
  ∧ (∀ c, FamilyPair.kids (FamilyPair.addChild (Some c) p) = FamilyPair.kids p ++ [Some c]
          ∧ FamilyPair.childCount (FamilyPair.addChild (Some c) p)
            = S (FamilyPair.childCount p))
  ∧ FamilyPair.addChild None p = p.
Proof.
  intros p.
  assert (FamilyPair.wf p
          ∧ (FamilyPair.childCount p = 0 ∧ FamilyPair.childCap p = 0
             ∨ 0 < FamilyPair.childCount p
               ∧ (∃ k, FamilyPair.childCap p = 4 * 2 ^ k)
               ∧ (FamilyPair.childCap p = 4
                  ∨ FamilyPair.childCap p < 2 * FamilyPair.childCount p))) as [Hwf Hcap].
  { unfold p, builtPair.
    assert (FamilyPair.wf (FamilyPair.new f m)
            ∧ (FamilyPair.childCount (FamilyPair.new f m) = 0
               ∧ FamilyPair.childCap (FamilyPair.new f m) = 0
               ∨ 0 < FamilyPair.childCount (FamilyPair.new f m)
                 ∧ (∃ k, FamilyPair.childCap (FamilyPair.new f m) = 4 * 2 ^ k)
                 ∧ (FamilyPair.childCap (FamilyPair.new f m) = 4
                    ∨ FamilyPair.childCap (FamilyPair.new f m)
                      < 2 * FamilyPair.childCount (FamilyPair.new f m)))) as H0.
    { split; [apply wf_new|]. left. done. }
    revert H0. generalize (FamilyPair.new f m) as q.
    induction cs as [|c cs IH]; intros q Hq; [done|]. simpl.
    apply IH. destruct c as [c|]; [|done]. destruct Hq as [Hwf Hcap].
    split; [by apply addChild_spec|]. right. by apply addChild_capacity. }
  destruct Hwf as [Hlen Hle].
  split; [done|]. split; [done|].
  split.
  { destruct Hcap as [[? ?]|(? & [k Hk] & ?)]; [done|].
    assert (0 < 2 ^ k) by (apply Nat.neq_0_lt_0, Nat.pow_nonzero; lia). lia. }
  split.
  { intros Hpos. destruct Hcap as [[? ?]|(? & ? & ?)]; [lia|done]. }
  split; [|done].
  intros c. by destruct (addChild_spec c p) as (_ & ? & ? & _).
Qed.

(** ** The child list of a member *)

Lemma chainFrom_last k h x l :
  chainFrom k h (Some x) = Some l →
  ∃ t tm, FamilyMember.lastSibling k h x = Some t ∧ last l = Some t
          ∧ h !! t = Some tm ∧ FamilyMember.nextSibling tm = None.
Proof.
  revert x l. induction k as [|k IH]; intros x l; [done|].
  rewrite chainFrom_S, lastSibling_S.
  destruct (h !! x) as [m|] eqn:Hx; [|done]. cbn [mbind option_bind].
  destruct (FamilyMember.nextSibling m) as [s|] eqn:Hs.
  - destruct (chainFrom k h (Some s)) as [l0|] eqn:Hc; [|done].
    cbn [mbind option_bind]. intros [= <-].
    destruct (IH _ _ Hc) as (t & tm & ? & Hl & ? & ?). exists t, tm.
    split; [done|]. split; [|done].
    destruct l0 as [|y l0]; [done|]. done.
  - rewrite chainFrom_None. cbn [mbind option_bind]. intros [= <-]. by exists x, m.
Qed.

Lemma chainFrom_closed k h c l y :
  chainFrom k h c = Some l → y ∈ l →
  ∃ ym, h !! y = Some ym
        ∧ match FamilyMember.nextSibling ym with
          | Some z => z ∈ l
          | None => last l = Some y
          end.
Proof.
  revert c l. induction k as [|k IH]; intros [x|] l; simpl;
    try done; try (intros [= <-] Hy; by apply elem_of_nil in Hy).
  destruct (h !! x) as [m|] eqn:Hx; [|done]. cbn [mbind option_bind].
  destruct (chainFrom k h (FamilyMember.nextSibling m)) as [l0|] eqn:Hc; [|done].
  cbn [mbind option_bind]. intros [= <-] Hy.
  apply elem_of_cons in Hy as [->|Hy].
  - exists m. split; [done|].
    destruct (FamilyMember.nextSibling m) as [z|] eqn:Hz.
    + destruct k as [|k]; [done|]. rewrite chainFrom_S in Hc.
      destruct (h !! z); [|done]. cbn [mbind option_bind] in Hc.
      destruct (chainFrom k h _); [|done]. injection Hc as <-.
      apply elem_of_cons. right. apply elem_of_cons. by left.
    + rewrite chainFrom_None in Hc. by injection Hc as <-.
  - destruct (IH _ _ Hc Hy) as (ym & Hym & Hn). exists ym. split; [done|].
    destruct (FamilyMember.nextSibling ym) as [z|].
    + apply elem_of_cons. by right.
    + destruct l0 as [|? ?]; [by apply elem_of_nil in Hy|done].
Qed.

Lemma chainFrom_link_last k h t tm a am c l :
  h !! t = Some tm → FamilyMember.nextSibling tm = None →
  h !! a = Some am → FamilyMember.nextSibling am = None → a ≠ t →
  chainFrom k h c = Some l →
  chainFrom (S k) (<[t := FamilyMember.setNextSibling (Some a) tm]> h) c
  = Some (if bool_decide (t ∈ l) then l ++ [a] else l).
Proof.
  intros Ht Htn Ha Han Hne. revert c l.
  induction k as [|k IH]; intros [x|] l; try done.
  - rewrite chainFrom_None. intros [= <-]. rewrite chainFrom_None.
    rewrite bool_decide_eq_false_2; [done|]. by intros ?%elem_of_nil.
  - rewrite chainFrom_S. intros Hc. rewrite chainFrom_S.
    destruct (decide (x = t)) as [->|Hx].
    + rewrite Ht in Hc. cbn [mbind option_bind] in Hc.
      rewrite Htn, chainFrom_None in Hc. cbn [mbind option_bind] in Hc.
      injection Hc as <-.
      rewrite list_lookup_insert_eq by (by eapply lookup_lt_Some).
      cbn [mbind option_bind FamilyMember.nextSibling FamilyMember.setNextSibling].
      rewrite chainFrom_S, list_lookup_insert_ne by done. rewrite Ha.
      cbn [mbind option_bind]. rewrite Han, chainFrom_None.
      cbn [mbind option_bind].
      rewrite bool_decide_eq_true_2; [done|]. apply elem_of_cons. by left.
    + rewrite list_lookup_insert_ne by done.
      destruct (h !! x) as [m|] eqn:Hm; [|done]. cbn [mbind option_bind] in *.
      destruct (chainFrom k h (FamilyMember.nextSibling m)) as [l0|] eqn:Hc0; [|done].
      cbn [mbind option_bind] in Hc. injection Hc as <-.
      rewrite (IH _ _ Hc0). cbn [mbind option_bind].
      destruct (decide (t ∈ l0)) as [Hin|Hin].
      * rewrite !bool_decide_eq_true_2; [done| |done]. apply elem_of_cons. by right.
      * rewrite !bool_decide_eq_false_2; [done| |done].
        intros [?|?]%elem_of_cons; [congruence|done].
  - rewrite chainFrom_None. intros [= <-]. rewrite chainFrom_None.
    rewrite bool_decide_eq_false_2; [done|]. by intros ?%elem_of_nil.
Qed.

Lemma setFirstChild_same c m : same_person m (FamilyMember.setFirstChild c m).
Proof. by repeat split. Qed.

Lemma setNextSibling_same c m : same_person m (FamilyMember.setNextSibling c m).
Proof. by repeat split. Qed.

Lemma same_person_refl m : same_person m m.
Proof. by repeat split. Qed.

Lemma same_person_trans m1 m2 m3 : same_person m1 m2 → same_person m2 m3 → same_person m1 m3.
Proof. unfold same_person. intros (?&?&?&?&?) (?&?&?&?&?). repeat split; congruence. Qed.

Lemma insert_same_person (h : list FamilyMember.t) a m (f : FamilyMember.t → FamilyMember.t) :
  h !! a = Some m → same_person m (f m) →
  ∀ j mj, h !! j = Some mj →
    ∃ m', <[a := f m]> h !! j = Some m' ∧ same_person mj m'.
Proof.
  intros Ha Hs j mj Hj. destruct (decide (j = a)) as [->|Hne].
  - exists (f m). rewrite list_lookup_insert_eq by (by eapply lookup_lt_Some).
    split; [done|]. congruence.
  - exists mj. rewrite list_lookup_insert_ne by done. split; [done|apply same_person_refl].
Qed.

Lemma member_addChild_same fuel h s c h' :
  FamilyMember.addChild fuel h s c = Some h' →
  length h' = length h
  ∧ ∀ j m, h !! j = Some m → ∃ m', h' !! j = Some m' ∧ same_person m m'.
Proof.
  unfold FamilyMember.addChild. destruct c as [c|].
  2:{ intros [= <-]. split; [done|]. intros j m ?. exists m. split; [done|apply same_person_refl]. }
  destruct (h !! s) as [sm|] eqn:Hs; [|done]. cbn [mbind option_bind].
  destruct (FamilyMember.firstChild sm) as [fc|].
  - destruct (FamilyMember.lastSibling fuel h fc) as [t|]; [|done]. cbn [mbind option_bind].
    destruct (h !! t) as [tm|] eqn:Ht; [|done]. cbn [mbind option_bind].
    intros [= <-]. split; [by rewrite length_insert|].
    apply insert_same_person; [done|apply setNextSibling_same].
  - intros [= <-]. split; [by rewrite length_insert|].
    apply insert_same_person; [done|apply setFirstChild_same].
Qed.

(** X5. [addChild] puts the child at the end of the member's child list
    and keeps the children already there, in order: whenever the list can
    be walked and the child, a member with no next sibling, is not yet on
    it, the call returns and the list afterwards is the old one followed
    by the child.  Only child-list links are written: every member keeps
    its name, gender, alive flag and parents, and [addChild(NULL)] leaves
    the heap as it is. *)
Theorem member_addChild_appends fuel h s c l cm :
  childrenOf fuel h s = Some l →
  h !! c = Some cm →
  FamilyMember.nextSibling cm = None →
  c ∉ l →
  ∃ h', FamilyMember.addChild fuel h s (Some c) = Some h'
    ∧ childrenOf (S fuel) h' s = Some (l ++ [c])
    ∧ length h' = length h
    ∧ (∀ j m, h !! j = Some m → ∃ m', h' !! j = Some m' ∧ same_person m m')
    ∧ FamilyMember.addChild fuel h s None = Some h.
Proof.
  intros Hl Hc Hcn Hnin. unfold childrenOf in Hl.
  destruct (h !! s) as [sm|] eqn:Hs; [|done]. cbn [mbind option_bind] in Hl.
  assert (∃ h', FamilyMember.addChild fuel h s (Some c) = Some h'
            ∧ childrenOf (S fuel) h' s = Some (l ++ [c])) as (h' & Hadd & Hkids).
  { unfold FamilyMember.addChild. rewrite Hs. cbn [mbind option_bind].
    destruct (FamilyMember.firstChild sm) as [fc|] eqn:Hfc.
    - destruct (chainFrom_last _ _ _ _ Hl) as (t & tm & Hlast & Hlt & Ht & Htn).
      rewrite Hlast. cbn [mbind option_bind]. rewrite Ht. cbn [mbind option_bind].
      eexists. split; [done|].
      assert (t ∈ l) as Hin.
      { apply last_Some in Hlt as [l0 ->]. apply elem_of_app. right.
        apply elem_of_cons. by left. }
      assert (c ≠ t) as Hne by (intros ->; done).
      assert ((<[t := FamilyMember.setNextSibling (Some c) tm]> h) !! s
              = Some (if bool_decide (s = t)
                      then FamilyMember.setNextSibling (Some c) sm else sm)) as Hs'.
      { case_bool_decide as Hst.
        - subst t. rewrite list_lookup_insert_eq by (by eapply lookup_lt_Some).
          congruence.
        - by rewrite list_lookup_insert_ne. }
      unfold childrenOf. rewrite Hs'. cbn [mbind option_bind].
      replace (FamilyMember.firstChild _) with (Some fc)
        by (by case_bool_decide).
      rewrite (chainFrom_link_last _ _ _ _ _ _ _ _ Ht Htn Hc Hcn Hne Hl).
      by rewrite bool_decide_eq_true_2.
    - rewrite chainFrom_None in Hl. injection Hl as <-.
      eexists. split; [done|].
      unfold childrenOf.
      rewrite list_lookup_insert_eq by (by eapply lookup_lt_Some).
      cbn [mbind option_bind FamilyMember.firstChild FamilyMember.setFirstChild].
      rewrite chainFrom_S.
      destruct (decide (c = s)) as [->|Hne].
      + rewrite list_lookup_insert_eq by (by eapply lookup_lt_Some).
        cbn [mbind option_bind FamilyMember.nextSibling FamilyMember.setFirstChild].
        replace (FamilyMember.nextSibling sm) with (@None nat) by congruence.
        by rewrite chainFrom_None.
      + rewrite list_lookup_insert_ne by done. rewrite Hc.
        cbn [mbind option_bind]. by rewrite Hcn, chainFrom_None. }
  exists h'. split; [done|]. split; [done|].
  destruct (member_addChild_same _ _ _ _ _ Hadd) as [? ?]. done.
Qed.

Lemma member_addChild_appends_witness :
  ∃ h', FamilyMember.addChild 3 threeGenerations 0 (Some 2) = Some h'
    ∧ childrenOf 4 h' 0 = Some [1; 2].
Proof.
  destruct (member_addChild_appends 3 threeGenerations 0 2 [1]
              {| FamilyMember.name := lit "B"; FamilyMember.gender := "M"%char;
                 FamilyMember.alive := true; FamilyMember.father := Some 1;
                 FamilyMember.mother := None; FamilyMember.firstChild := None;
                 FamilyMember.nextSibling := None |})
    as (h' & H1 & H2 & _).
  - reflexivity.
  - reflexivity.
  - reflexivity.
  - intros H. apply elem_of_cons in H as [H|H]; [discriminate H|].
    by apply elem_of_nil in H.
  - exists h'. split; assumption.
Defined.

(** X6. [addChild] does not look whether the child is already on the
    list: called with a member of the list it returns, but it ties the list
    into a cycle, after which no number of steps walks the list to its end
    and no later [addChild] on that member returns. *)
Theorem member_addChild_again_cycles fuel h s c l :
  childrenOf fuel h s = Some l →
  c ∈ l →
  ∃ h', FamilyMember.addChild fuel h s (Some c) = Some h'
    ∧ ∀ k d, childrenOf k h' s = None
             ∧ FamilyMember.addChild k h' s (Some d) = None.
Proof.
  intros Hl Hin. unfold childrenOf in Hl.
  destruct (h !! s) as [sm|] eqn:Hs; [|done]. cbn [mbind option_bind] in Hl.
  destruct (FamilyMember.firstChild sm) as [fc|] eqn:Hfc.
  2:{ rewrite chainFrom_None in Hl. injection Hl as <-. by apply elem_of_nil in Hin. }
  destruct (chainFrom_last _ _ _ _ Hl) as (t & tm & Hlast & Hlt & Ht & Htn).
  unfold FamilyMember.addChild. rewrite Hs. cbn [mbind option_bind].
  rewrite Hfc, Hlast. cbn [mbind option_bind]. rewrite Ht. cbn [mbind option_bind].
  eexists. split; [done|].
  set (h' := <[t := FamilyMember.setNextSibling (Some c) tm]> h).
  assert (Hnext : ∀ y, y ∈ l → ∃ ym z, h' !! y = Some ym
                    ∧ FamilyMember.nextSibling ym = Some z ∧ z ∈ l).
  { intros y Hy. destruct (decide (y = t)) as [->|Hne].
    - exists (FamilyMember.setNextSibling (Some c) tm), c.
      unfold h'. rewrite list_lookup_insert_eq by (by eapply lookup_lt_Some). done.
    - destruct (chainFrom_closed _ _ _ _ _ Hl Hy) as (ym & Hym & Hn).
      destruct (FamilyMember.nextSibling ym) as [z|] eqn:Hz; [|congruence].
      exists ym, z. unfold h'. by rewrite list_lookup_insert_ne. }
  assert (Hloop : ∀ k y, y ∈ l → chainFrom k h' (Some y) = None
                          ∧ FamilyMember.lastSibling k h' y = None).
  { induction k as [|k IH]; intros y Hy; [done|].
    destruct (Hnext y Hy) as (ym & z & Hym & Hz & Hzl).
    rewrite chainFrom_S, lastSibling_S, Hym. cbn [mbind option_bind].
    rewrite Hz. destruct (IH z Hzl) as [-> ->]. done. }
  assert (fc ∈ l) as Hfcl.
  { destruct fuel as [|k]; [done|]. rewrite chainFrom_S in Hl.
    destruct (h !! fc); [|done]. cbn [mbind option_bind] in Hl.
    destruct (chainFrom k h _); [|done]. injection Hl as <-.
    apply elem_of_cons. by left. }
  assert (∃ sm', h' !! s = Some sm' ∧ FamilyMember.firstChild sm' = Some fc) as (sm' & Hs' & Hfc').
  { unfold h'. destruct (decide (s = t)) as [->|Hne].
    - rewrite list_lookup_insert_eq by (by eapply lookup_lt_Some).
      eexists. split; [done|]. simpl. congruence.
    - rewrite list_lookup_insert_ne by done. by exists sm. }
  intros k d. unfold childrenOf. rewrite Hs'. cbn [mbind option_bind].
  rewrite Hfc'. destruct (Hloop k fc Hfcl) as [-> ->]. done.
Qed.

Lemma member_addChild_again_cycles_witness :
  ∃ h', FamilyMember.addChild 2 carolDave 0 (Some 1) = Some h'
    ∧ childrenOf 100 h' 0 = None.
Proof.
  destruct (member_addChild_again_cycles 2 carolDave 0 1 [1]) as (h' & H1 & H2).
  - reflexivity.
  - apply elem_of_cons. by left.
  - exists h'. split; [assumption|]. apply (H2 100 0).
Defined.

(** ** The line buffers *)

(** X7. [parentLine] is safe for every buffer of at least 42 bytes: it
    then writes the whole line, the two names cut to 15 characters with
    their gender marks, at most 41 characters long.  The bound is needed:
    the guards test only the first cell of a block, and for a pair without
    parents a buffer of 9 bytes is written past its end. *)
Theorem parentLine_buffer h p fn mn fg mg outSize :
  nameOf h (FamilyPair.father p) = Some fn →
  nameOf h (FamilyPair.mother p) = Some mn →
  genderOf h "M"%char (FamilyPair.father p) = Some fg →
  genderOf h "F"%char (FamilyPair.mother p) = Some mg →
  (42 ≤ outSize)%Z →
  (∃ line,
     parentLine h p outSize = Some line
     ∧ line = c_str (first15 fn ++ [" "; "("; fg; ")"; " "; "-"; " "]%char
                     ++ first15 mn ++ [" "; "("; mg; ")"]%char)
     ∧ length line ≤ 41)
  ∧ parentLine h (FamilyPair.new None None) 9 = None.
Proof.
  intros Hfn Hmn Hfg Hmg Hsize. split; [|done].
  eexists. split; [|split; [reflexivity|]].
  - unfold parentLine.
    rewrite Hfn, Hmn, Hfg, Hmg. cbn [mbind option_bind].
    pose proof (first15_length fn) as Lf. pose proof (first15_length mn) as Lm.
    rewrite (copyRoom_fits _ fn) by (rewrite room_spec; simpl length; lia).
    rewrite (putBlock_fits outSize _ (first15 fn)) by lia.
    rewrite (putBlock_fits outSize [" "; "-"; " "]%char)
      by (rewrite length_app; simpl length; lia).
    rewrite (copyRoom_fits _ mn) by (rewrite room_spec, !length_app; simpl length; lia).
    rewrite putBlock_fits by (rewrite !length_app; simpl length; lia).
    rewrite (bool_decide_eq_true_2 (Z.of_nat (length (first15 fn)) < outSize)%Z) by lia.
    rewrite (bool_decide_eq_true_2 (Z.of_nat (length (_ ++ first15 mn)) < outSize)%Z)
      by (rewrite !length_app; simpl length; lia).
    set (o5 := ((((first15 fn ++ _) ++ _) ++ _) ++ _)).
    assert (length o5 ≤ 41) as Ho by (unfold o5; rewrite !length_app; simpl length; lia).
    rewrite !bool_decide_eq_true_2 by lia. simpl andb. cbv iota.
    rewrite take_ge by lia. unfold o5. by rewrite <- !app_assoc.
  - pose proof (first15_length fn) as Lf. pose proof (first15_length mn) as Lm.
    match goal with |- length (c_str ?s) ≤ _ => 
      assert (length (c_str s) ≤ length s) as Hc
    end.
    { match goal with |- length (c_str ?s) ≤ _ => generalize s end.
      induction l as [|c l IH]; simpl; [done|]. destruct (is_nul c); simpl; lia. }
    etrans; [exact Hc|]. rewrite !length_app. simpl length. lia.
Qed.

Lemma parentLine_buffer_witness :
  (∃ line, parentLine carolDave davePair 42 = Some line
           ∧ line = c_str (first15 (lit "Carol") ++ [" "; "("; "F"; ")"; " "; "-"; " "]%char
                           ++ first15 (lit "Unknown") ++ [" "; "("; "F"; ")"]%char)
           ∧ length line ≤ 41)
  ∧ parentLine carolDave (FamilyPair.new None None) 9 = None.
Proof.
  apply (parentLine_buffer carolDave davePair (lit "Carol") (lit "Unknown")
           "F"%char "F"%char 42); [reflexivity..|lia].
Defined.

(** X8. [childrenLine] never writes past its buffer: for every buffer of
    at least one byte the line it leaves is the first [outSize - 1]
    characters of the children's names, each cut to 15 characters, joined by
    single spaces; it is the whole of that text exactly when the text is
    shorter than the buffer.  With [outSize <= 0] even the terminator is
    written outside the buffer. *)
Theorem childrenLine_buffer h p outSize cs names :
  cells p = Some cs →
  namesOf h cs = Some names →
  let full := joinNames (map first15 names) in
  ((1 ≤ outSize)%Z →
   ∃ line, childrenLine h p outSize = Some line
     ∧ line = take (Z.to_nat (outSize - 1)) full
     ∧ (Z.of_nat (length line) ≤ outSize - 1)%Z
     ∧ line `prefix_of` full
     ∧ (line = full ↔ (Z.of_nat (length full) < outSize)%Z))
  ∧ ((outSize ≤ 0)%Z → childrenLine h p outSize = None).
Proof.
  intros Hcs Hnames full. split.
  - intros Hsize. eexists. split; [by eapply childrenLine_spec|].
    fold full. split; [done|].
    split; [rewrite length_take; lia|].
    split; [apply prefix_take|].
    split.
    + intros Heq. apply (f_equal length) in Heq. rewrite length_take in Heq. lia.
    + intros Hlt. apply take_ge. lia.
  - intros Hsize. unfold childrenLine. rewrite Hcs. cbn [mbind option_bind].
    destruct (childrenLine_from h outSize cs []); [|done]. cbn [mbind option_bind].
    by rewrite bool_decide_eq_false_2 by lia.
Qed.

Lemma childrenLine_buffer_witness :
  (∃ line, childrenLine carolDave davePair 4 = Some line ∧ line = lit "Dav")
  ∧ childrenLine carolDave davePair 0 = None.
Proof.
  destruct (childrenLine_buffer carolDave davePair 4 [Some 1] [lit "Dave"]
              eq_refl eq_refl) as [H1 _].
  destruct (childrenLine_buffer carolDave davePair 0 [Some 1] [lit "Dave"]
              eq_refl eq_refl) as [_ H2].
  split.
  - destruct (H1 ltac:(lia)) as (line & Hl & Heq & _).
    exists line. split; [exact Hl|exact Heq].
  - apply H2. lia.
Defined.

(** ** The rows of a generation *)

Lemma foldl_Zadd_init (a : Z) (l : list Z) :
  foldl Z.add a l = (a + foldl Z.add 0 l)%Z.
Proof.
  revert a. induction l as [|x l IH]; intros a; simpl; [lia|].
  rewrite (IH (a + x)%Z), (IH (0 + x)%Z). lia.
Qed.

Lemma spaces_strlen n : (0 ≤ n)%Z → strlen (spaces n) = n.
Proof. intros H. unfold strlen, spaces. rewrite length_replicate. lia. Qed.

Lemma row_strlen bs :
  bs ≠ [] →
  strlen (row bs)
  = (foldl Z.add 0 (map strlen bs) + (Z.of_nat (length bs) - 1) * Z.of_nat HSPACE)%Z.
Proof.
  induction bs as [|b bs IH]; [done|]. intros _.
  destruct bs as [|b' bs].
  - simpl. lia.
  - change (row (b :: b' :: bs)) with (b ++ spaces (Z.of_nat HSPACE) ++ row (b' :: bs)).
    unfold strlen in *. rewrite !length_app, !Nat2Z.inj_add.
    rewrite IH by done.
    change (length (spaces (Z.of_nat HSPACE))) with HSPACE.
    cbn [map foldl length]. rewrite !(foldl_Zadd_init (_ + _)%Z). lia.
Qed.

Lemma connector_strlen w pl :
  (strlen pl ≤ w)%Z → (6 ≤ w)%Z →
  strlen (connector w pl) = (w + 2)%Z
  ∧ (0 ≤ padLeft w pl + Z.quot (strlen pl) 2 < w)%Z.
Proof.
  intros Hle H6. unfold connector, padLeft.
  assert (0 ≤ strlen pl)%Z as H0 by (unfold strlen; lia).
  rewrite !Z.quot_div_nonneg by lia.
  assert (0 ≤ (w - strlen pl) / 2 ∧ 2 * ((w - strlen pl) / 2) ≤ w - strlen pl)%Z as [? ?].
  { split; [apply Z.div_pos; lia|]. apply Z.mul_div_le. lia. }
  assert (0 ≤ strlen pl / 2 ∧ 2 * (strlen pl / 2) ≤ strlen pl)%Z as [? ?].
  { split; [apply Z.div_pos; lia|]. apply Z.mul_div_le. lia. }
  split; [|lia].
  unfold strlen at 1. rewrite !length_app, !Nat2Z.inj_add.
  fold (strlen (spaces ((w - strlen pl) / 2 + strlen pl / 2))).
  fold (strlen (spaces (w - ((w - strlen pl) / 2 + strlen pl / 2 + 1)))).
  rewrite !spaces_strlen by lia. simpl length. lia.
Qed.

Lemma unitWidth_bounds pl cl :
  (strlen pl ≤ unitWidth pl cl ∧ strlen cl ≤ unitWidth pl cl ∧ 6 ≤ unitWidth pl cl)%Z.
Proof. rewrite unitWidth_max. lia. Qed.

(** X9. The parents row and the children row printed for a generation
    have exactly [totalLineWidth] characters, the widths of the units plus
    six spaces between neighbours, so the two rows line up unit by unit; the
    connector row has the same number of columns, its glyph standing inside
    its unit's block, and two more bytes per unit for the three-byte glyph.
    The text of a generation is these three rows, each ended by a newline,
    and an empty line. *)
Theorem rows_have_total_width ls :
  ls ≠ [] →
  let W := totalLineWidth (widthsOf ls) in
  strlen (row (map (λ l, centered (unitWidth l.1 l.2) l.1) ls)) = W
  ∧ strlen (row (map (λ l, centered (unitWidth l.1 l.2) l.2) ls)) = W
  ∧ strlen (row (map (λ l, connector (unitWidth l.1 l.2) l.1) ls))
    = (W + 2 * Z.of_nat (length ls))%Z
  ∧ Forall (λ l, 0 ≤ padLeft (unitWidth l.1 l.2) l.1 + Z.quot (strlen l.1) 2
                 < unitWidth l.1 l.2)%Z ls
  ∧ strlen (renderLines ls) = (3 * W + 2 * Z.of_nat (length ls) + 4)%Z
  ∧ (12 * Z.of_nat (length ls) - 6 ≤ W)%Z.
Proof.
  intros Hne W.
  assert (Hp : strlen (row (map (λ l, centered (unitWidth l.1 l.2) l.1) ls)) = W).
  { rewrite row_strlen by (by destruct ls). rewrite length_map, map_map.
    unfold W, totalLineWidth, widthsOf. rewrite length_map. do 2 f_equal.
    apply map_ext. intros [pl cl]. simpl.
    apply centered_length. apply unitWidth_bounds. }
  assert (Hc : strlen (row (map (λ l, centered (unitWidth l.1 l.2) l.2) ls)) = W).
  { rewrite row_strlen by (by destruct ls). rewrite length_map, map_map.
    unfold W, totalLineWidth, widthsOf. rewrite length_map. do 2 f_equal.
    apply map_ext. intros [pl cl]. simpl.
    apply centered_length. apply unitWidth_bounds. }
  assert (Hk : strlen (row (map (λ l, connector (unitWidth l.1 l.2) l.1) ls))
               = (W + 2 * Z.of_nat (length ls))%Z).
  { rewrite row_strlen by (by destruct ls). rewrite length_map, map_map.
    unfold W, totalLineWidth, widthsOf. rewrite length_map.
    assert (∀ l : list (text * text),
              foldl Z.add 0%Z (map (λ x, strlen (connector (unitWidth x.1 x.2) x.1)) l)
              = (foldl Z.add 0 (map (λ x, unitWidth x.1 x.2) l)
                 + 2 * Z.of_nat (length l))%Z) as Hsum.
    { induction l as [|[pl cl] l IH]; [done|]. cbn [map foldl length fst snd].
      rewrite foldl_Zadd_init, (foldl_Zadd_init (0 + unitWidth pl cl)%Z), IH.
      destruct (connector_strlen (unitWidth pl cl) pl) as [-> _];
        [apply unitWidth_bounds..|]. lia. }
    rewrite Hsum. lia. }
  split; [done|]. split; [done|]. split; [done|].
  split.
  { apply Forall_forall. intros [pl cl] _. simpl.
    apply connector_strlen; apply unitWidth_bounds. }
  split.
  { unfold renderLines. unfold strlen in *. rewrite !length_app, !Nat2Z.inj_add.
    rewrite Hp, Hc, Hk. simpl length. lia. }
  unfold W, totalLineWidth, widthsOf. rewrite length_map.
  assert (∀ l : list (text * text),
            (6 * Z.of_nat (length l) ≤ foldl Z.add 0 (map (λ x, unitWidth x.1 x.2) l))%Z) as Hsum.
  { induction l as [|[pl cl] l IH]; [done|]. cbn [map foldl length fst snd].
    rewrite foldl_Zadd_init. pose proof (unitWidth_bounds pl cl). lia. }
  specialize (Hsum ls). change (Z.of_nat HSPACE) with 6%Z. lia.
Qed.

Lemma rows_have_total_width_witness :
  strlen (row (map (λ l, centered (unitWidth l.1 l.2) l.1)
                 [(lit "Unknown (M) - Unknown (F)", lit "Carol");
                  (lit "Carol (F) - Unknown (F)", lit "Dave")])) = 54%Z
  ∧ strlen (renderLines [(lit "Unknown (M) - Unknown (F)", lit "Carol");
                         (lit "Carol (F) - Unknown (F)", lit "Dave")]) = 170%Z.
Proof.
  destruct (rows_have_total_width
              [(lit "Unknown (M) - Unknown (F)", lit "Carol");
               (lit "Carol (F) - Unknown (F)", lit "Dave")])
    as (H1 & _ & _ & _ & H5 & _); [discriminate|].
  split; [exact H1|exact H5].
Defined.

(** ** Reading answers *)

(** X10. [readGender] asks again until it is given one of M, m, F, f.
    An entry of white space is skipped by the extraction without a word;
    every other entry that is not an answer costs the line "Invalid gender.
    Enter M or F." and one more prompt.  The tree is left alone, and the
    answer returned is the first valid entry in upper case, so always the
    letter M or F. *)
Theorem readGender_asks_again prompt bad g rest w :
  input w = map Key bad ++ Key g :: rest →
  Forall (λ c, c ∉ ["M"; "m"; "F"; "f"]%char) bad →
  g ∈ ["M"; "m"; "F"; "f"]%char →
  ∃ r, readGender prompt w
       = Some (r, {| tree := tree w; input := rest;
                     output := output w ++ [prompt]
                       ++ concat (map (λ _, [lit "Invalid gender. Enter M or F." ++ nl; prompt])
                                    (filter (λ c, isSpace c = false) bad)) |})
    ∧ (g ∈ ["M"; "m"]%char → r = "M"%char)
    ∧ (g ∈ ["F"; "f"]%char → r = "F"%char).
Proof.
  intros Hin Hbad Hg.
  eexists. split.
  - unfold readGender. rewrite Hin.
    rewrite (readGender_loop_skips prompt bad g rest); [by rewrite <- app_assoc| |].
    + eapply Forall_impl; [exact Hbad|]. intros c Hc. simpl in Hc.
      destruct (isGender c) eqn:E; [|done]. by apply isGender_iff in E.
    + by apply isGender_iff.
  - split.
    + intros [->|[->|[]%elem_of_nil]%elem_of_cons]%elem_of_cons; done.
    + intros [->|[->|[]%elem_of_nil]%elem_of_cons]%elem_of_cons; done.
Qed.

Lemma readGender_asks_again_witness :
  ∃ r, readGender (lit "Enter gender (M/F): ")
         {| tree := FamilyTree.new;
            input := [Key "x"%char; Key " "%char; Key "7"%char; Key "f"%char];
            output := [] |}
       = Some (r, {| tree := FamilyTree.new; input := [];
                     output := [lit "Enter gender (M/F): ";
                                lit "Invalid gender. Enter M or F." ++ nl;
                                lit "Enter gender (M/F): ";
                                lit "Invalid gender. Enter M or F." ++ nl;
                                lit "Enter gender (M/F): "] |})
    ∧ r = "F"%char.
Proof.
  destruct (readGender_asks_again (lit "Enter gender (M/F): ") ["x"; " "; "7"]%char "f"%char []
              {| tree := FamilyTree.new;
                 input := [Key "x"%char; Key " "%char; Key "7"%char; Key "f"%char];
                 output := [] |}) as (r & Hr & _ & HF).
  - reflexivity.
  - repeat constructor; intros H; repeat (apply elem_of_cons in H as [H|H]; [discriminate H|]);
      by apply elem_of_nil in H.
  - do 3 (apply elem_of_cons; right). apply elem_of_cons. by left.
  - exists r. split; [exact Hr|]. apply HF. apply elem_of_cons. right.
    apply elem_of_cons. by left.
Defined.

(** X11. [readYesNo] and [readYesNoDefaultYes] ask again until they are
    given y, Y, n or N, and return whether that entry was a yes.  An entry
    of white space is skipped by the extraction without a word; every other
    entry that is not an answer costs one "Please enter y or n: ".  Neither
    function has a default: the argument of [readYesNo] is not used, and
    [readYesNoDefaultYes] differs only by printing its prompt first. *)
Theorem readYesNo_asks_again bad k rest w :
  input w = map Key bad ++ Key k :: rest →
  Forall (λ c, c ∉ ["y"; "Y"; "n"; "N"]%char) bad →
  k ∈ ["y"; "Y"; "n"; "N"]%char →
  let asked := replicate (length (filter (λ c, isSpace c = false) bad))
                 (lit "Please enter y or n: ") in
  (∀ defaultNo,
     readYesNo defaultNo w
     = Some (bool_decide (k ∈ ["y"; "Y"]%char),
             {| tree := tree w; input := rest; output := output w ++ asked |}))
  ∧ (∀ prompt,
       readYesNoDefaultYes prompt w
       = Some (bool_decide (k ∈ ["y"; "Y"]%char),
               {| tree := tree w; input := rest;
                  output := output w ++ [prompt] ++ asked |})).
Proof.
  intros Hin Hbad Hk asked.
  assert (bool_decide (k ∈ ["y"; "Y"]%char)
          = bool_decide (k = "y"%char) || bool_decide (k = "Y"%char)) as ->.
  { repeat (apply elem_of_cons in Hk as [->|Hk]); [done..|]. by apply elem_of_nil in Hk. }
  split.
  - intros d. unfold readYesNo. rewrite Hin.
    by rewrite (readYesNo_loop_skips bad k rest _ Hbad Hk).
  - intros p. unfold readYesNoDefaultYes. rewrite Hin.
    rewrite (readYesNo_loop_skips bad k rest _ Hbad Hk). by rewrite <- app_assoc.
Qed.

Lemma readYesNo_asks_again_witness :
  readYesNoDefaultYes (lit "Is person alive? (y/n) [y]: ")
    {| tree := FamilyTree.new;
       input := [Key "009"%char; Key "?"%char; Key " "%char; Key "N"%char]; output := [] |}
  = Some (false, {| tree := FamilyTree.new; input := [];
                    output := [lit "Is person alive? (y/n) [y]: ";
                               lit "Please enter y or n: "] |}).
Proof.
  destruct (readYesNo_asks_again ["009"; "?"; " "]%char "N"%char []
              {| tree := FamilyTree.new;
                 input := [Key "009"%char; Key "?"%char; Key " "%char; Key "N"%char];
                 output := [] |})
    as [_ H].
  - reflexivity.
  - repeat constructor; intros H; repeat (apply elem_of_cons in H as [H|H]; [discriminate H|]);
      by apply elem_of_nil in H.
  - do 3 (apply elem_of_cons; right). apply elem_of_cons. by left.
  - exact (H (lit "Is person alive? (y/n) [y]: ")).
Defined.

(** ** What the operations change *)

Lemma frames_refl tr : frames tr tr.
Proof. intros a m Hm. exists m. split; [done|apply same_person_refl]. Qed.

Lemma frames_trans tr1 tr2 tr3 : frames tr1 tr2 → frames tr2 tr3 → frames tr1 tr3.
Proof.
  intros H12 H23 a m Hm. destruct (H12 a m Hm) as (m2 & Hm2 & Hs2).
  destruct (H23 a m2 Hm2) as (m3 & Hm3 & Hs3). exists m3. split; [done|].
  by eapply same_person_trans.
Qed.

Lemma grown_eq k tr tr' : tr' = tr → grown k tr tr'.
Proof. intros ->. split; [done|]. split; [lia|apply frames_refl]. Qed.

Lemma grown_trans k1 k2 tr1 tr2 tr3 :
  grown k1 tr1 tr2 → grown k2 tr2 tr3 → grown (k1 + k2) tr1 tr3.
Proof.
  intros (Hr1 & Hl1 & Hf1) (Hr2 & Hl2 & Hf2).
  split; [congruence|]. split; [lia|by eapply frames_trans].
Qed.

Lemma grown_mono k k' tr tr' : k ≤ k' → grown k tr tr' → grown k' tr tr'.
Proof. intros Hk (? & ? & ?). split; [done|]. split; [lia|done]. Qed.

Lemma readLine_inv p n s w w' :
  readLine p n w = Some (s, w') →
  input w = Line s :: input w' ∧ length s < n
  ∧ tree w' = tree w ∧ output w' = output w ++ [p].
Proof.
  unfold readLine. destruct (input w) as [|[s0|c] rest]; try done.
  case_bool_decide; [|done]. intros [= <- <-]. done.
Qed.

Lemma newMember_inv n g al w a w' :
  newMember n g al w = Some (a, w') →
  a = length (FamilyTree.memberPool (tree w))
  ∧ w' = {| tree := FamilyTree.poolAdd (FamilyMember.new n g al) (tree w);
            input := input w; output := output w |}.
Proof. unfold newMember, bind, getTree, putTree, ret. by intros [= <- <-]. Qed.

Lemma newMember_grown n g al w a w' :
  newMember n g al w = Some (a, w') →
  a = length (FamilyTree.memberPool (tree w))
  ∧ grown 1 (tree w) (tree w')
  ∧ FamilyTree.memberPool (tree w') !! a = Some (FamilyMember.new n g al)
  ∧ length (FamilyTree.memberPool (tree w')) = S a.
Proof.
  intros [-> ->]%newMember_inv. simpl. split; [done|].
  split; [|split].
  - split; [done|]. simpl. rewrite length_app. simpl. split; [lia|].
    intros a m Hm. exists m. split; [by apply lookup_app_l_Some|apply same_person_refl].
  - rewrite lookup_app_r by done. by rewrite Nat.sub_diag.
  - rewrite length_app. simpl. lia.
Qed.

Lemma addChildOf_grown fuel s c w u w' :
  addChildOf fuel s c w = Some (u, w') → grown 0 (tree w) (tree w').
Proof.
  intros Hrun. unfold addChildOf in Hrun. cmd_inv.
  match goal with H : FamilyMember.addChild _ _ _ _ = Some _ |- _ =>
    destruct (member_addChild_same _ _ _ _ _ H) as [Hlen Hsame] end.
  split; [done|]. simpl. split; [lia|done].
Qed.

Lemma updMember_inv_eq a (f : FamilyMember.t → FamilyMember.t) w u w' :
  updMember a f w = Some (u, w') →
  ∃ m, FamilyTree.memberPool (tree w) !! a = Some m
       ∧ tree w' = FamilyTree.setPool (<[a := f m]> (FamilyTree.memberPool (tree w))) (tree w).
Proof. intros Hrun. unfold updMember in Hrun. cmd_inv. by eexists. Qed.

Lemma askParent_grown fuel lo cap w p w' :
  askParent fuel lo cap w = Some (p, w') →
  grown 1 (tree w) (tree w') ∧ (p = None → tree w' = tree w).
Proof.
  intros Hrun. unfold askParent in Hrun. cmd_inv.
  destruct (emptyName _); cmd_inv; [by split; [apply grown_eq|]|].
  destruct (findByName _ _) as [a|] eqn:Hfind; cmd_inv;
    [by split; [apply grown_eq|]|].
  match goal with H : (if ?b then _ else _) _ = Some _ |- _ => destruct b end; cmd_inv;
    [|by split; [apply grown_eq|]].
  split; [|done].
  match goal with
  | Hn : newMember _ _ _ ?w4 = Some _, Ha : addChildOf _ _ _ _ = Some _,
    He : tree ?w4 = tree w |- _ =>
      apply newMember_grown in Hn as (_ & Hn & _); apply addChildOf_grown in Ha;
      rewrite <- He; apply (grown_trans 1 0 _ _ _ Hn Ha)
  end.
Qed.

Lemma askSpouse_grown fuel lo cap sug w p w' :
  askSpouse fuel lo cap sug w = Some (p, w') → grown 1 (tree w) (tree w').
Proof.
  intros Hrun. unfold askSpouse in Hrun. cmd_inv.
  match goal with H : (if ?b then _ else _) _ = Some _ |- _ => destruct b end; cmd_inv;
    [|by apply grown_eq].
  destruct (emptyName _); cmd_inv; [by apply grown_eq|].
  destruct (findByName _ _) as [a|] eqn:Hfind; cmd_inv; [by apply grown_eq|].
  match goal with
  | Hn : newMember _ _ _ ?w4 = Some _, Ha : addChildOf _ _ _ _ = Some _,
    He : tree ?w4 = tree w |- _ =>
      apply newMember_grown in Hn as (_ & Hn & _); apply addChildOf_grown in Ha;
      rewrite <- He; apply (grown_trans 1 0 _ _ _ Hn Ha)
  end.
Qed.

Lemma askParents_grown fuel w fm w' :
  askParents fuel w = Some (fm, w') → grown 2 (tree w) (tree w').
Proof.
  intros Hrun. unfold askParents in Hrun.
  apply bind_Some in Hrun as (f & w1 & Hf & Hrun).
  apply bind_Some in Hrun as (m & w2 & Hm & Hrun).
  destruct (askParent_grown _ _ _ _ _ _ Hf) as [Hg1 Hn1].
  destruct (askParent_grown _ _ _ _ _ _ Hm) as [Hg2 Hn2].
  destruct f as [f|], m as [m|].
  - cmd_inv. apply (grown_trans 1 1 _ _ _ Hg1 Hg2).
  - apply bind_Some in Hrun as (m' & w3 & Hs & Hrun). cmd_inv.
    apply askSpouse_grown in Hs. rewrite (Hn2 eq_refl) in Hs.
    apply (grown_trans 1 1 _ _ _ Hg1 Hs).
  - apply bind_Some in Hrun as (f' & w3 & Hs & Hrun). cmd_inv.
    apply askSpouse_grown in Hs. rewrite <- (Hn1 eq_refl).
    apply (grown_trans 1 1 _ _ _ Hg2 Hs).
  - cmd_inv. rewrite (Hn2 eq_refl), (Hn1 eq_refl). by apply grown_eq.
Qed.

(** *** The end of [addMemberInteractive] *)

Section linkMember.
Variables (tr : FamilyTree.t) (name : text) (g : ascii) (al : bool).

Local Abbreviation n := (length (FamilyTree.memberPool tr)).

(** The registry while the new member, at address [n], is being linked:
    [f] and [m] are the parents recorded for it so far. *)
Local Abbreviation linking f m tr1 :=
  (FamilyTree.root tr1 = FamilyTree.root tr
   ∧ length (FamilyTree.memberPool tr1) = S n
   ∧ frames tr tr1
   ∧ ∃ x, FamilyTree.memberPool tr1 !! n = Some x
          ∧ FamilyMember.name x = FamilyMember.copyName name
          ∧ FamilyMember.gender x = FamilyMember.gender (FamilyMember.new name g al)
          ∧ FamilyMember.alive x = al
          ∧ FamilyMember.father x = f
          ∧ FamilyMember.mother x = m).

Lemma linking_new w a w' :
  tree w = tr → newMember name g al w = Some (a, w') →
  a = n ∧ linking (@None nat) (@None nat) (tree w').
Proof.
  intros <- (-> & (Hr & Hl & Hf) & Hn & Hlen)%newMember_grown.
  split; [done|]. split; [done|]. split; [done|]. split; [done|].
  eexists. split; [done|]. done.
Qed.

Lemma linking_addChildOf f m fuel s c w u w' :
  linking f m (tree w) → addChildOf fuel s c w = Some (u, w') → linking f m (tree w').
Proof.
  intros (Hr & Hl & Hf & x & Hx & Hxs) (Hr' & Hl' & Hf')%addChildOf_grown.
  split; [congruence|]. split; [lia|]. split; [by eapply frames_trans|].
  destruct (Hf' _ _ Hx) as (x' & Hx' & Hs'). exists x'. split; [done|].
  destruct Hs' as (?&?&?&?&?). destruct Hxs as (?&?&?&?&?). repeat split; congruence.
Qed.

Lemma linking_update f m (upd : FamilyMember.t → FamilyMember.t) f' m' w u w' :
  linking f m (tree w) →
  (∀ x, FamilyMember.name (upd x) = FamilyMember.name x
        ∧ FamilyMember.gender (upd x) = FamilyMember.gender x
        ∧ FamilyMember.alive (upd x) = FamilyMember.alive x) →
  (∀ x, FamilyMember.father x = f → FamilyMember.mother x = m →
        FamilyMember.father (upd x) = f' ∧ FamilyMember.mother (upd x) = m') →
  updMember n upd w = Some (u, w') →
  linking f' m' (tree w').
Proof.
  intros (Hr & Hl & Hf & x & Hx & Hxn & Hxg & Hxa & Hxf & Hxm) Hkeep Hpar
    (x0 & Hx0 & ->)%updMember_inv_eq.
  assert (x0 = x) as -> by congruence. simpl.
  split; [done|]. split; [by rewrite length_insert|]. split.
  - intros a ma Hma. destruct (Hf a ma Hma) as (ma' & Hma' & Hs). exists ma'. simpl.
    split; [|done]. rewrite list_lookup_insert_ne; [done|].
    apply lookup_lt_Some in Hma. lia.
  - exists (upd x). rewrite list_lookup_insert_eq by lia.
    split; [done|]. destruct (Hkeep x) as (-> & -> & ->).
    destruct (Hpar x Hxf Hxm) as [-> ->]. done.
Qed.

Lemma linkMember_effect fuel f m w u w' :
  tree w = tr →
  linkMember fuel name g al f m w = Some (u, w') →
  linking f m (tree w').
Proof.
  intros Htr Hrun. unfold linkMember in Hrun.
  apply bind_Some in Hrun as (tr0 & w0 & Hg & Hrun). apply getTree_Some in Hg as [-> ->].
  apply bind_Some in Hrun as (nm & w1 & Hnew & Hrun).
  destruct (linking_new _ _ _ Htr Hnew) as [-> H1]. clear Htr.
  apply bind_Some in Hrun as (? & w2 & Hfa & Hrun).
  assert (linking f (@None nat) (tree w2)) as H2.
  { destruct f as [f|]; [|by cmd_inv].
    apply bind_Some in Hfa as (? & w3 & Hupd & Hadd).
    eapply linking_addChildOf; [|exact Hadd].
    eapply linking_update; [exact H1| | |exact Hupd]; by intros. }
  apply bind_Some in Hrun as (? & w4 & Hmo & Hrun).
  assert (linking f m (tree w4)) as H4.
  { destruct m as [m|]; [|by cmd_inv].
    apply bind_Some in Hmo as (? & w5 & Hupd & Hadd).
    assert (linking f (Some m) (tree w5)) as H5.
    { eapply linking_update; [exact H2| | |exact Hupd]; [by intros|].
      intros y Hyf _. done. }
    destruct f as [f|]; [by cmd_inv|]. by eapply linking_addChildOf. }
  apply bind_Some in Hrun as (? & w6 & Hro & Hrun).
  assert (linking f m (tree w6)) as H6.
  { destruct f as [f|], m as [m|]; try by cmd_inv.
    apply bind_Some in Hro as (? & w7 & Hadd & Hsay). cmd_inv.
    by eapply linking_addChildOf. }
  cmd_inv. done.
Qed.

End linkMember.

(** *** The outcomes of the operations *)

Lemma createRootInteractive_cases w b w' :
  createRootInteractive w = Some (b, w') →
  (is_Some (FamilyTree.root (tree w)) ∧ b = false
   ∧ w' = {| tree := tree w; input := input w;
             output := output w ++ [lit "Root already exists." ++ nl] |})
  ∨ (FamilyTree.root (tree w) = None ∧ b = false ∧ tree w' = tree w
     ∧ ∃ name, input w = Line name :: input w' ∧ emptyName name = true)
  ∨ (FamilyTree.root (tree w) = None ∧ b = true
     ∧ ∃ name g al rest,
         input w = Line name :: rest ∧ length name < 64 ∧ emptyName name = false
         ∧ (g = "M"%char ∨ g = "F"%char)
         ∧ tree w' = {| FamilyTree.root := Some (length (FamilyTree.memberPool (tree w)));
                        FamilyTree.memberPool :=
                          FamilyTree.memberPool (tree w) ++ [FamilyMember.new name g al] |}).
Proof.
  intros Hrun. unfold createRootInteractive in Hrun.
  apply bind_Some in Hrun as (tr & w0 & Hg & Hrun). apply getTree_Some in Hg as [-> ->].
  destruct (FamilyTree.root (tree w)) as [r|] eqn:Hroot.
  - left. unfold bind, say, ret in Hrun. injection Hrun as <- <-. by split; [eexists|].
  - right. apply bind_Some in Hrun as (name & w1 & Hl & Hrun).
    apply readLine_inv in Hl as (Hin & Hlen & Ht & Hout).
    destruct (emptyName name) eqn:He.
    + left. unfold bind, say, ret in Hrun. injection Hrun as <- <-. simpl.
      split; [done|]. split; [done|]. split; [done|]. by exists name.
    + right. split; [done|].
      apply bind_Some in Hrun as (g & w2 & Hgd & Hrun).
      apply readGender_Some in Hgd as [Ht2 Hg].
      apply bind_Some in Hrun as (al & w3 & Hal & Hrun).
      apply readYesNoDefaultYes_Some in Hal.
      apply bind_Some in Hrun as (m & w4 & Hnew & Hrun).
      apply newMember_inv in Hnew as [-> ->].
      unfold bind, getTree, putTree, say, ret in Hrun. simpl in Hrun.
      injection Hrun as <- <-. split; [done|].
      exists name, g, al, (input w1). simpl.
      rewrite Hal, Ht2, Ht. done.
Qed.

Lemma findByName_new (pool : list FamilyMember.t) r name g al :
  length name < 64 →
  (∀ j m', pool !! j = Some m' → eq_name (FamilyMember.name m') name = false) →
  findByName {| FamilyTree.root := r;
                FamilyTree.memberPool := pool ++ [FamilyMember.new name g al] |} name
  = Some (length pool).
Proof.
  intros Hlen Hno. apply findByName_Some. simpl.
  exists (FamilyMember.new name g al).
  split; [rewrite lookup_app_r by done; by rewrite Nat.sub_diag|].
  split.
  - simpl. apply eq_name_c_str. rewrite copyName_c_str. apply copyName_short.
    assert (∀ s : text, length (c_str s) ≤ length s) as Hc.
    { induction s as [|c s IH]; simpl; [done|]. destruct (is_nul c); simpl; lia. }
    specialize (Hc name). lia.
  - intros j m' Hj Hm'. rewrite lookup_app_l in Hm' by done. by apply (Hno j).
Qed.

(** X12. [createRootInteractive] either creates the root or leaves the
    registry as it was: it returns true only when there was no root, and
    then the registry consists of exactly one member, the root, at address
    0, with the entered name (as [copyName] stores it), the gender as M or
    F, and no links, and [findByName] finds it under the entered name; it
    returns false, with the registry unchanged, when a root exists (nothing
    is read then) or the entered name is empty. *)
Theorem createRootInteractive_outcomes w b w' :
  reachable w →
  createRootInteractive w = Some (b, w') →
  if b then
    FamilyTree.root (tree w) = None
    ∧ ∃ name g al rest,
        input w = Line name :: rest ∧ emptyName name = false
        ∧ (g = "M"%char ∨ g = "F"%char)
        ∧ tree w' = {| FamilyTree.root := Some 0;
                       FamilyTree.memberPool := [FamilyMember.new name g al] |}
        ∧ findByName (tree w') name = Some 0
  else
    tree w' = tree w
    ∧ (is_Some (FamilyTree.root (tree w)) →
       input w' = input w
       ∧ output w' = output w ++ [lit "Root already exists." ++ nl])
    ∧ (FamilyTree.root (tree w) = None →
       ∃ name, input w = Line name :: input w' ∧ emptyName name = true).
Proof.
  intros Hreach Hrun. apply reachable_inv in Hreach. unfold tree_inv in Hreach.
  destruct (createRootInteractive_cases _ _ _ Hrun)
    as [(Hr & -> & ->)|[(Hr & -> & Ht & Hn)|(Hr & -> & name & g & al & rest & Hin & Hlen & He & Hg & Ht)]].
  - split; [done|]. split; [done|]. intros Hnone. destruct Hr as [r Hr]. congruence.
  - split; [done|]. split; [|done]. intros [r Hr']. congruence.
  - split; [done|]. rewrite Hr in Hreach. rewrite Hreach in Ht. simpl in Ht.
    exists name, g, al, rest. split; [done|]. split; [done|]. split; [done|].
    split; [done|]. rewrite Ht.
    apply (findByName_new [] (Some 0) name g al Hlen). intros j m'. by rewrite lookup_nil.
Qed.

Lemma createRootInteractive_outcomes_witness :
  FamilyTree.root (tree (freshWorld [Line (lit "Alice"); Key "F"%char; Key "y"%char])) = None
  ∧ ∃ name g al rest,
      input (freshWorld [Line (lit "Alice"); Key "F"%char; Key "y"%char]) = Line name :: rest
      ∧ emptyName name = false
      ∧ (g = "M"%char ∨ g = "F"%char)
      ∧ tree (aliceWorld []) = {| FamilyTree.root := Some 0;
                                  FamilyTree.memberPool := [FamilyMember.new name g al] |}
      ∧ findByName (tree (aliceWorld [])) name = Some 0.
Proof.
  apply (createRootInteractive_outcomes
           (freshWorld [Line (lit "Alice"); Key "F"%char; Key "y"%char]) true (aliceWorld [])).
  - exists (freshWorld [Line (lit "Alice"); Key "F"%char; Key "y"%char]).
    split; [reflexivity|apply rtc_refl].
  - reflexivity.
Defined.

(** X13. [addMemberInteractive] refuses without touching the registry:
    with no root it reads nothing and prints "Create root first (option
    1)."; given an empty name it prints "Empty name. Aborted."; given the
    name of a member of the pool it prints "Member already exists.
    Aborted."  In the last two cases only the name line has been read. *)
Theorem addMemberInteractive_refusals fuel w :
  (FamilyTree.root (tree w) = None →
   addMemberInteractive fuel w
   = Some (tt, {| tree := tree w; input := input w;
                  output := output w ++ [lit "Create root first (option 1)." ++ nl] |}))
  ∧ (∀ r name rest,
       FamilyTree.root (tree w) = Some r →
       input w = Line name :: rest →
       length name < 64 →
       (emptyName name = true →
        addMemberInteractive fuel w
        = Some (tt, {| tree := tree w; input := rest;
                       output := output w ++ [lit "Enter new member full name: "]
                                 ++ [lit "Empty name. Aborted." ++ nl] |}))
       ∧ (emptyName name = false →
          is_Some (findByName (tree w) name) →
          addMemberInteractive fuel w
          = Some (tt, {| tree := tree w; input := rest;
                         output := output w ++ [lit "Enter new member full name: "]
                                   ++ [lit "Member already exists. Aborted." ++ nl] |}))).
Proof.
  split.
  - intros Hroot. unfold addMemberInteractive, bind, getTree, say. by rewrite Hroot.
  - intros r name rest Hroot Hin Hlen. split.
    + intros He. unfold addMemberInteractive, bind, getTree, readLine, say.
      rewrite Hroot, Hin. rewrite bool_decide_eq_true_2 by done. rewrite He.
      simpl. by rewrite <- app_assoc.
    + intros He [a Ha]. unfold addMemberInteractive, bind, getTree, readLine, say.
      rewrite Hroot, Hin. rewrite bool_decide_eq_true_2 by done. rewrite He, Ha.
      simpl. by rewrite <- app_assoc.
Qed.

Lemma addMemberInteractive_cases fuel w u w' :
  addMemberInteractive fuel w = Some (u, w') →
  tree w' = tree w
  ∨ ∃ r name rest g al f m w1,
      FamilyTree.root (tree w) = Some r
      ∧ input w = Line name :: rest ∧ length name < 64
      ∧ emptyName name = false
      ∧ findByName (tree w) name = None
      ∧ (g = "M"%char ∨ g = "F"%char)
      ∧ grown 2 (tree w) (tree w1)
      ∧ linkMember fuel name g al f m w1 = Some (u, w').
Proof.
  intros Hrun. unfold addMemberInteractive in Hrun.
  apply bind_Some in Hrun as (tr & w0 & Hg & Hrun). apply getTree_Some in Hg as [-> ->].
  destruct (FamilyTree.root (tree w)) as [r|] eqn:Hroot; [|left; by cmd_inv].
  apply bind_Some in Hrun as (name & w1 & Hl & Hrun).
  apply readLine_inv in Hl as (Hin & Hlen & Ht & Hout).
  destruct (emptyName name) eqn:He; [left; cmd_inv; congruence|].
  destruct (findByName (tree w) name) as [a|] eqn:Hfind; [left; cmd_inv; congruence|].
  apply bind_Some in Hrun as (g & w2 & Hgd & Hrun).
  apply readGender_Some in Hgd as [Ht2 Hg].
  apply bind_Some in Hrun as (al & w3 & Hal & Hrun).
  apply readYesNoDefaultYes_Some in Hal.
  apply bind_Some in Hrun as (? & w4 & Hsay & Hrun). apply say_Some in Hsay.
  apply bind_Some in Hrun as (specify & w5 & Hsp & Hrun). apply readYesNo_Some in Hsp.
  apply bind_Some in Hrun as (fm & w6 & Hfm & Hrun).
  assert (tree w5 = tree w) as Ht5 by congruence.
  right. exists r, name, (input w1), g, al, fm.1, fm.2, w6.
  split; [done|]. split; [done|]. split; [done|]. split; [done|]. split; [done|].
  split; [done|]. split; [|done].
  destruct specify.
  - apply askParents_grown in Hfm. by rewrite Ht5 in Hfm.
  - apply ret_Some in Hfm as [_ ->]. apply grown_eq. done.
Qed.

(** X14. A call of [addMemberInteractive] that does not refuse allocates
    between one and three members, the new member and at most two parents
    created on the way, and the new member is the last of them: it carries
    the entered name as [copyName] stores it and a gender M or F.  The root
    stays the root, and the members already in the pool keep their names,
    genders, alive flags and parents. *)
Theorem addMemberInteractive_effect fuel w u w' :
  addMemberInteractive fuel w = Some (u, w') →
  tree w' = tree w
  ∨ ∃ name rest n x,
      input w = Line name :: rest
      ∧ emptyName name = false
      ∧ findByName (tree w) name = None
      ∧ is_Some (FamilyTree.root (tree w))
      ∧ FamilyTree.root (tree w') = FamilyTree.root (tree w)
      ∧ length (FamilyTree.memberPool (tree w)) ≤ n
        ≤ length (FamilyTree.memberPool (tree w)) + 2
      ∧ length (FamilyTree.memberPool (tree w')) = S n
      ∧ FamilyTree.memberPool (tree w') !! n = Some x
      ∧ FamilyMember.name x = FamilyMember.copyName name
      ∧ (FamilyMember.gender x = "M"%char ∨ FamilyMember.gender x = "F"%char)
      ∧ frames (tree w) (tree w').
Proof.
  intros Hrun.
  destruct (addMemberInteractive_cases _ _ _ _ Hrun)
    as [?|(r & name & rest & g & al & f & m & w1 & Hroot & Hin & Hlen & He & Hfind & Hg
           & (Hr1 & Hl1 & Hf1) & Hlink)]; [by left|].
  right.
  destruct (linkMember_effect (tree w1) name g al fuel f m w1 u w' eq_refl Hlink)
    as (Hr2 & Hl2 & Hf2 & x & Hx & Hxn & Hxg & _).
  exists name, rest, (length (FamilyTree.memberPool (tree w1))), x.
  split; [done|]. split; [done|]. split; [done|]. split; [by rewrite Hroot|].
  split; [congruence|]. split; [lia|]. split; [done|]. split; [done|].
  split; [done|]. split; [|by eapply frames_trans].
  rewrite Hxg. apply new_gender_ok.
Qed.

Lemma bob_added :
  ∃ w', addMemberInteractive 1 (aliceWorld bobInput) = Some (tt, w')
    ∧ length (FamilyTree.memberPool (tree w')) = 2.
Proof.
  destruct (addMember_no_parents 1 (aliceWorld bobInput) 0 (lit "Bob")
              "M"%char "y"%char "n"%char [])
    as [out Hrun];
    [reflexivity|reflexivity|simpl; lia|reflexivity|reflexivity|reflexivity
    |apply list_elem_of_here|apply list_elem_of_here|].
  pose proof (reachable_inv _ (aliceWorld_reachable bobInput)) as Hinv.
  unfold tree_inv in Hinv. cbn [aliceWorld tree FamilyTree.root] in Hinv.
  destruct (linkMember_unparented 1 (lit "Bob") "M"%char true
              {| tree := tree (aliceWorld bobInput); input := []; output := out |} 0 Hinv)
    as (w' & kids & Hlink & _ & _ & Hlen & _); [simpl; lia|].
  exists w'. split; [|exact Hlen]. rewrite Hrun. exact Hlink.
Qed.

Lemma addMemberInteractive_effect_witness :
  ∃ w', addMemberInteractive 1 (aliceWorld bobInput) = Some (tt, w')
    ∧ (tree w' = tree (aliceWorld bobInput)
       ∨ ∃ name rest n x,
           input (aliceWorld bobInput) = Line name :: rest
           ∧ emptyName name = false
           ∧ findByName (tree (aliceWorld bobInput)) name = None
           ∧ is_Some (FamilyTree.root (tree (aliceWorld bobInput)))
           ∧ FamilyTree.root (tree w') = FamilyTree.root (tree (aliceWorld bobInput))
           ∧ length (FamilyTree.memberPool (tree (aliceWorld bobInput))) ≤ n
             ≤ length (FamilyTree.memberPool (tree (aliceWorld bobInput))) + 2
           ∧ length (FamilyTree.memberPool (tree w')) = S n
           ∧ FamilyTree.memberPool (tree w') !! n = Some x
           ∧ FamilyMember.name x = FamilyMember.copyName name
           ∧ (FamilyMember.gender x = "M"%char ∨ FamilyMember.gender x = "F"%char)
           ∧ frames (tree (aliceWorld bobInput)) (tree w')).
Proof.
  destruct bob_added as (w' & Hrun & _). exists w'. split; [exact Hrun|].
  exact (addMemberInteractive_effect 1 (aliceWorld bobInput) tt w' Hrun).
Defined.

Lemma markLateInteractive_cases w u w' :
  markLateInteractive w = Some (u, w') →
  tree w' = tree w
  ∨ ∃ name rest a m,
      input w = Line name :: rest
      ∧ findByName (tree w) name = Some a
      ∧ FamilyTree.memberPool (tree w) !! a = Some m
      ∧ FamilyMember.alive m = true
      ∧ tree w' = FamilyTree.setPool
                    (<[a := FamilyMember.setAlive false m]> (FamilyTree.memberPool (tree w)))
                    (tree w).
Proof.
  intros Hrun. unfold markLateInteractive in Hrun.
  apply bind_Some in Hrun as (tr & w0 & Hg & Hrun). apply getTree_Some in Hg as [-> ->].
  destruct (FamilyTree.root (tree w)) as [r|] eqn:Hroot; [|left; by cmd_inv].
  apply bind_Some in Hrun as (name & w1 & Hl & Hrun).
  apply readLine_inv in Hl as (Hin & Hlen & Ht & Hout).
  destruct (emptyName name) eqn:He; [left; cmd_inv; congruence|].
  destruct (findByName (tree w) name) as [a|] eqn:Hfind; [|left; cmd_inv; congruence].
  apply bind_Some in Hrun as (m & w2 & Hm & Hrun). apply lift_Some in Hm as [Hm ->].
  destruct (FamilyMember.alive m) eqn:Hal; simpl in Hrun; [|left; cmd_inv; congruence].
  apply bind_Some in Hrun as (? & w3 & Hs1 & Hrun). apply say_Some in Hs1.
  apply bind_Some in Hrun as (? & w4 & Hs2 & Hrun). apply say_Some in Hs2.
  apply bind_Some in Hrun as (? & w5 & Hs3 & Hrun). apply say_Some in Hs3.
  apply bind_Some in Hrun as (yes & w6 & Hy & Hrun). apply readYesNo_Some in Hy.
  assert (tree w6 = tree w) as Ht6 by congruence.
  destruct yes; [|left; cmd_inv; congruence].
  right. exists name, (input w1), a, m.
  apply bind_Some in Hrun as (? & w7 & Hupd & Hrun). apply say_Some in Hrun.
  apply updMember_inv_eq in Hupd as (m' & Hm' & Hupd). rewrite Ht6 in Hm', Hupd.
  assert (m' = m) as -> by congruence.
  split; [done|]. split; [done|]. split; [done|]. split; [done|]. congruence.
Qed.

Lemma exec_cases fuel op w u w' :
  exec fuel op w = Some (u, w') →
  (∀ r, FamilyTree.root (tree w) = Some r → FamilyTree.root (tree w') = Some r)
  ∧ length (FamilyTree.memberPool (tree w)) ≤ length (FamilyTree.memberPool (tree w'))
    ≤ length (FamilyTree.memberPool (tree w)) + 3
  ∧ ∀ a m, FamilyTree.memberPool (tree w) !! a = Some m →
      ∃ m', FamilyTree.memberPool (tree w') !! a = Some m'
        ∧ FamilyMember.name m' = FamilyMember.name m
        ∧ FamilyMember.gender m' = FamilyMember.gender m
        ∧ FamilyMember.father m' = FamilyMember.father m
        ∧ FamilyMember.mother m' = FamilyMember.mother m
        ∧ (FamilyMember.alive m' = FamilyMember.alive m
           ∨ op = MarkLate ∧ FamilyMember.alive m = true ∧ FamilyMember.alive m' = false).
Proof.
  intros Hrun.
  assert (Hsame : tree w' = tree w →
            (∀ r, FamilyTree.root (tree w) = Some r → FamilyTree.root (tree w') = Some r)
            ∧ length (FamilyTree.memberPool (tree w)) ≤ length (FamilyTree.memberPool (tree w'))
              ≤ length (FamilyTree.memberPool (tree w)) + 3
            ∧ ∀ a m, FamilyTree.memberPool (tree w) !! a = Some m →
                ∃ m', FamilyTree.memberPool (tree w') !! a = Some m'
                  ∧ FamilyMember.name m' = FamilyMember.name m
                  ∧ FamilyMember.gender m' = FamilyMember.gender m
                  ∧ FamilyMember.father m' = FamilyMember.father m
                  ∧ FamilyMember.mother m' = FamilyMember.mother m
                  ∧ (FamilyMember.alive m' = FamilyMember.alive m
                     ∨ op = MarkLate ∧ FamilyMember.alive m = true
                       ∧ FamilyMember.alive m' = false)).
  { intros ->. split; [done|]. split; [lia|]. intros a m Hm. exists m. by repeat split; try left. }
  assert (Hframes : ∀ k, k ≤ 3 → grown k (tree w) (tree w') →
            (∀ r, FamilyTree.root (tree w) = Some r → FamilyTree.root (tree w') = Some r)
            ∧ length (FamilyTree.memberPool (tree w)) ≤ length (FamilyTree.memberPool (tree w'))
              ≤ length (FamilyTree.memberPool (tree w)) + 3
            ∧ ∀ a m, FamilyTree.memberPool (tree w) !! a = Some m →
                ∃ m', FamilyTree.memberPool (tree w') !! a = Some m'
                  ∧ FamilyMember.name m' = FamilyMember.name m
                  ∧ FamilyMember.gender m' = FamilyMember.gender m
                  ∧ FamilyMember.father m' = FamilyMember.father m
                  ∧ FamilyMember.mother m' = FamilyMember.mother m
                  ∧ (FamilyMember.alive m' = FamilyMember.alive m
                     ∨ op = MarkLate ∧ FamilyMember.alive m = true
                       ∧ FamilyMember.alive m' = false)).
  { intros k Hk (Hr & Hl & Hf). split; [intros r; congruence|]. split; [lia|].
    intros a m Hm. destruct (Hf a m Hm) as (m' & Hm' & (?&?&?&?&?)). exists m'.
    repeat split; try done. by left. }
  destruct op; simpl in Hrun.
  - apply bind_Some in Hrun as (b & w1 & Hc & Hret). apply ret_Some in Hret as [_ ->].
    destruct (createRootInteractive_cases _ _ _ Hc)
      as [(Hr & -> & ->)|[(Hr & -> & Ht & Hn)
          |(Hr & -> & name & g & al & rest & Hin & Hlen & He & Hg & Ht)]];
      [by apply Hsame..|].
    rewrite Ht. simpl. split; [intros r; congruence|]. rewrite length_app. simpl.
    split; [lia|]. intros a m Hm. exists m.
    split; [by apply lookup_app_l_Some|]. by repeat split; try left.
  - destruct (addMemberInteractive_cases _ _ _ _ Hrun)
      as [?|(r & name & rest & g & al & f & m & w1 & Hroot & Hin & Hlen & He & Hfind & Hg
             & Hg1 & Hlink)]; [by apply Hsame|].
    destruct (linkMember_effect (tree w1) name g al fuel f m w1 u w' eq_refl Hlink)
      as (Hr2 & Hl2 & Hf2 & _).
    apply (Hframes 3); [done|]. apply (grown_trans 2 1 _ (tree w1)); [done|].
    split; [done|]. split; [lia|done].
  - destruct (markLateInteractive_cases _ _ _ Hrun)
      as [?|(name & rest & a & m & Hin & Hfind & Hm & Hal & Ht)]; [by apply Hsame|].
    rewrite Ht. simpl. split; [done|]. rewrite length_insert. split; [lia|].
    intros j mj Hj. destruct (decide (j = a)) as [->|Hne].
    + exists (FamilyMember.setAlive false m).
      rewrite list_lookup_insert_eq by (by eapply lookup_lt_Some).
      assert (mj = m) as -> by congruence.
      repeat split; try done. by right.
    + exists mj. rewrite list_lookup_insert_ne by done. by repeat split; try left.
  - apply Hsame. by eapply showCenteredTree_tree.
  - apply Hsame. by eapply showAllNames_tree.
Qed.

(** X15. No operation of the menu removes a member, renames one, or
    changes a gender or a recorded parent, and none replaces the root once
    there is one.  One operation allocates at most three members, and it
    changes an alive flag only if it is Mark Late, and then only from alive
    to late; so over any run of the menu a member stays at its address with
    its name, gender and parents, and a member marked late stays late. *)
Theorem members_are_permanent :
  (∀ fuel op w u w',
     exec fuel op w = Some (u, w') →
     (∀ r, FamilyTree.root (tree w) = Some r → FamilyTree.root (tree w') = Some r)
     ∧ length (FamilyTree.memberPool (tree w)) ≤ length (FamilyTree.memberPool (tree w'))
       ≤ length (FamilyTree.memberPool (tree w)) + 3
     ∧ ∀ a m, FamilyTree.memberPool (tree w) !! a = Some m →
         ∃ m', FamilyTree.memberPool (tree w') !! a = Some m'
           ∧ FamilyMember.name m' = FamilyMember.name m
           ∧ FamilyMember.gender m' = FamilyMember.gender m
           ∧ FamilyMember.father m' = FamilyMember.father m
           ∧ FamilyMember.mother m' = FamilyMember.mother m
           ∧ (FamilyMember.alive m' = FamilyMember.alive m
              ∨ op = MarkLate ∧ FamilyMember.alive m = true
                ∧ FamilyMember.alive m' = false))
  ∧ (∀ w w',
       rtc step w w' →
       (∀ r, FamilyTree.root (tree w) = Some r → FamilyTree.root (tree w') = Some r)
       ∧ length (FamilyTree.memberPool (tree w)) ≤ length (FamilyTree.memberPool (tree w'))
       ∧ ∀ a m, FamilyTree.memberPool (tree w) !! a = Some m →
           ∃ m', FamilyTree.memberPool (tree w') !! a = Some m'
             ∧ FamilyMember.name m' = FamilyMember.name m
             ∧ FamilyMember.gender m' = FamilyMember.gender m
             ∧ FamilyMember.father m' = FamilyMember.father m
             ∧ FamilyMember.mother m' = FamilyMember.mother m
             ∧ (FamilyMember.alive m = false → FamilyMember.alive m' = false)).
Proof.
  split; [apply exec_cases|].
  induction 1 as [w|w w1 w2 (fuel & op & Hrun) _ IH].
  - split; [done|]. split; [done|]. intros a m Hm. by exists m.
  - destruct (exec_cases _ _ _ _ _ Hrun) as (Hr1 & Hl1 & Hm1).
    destruct IH as (Hr2 & Hl2 & Hm2).
    split; [intros r Hr; by apply Hr2, Hr1|]. split; [lia|].
    intros a m Hm. destruct (Hm1 a m Hm) as (m1 & Hm1' & Hn1 & Hg1 & Hf1 & Hmo1 & Hal1).
    destruct (Hm2 a m1 Hm1') as (m2 & Hm2' & Hn2 & Hg2 & Hf2 & Hmo2 & Hal2).
    exists m2. split; [done|]. split; [congruence|]. split; [congruence|].
    split; [congruence|]. split; [congruence|].
    intros Hlate. apply Hal2. destruct Hal1 as [?|(_ & ? & ?)]; congruence.
Qed.

(** X16. [markLateInteractive] writes at most one field: either the
    registry is left exactly as it was (no root, empty or unknown name,
    member already late, or the confirmation refused), or the member that
    [findByName] finds for the entered name was alive and is now late, and
    the registry is otherwise the same.  It never adds a member and never
    touches a link. *)
Theorem markLateInteractive_effect w u w' :
  markLateInteractive w = Some (u, w') →
  FamilyTree.root (tree w') = FamilyTree.root (tree w)
  ∧ length (FamilyTree.memberPool (tree w')) = length (FamilyTree.memberPool (tree w))
  ∧ (tree w' = tree w
     ∨ ∃ name rest a m,
         input w = Line name :: rest
         ∧ findByName (tree w) name = Some a
         ∧ c_str (FamilyMember.name m) = c_str name
         ∧ FamilyTree.memberPool (tree w) !! a = Some m
         ∧ FamilyMember.alive m = true
         ∧ FamilyTree.memberPool (tree w')
           = <[a := FamilyMember.setAlive false m]> (FamilyTree.memberPool (tree w)))
  ∧ (∀ a m, FamilyTree.memberPool (tree w) !! a = Some m →
       ∃ m', FamilyTree.memberPool (tree w') !! a = Some m'
         ∧ FamilyMember.firstChild m' = FamilyMember.firstChild m
         ∧ FamilyMember.nextSibling m' = FamilyMember.nextSibling m
         ∧ FamilyMember.father m' = FamilyMember.father m
         ∧ FamilyMember.mother m' = FamilyMember.mother m).
Proof.
  intros Hrun.
  destruct (markLateInteractive_cases _ _ _ Hrun)
    as [->|(name & rest & a & m & Hin & Hfind & Hm & Hal & ->)].
  - split; [done|]. split; [done|]. split; [by left|].
    intros a m Hm. by exists m.
  - simpl. split; [done|]. split; [by rewrite length_insert|]. split.
    + right. exists name, rest, a, m. repeat split; try done.
      apply findByName_Some in Hfind as (m0 & Hm0 & He & _).
      apply eq_name_c_str. congruence.
    + intros j mj Hj. destruct (decide (j = a)) as [->|Hne].
      * exists (FamilyMember.setAlive false m).
        rewrite list_lookup_insert_eq by (by eapply lookup_lt_Some).
        assert (mj = m) as -> by congruence. done.
      * exists mj. by rewrite list_lookup_insert_ne.
Qed.

Lemma steps_root0 w0 w :
  rtc step w0 w →
  tree_inv (tree w0) →
  (∀ r, FamilyTree.root (tree w0) = Some r → r = 0) →
  ∀ r, FamilyTree.root (tree w) = Some r → r = 0.
Proof.
  induction 1 as [w0|w0 w1 w2 (fuel & op & Hrun) _ IH]; [by auto|].
  intros Hinv H0. apply IH; [by eapply exec_inv|].
  intros r Hr. destruct (FamilyTree.root (tree w0)) as [r0|] eqn:Hroot.
  - destruct (exec_cases _ _ _ _ _ Hrun) as (Hr1 & _).
    rewrite (Hr1 r0 Hroot) in Hr. injection Hr as <-. by apply H0.
  - unfold tree_inv in Hinv. rewrite Hroot in Hinv.
    assert (op = CreateRoot ∨ op ≠ CreateRoot) as [->|Hop] by (destruct op; auto).
    + simpl in Hrun. apply bind_Some in Hrun as (b & w3 & Hc & Hret).
      apply ret_Some in Hret as [_ ->].
      destruct (createRootInteractive_cases _ _ _ Hc)
        as [([? ?] & _)|[(_ & _ & Ht & _)|(_ & _ & name & g & al & rest & _ & _ & _ & _ & Ht)]].
      * congruence.
      * congruence.
      * rewrite Ht, Hinv in Hr. simpl in Hr. congruence.
    + rewrite (not_rooted_inv fuel op w0 _ w1 Hroot Hop Hrun) in Hr. congruence.
Qed.

(** X17. In every registry a run of the menu can reach, the pool is empty
    exactly while there is no root, and the root is the member created
    first: it is at address 0 and has no recorded parents. *)
Theorem root_is_first_member w :
  reachable w →
  (FamilyTree.root (tree w) = None ↔ FamilyTree.memberPool (tree w) = [])
  ∧ (∀ r, FamilyTree.root (tree w) = Some r →
       r = 0
       ∧ ∃ rm, FamilyTree.memberPool (tree w) !! 0 = Some rm
               ∧ FamilyMember.father rm = None ∧ FamilyMember.mother rm = None).
Proof.
  intros Hreach. pose proof (reachable_inv _ Hreach) as Hinv.
  destruct Hreach as (w0 & Hinit & Hsteps).
  assert (∀ r, FamilyTree.root (tree w) = Some r → r = 0) as H0.
  { apply (steps_root0 w0 w Hsteps).
    - unfold tree_inv. by rewrite Hinit.
    - rewrite Hinit. done. }
  unfold tree_inv in Hinv. split.
  - destruct (FamilyTree.root (tree w)) as [r|] eqn:Hroot.
    + destruct Hinv as (_ & Hr & _). split; [done|]. intros Hnil. rewrite Hnil in Hr.
      simpl in Hr. lia.
    + done.
  - intros r Hr. rewrite Hr in Hinv. destruct Hinv as (_ & _ & _ & Hun).
    pose proof (H0 r Hr) as ->. done.
Qed.

Lemma root_is_first_member_witness :
  (FamilyTree.root (tree (aliceWorld [])) = None
   ↔ FamilyTree.memberPool (tree (aliceWorld [])) = [])
  ∧ (∀ r, FamilyTree.root (tree (aliceWorld [])) = Some r →
       r = 0
       ∧ ∃ rm, FamilyTree.memberPool (tree (aliceWorld [])) !! 0 = Some rm
               ∧ FamilyMember.father rm = None ∧ FamilyMember.mother rm = None).
Proof. apply (root_is_first_member (aliceWorld [])), aliceWorld_reachable. Defined.

(** *** Adding and finding *)

Lemma frames_findByName tr tr' nm a :
  frames tr tr' → findByName tr nm = Some a → findByName tr' nm = Some a.
Proof.
  intros Hf (m & Hm & He & Hfirst)%findByName_Some. apply findByName_Some.
  destruct (Hf a m Hm) as (m' & Hm' & (Hn & _)). exists m'.
  split; [done|]. split; [congruence|].
  intros j mj' Hj Hmj'.
  destruct (lookup_lt_is_Some_2 (FamilyTree.memberPool tr) j) as [mj Hmj].
  { apply lookup_lt_Some in Hm. lia. }
  destruct (Hf j mj Hmj) as (mj2 & Hmj2 & (Hn2 & _)).
  assert (mj2 = mj') as -> by congruence. rewrite Hn2. by apply (Hfirst j).
Qed.

Lemma frames_findByName_new tr tr' nm a :
  frames tr tr' → findByName tr nm = None → findByName tr' nm = Some a →
  length (FamilyTree.memberPool tr) ≤ a.
Proof.
  intros Hf Hnone (m' & Hm' & He & _)%findByName_Some.
  destruct (decide (a < length (FamilyTree.memberPool tr))) as [Hlt|]; [|lia].
  destruct (lookup_lt_is_Some_2 _ _ Hlt) as [m Hm].
  destruct (Hf a m Hm) as (m2 & Hm2 & (Hn2 & _)).
  assert (m2 = m') as -> by congruence.
  rewrite findByName_None in Hnone. specialize (Hnone a m Hm). congruence.
Qed.

Lemma c_str_length (s : text) : length (c_str s) ≤ length s.
Proof. induction s as [|c s IH]; simpl; [done|]. destruct (is_nul c); simpl; lia. Qed.

(** X18. A name that has been added is taken: after a call of
    [addMemberInteractive] that changed the registry, [findByName] finds a
    member under the entered name, one allocated by this call, it still
    finds every name it found before at the same address, and a further
    call that enters the same name is refused with "Member already exists.
    Aborted.", leaving the registry as it is. *)
Theorem added_name_is_taken fuel w u w' :
  addMemberInteractive fuel w = Some (u, w') →
  tree w' ≠ tree w →
  ∃ name rest a,
    input w = Line name :: rest
    ∧ findByName (tree w) name = None
    ∧ findByName (tree w') name = Some a
    ∧ length (FamilyTree.memberPool (tree w)) ≤ a
    ∧ (∀ other b, findByName (tree w) other = Some b → findByName (tree w') other = Some b)
    ∧ ∀ fuel2 rest2 out2,
        addMemberInteractive fuel2
          {| tree := tree w'; input := Line name :: rest2; output := out2 |}
        = Some (tt, {| tree := tree w'; input := rest2;
                       output := out2 ++ [lit "Enter new member full name: "]
                                 ++ [lit "Member already exists. Aborted." ++ nl] |}).
Proof.
  intros Hrun Hne.
  destruct (addMemberInteractive_cases _ _ _ _ Hrun)
    as [?|(r & name & rest & g & al & f & m & w1 & Hroot & Hin & Hlen & He & Hfind & Hg
           & (Hr1 & Hl1 & Hf1) & Hlink)]; [done|].
  destruct (linkMember_effect (tree w1) name g al fuel f m w1 u w' eq_refl Hlink)
    as (Hr2 & Hl2 & Hf2 & x & Hx & Hxn & _).
  assert (frames (tree w) (tree w')) as Hf by (by eapply frames_trans).
  assert (is_Some (findByName (tree w') name)) as [a Ha].
  { destruct (findByName (tree w') name) eqn:E; [by eexists|].
    rewrite findByName_None in E. specialize (E _ _ Hx).
    rewrite Hxn in E. 
    assert (eq_name (FamilyMember.copyName name) name = true); [|congruence].
    apply eq_name_c_str. rewrite copyName_c_str. apply copyName_short.
    pose proof (c_str_length name). lia. }
  exists name, rest, a. split; [done|]. split; [done|]. split; [done|].
  split; [by eapply frames_findByName_new|].
  split; [intros other b; by apply frames_findByName|].
  intros fuel2 rest2 out2.
  unfold addMemberInteractive, bind, getTree, readLine, say. cbn [tree input output].
  rewrite Hr2, Hr1, Hroot. cbn [tree input output].
  rewrite bool_decide_eq_true_2 by done. rewrite He. cbn [tree input output].
  rewrite Ha. cbn [tree input output]. by rewrite <- app_assoc.
Qed.

Lemma added_name_is_taken_witness :
  ∃ w' name rest a,
    addMemberInteractive 1 (aliceWorld bobInput) = Some (tt, w')
    ∧ input (aliceWorld bobInput) = Line name :: rest
    ∧ findByName (tree (aliceWorld bobInput)) name = None
    ∧ findByName (tree w') name = Some a
    ∧ length (FamilyTree.memberPool (tree (aliceWorld bobInput))) ≤ a.
Proof.
  destruct bob_added as (w' & Hrun & Hlen).
  destruct (added_name_is_taken 1 (aliceWorld bobInput) tt w' Hrun)
    as (name & rest & a & H1 & H2 & H3 & H4 & _).
  - intros Heq. rewrite Heq in Hlen. discriminate Hlen.
  - exists w', name, rest, a. split; [exact Hrun|]. split; [exact H1|].
    split; [exact H2|]. split; [exact H3|exact H4].
Defined.

(** *** Linking the new member *)

Lemma ordered_app_member b (h : list FamilyMember.t) x :
  ordered b h → member_ok (S (length h)) b (length h) x → ordered b (h ++ [x]).
Proof.
  intros Hord Hx a m Hm. rewrite length_app. simpl. rewrite Nat.add_1_r.
  destruct (decide (a < length h)) as [Hlt|Hge].
  - rewrite lookup_app_l in Hm by done.
    eapply member_ok_mono; [| |by apply Hord]; lia.
  - rewrite lookup_app_r in Hm by lia.
    destruct (a - length h) as [|k] eqn:Hk; simpl in Hm; [|by rewrite lookup_nil in Hm].
    injection Hm as <-. by replace a with (length h) by lia.
Qed.

Lemma chainFrom_insert_links k (h : list FamilyMember.t) a y y' c :
  h !! a = Some y →
  FamilyMember.nextSibling y' = FamilyMember.nextSibling y →
  chainFrom k (<[a := y']> h) c = chainFrom k h c.
Proof.
  intros Ha Hn. revert c. induction k as [|k IH]; intros [x|]; try done.
  rewrite !chainFrom_S. destruct (decide (x = a)) as [->|Hne].
  - rewrite list_lookup_insert_eq by (by eapply lookup_lt_Some). rewrite Ha.
    cbn [mbind option_bind]. by rewrite Hn, IH.
  - rewrite list_lookup_insert_ne by done. destruct (h !! x); [|done].
    cbn [mbind option_bind]. by rewrite IH.
Qed.

Lemma childrenOf_insert_links k (h : list FamilyMember.t) a y y' p :
  h !! a = Some y →
  FamilyMember.firstChild y' = FamilyMember.firstChild y →
  FamilyMember.nextSibling y' = FamilyMember.nextSibling y →
  childrenOf k (<[a := y']> h) p = childrenOf k h p.
Proof.
  intros Ha Hf Hn. unfold childrenOf. destruct (decide (p = a)) as [->|Hne].
  - rewrite list_lookup_insert_eq by (by eapply lookup_lt_Some). rewrite Ha.
    cbn [mbind option_bind]. rewrite Hf. by eapply chainFrom_insert_links.
  - rewrite list_lookup_insert_ne by done. destruct (h !! p); [|done].
    cbn [mbind option_bind]. by eapply chainFrom_insert_links.
Qed.

(** The new member [x], last in the pool, is put on the child list of [s]. *)
Lemma attach_new fuel (pool : list FamilyMember.t) x s :
  ordered (length pool) pool →
  member_ok (S (length pool)) (length pool) (length pool) x →
  FamilyMember.nextSibling x = None →
  s < length pool → length pool ≤ fuel →
  ∃ h2 kids,
    FamilyMember.addChild fuel (pool ++ [x]) s (Some (length pool)) = Some h2
    ∧ childrenOf fuel pool s = Some kids
    ∧ childrenOf (S fuel) h2 s = Some (kids ++ [length pool])
    ∧ h2 !! length pool = Some x
    ∧ length h2 = S (length pool)
    ∧ ∀ j m, pool !! j = Some m → ∃ m', h2 !! j = Some m' ∧ same_person m m'.
Proof.
  intros Hord Hx Hxn Hs Hfuel. set (n := length pool) in *.
  destruct (childrenOf_total fuel pool s Hord Hs Hfuel) as [kids Hkids].
  set (h1 := pool ++ [x]).
  assert (length h1 = S n) as Hlen1 by (unfold h1; rewrite length_app; simpl; lia).
  assert (ordered n h1) as Hord1 by (by apply ordered_app_member).
  assert (h1 !! n = Some x) as Hn1.
  { unfold h1. rewrite lookup_app_r by done. by rewrite Nat.sub_diag. }
  destruct (member_addChild_total fuel h1 s n Hlen1 Hs Hord1 Hfuel) as [h2 Hh2].
  destruct (member_addChild_children fuel h1 s n _ h2 kids Hlen1 Hs Hord1 Hn1 Hxn Hh2
              (childrenOf_app _ _ _ _ _ Hkids)) as (Hkids2 & Hn2 & Hsame).
  destruct (member_addChild_same _ _ _ _ _ Hh2) as [Hlen2 _].
  exists h2, kids. split; [done|]. split; [done|]. split; [done|]. split; [done|].
  split; [lia|]. intros j m Hj. apply Hsame. unfold h1. by apply lookup_app_l_Some.
Qed.

Lemma insert_app_last {A} (l : list A) (x y : A) : <[length l := y]> (l ++ [x]) = l ++ [y].
Proof. rewrite insert_app_r_alt by done. by rewrite Nat.sub_diag. Qed.

Lemma linkMember_attach fuel name g al f m w r :
  inv r (tree w) →
  ptr_below (length (FamilyTree.memberPool (tree w))) f →
  ptr_below (length (FamilyTree.memberPool (tree w))) m →
  length (FamilyTree.memberPool (tree w)) ≤ fuel →
  let pool := FamilyTree.memberPool (tree w) in
  let n := length pool in
  let p := match f, m with
           | Some a, _ => a
           | None, Some b => b
           | None, None => r
           end in
  ∃ w' kids,
    linkMember fuel name g al f m w = Some (tt, w')
    ∧ input w' = input w
    ∧ FamilyTree.root (tree w') = Some r
    ∧ length (FamilyTree.memberPool (tree w')) = S n
    ∧ FamilyTree.memberPool (tree w') !! n
      = Some (FamilyMember.setMother m (FamilyMember.setFather f (FamilyMember.new name g al)))
    ∧ childrenOf fuel pool p = Some kids
    ∧ childrenOf (S fuel) (FamilyTree.memberPool (tree w')) p = Some (kids ++ [n])
    ∧ frames (tree w) (tree w').
Proof.
  intros Hinv Hf Hm Hfuel pool n p. pose proof Hinv as (Hroot & Hr & Hord & Hun).
  fold pool in Hord, Hr, Hf, Hm, Hfuel. fold n in Hord, Hr, Hf, Hm, Hfuel.
  set (x0 := FamilyMember.new name g al).
  assert ((pool ++ [x0]) !! n = Some x0) as Hn1.
  { rewrite lookup_app_r by done. by rewrite Nat.sub_diag. }
  assert (p < n) as Hp by (unfold p; destruct f, m; simpl in *; lia).
  set (x1 := match f, m with
             | Some _, _ => FamilyMember.setFather f x0
             | None, _ => FamilyMember.setMother m x0
             end).
  assert (member_ok (S n) n n x1) as Hx1.
  { unfold x1. destruct f as [a|].
    - apply setFather_ok; [simpl in *; lia|apply new_member_ok].
    - apply setMother_ok; [destruct m; simpl in *; lia|apply new_member_ok]. }
  assert (FamilyMember.nextSibling x1 = None) as Hx1n by (unfold x1; by destruct f, m).
  destruct (attach_new fuel pool x1 p Hord Hx1 Hx1n Hp Hfuel)
    as (h2 & kids & Hadd & Hkids & Hkids2 & Hn2 & Hlen2 & Hsame).
  fold n in Hadd, Hkids2, Hn2, Hlen2.
  destruct f as [a|], m as [b|]; unfold x1, p in *.
  - (* father and mother *)
    eexists _, kids. split.
    { unfold linkMember, newMember, addChildOf, updMember, bind, getTree, putTree, ret,
        say, lift.
      cbn [tree input output]. rewrite ?Hroot.
      unfold FamilyTree.poolAdd, FamilyTree.memCount, FamilyTree.setPool.
      cbn [FamilyTree.memberPool FamilyTree.root tree input output].
      fold pool. fold n. fold x0. rewrite Hn1. cbn [tree input output FamilyTree.memberPool].
      unfold n at 1. rewrite insert_app_last. fold n. rewrite Hadd.
      cbn [tree input output FamilyTree.memberPool FamilyTree.root]. rewrite Hn2.
      cbn [tree input output FamilyTree.memberPool FamilyTree.root]. reflexivity. }
    cbn [tree input output FamilyTree.memberPool FamilyTree.root].
    split; [done|]. split; [done|]. split; [by rewrite length_insert|].
    split; [by rewrite list_lookup_insert_eq by lia|]. split; [done|].
    split; [by rewrite (childrenOf_insert_links _ _ _ _ _ _ Hn2)|].
    intros j mj Hj. destruct (Hsame j mj Hj) as (m' & Hm' & Hs). exists m'.
    split; [|done]. simpl. rewrite list_lookup_insert_ne; [done|].
    apply lookup_lt_Some in Hj. fold pool in Hj. fold n in Hj. lia.
  - (* father only *)
    eexists _, kids. split.
    { unfold linkMember, newMember, addChildOf, updMember, bind, getTree, putTree, ret,
        say, lift.
      cbn [tree input output]. rewrite ?Hroot.
      unfold FamilyTree.poolAdd, FamilyTree.memCount, FamilyTree.setPool.
      cbn [FamilyTree.memberPool FamilyTree.root tree input output].
      fold pool. fold n. fold x0. rewrite Hn1. cbn [tree input output FamilyTree.memberPool].
      unfold n at 1. rewrite insert_app_last. fold n. rewrite Hadd.
      cbn [tree input output FamilyTree.memberPool FamilyTree.root]. reflexivity. }
    cbn [tree input output FamilyTree.memberPool FamilyTree.root].
    split; [done|]. split; [done|]. split; [done|]. split; [done|]. split; [done|].
    split; [done|]. intros j mj Hj. by apply Hsame.
  - (* mother only *)
    eexists _, kids. split.
    { unfold linkMember, newMember, addChildOf, updMember, bind, getTree, putTree, ret,
        say, lift.
      cbn [tree input output]. rewrite ?Hroot.
      unfold FamilyTree.poolAdd, FamilyTree.memCount, FamilyTree.setPool.
      cbn [FamilyTree.memberPool FamilyTree.root tree input output].
      fold pool. fold n. fold x0. rewrite Hn1. cbn [tree input output FamilyTree.memberPool].
      unfold n at 1. rewrite insert_app_last. fold n. rewrite Hadd.
      cbn [tree input output FamilyTree.memberPool FamilyTree.root]. reflexivity. }
    cbn [tree input output FamilyTree.memberPool FamilyTree.root].
    split; [done|]. split; [done|]. split; [done|]. split; [done|]. split; [done|].
    split; [done|]. intros j mj Hj. by apply Hsame.
  - (* no parent: under the root *)
    eexists _, kids. split.
    { unfold linkMember, newMember, addChildOf, updMember, bind, getTree, putTree, ret,
        say, lift.
      cbn [tree input output]. rewrite ?Hroot.
      unfold FamilyTree.poolAdd, FamilyTree.memCount, FamilyTree.setPool.
      cbn [FamilyTree.memberPool FamilyTree.root tree input output].
      fold pool. fold n. fold x0.
      change (FamilyMember.setMother None x0) with x0 in Hadd. rewrite Hadd.
      cbn [tree input output FamilyTree.memberPool FamilyTree.root]. reflexivity. }
    cbn [tree input output FamilyTree.memberPool FamilyTree.root].
    split; [done|]. split; [done|]. split; [done|]. split; [done|]. split; [done|].
    split; [done|]. intros j mj Hj. by apply Hsame.
Qed.

Lemma askParent_found fuel lo cap pname a rest w :
  input w = Line pname :: rest → length pname < 64 →
  emptyName pname = false →
  findByName (tree w) pname = Some a →
  ∃ out, askParent fuel lo cap w
         = Some (Some a, {| tree := tree w; input := rest; output := out |}).
Proof.
  intros Hin Hlen He Hfind. unfold askParent, bind.
  rewrite (readLine_run _ _ _ _ _ Hin Hlen), He. unfold getTree, ret.
  cbn [tree input output]. rewrite Hfind. by eexists.
Qed.

Lemma askParent_blank fuel lo cap pname rest w :
  input w = Line pname :: rest → length pname < 64 →
  emptyName pname = true →
  ∃ out, askParent fuel lo cap w
         = Some (None, {| tree := tree w; input := rest; output := out |}).
Proof.
  intros Hin Hlen He. unfold askParent, bind.
  rewrite (readLine_run _ _ _ _ _ Hin Hlen), He. by eexists.
Qed.

Lemma askSpouse_declined fuel lo cap sug k rest w :
  input w = Key k :: rest → k ∈ ["n"; "N"]%char →
  ∃ out, askSpouse fuel lo cap sug w
         = Some (None, {| tree := tree w; input := rest; output := out |}).
Proof.
  intros Hin Hk. unfold askSpouse, bind, say.
  erewrite readYesNo_run; [|cbn [input]; exact Hin|by apply no_is_answer].
  rewrite (no_is_false k Hk). by eexists.
Qed.

Lemma addMember_with_father fuel w r name gk ak yk fname f mname nk rest :
  FamilyTree.root (tree w) = Some r →
  input w = Line name :: Key gk :: Key ak :: Key yk
            :: Line fname :: Line mname :: Key nk :: rest →
  length name < 64 → emptyName name = false →
  findByName (tree w) name = None →
  isGender gk = true →
  ak ∈ ["y"; "Y"; "n"; "N"]%char →
  yk ∈ ["y"; "Y"]%char →
  length fname < 64 → emptyName fname = false →
  findByName (tree w) fname = Some f →
  length mname < 64 → emptyName mname = true →
  nk ∈ ["n"; "N"]%char →
  ∃ out,
    addMemberInteractive fuel w
    = linkMember fuel name
        (if bool_decide (gk = "M"%char) || bool_decide (gk = "m"%char)
         then "M"%char else "F"%char)
        (bool_decide (ak = "y"%char) || bool_decide (ak = "Y"%char))
        (Some f) None
        {| tree := tree w; input := rest; output := out |}.
Proof.
  intros Hroot Hinput Hlen Hname Hfind Hg Ha Hy Hflen Hfname Hffind Hmlen Hmname Hn.
  unfold addMemberInteractive. unfold bind at 1. unfold getTree at 1. rewrite Hroot.
  unfold bind at 1. rewrite (readLine_run _ _ _ _ _ Hinput Hlen), Hname, Hfind.
  unfold bind at 1. erewrite readGender_run; [|reflexivity|done].
  unfold bind at 1. erewrite readYesNoDefaultYes_run; [|reflexivity|done].
  unfold bind at 1. unfold say at 1.
  unfold bind at 1. erewrite readYesNo_run; [|reflexivity|by apply yes_is_answer].
  rewrite (yes_is_true yk Hy).
  unfold bind at 1. unfold askParents. unfold bind at 1.
  edestruct (askParent_found fuel (lit "father") (lit "Father") fname f) as [out1 ->];
    [reflexivity|done|done|exact Hffind|].
  unfold bind at 1.
  edestruct (askParent_blank fuel (lit "mother") (lit "Mother") mname) as [out2 ->];
    [reflexivity|done|done|].
  unfold bind at 1.
  edestruct (askSpouse_declined fuel (lit "mother") (lit "Mother") (lit "F") nk)
    as [out3 ->]; [reflexivity|done|].
  unfold ret. cbn [fst snd]. by eexists.
Qed.

(** X20. A member entered with the name of an existing member as father,
    a blank mother and no spouse to create becomes that member's child: the
    call returns, the new member is the last of the pool, its father
    pointer is the member [findByName] finds for the father's name, its
    mother pointer is [NULL], and it is appended to the father's child
    list.  Nobody else is allocated, and every other member stays the
    person it was. *)
Theorem addMember_child_of_member fuel w r name gk ak yk fname f mname nk rest :
  reachable w →
  FamilyTree.root (tree w) = Some r →
  input w = Line name :: Key gk :: Key ak :: Key yk
            :: Line fname :: Line mname :: Key nk :: rest →
  length name < 64 → emptyName name = false →
  findByName (tree w) name = None →
  isGender gk = true →
  ak ∈ ["y"; "Y"; "n"; "N"]%char →
  yk ∈ ["y"; "Y"]%char →
  length fname < 64 → emptyName fname = false →
  findByName (tree w) fname = Some f →
  length mname < 64 → emptyName mname = true →
  nk ∈ ["n"; "N"]%char →
  length (FamilyTree.memberPool (tree w)) ≤ fuel →
  let pool := FamilyTree.memberPool (tree w) in
  let n := length pool in
  ∃ w' kids x,
    addMemberInteractive fuel w = Some (tt, w')
    ∧ input w' = rest
    ∧ FamilyTree.root (tree w') = Some r
    ∧ length (FamilyTree.memberPool (tree w')) = S n
    ∧ FamilyTree.memberPool (tree w') !! n = Some x
    ∧ FamilyMember.name x = FamilyMember.copyName name
    ∧ FamilyMember.father x = Some f
    ∧ FamilyMember.mother x = None
    ∧ childrenOf fuel pool f = Some kids
    ∧ childrenOf (S fuel) (FamilyTree.memberPool (tree w')) f = Some (kids ++ [n])
    ∧ frames (tree w) (tree w').
Proof.
  intros Hreach Hroot Hinput Hlen Hname Hfind Hg Ha Hy Hflen Hfname Hffind Hmlen Hmname Hn
    Hfuel pool n.
  apply reachable_inv in Hreach. unfold tree_inv in Hreach. rewrite Hroot in Hreach.
  destruct (addMember_with_father fuel w r name gk ak yk fname f mname nk rest)
    as [out ->]; try done.
  assert (f < n) as Hf.
  { apply findByName_lookup in Hffind as (fm & Hfm & _). by apply lookup_lt_Some in Hfm. }
  destruct (linkMember_attach fuel name
              (if bool_decide (gk = "M"%char) || bool_decide (gk = "m"%char)
               then "M"%char else "F"%char)
              (bool_decide (ak = "y"%char) || bool_decide (ak = "Y"%char))
              (Some f) None {| tree := tree w; input := rest; output := out |} r
              Hreach Hf I Hfuel)
    as (w' & kids & Hrun & Hin & Hr & Hl & Hx & Hk & Hk' & Hfr).
  exists w', kids. eexists. split; [exact Hrun|].
  split; [done|]. split; [done|]. split; [done|]. split; [exact Hx|].
  repeat (split; [done|]). done.
Qed.

Lemma addMember_child_of_member_witness :
  ∃ w' x,
    addMemberInteractive 1
      (aliceWorld [Line (lit "Dave"); Key "M"%char; Key "y"%char; Key "y"%char;
                   Line (lit "Alice"); Line []; Key "n"%char])
    = Some (tt, w')
    ∧ FamilyTree.memberPool (tree w') !! 1 = Some x
    ∧ FamilyMember.father x = Some 0
    ∧ childrenOf 2 (FamilyTree.memberPool (tree w')) 0 = Some [1].
Proof.
  destruct (addMember_child_of_member 1
              (aliceWorld [Line (lit "Dave"); Key "M"%char; Key "y"%char; Key "y"%char;
                           Line (lit "Alice"); Line []; Key "n"%char])
              0 (lit "Dave") "M"%char "y"%char "y"%char (lit "Alice") 0 [] "n"%char [])
    as (w' & kids & x & Hrun & _ & _ & _ & Hx & _ & Hf & _ & Hk & Hk' & _).
  - apply aliceWorld_reachable.
  - reflexivity.
  - reflexivity.
  - simpl. lia.
  - reflexivity.
  - reflexivity.
  - reflexivity.
  - apply elem_of_cons. by left.
  - apply elem_of_cons. by left.
  - simpl. lia.
  - reflexivity.
  - reflexivity.
  - simpl. lia.
  - reflexivity.
  - apply elem_of_cons. by left.
  - simpl. lia.
  - exists w', x. split; [exact Hrun|]. split; [exact Hx|]. split; [exact Hf|].
    injection Hk as <-. exact Hk'.
Defined.

(** ** The child lists form a tree *)

Lemma child_app h m p a : child h p a → child (h ++ [m]) p a.
Proof.
  intros (k & l & Hl & Ha). exists k, l. split; [|done]. by apply childrenOf_app.
Qed.

Lemma child_insert_links (h : list FamilyMember.t) x y y' p a :
  h !! x = Some y →
  FamilyMember.firstChild y' = FamilyMember.firstChild y →
  FamilyMember.nextSibling y' = FamilyMember.nextSibling y →
  child h p a → child (<[x := y']> h) p a.
Proof.
  intros Hx Hf Hn (k & l & Hl & Ha). exists k, l. split; [|done].
  by rewrite (childrenOf_insert_links k h x y y' p Hx Hf Hn).
Qed.

Lemma lastSibling_chain k h x t :
  FamilyMember.lastSibling k h x = Some t →
  ∃ l, chainFrom k h (Some x) = Some l ∧ t ∈ l.
Proof.
  revert x. induction k as [|k IH]; intros x; [done|].
  rewrite lastSibling_S, chainFrom_S.
  destruct (h !! x) as [m|] eqn:Hx; [|done]. cbn [mbind option_bind].
  destruct (FamilyMember.nextSibling m) as [s|] eqn:Hs.
  - intros (l & -> & Hin)%IH. cbn [mbind option_bind]. eexists. split; [done|].
    apply elem_of_cons. by right.
  - intros [= ->]. rewrite chainFrom_None. cbn [mbind option_bind].
    eexists. split; [done|]. apply elem_of_cons. by left.
Qed.

Lemma ordered_last_unlinked a (h : list FamilyMember.t) am :
  ordered a h → h !! a = Some am →
  FamilyMember.firstChild am = None ∧ FamilyMember.nextSibling am = None.
Proof.
  intros Hord Ha. destruct (Hord a am Ha) as (_ & _ & Hfc & Hns & _).
  split.
  - destruct (FamilyMember.firstChild am); [simpl in Hfc; lia|done].
  - destruct (FamilyMember.nextSibling am); [simpl in Hns; lia|done].
Qed.

(** Putting the new member [a] on the child list of [s] keeps every member
    on the child lists it was on, and puts [a] on the list of [s]. *)
Lemma member_addChild_child fuel (h : list FamilyMember.t) s a h' :
  length h = S a → s < a → ordered a h →
  FamilyMember.addChild fuel h s (Some a) = Some h' →
  child h' s a ∧ ∀ p b, child h p b → child h' p b.
Proof.
  intros Hlen Hs Hord Hadd.
  destruct (lookup_lt_is_Some_2 h a) as [am Ham]; [lia|].
  destruct (ordered_last_unlinked a h am Hord Ham) as [_ Han].
  unfold FamilyMember.addChild in Hadd.
  destruct (h !! s) as [sm|] eqn:Hsm; [|done]. cbn [mbind option_bind] in Hadd.
  destruct (FamilyMember.firstChild sm) as [fc|] eqn:Hfc.
  - destruct (FamilyMember.lastSibling fuel h fc) as [t|] eqn:Hlast; [|done].
    cbn [mbind option_bind] in Hadd.
    destruct (h !! t) as [tm|] eqn:Ht; [|done]. cbn [mbind option_bind] in Hadd.
    injection Hadd as <-.
    destruct (Hord s sm Hsm) as (_ & _ & Hfcb & _). rewrite Hfc in Hfcb. simpl in Hfcb.
    destruct (lastSibling_ordered fuel h a fc t Hord) as [Hta (tm' & Htm' & Htn)];
      [lia|done|].
    assert (tm' = tm) as -> by congruence.
    assert (a ≠ t) as Hne by lia.
    assert (Hfirst : ∀ p pm, h !! p = Some pm →
              ∃ pm', <[t := FamilyMember.setNextSibling (Some a) tm]> h !! p = Some pm'
                     ∧ FamilyMember.firstChild pm' = FamilyMember.firstChild pm).
    { intros p pm Hp. destruct (decide (p = t)) as [->|Hpt].
      - rewrite list_lookup_insert_eq by (by eapply lookup_lt_Some).
        eexists. split; [done|]. simpl. congruence.
      - rewrite list_lookup_insert_ne by done. by exists pm. }
    split.
    + destruct (lastSibling_chain _ _ _ _ Hlast) as (l & Hl & Hin).
      exists (S fuel), (l ++ [a]). split; [|apply elem_of_app; right; apply elem_of_cons; by left].
      unfold childrenOf. destruct (Hfirst s sm Hsm) as (sm' & Hs' & Hf').
      rewrite Hs'. cbn [mbind option_bind]. rewrite Hf', Hfc.
      rewrite (chainFrom_link_last _ _ _ _ _ _ _ _ Ht Htn Ham Han Hne Hl).
      by rewrite bool_decide_eq_true_2.
    + intros p b (k & l & Hl & Hb). unfold childrenOf in Hl.
      destruct (h !! p) as [pm|] eqn:Hp; [|done]. cbn [mbind option_bind] in Hl.
      exists (S k). eexists. split.
      * unfold childrenOf. destruct (Hfirst p pm Hp) as (pm' & Hp' & Hf').
        rewrite Hp'. cbn [mbind option_bind]. rewrite Hf'.
        apply (chainFrom_link_last _ _ _ _ _ _ _ _ Ht Htn Ham Han Hne Hl).
      * case_bool_decide; [apply elem_of_app; by left|done].
  - injection Hadd as <-.
    assert (a ≠ s) as Hne by lia.
    split.
    + exists 1, [a]. split; [|apply elem_of_cons; by left].
      unfold childrenOf. rewrite list_lookup_insert_eq by (by eapply lookup_lt_Some).
      cbn [mbind option_bind FamilyMember.firstChild FamilyMember.setFirstChild].
      rewrite chainFrom_S, list_lookup_insert_ne by done. rewrite Ham.
      cbn [mbind option_bind]. by rewrite Han, chainFrom_None.
    + intros p b (k & l & Hl & Hb). exists k, l. split; [|done].
      unfold childrenOf in *. destruct (decide (p = s)) as [->|Hps].
      * rewrite Hsm in Hl. cbn [mbind option_bind] in Hl.
        rewrite Hfc, chainFrom_None in Hl. injection Hl as <-.
        by apply elem_of_nil in Hb.
      * rewrite list_lookup_insert_ne by done. destruct (h !! p) as [pm|]; [|done].
        cbn [mbind option_bind] in *.
        by rewrite (chainFrom_insert_links k h s sm _ _ Hsm).
Qed.

Lemma attached_below_mono r b b' h : b' ≤ b → attached_below r b h → attached_below r b' h.
Proof. intros Hle H a Ha. apply H. lia. Qed.

(** *** The steps of the operations *)

Lemma newMember_conn_mid r n g al w a w' :
  conn r (tree w) → newMember n g al w = Some (a, w') →
  a = length (FamilyTree.memberPool (tree w)) ∧ conn_mid r a (tree w').
Proof.
  intros [Hinv Hatt] Hrun.
  destruct (newMember_mid r n g al w a w' Hinv Hrun) as [-> Hmid].
  split; [done|]. split; [done|].
  apply newMember_inv in Hrun as [_ ->]. simpl.
  intros b Hb Hbr. destruct (Hatt b Hb Hbr) as [p Hp]. exists p. by apply child_app.
Qed.

Lemma addChildOf_conn r a fuel s w u w' :
  conn_mid r a (tree w) → s < a → addChildOf fuel (Some s) (Some a) w = Some (u, w') →
  conn r (tree w') ∧ length (FamilyTree.memberPool (tree w')) = S a.
Proof.
  intros [Hmid Hatt] Hs Hrun.
  destruct (addChildOf_inv r a fuel s w u w' Hmid Hs Hrun) as [Hinv Hlen].
  split; [|done]. split; [done|]. rewrite Hlen.
  destruct Hmid as (Hroot & Hr & Hlen0 & Hord & Hun).
  unfold addChildOf in Hrun. cmd_inv.
  match goal with H : Some s = Some _ |- _ => injection H as <- end.
  match goal with H : FamilyMember.addChild _ _ _ _ = Some _ |- _ =>
    destruct (member_addChild_child _ _ _ _ _ Hlen0 Hs Hord H) as [Hnew Hold] end.
  simpl. intros b Hb Hbr. destruct (decide (b = a)) as [->|Hba].
  - by exists s.
  - destruct (Hatt b ltac:(lia) Hbr) as [p Hp]. exists p. by apply Hold.
Qed.

Lemma updMember_conn_mid r a w u w' (f : FamilyMember.t → FamilyMember.t) :
  conn_mid r a (tree w) →
  (∀ m, member_ok (S a) a a m → member_ok (S a) a a (f m)) →
  (∀ m, FamilyMember.firstChild (f m) = FamilyMember.firstChild m
        ∧ FamilyMember.nextSibling (f m) = FamilyMember.nextSibling m) →
  updMember a f w = Some (u, w') → conn_mid r a (tree w').
Proof.
  intros [Hmid Hatt] Hok Hlinks Hrun. split; [by eapply updMember_mid|].
  apply updMember_inv_eq in Hrun as (m & Hm & ->). simpl.
  intros b Hb Hbr. destruct (Hatt b Hb Hbr) as [p Hp]. exists p.
  destruct (Hlinks m). by eapply child_insert_links.
Qed.

Lemma updMember_conn r a w u w' (f : FamilyMember.t → FamilyMember.t) :
  conn r (tree w) →
  (∀ b m, member_ok (length (FamilyTree.memberPool (tree w))) b a m →
          member_ok (length (FamilyTree.memberPool (tree w))) b a (f m)) →
  (∀ m, FamilyMember.father (f m) = FamilyMember.father m
        ∧ FamilyMember.mother (f m) = FamilyMember.mother m) ∨ a ≠ r →
  (∀ m, FamilyMember.firstChild (f m) = FamilyMember.firstChild m
        ∧ FamilyMember.nextSibling (f m) = FamilyMember.nextSibling m) →
  updMember a f w = Some (u, w') →
  conn r (tree w')
  ∧ length (FamilyTree.memberPool (tree w')) = length (FamilyTree.memberPool (tree w)).
Proof.
  intros [Hinv Hatt] Hok Hsame Hlinks Hrun.
  destruct (updMember_inv r a w u w' f Hinv Hok Hsame Hrun) as [Hinv' Hlen].
  split; [|done]. split; [done|]. rewrite Hlen.
  apply updMember_inv_eq in Hrun as (m & Hm & ->). simpl.
  intros b Hb Hbr. destruct (Hatt b Hb Hbr) as [p Hp]. exists p.
  destruct (Hlinks m). by eapply child_insert_links.
Qed.

Lemma conn_inv r tr : conn r tr → inv r tr.
Proof. by intros [? _]. Qed.

Lemma conn_eq r tr tr' : tr' = tr → conn r tr → conn r tr'.
Proof. by intros ->. Qed.

Lemma newUnderRoot_conn r fuel n g al w a w1 u w2 :
  conn r (tree w) →
  newMember n g al w = Some (a, w1) →
  addChildOf fuel (Some r) (Some a) w1 = Some (u, w2) →
  conn r (tree w2)
  ∧ ptr_below (length (FamilyTree.memberPool (tree w2))) (Some a)
  ∧ length (FamilyTree.memberPool (tree w)) ≤ length (FamilyTree.memberPool (tree w2)).
Proof.
  intros Hconn Hnew Hadd.
  destruct (newMember_conn_mid r n g al w a w1 Hconn Hnew) as [Ha Hmid].
  pose proof Hmid as [(_ & Hra & _) _].
  destruct (addChildOf_conn r a fuel r w1 u w2 Hmid Hra Hadd) as [Hconn' Hlen].
  split; [done|]. simpl. lia.
Qed.

Lemma askParent_conn r fuel lo cap w p w' :
  conn r (tree w) → askParent fuel lo cap w = Some (p, w') →
  conn r (tree w')
  ∧ ptr_below (length (FamilyTree.memberPool (tree w'))) p
  ∧ length (FamilyTree.memberPool (tree w)) ≤ length (FamilyTree.memberPool (tree w')).
Proof.
  intros Hinv Hrun. unfold askParent in Hrun. cmd_inv.
  destruct (emptyName _); cmd_inv; [done|].
  destruct (findByName _ _) as [a|] eqn:Hfind; cmd_inv.
  { split; [done|]. split; [|done]. apply findByName_lookup in Hfind as (m & Hm & _).
    simpl. by eapply lookup_lt_Some. }
  match goal with H : (if ?b then _ else _) _ = Some _ |- _ => destruct b end; cmd_inv;
    [|done].
  rewrite (inv_root r _ (conn_inv _ _ Hinv)) in *.
  match goal with
  | Hn : newMember _ _ _ ?w4 = Some _, He : tree ?w4 = tree w |- _ =>
      rewrite <- He; eapply newUnderRoot_conn; [by rewrite He|done..]
  end.
Qed.

Lemma askSpouse_conn r fuel lo cap sug w p w' :
  conn r (tree w) → askSpouse fuel lo cap sug w = Some (p, w') →
  conn r (tree w')
  ∧ ptr_below (length (FamilyTree.memberPool (tree w'))) p
  ∧ length (FamilyTree.memberPool (tree w)) ≤ length (FamilyTree.memberPool (tree w')).
Proof.
  intros Hinv Hrun. unfold askSpouse in Hrun. cmd_inv.
  match goal with H : (if ?b then _ else _) _ = Some _ |- _ => destruct b end; cmd_inv;
    [|done].
  destruct (emptyName _); cmd_inv; [done|].
  destruct (findByName _ _) as [a|] eqn:Hfind; cmd_inv.
  { split; [done|]. split; [|done]. apply findByName_lookup in Hfind as (m & Hm & _).
    simpl. by eapply lookup_lt_Some. }
  rewrite (inv_root r _ (conn_inv _ _ Hinv)) in *.
  match goal with
  | Hn : newMember _ _ _ ?w4 = Some _, He : tree ?w4 = tree w |- _ =>
      rewrite <- He; eapply newUnderRoot_conn; [by rewrite He|done..]
  end.
Qed.

Lemma askParents_conn r fuel w fm w' :
  conn r (tree w) → askParents fuel w = Some (fm, w') →
  conn r (tree w')
  ∧ ptr_below (length (FamilyTree.memberPool (tree w'))) fm.1
  ∧ ptr_below (length (FamilyTree.memberPool (tree w'))) fm.2.
Proof.
  intros Hinv Hrun. unfold askParents in Hrun.
  apply bind_Some in Hrun as (f & w1 & Hf & Hrun).
  apply bind_Some in Hrun as (m & w2 & Hm & Hrun).
  destruct (askParent_conn r _ _ _ _ _ _ Hinv Hf) as (Hinv1 & Hfv & _).
  destruct (askParent_conn r _ _ _ _ _ _ Hinv1 Hm) as (Hinv2 & Hmv & Hle).
  apply (ptr_below_mono _ _ _ Hle) in Hfv.
  destruct f as [f|], m as [m|].
  - cmd_inv. done.
  - apply bind_Some in Hrun as (m' & w3 & Hs & Hrun). cmd_inv.
    destruct (askSpouse_conn r _ _ _ _ _ _ _ Hinv2 Hs) as (Hinv3 & Hsv & Hle3).
    split; [done|]. split; [|done]. by apply (ptr_below_mono _ _ _ Hle3).
  - apply bind_Some in Hrun as (f' & w3 & Hs & Hrun). cmd_inv.
    destruct (askSpouse_conn r _ _ _ _ _ _ _ Hinv2 Hs) as (Hinv3 & Hsv & Hle3).
    split; [done|]. split; [done|]. by apply (ptr_below_mono _ _ _ Hle3).
  - cmd_inv. done.
Qed.

Lemma linkMember_conn r fuel name g al f m w u w' :
  conn r (tree w) →
  ptr_below (length (FamilyTree.memberPool (tree w))) f →
  ptr_below (length (FamilyTree.memberPool (tree w))) m →
  linkMember fuel name g al f m w = Some (u, w') →
  conn r (tree w').
Proof.
  intros Hinv Hf Hm Hrun. unfold linkMember in Hrun.
  apply bind_Some in Hrun as (tr & w0 & Hg & Hrun). apply getTree_Some in Hg as [-> ->].
  apply bind_Some in Hrun as (nm & w1 & Hnew & Hrun).
  destruct (newMember_conn_mid r _ _ _ _ _ _ Hinv Hnew) as [-> Hmid].
  set (a := length (FamilyTree.memberPool (tree w))) in *.
  pose proof Hmid as [(_ & Hra & Hlen & _) _].
  rewrite (inv_root r _ (conn_inv _ _ Hinv)) in Hrun.
  destruct f as [f|], m as [m|]; simpl in Hf, Hm.
  - apply bind_Some in Hrun as (? & w2 & Hstep & Hrun).
    apply bind_Some in Hstep as (? & w3 & Hupd & Hadd).
    apply (updMember_conn_mid r a) in Hupd;
      [|done|intros ?; apply setFather_ok; simpl; lia|done].
    destruct (addChildOf_conn r a fuel f _ _ _ Hupd Hf Hadd) as [Hinv2 Hlen2].
    apply bind_Some in Hrun as (? & w4 & Hstep & Hrun).
    apply bind_Some in Hstep as (? & w5 & Hupd2 & Hret). cmd_inv.
    assert (a ≠ r) as Har by lia.
    assert (∀ b mm, member_ok (length (FamilyTree.memberPool (tree w2))) b a mm →
              member_ok (length (FamilyTree.memberPool (tree w2))) b a
                (FamilyMember.setMother (Some m) mm)) as Hok.
    { intros b mm. apply setMother_ok. rewrite Hlen2. simpl. lia. }
    by destruct (updMember_conn r a _ _ _ _ Hinv2 Hok (or_intror Har)
                   (λ _, conj eq_refl eq_refl) Hupd2) as [Hi _].
  - apply bind_Some in Hrun as (? & w2 & Hstep & Hrun).
    apply bind_Some in Hstep as (? & w3 & Hupd & Hadd).
    apply (updMember_conn_mid r a) in Hupd;
      [|done|intros ?; apply setFather_ok; simpl; lia|done].
    destruct (addChildOf_conn r a fuel f _ _ _ Hupd Hf Hadd) as [Hinv2 Hlen2].
    cmd_inv. done.
  - cmd_inv.
    match goal with H : updMember _ _ _ = Some _ |- _ =>
      apply (updMember_conn_mid r a) in H;
        [|by rewrite ?Hrun0|intros ?; apply setMother_ok; simpl; lia|done] end.
    match goal with
    | H : addChildOf _ _ _ _ = Some _, Hm' : conn_mid _ _ _ |- _ =>
        by destruct (addChildOf_conn r a fuel m _ _ _ Hm' Hm H) end.
  - cmd_inv.
    match goal with
    | H : addChildOf _ _ _ _ = Some _ |- _ =>
        by destruct (addChildOf_conn r a fuel r _ _ _ Hmid Hra H) end.
Qed.

Lemma addMemberInteractive_conn r fuel w u w' :
  conn r (tree w) → addMemberInteractive fuel w = Some (u, w') → conn r (tree w').
Proof.
  intros Hinv Hrun. unfold addMemberInteractive in Hrun.
  apply bind_Some in Hrun as (tr & w0 & Hg & Hrun). apply getTree_Some in Hg as [-> ->].
  rewrite (inv_root r _ (conn_inv _ _ Hinv)) in Hrun. cmd_inv.
  destruct (emptyName _); cmd_inv; [done|].
  destruct (findByName _ _); cmd_inv; [done|].
  match goal with H : (if ?b then _ else _) _ = Some _ |- _ => destruct b end.
  - match goal with
    | H : askParents _ ?w5 = Some _, He : tree ?w5 = tree w |- _ =>
        rewrite <- He in Hinv;
        destruct (askParents_conn r _ _ _ _ Hinv H) as (Hinv' & Hv1 & Hv2)
    end.
    match goal with
    | Hl : linkMember _ _ _ _ _ _ _ = Some _ |- _ =>
        exact (linkMember_conn r _ _ _ _ _ _ _ _ _ Hinv' Hv1 Hv2 Hl)
    end.
  - cmd_inv.
    match goal with
    | Hl : linkMember _ _ _ _ _ _ ?w5 = Some _, He : tree ?w5 = tree w |- _ =>
        rewrite <- He in Hinv; simpl in Hl;
        exact (linkMember_conn r _ _ _ _ None None _ _ _ Hinv I I Hl)
    end.
Qed.

Lemma markLateInteractive_conn r w u w' :
  conn r (tree w) → markLateInteractive w = Some (u, w') → conn r (tree w').
Proof.
  intros Hconn Hrun.
  pose proof (markLateInteractive_inv r w u w' (conn_inv _ _ Hconn) Hrun) as Hinv'.
  destruct (markLateInteractive_cases _ _ _ Hrun)
    as [Heq|(name & rest & a & m & Hin & Hfind & Hm & Hal & Heq)].
  - by rewrite Heq.
  - destruct Hconn as [Hinv Hatt]. split; [done|]. rewrite Heq. simpl.
    rewrite length_insert. intros b Hb Hbr.
    destruct (Hatt b Hb Hbr) as [p Hp]. exists p.
    by eapply child_insert_links.
Qed.

Lemma createRootInteractive_conn w b w' :
  tree_conn (tree w) → createRootInteractive w = Some (b, w') → tree_conn (tree w').
Proof.
  intros Hconn Hrun.
  assert (tree_inv (tree w)) as Hinv.
  { unfold tree_conn, tree_inv in *. destruct (FamilyTree.root (tree w)); [|done].
    by apply conn_inv. }
  pose proof (createRootInteractive_inv w b w' Hinv Hrun) as Hinv'.
  destruct (createRootInteractive_cases _ _ _ Hrun)
    as [(Hr & -> & ->)|[(Hr & -> & Ht & Hn)
        |(Hr & -> & name & g & al & rest & Hin & Hlen & He & Hg & Ht)]].
  - done.
  - by rewrite Ht.
  - unfold tree_conn, tree_inv in *. rewrite Hr in Hconn. rewrite Ht in *. simpl in *.
    split; [done|]. rewrite Hconn. simpl. intros a Ha Har. lia.
Qed.

Lemma exec_conn fuel op w u w' :
  tree_conn (tree w) → exec fuel op w = Some (u, w') → tree_conn (tree w').
Proof.
  intros Hinv Hrun.
  assert (op = CreateRoot ∨ op ≠ CreateRoot) as [->|Hop] by (destruct op; auto).
  - simpl in Hrun. cmd_inv. by eapply createRootInteractive_conn.
  - destruct (FamilyTree.root (tree w)) as [r|] eqn:Hroot.
    + unfold tree_conn in *. rewrite Hroot in Hinv.
      assert (conn r (tree w')) as Hinv'.
      { destruct op; [done| | | |]; simpl in Hrun.
        - by eapply addMemberInteractive_conn.
        - by eapply markLateInteractive_conn.
        - by rewrite (showCenteredTree_tree _ _ _ _ Hrun).
        - by rewrite (showAllNames_tree _ _ _ Hrun). }
      by rewrite (inv_root r _ (conn_inv _ _ Hinv')).
    + by rewrite (not_rooted_inv fuel op w u w' Hroot Hop Hrun).
Qed.

Lemma steps_conn w0 w : rtc step w0 w → tree_conn (tree w0) → tree_conn (tree w).
Proof.
  induction 1 as [w0|w0 w1 w2 Hstep _ IH]; [done|].
  intros Hinv. apply IH. destruct Hstep as (fuel & op & Hrun). by eapply exec_conn.
Qed.

Lemma reachable_conn w : reachable w → tree_conn (tree w).
Proof.
  intros (w0 & Hinit & Hsteps). apply (steps_conn w0 w Hsteps).
  unfold tree_conn. by rewrite Hinit.
Qed.

(** *** Shape of the child lists *)

Lemma chainFrom_sorted k h b x l :
  ordered b h → x < b → chainFrom k h (Some x) = Some l →
  increasing l ∧ Forall (λ y, x ≤ y < b) l.
Proof.
  intros Hord. revert x l. induction k as [|k IH]; intros x l Hx; [done|].
  rewrite chainFrom_S. destruct (h !! x) as [m|] eqn:Hm; [|done].
  cbn [mbind option_bind].
  destruct (Hord x m Hm) as (_ & _ & _ & Hns & _).
  destruct (FamilyMember.nextSibling m) as [s|].
  - simpl in Hns. destruct (chainFrom k h (Some s)) as [l0|] eqn:Hc; [|done].
    cbn [mbind option_bind]. intros [= <-].
    destruct (IH s l0 ltac:(lia) Hc) as [Hs Hf]. split.
    + intros [|i] [|j] x' y' Hi Hj Hij; simpl in Hi, Hj; try lia.
      * injection Hi as <-. rewrite Forall_forall in Hf.
        apply list_elem_of_lookup_2 in Hj. specialize (Hf _ Hj). simpl in Hf. lia.
      * apply (Hs i j); [done..|lia].
    + constructor; [lia|]. eapply Forall_impl; [exact Hf|]. simpl. lia.
  - rewrite chainFrom_None. cbn [mbind option_bind]. intros [= <-].
    split; [|repeat constructor; lia].
    intros [|i] [|j] x' y' Hi Hj Hij; simpl in Hi, Hj; try lia; by rewrite lookup_nil in Hj.
Qed.

Lemma childrenOf_sorted k h b p l :
  ordered b h → childrenOf k h p = Some l →
  increasing l ∧ Forall (λ c, p < c < b) l.
Proof.
  intros Hord Hl. unfold childrenOf in Hl.
  destruct (h !! p) as [pm|] eqn:Hp; [|done]. cbn [mbind option_bind] in Hl.
  destruct (Hord p pm Hp) as (_ & _ & Hfc & _).
  destruct (FamilyMember.firstChild pm) as [fc|].
  - simpl in Hfc. destruct (chainFrom_sorted k h b fc l Hord ltac:(lia) Hl) as [Hs Hf].
    split; [done|]. eapply Forall_impl; [exact Hf|]. simpl. lia.
  - rewrite chainFrom_None in Hl. injection Hl as <-. split; [|constructor].
    intros i j x' y' Hi. by rewrite lookup_nil in Hi.
Qed.

Lemma child_lt h b p a : ordered b h → child h p a → p < a < b.
Proof.
  intros Hord (k & l & Hl & Ha).
  destruct (childrenOf_sorted k h b p l Hord Hl) as [_ Hf].
  rewrite Forall_forall in Hf. by apply Hf.
Qed.

Lemma conn_from_root r tr a :
  conn r tr → a < length (FamilyTree.memberPool tr) →
  rtc (child (FamilyTree.memberPool tr)) r a.
Proof.
  intros [(Hroot & Hr & Hord & Hun) Hatt].
  induction (lt_wf a) as [a _ IH]. intros Ha.
  destruct (decide (a = r)) as [->|Har]; [done|].
  destruct (Hatt a Ha Har) as [p Hp].
  destruct (child_lt _ _ p a Hord Hp) as [Hpa _].
  eapply rtc_r; [|exact Hp]. apply IH; lia.
Qed.

(** ** Who is placed in a unit by the walk *)

Lemma elem_of_concat {A} (x : A) (ls : list (list A)) :
  x ∈ concat ls ↔ ∃ l, l ∈ ls ∧ x ∈ l.
Proof.
  induction ls as [|l0 ls IH]; simpl.
  - split; [by intros ?%elem_of_nil|]. by intros (l & ?%elem_of_nil & _).
  - rewrite elem_of_app, IH. split.
    + intros [?|(l & ? & ?)].
      * exists l0. split; [apply elem_of_cons; by left|done].
      * exists l. split; [apply elem_of_cons; by right|done].
    + intros (l & [->|?]%elem_of_cons & ?); [by left|right; by exists l].
Qed.

Lemma addToPairs_kids f m c head x :
  Forall FamilyPair.wf head →
  x ∈ addToPairs f m (Some c) head ≫= FamilyPair.kids
  ↔ x = Some c ∨ x ∈ head ≫= FamilyPair.kids.
Proof.
  intros Hwf. induction Hwf as [|cur rest Hcur Hrest IH]; cbn [addToPairs].
  - rewrite bind_singleton.
    destruct (addChild_spec c (FamilyPair.new f m) (wf_new f m)) as (_ & -> & _).
    rewrite kids_new. simpl. rewrite list_elem_of_singleton.
    split; [by left|]. intros [?|?%elem_of_nil]; done.
  - destruct (bool_decide _ && bool_decide _).
    + rewrite !bind_cons, !elem_of_app.
      destruct (addChild_spec c cur Hcur) as (_ & -> & _).
      rewrite elem_of_app, list_elem_of_singleton. tauto.
    + rewrite !bind_cons, !elem_of_app, IH. tauto.
Qed.

Lemma buildFamilyPairs_from_kids h ms head units :
  Forall FamilyPair.wf head →
  buildFamilyPairs_from h ms head = Some units →
  Forall FamilyPair.wf units
  ∧ ∀ x, x ∈ units ≫= FamilyPair.kids ↔ x ∈ ms ∨ x ∈ head ≫= FamilyPair.kids.
Proof.
  revert head. induction ms as [|c ms IH]; intros head Hwf; cbn [buildFamilyPairs_from].
  - intros [= <-]. split; [done|]. intros x. rewrite elem_of_nil. tauto.
  - destruct c as [c|]; [|done]. cbn [mbind option_bind].
    destruct (h !! c) as [cm|]; [|done]. cbn [mbind option_bind]. intros Hb.
    destruct (addToPairs_view (FamilyMember.father cm) (FamilyMember.mother cm) c head Hwf)
      as [Hwf' _].
    destruct (IH _ Hwf' Hb) as [Hwfu Hel]. split; [done|].
    intros x. rewrite Hel, addToPairs_kids by done. rewrite elem_of_cons. tauto.
Qed.

Lemma nextGeneration_kids k h gen ng :
  Forall FamilyPair.wf gen →
  nextGeneration k h gen = Some ng →
  Forall FamilyPair.wf ng
  ∧ ∀ a, Some a ∈ ng ≫= FamilyPair.kids
         ↔ ∃ p, Some p ∈ gen ≫= FamilyPair.kids ∧ child h p a.
Proof.
  intros Hwf Hng. unfold nextGeneration in Hng.
  rewrite collectChildren_spec in Hng by done. cbn [mbind option_bind] in Hng.
  rewrite expandAll_chains in Hng.
  destruct (mapM _ _) as [ls|] eqn:Hls; [|done]. cbn [mbind option_bind] in Hng.
  destruct (buildFamilyPairs_from_kids _ _ _ _ (Forall_nil_2 _) Hng) as [Hwf' Hel].
  split; [done|]. apply mapM_Some in Hls.
  intros a. rewrite Hel. split.
  - intros [Hin|Hin]; [|by apply elem_of_nil in Hin].
    apply list_elem_of_fmap in Hin as (a' & [= <-] & Hin).
    apply elem_of_concat in Hin as (l & Hl & Ha).
    apply list_elem_of_lookup in Hl as [i Hi].
    destruct (Forall2_lookup_r _ _ _ _ _ Hls Hi) as (x & Hx & Hfx).
    destruct x as [p|]; [|done]. cbn [mbind option_bind] in Hfx.
    exists p. split.
    + apply list_elem_of_lookup_2 in Hx. apply addDistinct_elem in Hx as [Hx|Hx]; [|done].
      by apply elem_of_nil in Hx.
    + by exists k, l.
  - intros (p & Hp & k' & l & Hl & Ha). left.
    apply list_elem_of_fmap. exists a. split; [done|].
    assert (Some p ∈ addDistinct [] (gen ≫= FamilyPair.kids)) as Hin
      by (apply addDistinct_elem; by right).
    apply list_elem_of_lookup in Hin as [i Hi].
    destruct (Forall2_lookup_l _ _ _ _ _ Hls Hi) as (l' & Hl' & Hfx).
    cbn [mbind option_bind] in Hfx.
    assert (l' = l) as ->.
    { pose proof (childrenOf_mono k (k `max` k') h p l' ltac:(lia) Hfx) as H1.
      pose proof (childrenOf_mono k' (k `max` k') h p l ltac:(lia) Hl) as H2.
      congruence. }
    apply elem_of_concat. exists l. split; [|done]. by eapply list_elem_of_lookup_2.
Qed.

Lemma walk_placed h fuel gen gens :
  Forall FamilyPair.wf gen →
  walk fuel h gen = Some gens →
  ∀ a, placed gens a ↔ ∃ p, Some p ∈ gen ≫= FamilyPair.kids ∧ rtc (child h) p a.
Proof.
  revert gen gens. induction fuel as [|k IH]; intros gen gens Hwf Hw a.
  - destruct gen; [|done]. injection Hw as <-. split.
    + by intros (g & ?%elem_of_nil & _).
    + by intros (p & ?%elem_of_nil & _).
  - destruct gen as [|u gen0].
    { injection Hw as <-. split.
      + by intros (g & ?%elem_of_nil & _).
      + by intros (p & ?%elem_of_nil & _). }
    cbn [walk] in Hw.
    destruct (renderGeneration h (u :: gen0)) as [block|]; [|done].
    cbn [mbind option_bind] in Hw.
    destruct (nextGeneration k h (u :: gen0)) as [ng|] eqn:Hng; [|done].
    cbn [mbind option_bind] in Hw.
    destruct (walk k h ng) as [later|] eqn:Hl; [|done].
    cbn [mbind option_bind] in Hw. injection Hw as <-.
    destruct (nextGeneration_kids k h _ ng Hwf Hng) as [Hwf' Hkids].
    specialize (IH ng later Hwf' Hl). split.
    + intros (g & [->|Hg]%elem_of_cons & Ha).
      * exists a. split; [done|apply rtc_refl].
      * assert (placed later a) as Hs by (by exists g).
        apply IH in Hs as (q & Hq & Hrtc). apply Hkids in Hq as (p & Hp & Hc).
        exists p. split; [done|]. by eapply rtc_l.
    + intros (p & Hp & Hrtc). apply rtc_inv in Hrtc as [->|(q & Hc & Hrtc)].
      * exists (u :: gen0, block). split; [apply elem_of_cons; by left|done].
      * assert (placed later a) as (g & Hg & Ha).
        { apply IH. exists q. split; [|done]. apply Hkids. by exists p. }
        exists g. split; [apply elem_of_cons; by right|done].
Qed.

Lemma startGeneration_kids h r :
  Forall FamilyPair.wf (startGeneration h r)
  ∧ (seedMembers h r ≠ [] →
     ∀ x, x ∈ startGeneration h r ≫= FamilyPair.kids ↔ x ∈ seedMembers h r).
Proof.
  pose proof (seedGeneration_build h r) as Hb. unfold buildFamilyPairsForMembers in Hb.
  destruct (buildFamilyPairs_from_kids _ _ _ _ (Forall_nil_2 _) Hb) as [Hwf Hel].
  unfold startGeneration. split.
  - destruct (seedGeneration h r) eqn:E; [|done].
    constructor; [|done].
    by destruct (addChild_spec r (FamilyPair.new None None) (wf_new None None)) as [? _].
  - intros Hne x. destruct (seedGeneration h r) eqn:E.
    { by apply seedGeneration_nil_members in E. }
    rewrite Hel. split; [|by left]. intros [?|?%elem_of_nil]; done.
Qed.

(** ** What the display prints *)

Lemma ordered_bounded h x : ordered (length h) h → bounded h (length h - 1) x.
Proof.
  intros Hord k y Hsteps.
  assert (x + k ≤ y ∧ (0 < k → y < length h)) as [H1 H2].
  { induction Hsteps as [x|k x z y Hxz Hzy [IH1 IH2]]; [lia|].
    pose proof (ordered_link _ _ _ _ Hord Hxz) as Hlt.
    pose proof (link_target _ _ _ (ordered_linked _ Hord) Hxz) as Hz.
    split; [lia|]. intros _. destruct k as [|k]; [|apply IH2; lia].
    inversion Hzy; subst. done. }
  destruct k as [|k]; [lia|]. specialize (H2 ltac:(lia)). lia.
Qed.

Lemma walk_blocks fuel h gen gens :
  walk fuel h gen = Some gens →
  Forall (λ g, g.1 ≠ [] ∧ renderGeneration h g.1 = Some g.2) gens.
Proof.
  revert gen gens. induction fuel as [|k IH]; intros gen gens Hw.
  - destruct gen; [|done]. injection Hw as <-. constructor.
  - destruct gen as [|u gen0]; [injection Hw as <-; constructor|].
    cbn [walk] in Hw.
    destruct (renderGeneration h (u :: gen0)) as [block|] eqn:Hb; [|done].
    cbn [mbind option_bind] in Hw.
    destruct (nextGeneration k h (u :: gen0)) as [ng|]; [|done].
    cbn [mbind option_bind] in Hw.
    destruct (walk k h ng) as [later|] eqn:Hl; [|done].
    cbn [mbind option_bind] in Hw. injection Hw as <-.
    constructor; [done|]. by eapply IH.
Qed.

(** X23. [showCenteredTree] and [showAllNames] only print: they return
    with the registry and the pending input untouched.  With a root, in a
    registry a run of the menu can reach, the tree display is the header,
    the text of each generation of the walk in turn (its three rows), and
    the footer; there is at least one generation and there are at most as
    many as members.  Without a root it is the single line "No tree.
    Create root first."  [showAllNames] prints its header and one line per
    member, in pool order. *)
Theorem display_only_prints fuel w :
  reachable w →
  length (FamilyTree.memberPool (tree w)) ≤ fuel →
  let h := FamilyTree.memberPool (tree w) in
  (∃ out,
     showCenteredTree fuel w
     = Some (tt, {| tree := tree w; input := input w; output := output w ++ out |})
     ∧ match FamilyTree.root (tree w) with
       | None => out = [lit "No tree. Create root first." ++ nl]
       | Some r =>
           ∃ gens,
             walk fuel h (startGeneration h r) = Some gens
             ∧ 1 ≤ length gens ≤ length h
             ∧ Forall (λ g, g.1 ≠ [] ∧ renderGeneration h g.1 = Some g.2) gens
             ∧ out = [nl ++ lit "=== CENTERED FAMILY TREE ===" ++ nl ++ nl;
                      concat (map snd gens);
                      lit "=== END OF TREE ===" ++ nl]
       end)
  ∧ showAllNames w
    = Some (tt, {| tree := tree w; input := input w;
                   output := output w
                     ++ [nl ++ lit "All members:" ++ nl;
                         concat (map (λ m, lit "- " ++ c_str (FamilyMember.name m) ++ nl) h)] |}).
Proof.
  intros Hreach Hfuel h. split.
  2:{ unfold showAllNames, bind, getTree, say. cbn [tree input output].
      by rewrite <- app_assoc. }
  pose proof (reachable_inv w Hreach) as Hinv. unfold tree_inv in Hinv.
  destruct (FamilyTree.root (tree w)) as [r|] eqn:Hroot.
  - destruct Hinv as (_ & Hr & Hord & _). fold h in Hr, Hord, Hfuel.
    pose proof (ordered_linked _ Hord) as Hl.
    destruct (walk_total h (length h - 1) Hl fuel (startGeneration h r))
      as (gens & Hw & Hlen & _).
    { apply startGeneration_ok; [done| |done]. intros x. by apply ordered_bounded. }
    { lia. }
    eexists. split.
    + unfold showCenteredTree, bind, getTree, say, lift. rewrite Hroot.
      cbn [tree input output]. fold h. rewrite Hw. cbn [tree input output].
      rewrite <- !app_assoc. reflexivity.
    + exists gens. split; [done|]. split; [|split; [by eapply walk_blocks|done]].
      split; [|lia].
      destruct gens; [|simpl; lia].
      eapply walk_not_nil in Hw; [done|].
      unfold startGeneration. destruct (seedGeneration h r); done.
  - eexists. split; [|done].
    unfold showCenteredTree, bind, getTree, say. by rewrite Hroot.
Qed.

Lemma display_only_prints_witness :
  (∃ out,
     showCenteredTree 1 (aliceWorld [])
     = Some (tt, {| tree := tree (aliceWorld []); input := input (aliceWorld []);
                    output := output (aliceWorld []) ++ out |})
     ∧ match FamilyTree.root (tree (aliceWorld [])) with
       | None => out = [lit "No tree. Create root first." ++ nl]
       | Some r =>
           ∃ gens,
             walk 1 (FamilyTree.memberPool (tree (aliceWorld [])))
               (startGeneration (FamilyTree.memberPool (tree (aliceWorld []))) r) = Some gens
             ∧ 1 ≤ length gens ≤ length (FamilyTree.memberPool (tree (aliceWorld [])))
             ∧ Forall (λ g, g.1 ≠ []
                            ∧ renderGeneration (FamilyTree.memberPool (tree (aliceWorld [])))
                                g.1 = Some g.2) gens
             ∧ out = [nl ++ lit "=== CENTERED FAMILY TREE ===" ++ nl ++ nl;
                      concat (map snd gens);
                      lit "=== END OF TREE ===" ++ nl]
       end)
  ∧ showAllNames (aliceWorld [])
    = Some (tt, {| tree := tree (aliceWorld []); input := input (aliceWorld []);
                   output := output (aliceWorld [])
                     ++ [nl ++ lit "All members:" ++ nl;
                         concat (map (λ m, lit "- " ++ c_str (FamilyMember.name m) ++ nl)
                                   (FamilyTree.memberPool (tree (aliceWorld []))))] |}).
Proof.
  apply (display_only_prints 1 (aliceWorld []) (aliceWorld_reachable [])). simpl. lia.
Defined.

(** ** Generation 0 *)

Lemma addToPairs_skip u0 rest f m c :
  key u0 ≠ (f, m) → addToPairs f m c (u0 :: rest) = u0 :: addToPairs f m c rest.
Proof.
  intros Hne. cbn [addToPairs].
  destruct (decide (FamilyPair.father u0 = f)) as [Hf|Hf],
           (decide (FamilyPair.mother u0 = m)) as [Hm|Hm].
  - exfalso. apply Hne. unfold key. by rewrite Hf, Hm.
  - by rewrite (bool_decide_eq_false_2 _ Hm), andb_false_r.
  - by rewrite (bool_decide_eq_false_2 _ Hf).
  - by rewrite (bool_decide_eq_false_2 _ Hf).
Qed.

Lemma addChild_key c u : key (FamilyPair.addChild c u) = key u.
Proof.
  destruct c as [c|]; [|done]. unfold FamilyPair.addChild, FamilyPair.ensureCap, key. simpl.
  by repeat case_bool_decide.
Qed.

Lemma addToPairs_Forall_key (P : ptr * ptr → Prop) f m c head :
  P (f, m) → Forall (λ u, P (key u)) head →
  Forall (λ u, P (key u)) (addToPairs f m c head).
Proof.
  intros Hp Hall. induction Hall as [|u rest Hu Hrest IH]; cbn [addToPairs].
  - constructor; [|done]. by rewrite addChild_key.
  - destruct (bool_decide _ && bool_decide _).
    + constructor; [by rewrite addChild_key|done].
    + by constructor.
Qed.

Lemma seed_from_first r i all u0 rest :
  r < i → key u0 = (None, None) →
  Forall (λ u, (key u).1 = Some r ∨ (key u).2 = Some r) rest →
  ∃ rest', seed_from r i all (u0 :: rest) = u0 :: rest'
           ∧ Forall (λ u, (key u).1 = Some r ∨ (key u).2 = Some r) rest'.
Proof.
  revert i rest. induction all as [|ch tl IH]; intros i rest Hi Hu0 Hrest; cbn [seed_from].
  - by exists rest.
  - destruct (included r i ch) eqn:E; [|by apply IH; [lia|..]].
    apply included_iff in E.
    assert (FamilyMember.father ch = Some r ∨ FamilyMember.mother ch = Some r) as Hpar
      by (destruct E as [?|[?|(? & _)]]; [by left|by right|lia]).
    rewrite addToPairs_skip.
    2:{ rewrite Hu0. intros [= Hf Hm]. destruct Hpar; congruence. }
    apply IH; [lia|done|].
    by apply (addToPairs_Forall_key (λ k, k.1 = Some r ∨ k.2 = Some r)).
Qed.

(** X24. The display of a registry a run of the menu can reach always
    begins with the root: the first unit of generation 0 is the pair
    without parents, its parent line reads "Unknown (M) - Unknown (F)" and
    its only child is the root, shown by the first 15 characters of its
    name; every other unit of generation 0 has the root as father or as
    mother. *)
Theorem generation0_begins_with_root w r :
  reachable w →
  FamilyTree.root (tree w) = Some r →
  let h := FamilyTree.memberPool (tree w) in
  let u0 := FamilyPair.addChild (Some r) (FamilyPair.new None None) in
  ∃ rest rm,
    startGeneration h r = u0 :: rest
    ∧ FamilyPair.kids u0 = [Some r]
    ∧ Forall (λ u, FamilyPair.father u = Some r ∨ FamilyPair.mother u = Some r) rest
    ∧ h !! r = Some rm
    ∧ parentLine h u0 256 = Some (lit "Unknown (M) - Unknown (F)")
    ∧ childrenLine h u0 256 = Some (first15 (FamilyMember.name rm)).
Proof.
  intros Hreach Hroot h u0.
  pose proof (reachable_inv w Hreach) as Hinv. unfold tree_inv in Hinv.
  rewrite Hroot in Hinv. destruct Hinv as (_ & Hr & Hord & (rm & Hrm & Hf & Hm)).
  fold h in Hr, Hord, Hrm.
  assert (r = 0) as ->.
  { destruct Hreach as (w0 & Hinit & Hsteps).
    apply (steps_root0 w0 w Hsteps); [|by rewrite Hinit|done].
    unfold tree_inv. by rewrite Hinit. }
  destruct h as [|rm' tl] eqn:Eh; [done|]. injection Hrm as ->.
  assert (seedGeneration (rm :: tl) 0 = seed_from 0 1 tl [u0]) as Hseed.
  { unfold seedGeneration. cbn [seed_from].
    replace (included 0 0 rm) with true; [by rewrite Hf, Hm|].
    symmetry. apply included_iff. right. right. done. }
  destruct (seed_from_first 0 1 tl u0 []) as (rest & Hrest & Hall); [lia|done|done|].
  exists rest, rm. split.
  { unfold startGeneration. by rewrite Hseed, Hrest. }
  split; [done|]. split; [done|]. split; [done|]. split; [done|].
  rewrite (childrenLine_spec _ u0 256 [Some 0] [FamilyMember.name rm]); [|lia|done|done].
  cbn [map joinNames]. f_equal. apply take_ge. pose proof (first15_length (FamilyMember.name rm)).
  simpl. lia.
Qed.

(** ** The menu loop *)

Lemma readChoice_loop_skips bad e n rest out :
  Forall (λ b, Menu.scan (typed b) = Menu.Blank
               ∨ Menu.scan (typed b) = Menu.NoNumber ∧ length (typed b) ≤ 1000) bad →
  Menu.scan (typed e) = Menu.Value n →
  Menu.readChoice_loop (bad ++ e :: rest) out
  = Some (n, rest,
          out ++ replicate (length (filter (λ b, Menu.scan (typed b) = Menu.NoNumber) bad))
                   (lit "Invalid number, enter again: ")).
Proof.
  intros Hbad He. revert out. induction Hbad as [|b bad Hb _ IH]; intros out.
  - cbn [app Menu.readChoice_loop]. rewrite He, filter_nil. cbn [length replicate].
    by rewrite app_nil_r.
  - cbn [app Menu.readChoice_loop]. destruct Hb as [Hb|[Hb Hl]]; rewrite Hb.
    + rewrite IH. rewrite filter_cons_False by (by rewrite Hb). done.
    + rewrite bool_decide_eq_true_2 by done. rewrite IH.
      rewrite filter_cons_True by done. cbn [length replicate]. by rewrite <- app_assoc.
Qed.

Lemma digits_acc s : ∀ acc, (0 ≤ acc → 0 ≤ (Menu.digits acc s).1)%Z.
Proof.
  induction s as [|c r IH]; intros acc Hacc; cbn [Menu.digits]; [done|].
  destruct (Menu.digitOf c) as [d|] eqn:Hd; [|done]. apply IH.
  unfold Menu.digitOf in Hd. case_bool_decide; [|done]. injection Hd as <-. lia.
Qed.

Lemma scan_Value s n : Menu.scan s = Menu.Value n → (Menu.INT_MIN ≤ n ≤ Menu.INT_MAX)%Z.
Proof.
  unfold Menu.scan. destruct (Menu.skipSpace s) as [|c r]; [done|].
  cbv zeta. destruct (if _ || _ then r else c :: r) as [|d body]; [done|].
  destruct (Menu.digitOf d); [|done]. case_bool_decide as Hn; [|done].
  destruct (Menu.digits 0 (d :: body)).2; [|done]. by intros [= <-].
Qed.

Lemma scan_digit c d : Menu.digitOf c = Some d → Menu.scan [c] = Menu.Value d.
Proof.
  intros Hd. pose proof Hd as Hd'. unfold Menu.digitOf in Hd'.
  case_bool_decide as Hc; [|done]. injection Hd' as Hd'.
  assert (isSpace c = false) as Hs.
  { unfold isSpace. rewrite !orb_false_iff. repeat split; apply bool_decide_eq_false_2;
      intros ->; vm_compute in Hc; lia. }
  unfold Menu.scan. cbn [Menu.skipSpace]. rewrite Hs. cbv zeta.
  rewrite !(bool_decide_eq_false_2 (c = _)) by (intros ->; vm_compute in Hc; lia).
  cbn [orb]. rewrite Hd. cbn [Menu.digits]. rewrite Hd. cbn [fst snd].
  rewrite bool_decide_eq_true_2; [f_equal; lia|].
  unfold Menu.INT_MIN, Menu.INT_MAX. lia.
Qed.

(** X25. One turn of [Menu::run] prints the menu and reads a choice.  An
    entry of white space is skipped by the extraction without a word; an
    entry that is not a number in the range of [int] costs one "Invalid
    number, enter again: ".  The first number entered decides: 0 prints
    "Exiting..." and ends the run with the registry untouched; 1 to 5 run
    the five operations (create root, add member, mark late, show tree,
    list members) and go on to the next turn; any other number, negative or
    of several digits, prints "Invalid choice." and goes on with the
    registry untouched.  A single digit is the number it denotes. *)
Theorem Menu_turn turns fuel w bad e rest n :
  input w = bad ++ e :: rest →
  Forall (λ b, Menu.scan (typed b) = Menu.Blank
               ∨ Menu.scan (typed b) = Menu.NoNumber ∧ length (typed b) ≤ 1000) bad →
  Menu.scan (typed e) = Menu.Value n →
  let out := output w ++ [Menu.menuText]
             ++ replicate (length (filter (λ b, Menu.scan (typed b) = Menu.NoNumber) bad))
                  (lit "Invalid number, enter again: ") in
  (- 2 ^ 31 ≤ n ≤ 2 ^ 31 - 1)%Z
  ∧ Menu.run_loop (S turns) fuel w
    = (if bool_decide (n = 0%Z) then
         Some (tt, {| tree := tree w; input := rest;
                      output := out ++ [lit "Exiting..." ++ nl] |})
       else
         match opOf n with
         | Some op =>
             bind (exec fuel op) (λ _, Menu.run_loop turns fuel)
               {| tree := tree w; input := rest; output := out |}
         | None =>
             Menu.run_loop turns fuel
               {| tree := tree w; input := rest;
                  output := out ++ [lit "Invalid choice." ++ nl] |}
         end)
  ∧ (opOf n = None ↔ (n ≤ 0 ∨ 6 ≤ n)%Z)
  ∧ opOf 1 = Some CreateRoot ∧ opOf 2 = Some AddMember ∧ opOf 3 = Some MarkLate
  ∧ opOf 4 = Some ShowTree ∧ opOf 5 = Some ListMembers
  ∧ (∀ c d, Menu.digitOf c = Some d → Menu.scan (typed (Key c)) = Menu.Value d).
Proof.
  intros Hin Hbad He out. pose proof (scan_Value _ _ He) as Hn.
  split; [exact Hn|]. split; [|split; [|repeat (split; [done|])]].
  - cbn [Menu.run_loop]. unfold bind at 1. unfold say at 1.
    unfold bind at 1. unfold Menu.readChoice. cbn [tree input output].
    rewrite Hin, (readChoice_loop_skips bad e n rest _ Hbad He).
    unfold opOf, out. case_bool_decide.
    { unfold say. cbn [tree input output]. by rewrite <- !app_assoc. }
    repeat case_bool_decide; try (by rewrite <- !app_assoc).
    unfold bind at 1. unfold say at 1. cbn [tree input output]. by rewrite <- !app_assoc.
  - unfold opOf. repeat case_bool_decide; split; try done; lia.
  - intros c d. apply scan_digit.
Qed.

Lemma Menu_turn_witness :
  Menu.run_loop 2 0
    (freshWorld [Key "x"%char; Key " "%char; Line (lit "-12"); Line (lit " "); Key "0"%char])
  = Some (tt, {| tree := FamilyTree.new; input := [];
                 output := [Menu.menuText; lit "Invalid number, enter again: ";
                            lit "Invalid choice." ++ nl;
                            Menu.menuText; lit "Exiting..." ++ nl] |}).
Proof.
  destruct (Menu_turn 1 0
              (freshWorld [Key "x"%char; Key " "%char; Line (lit "-12"); Line (lit " ");
                           Key "0"%char])
              [Key "x"%char; Key " "%char] (Line (lit "-12"))
              [Line (lit " "); Key "0"%char] (-12)%Z)
    as (_ & H & _).
  - reflexivity.
  - constructor; [right; split; [reflexivity|simpl; lia]|].
    constructor; [left; reflexivity|constructor].
  - reflexivity.
  - rewrite H. reflexivity.
Defined.

Lemma run_loop_conn turns fuel w u w' :
  Menu.run_loop turns fuel w = Some (u, w') →
  tree_conn (tree w) → tree_conn (tree w').
Proof.
  revert w. induction turns as [|t IH]; intros w Hrun Hconn; [done|].
  cbn [Menu.run_loop] in Hrun.
  apply bind_Some in Hrun as (? & w1 & Hsay & Hrun). apply say_Some in Hsay.
  apply bind_Some in Hrun as (ch & w2 & Hch & Hrun).
  assert (tree w2 = tree w) as Ht2.
  { unfold Menu.readChoice in Hch. destruct (Menu.readChoice_loop _ _) as [[[? ?] ?]|]; [|done].
    injection Hch as <- <-. simpl. done. }
  case_bool_decide.
  { apply say_Some in Hrun. by rewrite Hrun, Ht2. }
  apply bind_Some in Hrun as (? & w3 & Hop & Hrun).
  apply (IH w3 Hrun).
  assert (tree_conn (tree w2)) as Hc2 by (by rewrite Ht2).
  repeat case_bool_decide.
  - eapply (exec_conn fuel CreateRoot); [exact Hc2|exact Hop].
  - eapply (exec_conn fuel AddMember); [exact Hc2|exact Hop].
  - eapply (exec_conn fuel MarkLate); [exact Hc2|exact Hop].
  - eapply (exec_conn fuel ShowTree); [exact Hc2|exact Hop].
  - eapply (exec_conn fuel ListMembers); [exact Hc2|exact Hop].
  - apply say_Some in Hop. by rewrite Hop.
Qed.

Lemma run_loop_exits turns fuel w u w' :
  Menu.run_loop turns fuel w = Some (u, w') →
  last (output w') = Some (lit "Exiting..." ++ nl).
Proof.
  revert w. induction turns as [|t IH]; intros w Hrun; [done|].
  cbn [Menu.run_loop] in Hrun.
  apply bind_Some in Hrun as (? & w1 & Hsay & Hrun).
  apply bind_Some in Hrun as (ch & w2 & Hch & Hrun).
  case_bool_decide.
  { unfold say in Hrun. inversion Hrun; subst. cbn [output]. apply last_snoc. }
  apply bind_Some in Hrun as (? & w3 & Hop & Hrun). by apply (IH w3).
Qed.

(** X26. Whenever [main] comes to its end, the run was ended by the
    choice 0 (its last output is "Exiting..."), and the registry it leaves
    is sound: the pool is empty exactly if no root was created, every
    pointer points into the pool, no member is reached from itself along
    child-list links, and every member other than the root is on the child
    list of a member created before it. *)
Theorem main_leaves_sound_registry turns fuel inp w' :
  main turns fuel inp = Some w' →
  let h := FamilyTree.memberPool (tree w') in
  last (output w') = Some (lit "Exiting..." ++ nl)
  ∧ (FamilyTree.root (tree w') = None ↔ h = [])
  ∧ heap_linked h
  ∧ acyclic h
  ∧ Forall gender_ok h
  ∧ ∀ r, FamilyTree.root (tree w') = Some r →
      r < length h
      ∧ unparented h r
      ∧ ∀ a, a < length h → a ≠ r → ∃ p, p < a ∧ child h p a.
Proof.
  intros Hrun h. unfold main, Menu.run in Hrun.
  destruct (bind _ _ _) as [[u w'']|] eqn:E; [|done]. injection Hrun as Heq.
  simpl in Heq. subst w''.
  apply bind_Some in E as (? & w1 & Hsay & Hrun). apply say_Some in Hsay.
  pose proof (run_loop_exits _ _ _ _ _ Hrun) as Hexit.
  pose proof (run_loop_conn _ _ _ _ _ Hrun) as Hconn.
  rewrite Hsay in Hconn. specialize (Hconn eq_refl). unfold tree_conn in Hconn.
  split; [done|]. fold h in Hconn.
  destruct (FamilyTree.root (tree w')) as [r|] eqn:Hroot.
  - destruct Hconn as [(_ & Hr & Hord & Hun) Hatt].
    split; [split; [done|intros E; unfold h in *; rewrite E in Hr; simpl in Hr; lia]|].
    split; [by apply ordered_linked|]. split; [by eapply ordered_acyclic|].
    split.
    { apply Forall_lookup. intros a m Hm. by destruct (Hord a m Hm) as (_ & _ & _ & _ & ?). }
    intros r' [= <-]. split; [done|]. split; [done|].
    intros a Ha Har. destruct (Hatt a Ha Har) as [p Hp]. exists p. split; [|done].
    by destruct (child_lt _ _ p a Hord Hp).
  - rewrite Hconn. split; [done|]. split; [by intros a m ?|]. split.
    + intros y Hy.
      destruct Hy as [y z (m & Hm & _)|y z1 z2 (m & Hm & _) _]; by rewrite lookup_nil in Hm.
    + split; [constructor|]. intros r ?. done.
Qed.

Lemma main_alice :
  ∃ w', main 2 0 [Key "1"%char; Line (lit "Alice"); Key "F"%char; Key "y"%char; Key "0"%char]
        = Some w'
    ∧ tree w' = tree (aliceWorld []).
Proof. eexists. split; [vm_compute; reflexivity|reflexivity]. Qed.

Lemma main_leaves_sound_registry_witness :
  ∃ w', main 2 0 [Key "1"%char; Line (lit "Alice"); Key "F"%char; Key "y"%char; Key "0"%char]
        = Some w'
    ∧ last (output w') = Some (lit "Exiting..." ++ nl)
    ∧ FamilyTree.root (tree w') = Some 0
    ∧ heap_linked (FamilyTree.memberPool (tree w'))
    ∧ acyclic (FamilyTree.memberPool (tree w')).
Proof.
  destruct main_alice as (w' & Hrun & Ht).
  destruct (main_leaves_sound_registry 2 0 _ w' Hrun) as (H1 & _ & H3 & H4 & _).
  exists w'. split; [exact Hrun|]. split; [exact H1|]. split; [by rewrite Ht|].
  split; [exact H3|exact H4].
Defined.

(** ** From one generation to the next *)

Lemma walk_consecutive h fuel gen gens :
  Forall FamilyPair.wf gen →
  walk fuel h gen = Some gens →
  ∀ i g, gens !! i = Some g →
    Forall FamilyPair.wf g.1
    ∧ ∃ k ng, nextGeneration k h g.1 = Some ng
              ∧ match gens !! S i with
                | Some g' => g'.1 = ng
                | None => ng = []
                end.
Proof.
  revert gen gens. induction fuel as [|k IH]; intros gen gens Hwf Hw i g Hg.
  - destruct gen; [|done]. injection Hw as <-. by rewrite lookup_nil in Hg.
  - destruct gen as [|u gen0]; [injection Hw as <-; by rewrite lookup_nil in Hg|].
    cbn [walk] in Hw.
    destruct (renderGeneration h (u :: gen0)) as [block|]; [|done].
    cbn [mbind option_bind] in Hw.
    destruct (nextGeneration k h (u :: gen0)) as [ng|] eqn:Hng; [|done].
    cbn [mbind option_bind] in Hw.
    destruct (walk k h ng) as [later|] eqn:Hl; [|done].
    cbn [mbind option_bind] in Hw. injection Hw as <-.
    destruct (nextGeneration_kids k h _ ng Hwf Hng) as [Hwf' _].
    destruct i as [|i].
    + injection Hg as <-. split; [done|]. exists k, ng. split; [done|].
      cbn [lookup list_lookup]. destruct ng as [|v ng0].
      * destruct k; by injection Hl as <-.
      * destruct k as [|k']; [done|]. cbn [walk] in Hl.
        destruct (renderGeneration h (v :: ng0)); [|done]. cbn [mbind option_bind] in Hl.
        destruct (nextGeneration k' h (v :: ng0)); [|done]. cbn [mbind option_bind] in Hl.
        destruct (walk k' h _); [|done]. cbn [mbind option_bind] in Hl.
        by injection Hl as <-.
    + apply (IH ng later Hwf' Hl i g Hg).
Qed.

(** X27. The walk of [showCenteredTree] goes down the child lists:
    whenever it returns, in any registry, the children held by the units of
    each generation after the first are exactly the members found on the
    child lists of the children held by the units of the generation before
    it, the children of the last generation have empty child lists, and so
    the members that the walk places in a unit, in whatever generation, are
    exactly those reached from the children of generation 0 by going from
    parent to child.  This is about the units the walk builds, not about
    the text printed for them. *)
Theorem walk_follows_child_lists h r fuel gens :
  walk fuel h (startGeneration h r) = Some gens →
  (∀ i g, gens !! i = Some g →
     match gens !! S i with
     | Some g' =>
         ∀ a, Some a ∈ g'.1 ≫= FamilyPair.kids
              ↔ ∃ p, Some p ∈ g.1 ≫= FamilyPair.kids ∧ child h p a
     | None => ∀ p a, Some p ∈ g.1 ≫= FamilyPair.kids → ¬ child h p a
     end)
  ∧ (∀ a, placed gens a
          ↔ ∃ p, Some p ∈ startGeneration h r ≫= FamilyPair.kids ∧ rtc (child h) p a).
Proof.
  intros Hw. destruct (startGeneration_kids h r) as [Hwf _]. split.
  - intros i g Hg.
    destruct (walk_consecutive h fuel _ gens Hwf Hw i g Hg) as (Hwfg & k & ng & Hng & Hnext).
    destruct (nextGeneration_kids k h _ ng Hwfg Hng) as [_ Hkids].
    destruct (gens !! S i) as [g'|].
    + rewrite Hnext. exact Hkids.
    + subst ng. intros p a Hp Hc.
      assert (Some a ∈ @nil FamilyPair.t ≫= FamilyPair.kids) as Hin
        by (apply Hkids; by exists p).
      by apply elem_of_nil in Hin.
  - by apply (walk_placed h fuel).
Qed.

Lemma threeGenerations_walk :
  ∃ gens, walk 4 threeGenerations (startGeneration threeGenerations 0) = Some gens
          ∧ length gens = 3.
Proof. eexists. split; [vm_compute; reflexivity|reflexivity]. Qed.

Lemma walk_follows_child_lists_witness :
  ∃ gens,
    walk 4 threeGenerations (startGeneration threeGenerations 0) = Some gens
    ∧ (∀ a, placed gens a
            ↔ ∃ p, Some p ∈ startGeneration threeGenerations 0 ≫= FamilyPair.kids
                   ∧ rtc (child threeGenerations) p a).
Proof.
  destruct threeGenerations_walk as (gens & Hw & _).
  exists gens. split; [exact Hw|].
  exact (proj2 (walk_follows_child_lists threeGenerations 0 4 gens Hw)).
Defined.

(** ** A parent created on the way *)

Lemma newMember_children n g al w a w' :
  newMember n g al w = Some (a, w') →
  ∀ p b, child (FamilyTree.memberPool (tree w)) p b
         → child (FamilyTree.memberPool (tree w')) p b.
Proof. intros [_ ->]%newMember_inv p b Hc. simpl. by apply child_app. Qed.

Lemma updMember_children a (f : FamilyMember.t → FamilyMember.t) w u w' :
  updMember a f w = Some (u, w') →
  (∀ m, FamilyMember.firstChild (f m) = FamilyMember.firstChild m
        ∧ FamilyMember.nextSibling (f m) = FamilyMember.nextSibling m) →
  ∀ p b, child (FamilyTree.memberPool (tree w)) p b
         → child (FamilyTree.memberPool (tree w')) p b.
Proof.
  intros (m & Hm & ->)%updMember_inv_eq Hlinks p b Hc. simpl.
  destruct (Hlinks m). by eapply child_insert_links.
Qed.

Lemma addChildOf_children r a fuel s w u w' :
  mid r a (tree w) → s < a → addChildOf fuel (Some s) (Some a) w = Some (u, w') →
  child (FamilyTree.memberPool (tree w')) s a
  ∧ ∀ p b, child (FamilyTree.memberPool (tree w)) p b
           → child (FamilyTree.memberPool (tree w')) p b.
Proof.
  intros (Hroot & Hr & Hlen0 & Hord & Hun) Hs Hrun.
  unfold addChildOf in Hrun. cmd_inv.
  match goal with H : Some s = Some _ |- _ => injection H as <- end.
  match goal with H : FamilyMember.addChild _ _ _ _ = Some _ |- _ =>
    destruct (member_addChild_child _ _ _ _ _ Hlen0 Hs Hord H) as [Hnew Hold] end.
  simpl. done.
Qed.

Lemma linkMember_children r fuel name g al f m w u w' :
  inv r (tree w) →
  ptr_below (length (FamilyTree.memberPool (tree w))) f →
  ptr_below (length (FamilyTree.memberPool (tree w))) m →
  linkMember fuel name g al f m w = Some (u, w') →
  ∀ p b, child (FamilyTree.memberPool (tree w)) p b
         → child (FamilyTree.memberPool (tree w')) p b.
Proof.
  intros Hinv Hf Hm Hrun. unfold linkMember in Hrun.
  apply bind_Some in Hrun as (tr & w0 & Hg & Hrun). apply getTree_Some in Hg as [-> ->].
  apply bind_Some in Hrun as (nm & w1 & Hnew & Hrun).
  pose proof (newMember_children _ _ _ _ _ _ Hnew) as K1.
  destruct (newMember_mid r _ _ _ _ _ _ Hinv Hnew) as [-> Hmid].
  set (a := length (FamilyTree.memberPool (tree w))) in *.
  pose proof Hmid as (_ & Hra & Hlen & _).
  rewrite (inv_root r _ Hinv) in Hrun.
  destruct f as [f|], m as [m|]; simpl in Hf, Hm.
  - apply bind_Some in Hrun as (? & w2 & Hstep & Hrun).
    apply bind_Some in Hstep as (? & w3 & Hupd & Hadd).
    pose proof (updMember_children _ _ _ _ _ Hupd (λ _, conj eq_refl eq_refl)) as K2.
    apply (updMember_mid r a) in Hupd;
      [|done|intros ?; apply setFather_ok; simpl; lia].
    destruct (addChildOf_children r a fuel f _ _ _ Hupd Hf Hadd) as [_ K3].
    apply bind_Some in Hrun as (? & w4 & Hstep & Hrun).
    apply bind_Some in Hstep as (? & w5 & Hupd2 & Hret).
    pose proof (updMember_children _ _ _ _ _ Hupd2 (λ _, conj eq_refl eq_refl)) as K4.
    cmd_inv. intros p b Hc. by apply K4, K3, K2, K1.
  - apply bind_Some in Hrun as (? & w2 & Hstep & Hrun).
    apply bind_Some in Hstep as (? & w3 & Hupd & Hadd).
    pose proof (updMember_children _ _ _ _ _ Hupd (λ _, conj eq_refl eq_refl)) as K2.
    apply (updMember_mid r a) in Hupd;
      [|done|intros ?; apply setFather_ok; simpl; lia].
    destruct (addChildOf_children r a fuel f _ _ _ Hupd Hf Hadd) as [_ K3].
    cmd_inv. intros p b Hc. by apply K3, K2, K1.
  - apply bind_Some in Hrun as (? & w2 & Hstep & Hrun). apply ret_Some in Hstep as [_ ->].
    apply bind_Some in Hrun as (? & w4 & Hstep & Hrun).
    apply bind_Some in Hstep as (? & w5 & Hupd & Hadd).
    pose proof (updMember_children _ _ _ _ _ Hupd (λ _, conj eq_refl eq_refl)) as K2.
    apply (updMember_mid r a) in Hupd;
      [|done|intros ?; apply setMother_ok; simpl; lia].
    destruct (addChildOf_children r a fuel m _ _ _ Hupd Hm Hadd) as [_ K3].
    cmd_inv. intros p b Hc. by apply K3, K2, K1.
  - apply bind_Some in Hrun as (? & w2 & Hstep & Hrun). apply ret_Some in Hstep as [_ ->].
    apply bind_Some in Hrun as (? & w4 & Hstep & Hrun). apply ret_Some in Hstep as [_ ->].
    apply bind_Some in Hrun as (? & w5 & Hstep & Hrun).
    apply bind_Some in Hstep as (? & w6 & Hadd & Hsay).
    destruct (addChildOf_children r a fuel r _ _ _ Hmid Hra Hadd) as [_ K3].
    cmd_inv. intros p b Hc. by apply K3, K1.
Qed.

Lemma askParent_created fuel lo cap w r pname ck gk ak rest :
  inv r (tree w) →
  input w = Line pname :: Key ck :: Key gk :: Key ak :: rest →
  length pname < 64 → emptyName pname = false →
  findByName (tree w) pname = None →
  ck ∈ ["y"; "Y"]%char →
  isGender gk = true →
  ak ∈ ["y"; "Y"; "n"; "N"]%char →
  length (FamilyTree.memberPool (tree w)) ≤ fuel →
  let n := length (FamilyTree.memberPool (tree w)) in
  ∃ w1 pm,
    askParent fuel lo cap w = Some (Some n, w1)
    ∧ input w1 = rest
    ∧ last (output w1)
      = Some (cap ++ lit " created and attached under root for visibility." ++ nl)
    ∧ inv r (tree w1)
    ∧ length (FamilyTree.memberPool (tree w1)) = S n
    ∧ FamilyTree.memberPool (tree w1) !! n = Some pm
    ∧ FamilyMember.name pm = FamilyMember.copyName pname
    ∧ FamilyMember.father pm = None ∧ FamilyMember.mother pm = None
    ∧ FamilyMember.firstChild pm = None
    ∧ child (FamilyTree.memberPool (tree w1)) r n
    ∧ frames (tree w) (tree w1).
Proof.
  intros Hinv Hin Hlen He Hfind Hck Hgk Hak Hfuel n.
  pose proof Hinv as (Hroot & Hr & Hord & Hun).
  set (x := FamilyMember.new pname
              (if bool_decide (gk = "M"%char) || bool_decide (gk = "m"%char)
               then "M"%char else "F"%char)
              (bool_decide (ak = "y"%char) || bool_decide (ak = "Y"%char))).
  destruct (attach_new fuel (FamilyTree.memberPool (tree w)) x r Hord)
    as (h2 & kids & Hadd & Hkids & Hkids2 & Hn2 & Hlen2 & Hsame);
    [apply new_member_ok|done|done|done|].
  assert (askParent fuel lo cap w
          = Some (Some n,
                  {| tree := FamilyTree.setPool h2 (FamilyTree.poolAdd x (tree w));
                     input := rest;
                     output := ((((output w
                       ++ [lit "Enter " ++ lo ++ lit "'s name (or blank if unknown): "])
                       ++ [cap ++ lit " not found. Create " ++ lo ++ lit " now? (y/n): "])
                       ++ [lit "Enter " ++ lo ++ lit "'s gender (M/F): "])
                       ++ [lit "Is " ++ lo ++ lit " alive? (y/n) [y]: "])
                       ++ [cap ++ lit " created and attached under root for visibility."
                           ++ nl] |})) as Hrun.
  { unfold askParent. unfold bind at 1.
    rewrite (readLine_run _ _ _ _ _ Hin Hlen), He.
    unfold bind at 1. unfold getTree at 1. cbn [tree input output]. rewrite Hfind.
    unfold bind at 1. unfold say at 1.
    unfold bind at 1. erewrite readYesNo_run; [|reflexivity|by apply yes_is_answer].
    rewrite (yes_is_true ck Hck).
    unfold bind at 1. erewrite readGender_run; [|reflexivity|done].
    unfold bind at 1. erewrite readYesNoDefaultYes_run; [|reflexivity|done].
    unfold bind at 1. unfold newMember, addChildOf.
    unfold bind, getTree, putTree, ret, lift, say.
    cbn [tree input output]. rewrite Hroot.
    unfold FamilyTree.poolAdd, FamilyTree.memCount, FamilyTree.setPool.
    cbn [FamilyTree.memberPool FamilyTree.root tree input output].
    fold x. rewrite Hadd. reflexivity. }
  eexists _, x. split; [exact Hrun|].
  cbn [tree input output FamilyTree.setPool FamilyTree.poolAdd FamilyTree.memberPool
       FamilyTree.root].
  split; [done|]. split; [apply last_snoc|].
  split.
  { destruct (askParent_inv r _ _ _ _ _ _ Hinv Hrun) as (Hinv1 & _). exact Hinv1. }
  split; [done|]. split; [done|]. split; [done|]. split; [done|]. split; [done|].
  split; [done|]. split.
  - exists (S fuel), (kids ++ [n]). split; [done|].
    apply elem_of_app. right. apply elem_of_cons. by left.
  - intros j m Hj. by apply Hsame.
Qed.

Lemma addMember_specify fuel w r name gk ak yk rest0 :
  FamilyTree.root (tree w) = Some r →
  input w = Line name :: Key gk :: Key ak :: Key yk :: rest0 →
  length name < 64 → emptyName name = false →
  findByName (tree w) name = None →
  isGender gk = true →
  ak ∈ ["y"; "Y"; "n"; "N"]%char →
  yk ∈ ["y"; "Y"]%char →
  ∃ out,
    addMemberInteractive fuel w
    = bind (askParents fuel)
        (λ fm, linkMember fuel name
                 (if bool_decide (gk = "M"%char) || bool_decide (gk = "m"%char)
                  then "M"%char else "F"%char)
                 (bool_decide (ak = "y"%char) || bool_decide (ak = "Y"%char))
                 fm.1 fm.2)
        {| tree := tree w; input := rest0; output := out |}.
Proof.
  intros Hroot Hinput Hlen Hname Hfind Hg Ha Hy.
  unfold addMemberInteractive. unfold bind at 1. unfold getTree at 1. rewrite Hroot.
  unfold bind at 1. rewrite (readLine_run _ _ _ _ _ Hinput Hlen), Hname, Hfind.
  unfold bind at 1. erewrite readGender_run; [|reflexivity|done].
  unfold bind at 1. erewrite readYesNoDefaultYes_run; [|reflexivity|done].
  unfold bind at 1. unfold say at 1.
  unfold bind at 1. erewrite readYesNo_run; [|reflexivity|by apply yes_is_answer].
  rewrite (yes_is_true yk Hy). by eexists.
Qed.

(** X28. A father who is not in the pool can be created on the way: the
    call then allocates two members, first the father, without parents and
    appended to the root's child list, then the new member, whose father
    pointer is the member just created and who is the only one on that
    member's child list.  The father's name is looked up in the pool only,
    not compared with the name of the member being added: if the two names
    are equal the registry ends up with two members of that name, and
    [findByName] finds the father. *)
Theorem addMember_creates_father
    fuel w r name gk ak yk fname ck fgk fak mname nk rest :
  reachable w →
  FamilyTree.root (tree w) = Some r →
  input w = Line name :: Key gk :: Key ak :: Key yk
            :: Line fname :: Key ck :: Key fgk :: Key fak
            :: Line mname :: Key nk :: rest →
  length name < 64 → emptyName name = false →
  findByName (tree w) name = None →
  isGender gk = true →
  ak ∈ ["y"; "Y"; "n"; "N"]%char →
  yk ∈ ["y"; "Y"]%char →
  length fname < 64 → emptyName fname = false →
  findByName (tree w) fname = None →
  ck ∈ ["y"; "Y"]%char →
  isGender fgk = true →
  fak ∈ ["y"; "Y"; "n"; "N"]%char →
  length mname < 64 → emptyName mname = true →
  nk ∈ ["n"; "N"]%char →
  S (length (FamilyTree.memberPool (tree w))) ≤ fuel →
  let n := length (FamilyTree.memberPool (tree w)) in
  ∃ w' fm x,
    addMemberInteractive fuel w = Some (tt, w')
    ∧ input w' = rest
    ∧ FamilyTree.root (tree w') = Some r
    ∧ length (FamilyTree.memberPool (tree w')) = S (S n)
    ∧ FamilyTree.memberPool (tree w') !! n = Some fm
    ∧ FamilyMember.name fm = FamilyMember.copyName fname
    ∧ FamilyMember.father fm = None ∧ FamilyMember.mother fm = None
    ∧ FamilyTree.memberPool (tree w') !! S n = Some x
    ∧ FamilyMember.name x = FamilyMember.copyName name
    ∧ FamilyMember.father x = Some n ∧ FamilyMember.mother x = None
    ∧ child (FamilyTree.memberPool (tree w')) r n
    ∧ childrenOf (S fuel) (FamilyTree.memberPool (tree w')) n = Some [S n]
    ∧ frames (tree w) (tree w')
    ∧ (c_str fname = c_str name →
       FamilyMember.name fm = FamilyMember.name x
       ∧ findByName (tree w') name = Some n).
Proof.
  intros Hreach Hroot Hinput Hlen Hname Hfind Hg Ha Hy Hflen Hfname Hffind Hck Hfg Hfa
    Hmlen Hmname Hn Hfuel n.
  apply reachable_inv in Hreach. unfold tree_inv in Hreach. rewrite Hroot in Hreach.
  destruct (addMember_specify fuel w r name gk ak yk _ Hroot Hinput Hlen Hname Hfind Hg Ha Hy)
    as [out ->].
  unfold bind at 1. unfold askParents. unfold bind at 1.
  edestruct (askParent_created fuel (lit "father") (lit "Father")
               {| tree := tree w;
                  input := Line fname :: Key ck :: Key fgk :: Key fak
                           :: Line mname :: Key nk :: rest;
                  output := out |} r fname ck fgk fak)
    as (w1 & pm & Hrun1 & Hin1 & _ & Hinv1 & Hlen1 & Hpm & Hpmn & Hpmf & Hpmm & Hpmc
        & Hchild1 & Hfr1);
    [exact Hreach|reflexivity|done|done|exact Hffind|done|done|done|simpl; lia|].
  cbn [tree input output] in Hrun1, Hlen1, Hpm, Hchild1, Hfr1. fold n in Hrun1, Hlen1, Hpm, Hchild1.
  rewrite Hrun1. unfold bind at 1.
  edestruct (askParent_blank fuel (lit "mother") (lit "Mother") mname) as [out2 ->];
    [exact Hin1|done|done|].
  unfold bind at 1.
  edestruct (askSpouse_declined fuel (lit "mother") (lit "Mother") (lit "F") nk)
    as [out3 ->]; [reflexivity|done|].
  unfold ret. cbn [fst snd].
  set (G := if bool_decide (gk = "M"%char) || bool_decide (gk = "m"%char)
            then "M"%char else "F"%char).
  set (AL := bool_decide (ak = "y"%char) || bool_decide (ak = "Y"%char)).
  set (w3 := {| tree := tree w1; input := rest; output := out3 |}).
  assert (n < length (FamilyTree.memberPool (tree w3))) as Hnlt by (simpl; lia).
  destruct (linkMember_attach fuel name G AL (Some n) None w3 r Hinv1 Hnlt I)
    as (w' & kids & Hrun & Hin & Hr & Hl & Hx & Hk & Hk' & Hfr); [simpl; lia|].
  cbn [tree input output w3] in Hin, Hl, Hx, Hk, Hk', Hfr.
  rewrite Hlen1 in Hl, Hx, Hk'.
  assert (kids = []) as ->.
  { unfold childrenOf in Hk. rewrite Hpm in Hk. cbn [mbind option_bind] in Hk.
    rewrite Hpmc, chainFrom_None in Hk. by injection Hk as <-. }
  destruct (Hfr n pm Hpm) as (fm & Hfm & (Hfmn & _ & _ & Hfmf & Hfmm)).
  exists w', fm. eexists. split; [exact Hrun|].
  split; [done|]. split; [done|]. split; [done|]. split; [done|].
  split; [congruence|]. split; [congruence|]. split; [congruence|].
  split; [exact Hx|]. split; [done|]. split; [done|]. split; [done|].
  split.
  { apply (linkMember_children r fuel name G AL (Some n) None w3 tt w' Hinv1 Hnlt I Hrun).
    exact Hchild1. }
  split; [done|]. split; [by eapply frames_trans|].
  intros Heq.
  assert (FamilyMember.copyName fname = FamilyMember.copyName name) as Hcopy
    by (by rewrite !copyName_take, Heq).
  split; [simpl; congruence|].
  apply findByName_Some. exists fm. split; [done|]. split.
  - rewrite Hfmn, Hpmn, Hcopy. apply eq_name_c_str. rewrite copyName_c_str.
    apply copyName_short. pose proof (c_str_length name). lia.
  - intros j m' Hj Hm'.
    destruct (lookup_lt_is_Some_2 (FamilyTree.memberPool (tree w)) j Hj) as [mj Hmj].
    destruct (Hfr1 j mj Hmj) as (m1 & Hm1 & (Hn1 & _)).
    destruct (Hfr j m1 Hm1) as (m2 & Hm2 & (Hn2 & _)).
    assert (m2 = m') as -> by congruence.
    rewrite findByName_None in Hfind. rewrite Hn2, Hn1. by apply (Hfind j).
Qed.

Lemma addMember_creates_father_witness :
  ∃ w' fm x,
    addMemberInteractive 2
      (aliceWorld [Line (lit "Sam"); Key "M"%char; Key "y"%char; Key "y"%char;
                   Line (lit "Sam"); Key "y"%char; Key "M"%char; Key "y"%char;
                   Line []; Key "n"%char])
    = Some (tt, w')
    ∧ FamilyTree.memberPool (tree w') !! 1 = Some fm
    ∧ FamilyTree.memberPool (tree w') !! 2 = Some x
    ∧ FamilyMember.father x = Some 1
    ∧ FamilyMember.name fm = FamilyMember.name x
    ∧ findByName (tree w') (lit "Sam") = Some 1.
Proof.
  destruct (addMember_creates_father 2
              (aliceWorld [Line (lit "Sam"); Key "M"%char; Key "y"%char; Key "y"%char;
                           Line (lit "Sam"); Key "y"%char; Key "M"%char; Key "y"%char;
                           Line []; Key "n"%char])
              0 (lit "Sam") "M"%char "y"%char "y"%char (lit "Sam") "y"%char "M"%char
              "y"%char [] "n"%char [])
    as (w' & fm & x & Hrun & _ & _ & _ & Hfm & _ & _ & _ & Hx & _ & Hxf & _ & _ & _ & _ & Hdup).
  - apply aliceWorld_reachable.
  - reflexivity.
  - reflexivity.
  - simpl. lia.
  - reflexivity.
  - reflexivity.
  - reflexivity.
  - apply elem_of_cons. by left.
  - apply elem_of_cons. by left.
  - simpl. lia.
  - reflexivity.
  - reflexivity.
  - apply elem_of_cons. by left.
  - reflexivity.
  - apply elem_of_cons. by left.
  - simpl. lia.
  - reflexivity.
  - apply elem_of_cons. by left.
  - simpl. lia.
  - destruct (Hdup eq_refl) as [Hnames Hfind].
    exists w', fm, x. split; [exact Hrun|]. split; [exact Hfm|]. split; [exact Hx|].
    split; [exact Hxf|]. split; [exact Hnames|exact Hfind].
Defined.

(** ** formatName *)

(** X29. [formatName] with a buffer of at least one byte writes at most
    15 characters and at most [outSize - 1]: the result is the beginning of
    the source string, without a NUL, cut at the smaller of the two bounds;
    it is the source string itself exactly when that fits both. *)
Theorem formatName_bounds src outSize :
  (1 ≤ outSize)%Z →
  length (formatName src outSize) ≤ 15
  ∧ (Z.of_nat (length (formatName src outSize)) ≤ outSize - 1)%Z
  ∧ Forall (λ c, c ≠ NUL) (formatName src outSize)
  ∧ formatName src outSize `prefix_of` c_str src
  ∧ formatName src outSize = take (15 `min` Z.to_nat (outSize - 1)) (c_str src)
  ∧ (formatName src outSize = c_str src
     ↔ length (c_str src) ≤ 15 ∧ (Z.of_nat (length (c_str src)) < outSize)%Z).
Proof.
  intros Hsize. rewrite formatName_take. unfold first15, MAX_NAME.
  rewrite take_take. rewrite (Nat.min_comm _ 15).
  set (k := 15 `min` Z.to_nat (outSize - 1)).
  split; [rewrite length_take; lia|].
  split; [rewrite length_take; lia|].
  split; [apply Forall_take, c_str_no_nul|].
  split; [apply prefix_take|].
  split; [done|].
  split.
  - intros Heq. apply (f_equal length) in Heq. rewrite length_take in Heq. lia.
  - intros [H1 H2]. apply take_ge. lia.
Qed.

Lemma formatName_bounds_witness :
  length (formatName (lit "Bartholomew Fitzgerald") 8) ≤ 15
  ∧ (Z.of_nat (length (formatName (lit "Bartholomew Fitzgerald") 8)) ≤ 8 - 1)%Z
  ∧ Forall (λ c, c ≠ NUL) (formatName (lit "Bartholomew Fitzgerald") 8)
  ∧ formatName (lit "Bartholomew Fitzgerald") 8 `prefix_of` c_str (lit "Bartholomew Fitzgerald")
  ∧ formatName (lit "Bartholomew Fitzgerald") 8
    = take (15 `min` Z.to_nat (8 - 1)) (c_str (lit "Bartholomew Fitzgerald"))
  ∧ (formatName (lit "Bartholomew Fitzgerald") 8 = c_str (lit "Bartholomew Fitzgerald")
     ↔ length (c_str (lit "Bartholomew Fitzgerald")) ≤ 15
       ∧ (Z.of_nat (length (c_str (lit "Bartholomew Fitzgerald"))) < 8)%Z).
Proof. apply (formatName_bounds (lit "Bartholomew Fitzgerald") 8). lia. Defined.

(** ** The unit of a root that stands alone *)

Lemma seed_from_app root i l1 l2 head :
  seed_from root i (l1 ++ l2) head
  = seed_from root (i + length l1) l2 (seed_from root i l1 head).
Proof.
  revert i head. induction l1 as [|ch l1 IH]; intros i head.
  - simpl. by rewrite Nat.add_0_r.
  - cbn [app seed_from length]. rewrite IH. by replace (S i + length l1) with (i + S (length l1)) by lia.
Qed.

Lemma seed_from_skip root i all head :
  (∀ j ch, all !! j = Some ch → included root (i + j) ch = false) →
  seed_from root i all head = head.
Proof.
  revert i head. induction all as [|ch rest IH]; intros i head Hall; [done|].
  cbn [seed_from]. pose proof (Hall 0 ch eq_refl) as H0. rewrite Nat.add_0_r in H0.
  rewrite H0. apply IH. intros j c Hj.
  replace (S i + j) with (i + S j) by lia. by apply Hall.
Qed.

Lemma seedGeneration_lone_root h root :
  root < length h → noChildOfRoot h root → rootUnparented h root →
  seedGeneration h root = [FamilyPair.addChild (Some root) (FamilyPair.new None None)].
Proof.
  intros Hr Hno (rm & Hrm & Hf & Hm).
  assert (∀ j ch, h !! j = Some ch → j ≠ root → included root j ch = false) as Hout.
  { intros j ch Hch Hj. apply not_true_iff_false. rewrite included_iff.
    destruct (Hno j ch Hch). tauto. }
  unfold seedGeneration.
  rewrite <- (take_drop_middle h root rm Hrm), seed_from_app.
  rewrite (seed_from_skip root 0 (take root h)).
  2:{ intros j ch Hj. rewrite lookup_take_Some in Hj. destruct Hj as [Hj Hlt].
      apply Hout; [done|simpl; lia]. }
  rewrite length_take, Nat.min_l by lia. cbn [seed_from Nat.add].
  assert (included root root rm = true) as -> by (apply included_iff; auto).
  rewrite Hf, Hm. cbn [addToPairs]. apply seed_from_skip.
  intros j ch Hj. rewrite lookup_drop in Hj. apply Hout; [done|lia].
Qed.

(** C3. When no individual has the root as a parent and the root has no
    recorded parents, showing the tree starts from a single family unit
    with no father and no mother whose only child is the root, headed
    "Unknown (M) - Unknown (F)".  In that case the seeding loop files the
    root by itself; the unit synthesized by the fallback is the same unit,
    produced whenever the loop finds nothing.  Either way generation 0 is
    not empty, so the rendered tree has at least one generation whenever a
    root exists. *)
Theorem C3_fallback :
  (∀ h root,
     root < length h → noChildOfRoot h root → rootUnparented h root →
     let u := FamilyPair.addChild (Some root) (FamilyPair.new None None) in
     startGeneration h root = [u]
     ∧ view (startGeneration h root) = [((None, None), [Some root])]
     ∧ parentLine h u 256 = Some (lit "Unknown (M) - Unknown (F)")
     ∧ seedGeneration h root = [u])
  ∧ (∀ h root,
       seedGeneration h root = [] →
       startGeneration h root = [FamilyPair.addChild (Some root) (FamilyPair.new None None)]
       ∧ view (startGeneration h root) = [((None, None), [Some root])])
  ∧ (∀ h root,
       startGeneration h root ≠ []
       ∧ ∀ fuel gens, walk fuel h (startGeneration h root) = Some gens → gens ≠ [])
  ∧ (∀ w r fuel,
       reachable w → FamilyTree.root (tree w) = Some r →
       length (FamilyTree.memberPool (tree w)) ≤ fuel →
       ∃ gens,
         walk fuel (FamilyTree.memberPool (tree w))
           (startGeneration (FamilyTree.memberPool (tree w)) r) = Some gens
         ∧ gens ≠ []
         ∧ showCenteredTree fuel w
           = Some (tt, {| tree := tree w; input := input w;
                          output := output w
                            ++ [nl ++ lit "=== CENTERED FAMILY TREE ===" ++ nl ++ nl;
                                concat (map snd gens);
                                lit "=== END OF TREE ===" ++ nl] |})).
Proof.
  assert (∀ h root, startGeneration h root ≠ []) as Hne.
  { intros h root. unfold startGeneration. by destruct (seedGeneration h root). }
  split; [|split; [|split]].
  - intros h root Hr Hno Hun u.
    pose proof (seedGeneration_lone_root h root Hr Hno Hun) as Hs. fold u in Hs.
    unfold startGeneration. rewrite Hs. done.
  - intros h root Hs. unfold startGeneration. rewrite Hs. done.
  - intros h root. split; [done|]. intros fuel gens. by apply walk_not_nil.
  - intros w r fuel Hreach Hroot Hfuel.
    pose proof (reachable_inv w Hreach) as Hinv. unfold tree_inv in Hinv.
    rewrite Hroot in Hinv. destruct Hinv as (_ & Hr & Hord & _).
    set (h := FamilyTree.memberPool (tree w)) in *.
    pose proof (ordered_linked _ Hord) as Hl.
    destruct (walk_total h (length h - 1) Hl fuel (startGeneration h r))
      as (gens & Hw & _ & _).
    { apply startGeneration_ok; [done| |done]. intros x. by apply ordered_bounded. }
    { lia. }
    exists gens. split; [done|]. split; [by eapply walk_not_nil|].
    unfold showCenteredTree, bind, getTree, say, lift. rewrite Hroot.
    cbn [tree input output]. fold h. rewrite Hw. cbn [tree input output].
    by rewrite <- !app_assoc.
Qed.

Lemma C3_fallback_witness :
  startGeneration aliceOnly 0 = [FamilyPair.addChild (Some 0) (FamilyPair.new None None)]
  ∧ view (startGeneration aliceOnly 0) = [((None, None), [Some 0])].
Proof.
  destruct C3_fallback as [H _].
  destruct (H aliceOnly 0) as (Hs & Hv & _).
  - simpl. lia.
  - intros [|i] ch Hch; [injection Hch as <-|]; done.
  - eexists. split; [reflexivity|done].
  - split; [exact Hs|exact Hv].
Defined.

(** ** Each member on one child list *)

Lemma single_app h x :
  FamilyMember.firstChild x = None → FamilyMember.nextSibling x = None →
  single_linked h → single_linked (h ++ [x]).
Proof.
  intros Hf Hn Hs a b ma mb ka kb c Ha Hb Hka Hkb.
  assert (∀ y my k, (h ++ [x]) !! y = Some my → linkOf k my = Some c → h !! y = Some my)
    as Hold.
  { intros y my k Hy Hk. apply lookup_app_Some in Hy as [Hy|[_ Hy]]; [done|].
    apply list_lookup_singleton_Some in Hy as [_ <-].
    destruct k; simpl in Hk; congruence. }
  eapply Hs; eauto.
Qed.

Lemma single_update (h : list FamilyMember.t) a m m' :
  h !! a = Some m →
  FamilyMember.firstChild m' = FamilyMember.firstChild m →
  FamilyMember.nextSibling m' = FamilyMember.nextSibling m →
  single_linked h → single_linked (<[a := m']> h).
Proof.
  intros Hm Hf Hn Hs x y mx my kx ky c Hx Hy Hkx Hky.
  assert (∀ z mz k, <[a := m']> h !! z = Some mz → linkOf k mz = Some c →
            ∃ mz0, h !! z = Some mz0 ∧ linkOf k mz0 = Some c) as Hold.
  { intros z mz k Hz Hk. destruct (decide (z = a)) as [->|Hne].
    - rewrite list_lookup_insert_eq in Hz by (by eapply lookup_lt_Some).
      injection Hz as <-. exists m. split; [done|]. destruct k; simpl in *; congruence.
    - rewrite list_lookup_insert_ne in Hz by done. by exists mz. }
  destruct (Hold x mx kx Hx Hkx) as (mx0 & Hx0 & Hkx0).
  destruct (Hold y my ky Hy Hky) as (my0 & Hy0 & Hky0).
  by eapply (Hs x y mx0 my0).
Qed.

(** [addChild] writes one link field that was null. *)
Lemma member_addChild_shape fuel (h : list FamilyMember.t) s a h' :
  FamilyMember.addChild fuel h s (Some a) = Some h' →
  ∃ x xm xm' k,
    h !! x = Some xm ∧ h' = <[x := xm']> h
    ∧ linkOf k xm = None ∧ linkOf k xm' = Some a
    ∧ (∀ k', k' ≠ k → linkOf k' xm' = linkOf k' xm)
    ∧ (k = FirstChild → x = s)
    ∧ (k = NextSibling →
       ∃ sm fc, h !! s = Some sm ∧ FamilyMember.firstChild sm = Some fc
                ∧ FamilyMember.lastSibling fuel h fc = Some x).
Proof.
  unfold FamilyMember.addChild. intros Hadd.
  destruct (h !! s) as [sm|] eqn:Hsm; [|done]. cbn [mbind option_bind] in Hadd.
  destruct (FamilyMember.firstChild sm) as [fc|] eqn:Hfc.
  - destruct (FamilyMember.lastSibling fuel h fc) as [t|] eqn:Hlast; [|done].
    cbn [mbind option_bind] in Hadd.
    destruct (h !! t) as [tm|] eqn:Ht; [|done]. cbn [mbind option_bind] in Hadd.
    injection Hadd as <-.
    exists t, tm, (FamilyMember.setNextSibling (Some a) tm), NextSibling.
    split; [done|]. split; [done|]. split.
    { simpl. destruct fuel as [|k]; [done|]. clear -Hlast Ht.
      revert fc Hlast. induction (S k) as [|k' IH]; intros fc Hlast; [done|].
      rewrite lastSibling_S in Hlast. destruct (h !! fc) as [m|] eqn:Hm; [|done].
      cbn [mbind option_bind] in Hlast.
      destruct (FamilyMember.nextSibling m) as [z|] eqn:Hz; [by eapply IH|].
      injection Hlast as <-. congruence. }
    split; [done|]. split; [by intros []|]. split; [done|].
    intros _. by exists sm, fc.
  - injection Hadd as <-.
    exists s, sm, (FamilyMember.setFirstChild (Some a) sm), FirstChild.
    split; [done|]. split; [done|]. split; [done|]. split; [done|].
    split; [by intros []|]. split; [done|done].
Qed.

Lemma single_addChild fuel (h : list FamilyMember.t) s a h' :
  ordered a h →
  FamilyMember.addChild fuel h s (Some a) = Some h' →
  single_linked h → single_linked h'.
Proof.
  intros Hord Hadd Hs.
  destruct (member_addChild_shape _ _ _ _ _ Hadd)
    as (x & xm & xm' & k & Hx & -> & Hnone & Hnew & Hsame & _).
  assert (∀ z mz kz c, <[x := xm']> h !! z = Some mz → linkOf kz mz = Some c →
            (z = x ∧ kz = k ∧ c = a)
            ∨ (c < a ∧ ∃ mz0, h !! z = Some mz0 ∧ linkOf kz mz0 = Some c)) as Hcls.
  { intros z mz kz c Hz Hk.
    assert (∀ mz0, h !! z = Some mz0 → linkOf kz mz0 = Some c → c < a) as Hlt.
    { intros mz0 Hz0 Hk0. destruct (Hord z mz0 Hz0) as (_ & _ & Hfc & Hns & _).
      destruct kz; simpl in Hk0; [rewrite Hk0 in Hfc|rewrite Hk0 in Hns]; simpl in *; lia. }
    destruct (decide (z = x)) as [->|Hne].
    - rewrite list_lookup_insert_eq in Hz by (by eapply lookup_lt_Some).
      injection Hz as <-.
      assert (kz = k ∨ kz ≠ k) as [->|Hk'] by (destruct kz, k; (by left) || (by right)).
      + left. split; [done|]. split; [done|]. congruence.
      + right. rewrite (Hsame kz Hk') in Hk. split; [by eapply Hlt|]. by exists xm.
    - rewrite list_lookup_insert_ne in Hz by done. right.
      split; [by eapply Hlt|]. by exists mz. }
  intros y z my mz ky kz c Hy Hz Hky Hkz.
  destruct (Hcls y my ky c Hy Hky) as [(-> & -> & ->)|(Hc1 & my0 & Hy0 & Hky0)];
    destruct (Hcls z mz kz _ Hz Hkz) as [(-> & -> & Hc)|(Hc2 & mz0 & Hz0 & Hkz0)];
    try done; try lia.
  by eapply (Hs y z my0 mz0).
Qed.

(** *** The steps of the operations *)

Lemma newMember_uni_mid r n g al w a w' :
  uni r (tree w) → newMember n g al w = Some (a, w') →
  a = length (FamilyTree.memberPool (tree w)) ∧ uni_mid r a (tree w').
Proof.
  intros [Hinv Hs] Hrun.
  destruct (newMember_mid r n g al w a w' Hinv Hrun) as [-> Hmid].
  split; [done|]. split; [done|].
  apply newMember_inv in Hrun as [_ ->]. simpl. by apply single_app.
Qed.

Lemma addChildOf_uni r a fuel s w u w' :
  uni_mid r a (tree w) → s < a → addChildOf fuel (Some s) (Some a) w = Some (u, w') →
  uni r (tree w') ∧ length (FamilyTree.memberPool (tree w')) = S a.
Proof.
  intros [Hmid Hsl] Hs Hrun.
  destruct (addChildOf_inv r a fuel s w u w' Hmid Hs Hrun) as [Hinv Hlen].
  split; [|done]. split; [done|].
  destruct Hmid as (Hroot & Hr & Hlen0 & Hord & Hun).
  unfold addChildOf in Hrun. cmd_inv.
  match goal with H : Some s = Some _ |- _ => injection H as <- end.
  match goal with H : FamilyMember.addChild _ _ _ _ = Some _ |- _ =>
    simpl; exact (single_addChild _ _ _ _ _ Hord H Hsl) end.
Qed.

Lemma updMember_uni_mid r a w u w' (f : FamilyMember.t → FamilyMember.t) :
  uni_mid r a (tree w) →
  (∀ m, member_ok (S a) a a m → member_ok (S a) a a (f m)) →
  (∀ m, FamilyMember.firstChild (f m) = FamilyMember.firstChild m
        ∧ FamilyMember.nextSibling (f m) = FamilyMember.nextSibling m) →
  updMember a f w = Some (u, w') → uni_mid r a (tree w').
Proof.
  intros [Hmid Hsl] Hok Hlinks Hrun. split; [by eapply updMember_mid|].
  apply updMember_inv_eq in Hrun as (m & Hm & ->). simpl.
  destruct (Hlinks m). by eapply single_update.
Qed.

Lemma updMember_uni r a w u w' (f : FamilyMember.t → FamilyMember.t) :
  uni r (tree w) →
  (∀ b m, member_ok (length (FamilyTree.memberPool (tree w))) b a m →
          member_ok (length (FamilyTree.memberPool (tree w))) b a (f m)) →
  (∀ m, FamilyMember.father (f m) = FamilyMember.father m
        ∧ FamilyMember.mother (f m) = FamilyMember.mother m) ∨ a ≠ r →
  (∀ m, FamilyMember.firstChild (f m) = FamilyMember.firstChild m
        ∧ FamilyMember.nextSibling (f m) = FamilyMember.nextSibling m) →
  updMember a f w = Some (u, w') →
  uni r (tree w')
  ∧ length (FamilyTree.memberPool (tree w')) = length (FamilyTree.memberPool (tree w)).
Proof.
  intros [Hinv Hsl] Hok Hsame Hlinks Hrun.
  destruct (updMember_inv r a w u w' f Hinv Hok Hsame Hrun) as [Hinv' Hlen].
  split; [|done]. split; [done|].
  apply updMember_inv_eq in Hrun as (m & Hm & ->). simpl.
  destruct (Hlinks m). by eapply single_update.
Qed.

Lemma uni_inv r tr : uni r tr → inv r tr.
Proof. by intros [? _]. Qed.

Lemma newUnderRoot_uni r fuel n g al w a w1 u w2 :
  uni r (tree w) →
  newMember n g al w = Some (a, w1) →
  addChildOf fuel (Some r) (Some a) w1 = Some (u, w2) →
  uni r (tree w2)
  ∧ ptr_below (length (FamilyTree.memberPool (tree w2))) (Some a)
  ∧ length (FamilyTree.memberPool (tree w)) ≤ length (FamilyTree.memberPool (tree w2)).
Proof.
  intros Hconn Hnew Hadd.
  destruct (newMember_uni_mid r n g al w a w1 Hconn Hnew) as [Ha Hmid].
  pose proof Hmid as [(_ & Hra & _) _].
  destruct (addChildOf_uni r a fuel r w1 u w2 Hmid Hra Hadd) as [Hconn' Hlen].
  split; [done|]. simpl. lia.
Qed.

Lemma askParent_uni r fuel lo cap w p w' :
  uni r (tree w) → askParent fuel lo cap w = Some (p, w') →
  uni r (tree w')
  ∧ ptr_below (length (FamilyTree.memberPool (tree w'))) p
  ∧ length (FamilyTree.memberPool (tree w)) ≤ length (FamilyTree.memberPool (tree w')).
Proof.
  intros Hinv Hrun. unfold askParent in Hrun. cmd_inv.
  destruct (emptyName _); cmd_inv; [done|].
  destruct (findByName _ _) as [a|] eqn:Hfind; cmd_inv.
  { split; [done|]. split; [|done]. apply findByName_lookup in Hfind as (m & Hm & _).
    simpl. by eapply lookup_lt_Some. }
  match goal with H : (if ?b then _ else _) _ = Some _ |- _ => destruct b end; cmd_inv;
    [|done].
  rewrite (inv_root r _ (uni_inv _ _ Hinv)) in *.
  match goal with
  | Hn : newMember _ _ _ ?w4 = Some _, He : tree ?w4 = tree w |- _ =>
      rewrite <- He; eapply newUnderRoot_uni; [by rewrite He|done..]
  end.
Qed.

Lemma askSpouse_uni r fuel lo cap sug w p w' :
  uni r (tree w) → askSpouse fuel lo cap sug w = Some (p, w') →
  uni r (tree w')
  ∧ ptr_below (length (FamilyTree.memberPool (tree w'))) p
  ∧ length (FamilyTree.memberPool (tree w)) ≤ length (FamilyTree.memberPool (tree w')).
Proof.
  intros Hinv Hrun. unfold askSpouse in Hrun. cmd_inv.
  match goal with H : (if ?b then _ else _) _ = Some _ |- _ => destruct b end; cmd_inv;
    [|done].
  destruct (emptyName _); cmd_inv; [done|].
  destruct (findByName _ _) as [a|] eqn:Hfind; cmd_inv.
  { split; [done|]. split; [|done]. apply findByName_lookup in Hfind as (m & Hm & _).
    simpl. by eapply lookup_lt_Some. }
  rewrite (inv_root r _ (uni_inv _ _ Hinv)) in *.
  match goal with
  | Hn : newMember _ _ _ ?w4 = Some _, He : tree ?w4 = tree w |- _ =>
      rewrite <- He; eapply newUnderRoot_uni; [by rewrite He|done..]
  end.
Qed.

Lemma askParents_uni r fuel w fm w' :
  uni r (tree w) → askParents fuel w = Some (fm, w') →
  uni r (tree w')
  ∧ ptr_below (length (FamilyTree.memberPool (tree w'))) fm.1
  ∧ ptr_below (length (FamilyTree.memberPool (tree w'))) fm.2.
Proof.
  intros Hinv Hrun. unfold askParents in Hrun.
  apply bind_Some in Hrun as (f & w1 & Hf & Hrun).
  apply bind_Some in Hrun as (m & w2 & Hm & Hrun).
  destruct (askParent_uni r _ _ _ _ _ _ Hinv Hf) as (Hinv1 & Hfv & _).
  destruct (askParent_uni r _ _ _ _ _ _ Hinv1 Hm) as (Hinv2 & Hmv & Hle).
  apply (ptr_below_mono _ _ _ Hle) in Hfv.
  destruct f as [f|], m as [m|].
  - cmd_inv. done.
  - apply bind_Some in Hrun as (m' & w3 & Hs & Hrun). cmd_inv.
    destruct (askSpouse_uni r _ _ _ _ _ _ _ Hinv2 Hs) as (Hinv3 & Hsv & Hle3).
    split; [done|]. split; [|done]. by apply (ptr_below_mono _ _ _ Hle3).
  - apply bind_Some in Hrun as (f' & w3 & Hs & Hrun). cmd_inv.
    destruct (askSpouse_uni r _ _ _ _ _ _ _ Hinv2 Hs) as (Hinv3 & Hsv & Hle3).
    split; [done|]. split; [done|]. by apply (ptr_below_mono _ _ _ Hle3).
  - cmd_inv. done.
Qed.

Lemma linkMember_uni r fuel name g al f m w u w' :
  uni r (tree w) →
  ptr_below (length (FamilyTree.memberPool (tree w))) f →
  ptr_below (length (FamilyTree.memberPool (tree w))) m →
  linkMember fuel name g al f m w = Some (u, w') →
  uni r (tree w').
Proof.
  intros Hinv Hf Hm Hrun. unfold linkMember in Hrun.
  apply bind_Some in Hrun as (tr & w0 & Hg & Hrun). apply getTree_Some in Hg as [-> ->].
  apply bind_Some in Hrun as (nm & w1 & Hnew & Hrun).
  destruct (newMember_uni_mid r _ _ _ _ _ _ Hinv Hnew) as [-> Hmid].
  set (a := length (FamilyTree.memberPool (tree w))) in *.
  pose proof Hmid as [(_ & Hra & Hlen & _) _].
  rewrite (inv_root r _ (uni_inv _ _ Hinv)) in Hrun.
  destruct f as [f|], m as [m|]; simpl in Hf, Hm.
  - apply bind_Some in Hrun as (? & w2 & Hstep & Hrun).
    apply bind_Some in Hstep as (? & w3 & Hupd & Hadd).
    apply (updMember_uni_mid r a) in Hupd;
      [|done|intros ?; apply setFather_ok; simpl; lia|done].
    destruct (addChildOf_uni r a fuel f _ _ _ Hupd Hf Hadd) as [Hinv2 Hlen2].
    apply bind_Some in Hrun as (? & w4 & Hstep & Hrun).
    apply bind_Some in Hstep as (? & w5 & Hupd2 & Hret). cmd_inv.
    assert (a ≠ r) as Har by lia.
    assert (∀ b mm, member_ok (length (FamilyTree.memberPool (tree w2))) b a mm →
              member_ok (length (FamilyTree.memberPool (tree w2))) b a
                (FamilyMember.setMother (Some m) mm)) as Hok.
    { intros b mm. apply setMother_ok. rewrite Hlen2. simpl. lia. }
    by destruct (updMember_uni r a _ _ _ _ Hinv2 Hok (or_intror Har)
                   (λ _, conj eq_refl eq_refl) Hupd2) as [Hi _].
  - apply bind_Some in Hrun as (? & w2 & Hstep & Hrun).
    apply bind_Some in Hstep as (? & w3 & Hupd & Hadd).
    apply (updMember_uni_mid r a) in Hupd;
      [|done|intros ?; apply setFather_ok; simpl; lia|done].
    destruct (addChildOf_uni r a fuel f _ _ _ Hupd Hf Hadd) as [Hinv2 Hlen2].
    cmd_inv. done.
  - cmd_inv.
    match goal with H : updMember _ _ _ = Some _ |- _ =>
      apply (updMember_uni_mid r a) in H;
        [|by rewrite ?Hrun0|intros ?; apply setMother_ok; simpl; lia|done] end.
    match goal with
    | H : addChildOf _ _ _ _ = Some _, Hm' : uni_mid _ _ _ |- _ =>
        by destruct (addChildOf_uni r a fuel m _ _ _ Hm' Hm H) end.
  - cmd_inv.
    match goal with
    | H : addChildOf _ _ _ _ = Some _ |- _ =>
        by destruct (addChildOf_uni r a fuel r _ _ _ Hmid Hra H) end.
Qed.

Lemma addMemberInteractive_uni r fuel w u w' :
  uni r (tree w) → addMemberInteractive fuel w = Some (u, w') → uni r (tree w').
Proof.
  intros Hinv Hrun. unfold addMemberInteractive in Hrun.
  apply bind_Some in Hrun as (tr & w0 & Hg & Hrun). apply getTree_Some in Hg as [-> ->].
  rewrite (inv_root r _ (uni_inv _ _ Hinv)) in Hrun. cmd_inv.
  destruct (emptyName _); cmd_inv; [done|].
  destruct (findByName _ _); cmd_inv; [done|].
  match goal with H : (if ?b then _ else _) _ = Some _ |- _ => destruct b end.
  - match goal with
    | H : askParents _ ?w5 = Some _, He : tree ?w5 = tree w |- _ =>
        rewrite <- He in Hinv;
        destruct (askParents_uni r _ _ _ _ Hinv H) as (Hinv' & Hv1 & Hv2)
    end.
    match goal with
    | Hl : linkMember _ _ _ _ _ _ _ = Some _ |- _ =>
        exact (linkMember_uni r _ _ _ _ _ _ _ _ _ Hinv' Hv1 Hv2 Hl)
    end.
  - cmd_inv.
    match goal with
    | Hl : linkMember _ _ _ _ _ _ ?w5 = Some _, He : tree ?w5 = tree w |- _ =>
        rewrite <- He in Hinv; simpl in Hl;
        exact (linkMember_uni r _ _ _ _ None None _ _ _ Hinv I I Hl)
    end.
Qed.

Lemma markLateInteractive_uni r w u w' :
  uni r (tree w) → markLateInteractive w = Some (u, w') → uni r (tree w').
Proof.
  intros Hconn Hrun.
  pose proof (markLateInteractive_inv r w u w' (uni_inv _ _ Hconn) Hrun) as Hinv'.
  destruct (markLateInteractive_cases _ _ _ Hrun)
    as [Heq|(name & rest & a & m & Hin & Hfind & Hm & Hal & Heq)].
  - by rewrite Heq.
  - destruct Hconn as [Hinv Hsl]. split; [done|]. rewrite Heq. simpl.
    by eapply single_update.
Qed.

Lemma createRootInteractive_uni w b w' :
  tree_uni (tree w) → createRootInteractive w = Some (b, w') → tree_uni (tree w').
Proof.
  intros Hconn Hrun.
  assert (tree_inv (tree w)) as Hinv.
  { unfold tree_uni, tree_inv in *. destruct (FamilyTree.root (tree w)); [|done].
    by apply uni_inv. }
  pose proof (createRootInteractive_inv w b w' Hinv Hrun) as Hinv'.
  destruct (createRootInteractive_cases _ _ _ Hrun)
    as [(Hr & -> & ->)|[(Hr & -> & Ht & Hn)
        |(Hr & -> & name & g & al & rest & Hin & Hlen & He & Hg & Ht)]].
  - done.
  - by rewrite Ht.
  - unfold tree_uni, tree_inv in *. rewrite Hr in Hconn. rewrite Ht in *. simpl in *.
    split; [done|]. rewrite Hconn. simpl.
    intros a c ma mb ka kb x Ha. destruct a; [|done]. injection Ha as <-.
    intros _ Hk. by destruct ka.
Qed.

Lemma exec_uni fuel op w u w' :
  tree_uni (tree w) → exec fuel op w = Some (u, w') → tree_uni (tree w').
Proof.
  intros Hinv Hrun.
  assert (op = CreateRoot ∨ op ≠ CreateRoot) as [->|Hop] by (destruct op; auto).
  - simpl in Hrun. cmd_inv. by eapply createRootInteractive_uni.
  - destruct (FamilyTree.root (tree w)) as [r|] eqn:Hroot.
    + unfold tree_uni in *. rewrite Hroot in Hinv.
      assert (uni r (tree w')) as Hinv'.
      { destruct op; [done| | | |]; simpl in Hrun.
        - by eapply addMemberInteractive_uni.
        - by eapply markLateInteractive_uni.
        - by rewrite (showCenteredTree_tree _ _ _ _ Hrun).
        - by rewrite (showAllNames_tree _ _ _ Hrun). }
      by rewrite (inv_root r _ (uni_inv _ _ Hinv')).
    + by rewrite (not_rooted_inv fuel op w u w' Hroot Hop Hrun).
Qed.

Lemma steps_uni w0 w : rtc step w0 w → tree_uni (tree w0) → tree_uni (tree w).
Proof.
  induction 1 as [w0|w0 w1 w2 Hstep _ IH]; [done|].
  intros Hinv. apply IH. destruct Hstep as (fuel & op & Hrun). by eapply exec_uni.
Qed.

Lemma reachable_uni w : reachable w → tree_uni (tree w).
Proof.
  intros (w0 & Hinit & Hsteps). apply (steps_uni w0 w Hsteps).
  unfold tree_uni. by rewrite Hinit.
Qed.

Lemma reachable_single w : reachable w → single_linked (FamilyTree.memberPool (tree w)).
Proof.
  intros Hr. apply reachable_uni in Hr. unfold tree_uni in Hr.
  destruct (FamilyTree.root (tree w)); [by destruct Hr|].
  rewrite Hr. intros a b ma mb ka kb c Ha. by rewrite lookup_nil in Ha.
Qed.

(** *** A member is on one child list only *)

Lemma chainFrom_head k h c l : chainFrom k h c = Some l → head l = c.
Proof.
  destruct c as [x|]; [|rewrite chainFrom_None; by intros [= <-]].
  destruct k as [|k]; [done|]. rewrite chainFrom_S.
  destruct (h !! x); [|done]. cbn [mbind option_bind].
  destruct (chainFrom k h _); [|done]. by intros [= <-].
Qed.

Lemma chainFrom_next k h c l i y :
  chainFrom k h c = Some l → l !! i = Some y →
  ∃ my, h !! y = Some my ∧ l !! S i = FamilyMember.nextSibling my.
Proof.
  revert c l i. induction k as [|k IH]; intros c l i Hl Hi.
  - destruct c; [done|]. injection Hl as <-. by rewrite lookup_nil in Hi.
  - destruct c as [x|]; [|rewrite chainFrom_None in Hl; injection Hl as <-;
                           by rewrite lookup_nil in Hi].
    rewrite chainFrom_S in Hl. destruct (h !! x) as [m|] eqn:Hm; [|done].
    cbn [mbind option_bind] in Hl.
    destruct (chainFrom k h (FamilyMember.nextSibling m)) as [l0|] eqn:Hl0; [|done].
    injection Hl as <-. destruct i as [|i].
    + injection Hi as <-. exists m. split; [done|]. simpl.
      apply chainFrom_head in Hl0. by destruct l0.
    + simpl in Hi. by apply (IH _ _ _ Hl0).
Qed.

Lemma child_unique h p q a :
  single_linked h → child h p a → child h q a → p = q.
Proof.
  intros Hs (k & l & Hl & Ha) (k' & l' & Hl' & Ha').
  unfold childrenOf in Hl, Hl'.
  destruct (h !! p) as [pm|] eqn:Hp; [|done].
  destruct (h !! q) as [qm|] eqn:Hq; [|done].
  cbn [mbind option_bind] in Hl, Hl'.
  apply list_elem_of_lookup in Ha as [i Hi]. apply list_elem_of_lookup in Ha' as [j Hj].
  revert a j Hi Hj. induction i as [|i IH]; intros a j Hi Hj.
  - pose proof (chainFrom_head _ _ _ _ Hl) as Hh.
    assert (FamilyMember.firstChild pm = Some a) as Hfa.
    { rewrite <- Hh. destruct l; [done|]. by injection Hi as ->. }
    destruct j as [|j].
    + pose proof (chainFrom_head _ _ _ _ Hl') as Hh'.
      assert (FamilyMember.firstChild qm = Some a) as Hfa'.
      { rewrite <- Hh'. destruct l'; [done|]. by injection Hj as ->. }
      by destruct (Hs p q pm qm FirstChild FirstChild a Hp Hq Hfa Hfa').
    + destruct (lookup_lt_is_Some_2 l' j) as [z Hz]; [apply lookup_lt_Some in Hj; lia|].
      destruct (chainFrom_next _ _ _ _ _ _ Hl' Hz) as (mz & Hmz & Hn).
      rewrite Hj in Hn. symmetry in Hn.
      by destruct (Hs p z pm mz FirstChild NextSibling a Hp Hmz Hfa Hn).
  - destruct (lookup_lt_is_Some_2 l i) as [y Hy]; [apply lookup_lt_Some in Hi; lia|].
    destruct (chainFrom_next _ _ _ _ _ _ Hl Hy) as (my & Hmy & Hn).
    rewrite Hi in Hn. symmetry in Hn.
    destruct j as [|j].
    + pose proof (chainFrom_head _ _ _ _ Hl') as Hh'.
      assert (FamilyMember.firstChild qm = Some a) as Hfa'.
      { rewrite <- Hh'. destruct l'; [done|]. by injection Hj as ->. }
      by destruct (Hs q y qm my FirstChild NextSibling a Hq Hmy Hfa' Hn).
    + destruct (lookup_lt_is_Some_2 l' j) as [z Hz]; [apply lookup_lt_Some in Hj; lia|].
      destruct (chainFrom_next _ _ _ _ _ _ Hl' Hz) as (mz & Hmz & Hn').
      rewrite Hj in Hn'. symmetry in Hn'.
      destruct (Hs y z my mz NextSibling NextSibling a Hmy Hmz Hn Hn') as [-> _].
      by apply (IH z j).
Qed.

Lemma chainFrom_insert_notin k (h : list FamilyMember.t) t m' c l :
  chainFrom k h c = Some l → t ∉ l → chainFrom k (<[t := m']> h) c = Some l.
Proof.
  revert c l. induction k as [|k IH]; intros c l Hl Ht.
  - by destruct c.
  - destruct c as [x|]; [|done]. rewrite chainFrom_S in *.
    destruct (h !! x) as [m|] eqn:Hm; [|done]. cbn [mbind option_bind] in Hl.
    destruct (chainFrom k h (FamilyMember.nextSibling m)) as [l0|] eqn:Hl0; [|done].
    injection Hl as <-. apply not_elem_of_cons in Ht as [Hne Ht].
    rewrite list_lookup_insert_ne by done. rewrite Hm. cbn [mbind option_bind].
    by rewrite (IH _ _ Hl0 Ht).
Qed.

(** Putting the new member [a] on the child list of [s] leaves every other
    child list as it is. *)
Lemma member_addChild_others fuel (h : list FamilyMember.t) s a h' :
  single_linked h →
  FamilyMember.addChild fuel h s (Some a) = Some h' →
  ∀ q k l, q ≠ s → childrenOf k h q = Some l → childrenOf k h' q = Some l.
Proof.
  intros Hsl Hadd q k l Hq Hl.
  destruct (member_addChild_shape _ _ _ _ _ Hadd)
    as (x & xm & xm' & k0 & Hx & -> & Hnone & Hnew & Hsame & Hfc & Hns).
  unfold childrenOf in *. destruct (h !! q) as [qm|] eqn:Hqm; [|done].
  cbn [mbind option_bind] in Hl. destruct k0.
  - specialize (Hfc eq_refl) as ->. rewrite list_lookup_insert_ne by done.
    rewrite Hqm. cbn [mbind option_bind].
    rewrite (chainFrom_insert_links k h s xm xm'); [done|done|].
    by apply (Hsame NextSibling).
  - destruct (Hns eq_refl) as (sm & fc & Hsm & Hfs & Hlast).
    assert (child h s x) as Hsx.
    { destruct (lastSibling_chain _ _ _ _ Hlast) as (ls & Hls & Hin).
      exists fuel, ls. split; [|done]. unfold childrenOf. rewrite Hsm.
      cbn [mbind option_bind]. by rewrite Hfs. }
    assert (x ∉ l) as Hnot.
    { intros Hin. apply Hq. apply (child_unique h q s x Hsl); [|done].
      exists k, l. split; [|done]. unfold childrenOf. by rewrite Hqm. }
    assert (∃ qm', <[x := xm']> h !! q = Some qm'
                   ∧ FamilyMember.firstChild qm' = FamilyMember.firstChild qm)
      as (qm' & Hq' & Hf').
    { destruct (decide (q = x)) as [->|Hne].
      - rewrite list_lookup_insert_eq by (by eapply lookup_lt_Some).
        exists xm'. split; [done|]. rewrite Hx in Hqm. injection Hqm as <-.
        by apply (Hsame FirstChild).
      - rewrite list_lookup_insert_ne by done. by exists qm. }
    rewrite Hq'. cbn [mbind option_bind]. rewrite Hf'. by apply chainFrom_insert_notin.
Qed.

Lemma newMember_lists n g al w a w' :
  newMember n g al w = Some (a, w') →
  ∀ q k l, childrenOf k (FamilyTree.memberPool (tree w)) q = Some l
           → childrenOf k (FamilyTree.memberPool (tree w')) q = Some l.
Proof. intros [_ ->]%newMember_inv q k l Hl. simpl. by apply childrenOf_app. Qed.

Lemma updMember_lists a (f : FamilyMember.t → FamilyMember.t) w u w' :
  updMember a f w = Some (u, w') →
  (∀ m, FamilyMember.firstChild (f m) = FamilyMember.firstChild m
        ∧ FamilyMember.nextSibling (f m) = FamilyMember.nextSibling m) →
  ∀ q k, childrenOf k (FamilyTree.memberPool (tree w')) q
         = childrenOf k (FamilyTree.memberPool (tree w)) q.
Proof.
  intros (m & Hm & ->)%updMember_inv_eq Hlinks q k. simpl.
  destruct (Hlinks m). by apply (childrenOf_insert_links k _ a m).
Qed.

Lemma addChildOf_lists fuel s a w u w' :
  single_linked (FamilyTree.memberPool (tree w)) →
  addChildOf fuel (Some s) (Some a) w = Some (u, w') →
  ∀ q k l, q ≠ s → childrenOf k (FamilyTree.memberPool (tree w)) q = Some l
           → childrenOf k (FamilyTree.memberPool (tree w')) q = Some l.
Proof.
  intros Hsl Hrun. unfold addChildOf in Hrun. cmd_inv.
  match goal with H : Some s = Some _ |- _ => injection H as <- end.
  match goal with H : FamilyMember.addChild _ _ _ _ = Some _ |- _ =>
    simpl; exact (member_addChild_others _ _ _ _ _ Hsl H) end.
Qed.

(** The end of [addMemberInteractive] changes one child list only. *)
Lemma linkMember_others r fuel name g al f m w u w' :
  uni r (tree w) →
  ptr_below (length (FamilyTree.memberPool (tree w))) f →
  ptr_below (length (FamilyTree.memberPool (tree w))) m →
  linkMember fuel name g al f m w = Some (u, w') →
  let p := match f, m with
           | Some a, _ => a
           | None, Some b => b
           | None, None => r
           end in
  ∀ q k l, q ≠ p → childrenOf k (FamilyTree.memberPool (tree w)) q = Some l
           → childrenOf k (FamilyTree.memberPool (tree w')) q = Some l.
Proof.
  intros Hinv Hf Hm Hrun p q k l Hq Hl. unfold linkMember in Hrun.
  apply bind_Some in Hrun as (tr & w0 & Hg & Hrun). apply getTree_Some in Hg as [-> ->].
  apply bind_Some in Hrun as (nm & w1 & Hnew & Hrun).
  pose proof (newMember_lists _ _ _ _ _ _ Hnew q k l Hl) as Hl1.
  destruct (newMember_uni_mid r _ _ _ _ _ _ Hinv Hnew) as [-> Hmid].
  set (a := length (FamilyTree.memberPool (tree w))) in *.
  pose proof Hmid as [(_ & Hra & Hlen & _) _].
  rewrite (inv_root r _ (uni_inv _ _ Hinv)) in Hrun.
  destruct f as [f|], m as [m|]; simpl in Hf, Hm, p.
  - apply bind_Some in Hrun as (? & w2 & Hstep & Hrun).
    apply bind_Some in Hstep as (? & w3 & Hupd & Hadd).
    rewrite <- (updMember_lists _ _ _ _ _ Hupd (λ _, conj eq_refl eq_refl)) in Hl1.
    apply (updMember_uni_mid r a) in Hupd;
      [|done|intros ?; apply setFather_ok; simpl; lia|done].
    pose proof (addChildOf_lists _ _ _ _ _ _ (proj2 Hupd) Hadd q k l Hq Hl1) as Hl2.
    apply bind_Some in Hrun as (? & w4 & Hstep & Hrun).
    apply bind_Some in Hstep as (? & w5 & Hupd2 & Hret). cmd_inv.
    by rewrite (updMember_lists _ _ _ _ _ Hupd2 (λ _, conj eq_refl eq_refl)).
  - apply bind_Some in Hrun as (? & w2 & Hstep & Hrun).
    apply bind_Some in Hstep as (? & w3 & Hupd & Hadd).
    rewrite <- (updMember_lists _ _ _ _ _ Hupd (λ _, conj eq_refl eq_refl)) in Hl1.
    apply (updMember_uni_mid r a) in Hupd;
      [|done|intros ?; apply setFather_ok; simpl; lia|done].
    pose proof (addChildOf_lists _ _ _ _ _ _ (proj2 Hupd) Hadd q k l Hq Hl1) as Hl2.
    cmd_inv. done.
  - apply bind_Some in Hrun as (? & w2 & Hret & Hrun). apply ret_Some in Hret as [_ ->].
    apply bind_Some in Hrun as (? & w3 & Hstep & Hrun).
    apply bind_Some in Hstep as (? & w4 & Hupd & Hadd).
    rewrite <- (updMember_lists _ _ _ _ _ Hupd (λ _, conj eq_refl eq_refl)) in Hl1.
    apply (updMember_uni_mid r a) in Hupd;
      [|done|intros ?; apply setMother_ok; simpl; lia|done].
    pose proof (addChildOf_lists _ _ _ _ _ _ (proj2 Hupd) Hadd q k l Hq Hl1) as Hl2.
    cmd_inv. done.
  - apply bind_Some in Hrun as (? & w2 & Hret & Hrun). apply ret_Some in Hret as [_ ->].
    apply bind_Some in Hrun as (? & w3 & Hret & Hrun). apply ret_Some in Hret as [_ ->].
    apply bind_Some in Hrun as (? & w4 & Hstep & Hrun).
    apply bind_Some in Hstep as (? & w5 & Hadd & Hsay).
    pose proof (addChildOf_lists _ _ _ _ _ _ (proj2 Hmid) Hadd q k l Hq Hl1) as Hl2.
    cmd_inv. done.
Qed.

(** *** Example registries built through the menu *)

Lemma runOps_reachable fuel ops w0 w :
  reachable w0 → runOps fuel ops w0 = Some w → reachable w.
Proof.
  revert w0. induction ops as [|op ops IH]; intros w0 Hreach Hrun.
  - by injection Hrun as <-.
  - cbn [runOps] in Hrun. destruct (exec fuel op w0) as [[[] w1]|] eqn:Hop; [|done].
    apply (IH w1); [|done]. destruct Hreach as (wi & Hinit & Hsteps).
    exists wi. split; [done|]. eapply rtc_r; [exact Hsteps|]. by exists fuel, op.
Qed.

Lemma freshWorld_reachable inp : reachable (freshWorld inp).
Proof. exists (freshWorld inp). split; [done|apply rtc_refl]. Qed.

Lemma threeGenerations_world :
  ∃ w, reachable w
       ∧ tree w = {| FamilyTree.root := Some 0; FamilyTree.memberPool := threeGenerations |}.
Proof.
  pose proof threeGenerations_run as Hrun.
  destruct (runOps 4 _ _) as [w|] eqn:Hw; [|done]. injection Hrun as Ht.
  exists w. split; [|done]. eapply runOps_reachable; [apply freshWorld_reachable|exact Hw].
Qed.

Lemma carolDave_world :
  ∃ w, reachable w
       ∧ tree w = {| FamilyTree.root := Some 0; FamilyTree.memberPool := carolDave |}.
Proof.
  pose proof carolDave_run as Hrun.
  destruct (runOps 4 _ _) as [w|] eqn:Hw; [|done]. injection Hrun as Ht.
  exists w. split; [|done]. eapply runOps_reachable; [apply freshWorld_reachable|exact Hw].
Qed.

Lemma fourMembers_run :
  ∃ w, runOps 5 [CreateRoot; AddMember; AddMember; AddMember] (freshWorld fourMembersInput)
       = Some w
    ∧ FamilyTree.root (tree w) = Some 0
    ∧ length (FamilyTree.memberPool (tree w)) = 4
    ∧ childrenOf 4 (FamilyTree.memberPool (tree w)) 0 = Some [1]
    ∧ childrenOf 4 (FamilyTree.memberPool (tree w)) 1 = Some [2; 3].
Proof. eexists. split; [vm_compute; reflexivity|]. repeat split. Qed.

(** X19. The last part of [addMemberInteractive] allocates the new member
    at the end of the pool, records the given parents in it and appends it
    to exactly one child list: the father's if a father is given, otherwise
    the mother's, otherwise the root's.  The children already on that list
    keep their order; every other child list is left as it was, and the
    list of the new member is empty.  The new member has no next sibling,
    and every other member stays the person it was. *)
Theorem linkMember_attaches fuel name g al f m w r :
  reachable w →
  FamilyTree.root (tree w) = Some r →
  ptr_below (length (FamilyTree.memberPool (tree w))) f →
  ptr_below (length (FamilyTree.memberPool (tree w))) m →
  length (FamilyTree.memberPool (tree w)) ≤ fuel →
  let pool := FamilyTree.memberPool (tree w) in
  let n := length pool in
  let p := match f, m with
           | Some a, _ => a
           | None, Some b => b
           | None, None => r
           end in
  ∃ w' kids x,
    linkMember fuel name g al f m w = Some (tt, w')
    ∧ input w' = input w
    ∧ FamilyTree.root (tree w') = Some r
    ∧ length (FamilyTree.memberPool (tree w')) = S n
    ∧ FamilyTree.memberPool (tree w') !! n = Some x
    ∧ FamilyMember.name x = FamilyMember.copyName name
    ∧ FamilyMember.alive x = al
    ∧ FamilyMember.father x = f
    ∧ FamilyMember.mother x = m
    ∧ FamilyMember.firstChild x = None
    ∧ FamilyMember.nextSibling x = None
    ∧ childrenOf fuel pool p = Some kids
    ∧ childrenOf (S fuel) (FamilyTree.memberPool (tree w')) p = Some (kids ++ [n])
    ∧ (∀ q k l, q ≠ p → childrenOf k pool q = Some l
                → childrenOf k (FamilyTree.memberPool (tree w')) q = Some l)
    ∧ (∀ k, childrenOf k (FamilyTree.memberPool (tree w')) n = Some [])
    ∧ frames (tree w) (tree w').
Proof.
  intros Hreach Hroot Hf Hm Hfuel pool n p.
  pose proof (reachable_uni _ Hreach) as Huni. unfold tree_uni in Huni.
  rewrite Hroot in Huni.
  apply reachable_inv in Hreach. unfold tree_inv in Hreach. rewrite Hroot in Hreach.
  destruct (linkMember_attach fuel name g al f m w r Hreach Hf Hm Hfuel)
    as (w' & kids & Hrun & Hin & Hr & Hlen & Hx & Hkids & Hkids' & Hfr).
  exists w', kids, (FamilyMember.setMother m (FamilyMember.setFather f (FamilyMember.new name g al))).
  do 13 (split; [done|]). split; [|split; [|done]].
  - exact (linkMember_others r fuel name g al f m w tt w' Huni Hf Hm Hrun).
  - intros k. unfold childrenOf, n, pool. rewrite Hx.
    cbn [mbind option_bind FamilyMember.firstChild FamilyMember.setMother
         FamilyMember.setFather FamilyMember.new].
    apply chainFrom_None.
Qed.

Lemma linkMember_attaches_witness :
  ∃ w w',
    tree w = {| FamilyTree.root := Some 0; FamilyTree.memberPool := threeGenerations |}
    ∧ linkMember 3 (lit "C") "F"%char true (Some 1) (Some 0) w = Some (tt, w')
    ∧ childrenOf 4 (FamilyTree.memberPool (tree w')) 1 = Some [2; 3]
    ∧ childrenOf 4 (FamilyTree.memberPool (tree w')) 0 = Some [1]
    ∧ childrenOf 4 (FamilyTree.memberPool (tree w')) 3 = Some []
    ∧ (λ x, (FamilyMember.father x, FamilyMember.mother x))
        <$> FamilyTree.memberPool (tree w') !! 3 = Some (Some 1, Some 0).
Proof.
  destruct threeGenerations_world as (w & Hreach & Ht).
  destruct (linkMember_attaches 3 (lit "C") "F"%char true (Some 1) (Some 0) w 0 Hreach)
    as (w' & kids & x & Hrun & _ & _ & _ & Hx & _ & _ & Hf & Hm & _ & _ & Hk & Hk' & Ho & Hn & _).
  - rewrite Ht. reflexivity.
  - rewrite Ht. simpl. lia.
  - rewrite Ht. simpl. lia.
  - rewrite Ht. simpl. lia.
  - exists w, w'. split; [exact Ht|]. split; [exact Hrun|].
    rewrite Ht in Hk, Hk', Ho, Hx, Hn. simpl in Hk, Hk', Hx, Hn.
    injection Hk as <-. split; [exact Hk'|].
    split; [apply (Ho 0 4 [1]); [lia|reflexivity]|].
    split; [exact (Hn 4)|]. rewrite Hx. simpl. by rewrite Hf, Hm.
Defined.

(** X21. In every registry a run of the menu can reach, the child lists
    form one tree under the root.  Every member other than the root is on
    the child list of a member created before it, and on that list only, so
    every member is reached from the root by going from parent to child,
    along one path; the root is on no child list.  Every child list can be
    walked to its end, and it holds its members in the order in which they
    were created, all of them created after the member whose list it is. *)
Theorem child_lists_form_a_tree w r :
  reachable w →
  FamilyTree.root (tree w) = Some r →
  let h := FamilyTree.memberPool (tree w) in
  (∀ a, a < length h → a ≠ r → ∃ p, p < a ∧ child h p a)
  ∧ (∀ p q a, child h p a → child h q a → p = q)
  ∧ (∀ a, a < length h → rtc (child h) r a)
  ∧ (∀ p, ¬ child h p r)
  ∧ (∀ p, p < length h → ∀ fuel, length h ≤ fuel → is_Some (childrenOf fuel h p))
  ∧ (∀ fuel p l, childrenOf fuel h p = Some l →
       increasing l ∧ Forall (λ c, p < c < length h) l).
Proof.
  intros Hreach Hroot h.
  pose proof (reachable_single _ Hreach) as Hsl. fold h in Hsl.
  pose proof (reachable_conn _ Hreach) as Hconn. unfold tree_conn in Hconn.
  rewrite Hroot in Hconn. pose proof Hconn as [(_ & Hr & Hord & Hun) Hatt].
  fold h in Hr, Hord, Hun, Hatt.
  assert (r = 0) as ->.
  { destruct Hreach as (w0 & Hinit & Hsteps).
    apply (steps_root0 w0 w Hsteps); [|by rewrite Hinit|done].
    unfold tree_inv. by rewrite Hinit. }
  split; [|split; [|split; [|split; [|split]]]].
  - intros a Ha Har. destruct (Hatt a Ha Har) as [p Hp]. exists p. split; [|done].
    by destruct (child_lt _ _ p a Hord Hp).
  - intros p q a. by apply child_unique.
  - intros a Ha. by apply (conn_from_root 0 (tree w)).
  - intros p Hp. destruct (child_lt _ _ p 0 Hord Hp). lia.
  - intros p Hp fuel Hfuel. by apply childrenOf_total.
  - intros fuel p l Hl. by apply (childrenOf_sorted fuel h (length h) p l).
Qed.

Lemma child_lists_form_a_tree_witness :
  ∃ w, runOps 5 [CreateRoot; AddMember; AddMember; AddMember] (freshWorld fourMembersInput)
       = Some w
    ∧ let h := FamilyTree.memberPool (tree w) in
      length h = 4
      ∧ childrenOf 4 h 0 = Some [1]
      ∧ childrenOf 4 h 1 = Some [2; 3]
      ∧ (∀ a, a < length h → a ≠ 0 → ∃ p, p < a ∧ child h p a)
      ∧ (∀ p q a, child h p a → child h q a → p = q)
      ∧ (∀ a, a < length h → rtc (child h) 0 a)
      ∧ (∀ p, ¬ child h p 0)
      ∧ (∀ p, p < length h → ∀ fuel, length h ≤ fuel → is_Some (childrenOf fuel h p))
      ∧ (∀ fuel p l, childrenOf fuel h p = Some l →
           increasing l ∧ Forall (λ c, p < c < length h) l).
Proof.
  destruct fourMembers_run as (w & Hrun & Hroot & Hlen & H0 & H1).
  exists w. split; [exact Hrun|]. split; [exact Hlen|]. split; [exact H0|].
  split; [exact H1|].
  exact (child_lists_form_a_tree w 0
           (runOps_reachable _ _ _ _ (freshWorld_reachable _) Hrun) Hroot).
Defined.

(** ** A member added without parents, whatever the dialogue *)

Lemma isYesNo_iff c : isYesNo c = true ↔ c ∈ ["y"; "Y"; "n"; "N"]%char.
Proof.
  unfold isYesNo, isYes. rewrite !orb_true_iff, !bool_decide_eq_true.
  rewrite !elem_of_cons, elem_of_nil. tauto.
Qed.

Lemma answers_yesNo es k :
  answers isYesNo es k →
  ∃ bad, es = map Key bad ++ [Key k]
         ∧ Forall (λ c, c ∉ ["y"; "Y"; "n"; "N"]%char) bad
         ∧ k ∈ ["y"; "Y"; "n"; "N"]%char.
Proof.
  intros (bad & -> & Hbad & Hk). exists bad. split; [done|]. split; [|by apply isYesNo_iff].
  eapply Forall_impl; [exact Hbad|]. intros c Hc Hin. simpl in Hc.
  apply isYesNo_iff in Hin. congruence.
Qed.

Lemma readGender_answers p es g rest w :
  answers isGender es g → input w = es ++ rest →
  ∃ out, readGender p w
         = Some (if bool_decide (g = "M"%char) || bool_decide (g = "m"%char)
                 then "M"%char else "F"%char,
                 {| tree := tree w; input := rest; output := out |}).
Proof.
  intros (bad & -> & Hbad & Hg) Hin. unfold readGender.
  rewrite Hin, <- app_assoc. cbn [app].
  rewrite (readGender_loop_skips p bad g rest _ Hbad Hg). by eexists.
Qed.

Lemma readYesNo_answers d es k rest w :
  answers isYesNo es k → input w = es ++ rest →
  ∃ out, readYesNo d w
         = Some (isYes k, {| tree := tree w; input := rest; output := out |}).
Proof.
  intros (bad & -> & Hbad & Hk)%answers_yesNo Hin. unfold readYesNo.
  rewrite Hin, <- app_assoc. cbn [app].
  rewrite (readYesNo_loop_skips bad k rest _ Hbad Hk). by eexists.
Qed.

Lemma readYesNoDefaultYes_answers p es k rest w :
  answers isYesNo es k → input w = es ++ rest →
  ∃ out, readYesNoDefaultYes p w
         = Some (isYes k, {| tree := tree w; input := rest; output := out |}).
Proof.
  intros (bad & -> & Hbad & Hk)%answers_yesNo Hin. unfold readYesNoDefaultYes.
  rewrite Hin, <- app_assoc. cbn [app].
  rewrite (readYesNo_loop_skips bad k rest _ Hbad Hk). by eexists.
Qed.

Lemma askParent_nobody fuel lo cap ep rest w :
  namesNobody (tree w) ep → input w = ep ++ rest →
  ∃ out, askParent fuel lo cap w
         = Some (None, {| tree := tree w; input := rest; output := out |}).
Proof.
  intros Hep Hin. destruct Hep as [s Hlen He|s es k Hlen He Hfind Hes Hk].
  - by apply (askParent_blank fuel lo cap s).
  - unfold askParent. unfold bind at 1.
    rewrite (readLine_run _ _ s (es ++ rest) w Hin Hlen), He.
    unfold bind at 1. unfold getTree at 1. cbn [tree]. rewrite Hfind.
    unfold bind at 1. unfold say at 1.
    unfold bind at 1.
    edestruct (readYesNo_answers false es k rest) as [out ->]; [exact Hes|reflexivity|].
    rewrite Hk. unfold ret. by eexists.
Qed.

Lemma askParents_nobody fuel ef em rest w :
  namesNobody (tree w) ef → namesNobody (tree w) em → input w = ef ++ em ++ rest →
  ∃ out, askParents fuel w
         = Some ((None, None), {| tree := tree w; input := rest; output := out |}).
Proof.
  intros Hf Hm Hin. unfold askParents. unfold bind at 1.
  destruct (askParent_nobody fuel (lit "father") (lit "Father") ef (em ++ rest) w Hf Hin)
    as [out1 ->].
  unfold bind at 1.
  edestruct (askParent_nobody fuel (lit "mother") (lit "Mother") em rest) as [out2 ->];
    [exact Hm|reflexivity|].
  unfold ret. by eexists.
Qed.

Lemma addMember_nobody fuel w r name eg gk ea ak ep rest :
  FamilyTree.root (tree w) = Some r →
  input w = Line name :: eg ++ ea ++ ep ++ rest →
  length name < 64 → emptyName name = false →
  findByName (tree w) name = None →
  answers isGender eg gk →
  answers isYesNo ea ak →
  specifiesNoParent (tree w) ep →
  ∃ out,
    addMemberInteractive fuel w
    = linkMember fuel name
        (if bool_decide (gk = "M"%char) || bool_decide (gk = "m"%char)
         then "M"%char else "F"%char)
        (isYes ak) None None
        {| tree := tree w; input := rest; output := out |}.
Proof.
  intros Hroot Hinput Hlen Hname Hfind Hg Ha Hp.
  unfold addMemberInteractive. unfold bind at 1. unfold getTree at 1. rewrite Hroot.
  unfold bind at 1. rewrite (readLine_run _ _ _ _ _ Hinput Hlen), Hname, Hfind.
  unfold bind at 1.
  edestruct (readGender_answers (lit "Enter gender (M/F): ") eg gk) as [out1 ->];
    [exact Hg|reflexivity|].
  unfold bind at 1.
  edestruct (readYesNoDefaultYes_answers (lit "Is person alive? (y/n) [y]: ") ea ak)
    as [out2 ->]; [exact Ha|reflexivity|].
  unfold bind at 1. unfold say at 1. unfold bind at 1.
  destruct Hp as [es k Hes Hk|es k ef em Hes Hk Hf Hm].
  - edestruct (readYesNo_answers false es k rest) as [out3 ->]; [exact Hes|reflexivity|].
    rewrite Hk. unfold bind at 1. unfold ret at 1. cbn [fst snd]. by eexists.
  - rewrite <- !app_assoc.
    edestruct (readYesNo_answers false es k (ef ++ em ++ rest)) as [out3 ->];
      [exact Hes|reflexivity|].
    rewrite Hk. unfold bind at 1.
    edestruct (askParents_nobody fuel ef em rest) as [out4 ->];
      [exact Hf|exact Hm|reflexivity|].
    cbn [fst snd]. by eexists.
Qed.

Lemma linkMember_unparented_output fuel name g al w u w' :
  linkMember fuel name g al None None w = Some (u, w') →
  output w'
  = output w
    ++ [lit "No parents specified; member attached under root for visibility." ++ nl;
        lit "Member '"; c_str name; lit "' added successfully." ++ nl].
Proof.
  unfold linkMember, newMember, addChildOf, bind, getTree, putTree, ret, say, lift.
  cbn [tree input output]. destruct (FamilyTree.root (tree w)); [|done].
  destruct (FamilyMember.addChild _ _ _ _); [|done].
  intros [= <- <-]. cbn [output]. by rewrite <- !app_assoc.
Qed.

Lemma linkMember_addedUnderRoot fuel name g al w r u w' :
  uni r (tree w) →
  length (FamilyTree.memberPool (tree w)) ≤ fuel →
  linkMember fuel name g al None None w = Some (u, w') →
  input w' = input w ∧ addedUnderRoot fuel r name (tree w) (tree w').
Proof.
  intros Huni Hfuel Hrun.
  destruct (linkMember_unparented fuel name g al w r (uni_inv _ _ Huni) Hfuel)
    as (w'' & kids & Hlink & Hin & Hr' & Hlen' & Hnm & Hk & Hk' & Hsame).
  assert (w'' = w') as -> by (destruct u; congruence).
  split; [done|]. unfold addedUnderRoot. cbv zeta.
  split; [done|]. split; [done|]. split; [by eexists|]. split; [by exists kids|].
  split; [exact (linkMember_others r fuel name g al None None w u w' Huni I I Hrun)|].
  assert (memberKey (FamilyTree.memberPool (tree w'))
            (Some (length (FamilyTree.memberPool (tree w)))) = Some (None, None)) as Hkey.
  { unfold memberKey. cbn [mbind option_bind]. rewrite Hnm. done. }
  split; [done|]. split; [|done].
  exists [FamilyPair.addChild (Some (length (FamilyTree.memberPool (tree w))))
            (FamilyPair.new None None)].
  split; [|done].
  unfold buildFamilyPairsForMembers. cbn [buildFamilyPairs_from mbind option_bind].
  rewrite Hnm. done.
Qed.

Lemma askParents_nobody_inv fuel w w' :
  askParents fuel w = Some ((None, None), w') → tree w' = tree w.
Proof.
  intros Hrun. unfold askParents in Hrun.
  apply bind_Some in Hrun as (f & w1 & Hf & Hrun).
  apply bind_Some in Hrun as (m & w2 & Hm & Hrun).
  destruct (askParent_grown _ _ _ _ _ _ Hf) as [_ Hn1].
  destruct (askParent_grown _ _ _ _ _ _ Hm) as [_ Hn2].
  destruct f as [f|], m as [m|].
  - apply ret_Some in Hrun as [[=] _].
  - apply bind_Some in Hrun as (m' & w3 & Hs & Hrun). apply ret_Some in Hrun as [[=] _].
  - apply bind_Some in Hrun as (f' & w3 & Hs & Hrun). apply ret_Some in Hrun as [[=] _].
  - apply ret_Some in Hrun as [_ ->]. by rewrite (Hn2 eq_refl), (Hn1 eq_refl).
Qed.

Lemma addMemberInteractive_link fuel w u w' :
  addMemberInteractive fuel w = Some (u, w') →
  tree w' = tree w
  ∨ ∃ name rest g al f m w1,
      input w = Line name :: rest
      ∧ linkMember fuel name g al f m w1 = Some (u, w')
      ∧ (f = None → m = None → tree w1 = tree w).
Proof.
  intros Hrun. unfold addMemberInteractive in Hrun.
  apply bind_Some in Hrun as (tr & w0 & Hg & Hrun). apply getTree_Some in Hg as [-> ->].
  destruct (FamilyTree.root (tree w)) as [r|] eqn:Hroot; [|left; by cmd_inv].
  apply bind_Some in Hrun as (name & w1 & Hl & Hrun).
  apply readLine_inv in Hl as (Hin & Hlen & Ht & Hout).
  destruct (emptyName name) eqn:He; [left; cmd_inv; congruence|].
  destruct (findByName (tree w) name) as [a|] eqn:Hfind; [left; cmd_inv; congruence|].
  apply bind_Some in Hrun as (g & w2 & Hgd & Hrun).
  apply readGender_Some in Hgd as [Ht2 Hg].
  apply bind_Some in Hrun as (al & w3 & Hal & Hrun).
  apply readYesNoDefaultYes_Some in Hal.
  apply bind_Some in Hrun as (? & w4 & Hsay & Hrun). apply say_Some in Hsay.
  apply bind_Some in Hrun as (specify & w5 & Hsp & Hrun). apply readYesNo_Some in Hsp.
  apply bind_Some in Hrun as (fm & w6 & Hfm & Hrun).
  assert (tree w5 = tree w) as Ht5 by congruence.
  right. exists name, (input w1), g, al, fm.1, fm.2, w6.
  split; [done|]. split; [done|]. intros Hf Hm.
  destruct specify.
  - destruct fm as [f m]. simpl in Hf, Hm. subst f m.
    rewrite <- Ht5. by eapply askParents_nobody_inv.
  - apply ret_Some in Hfm as [_ ->]. done.
Qed.

(** C7. A member added without any parent specified is put at the end of
    the root's child list, and on that list only, while its father and
    mother pointers stay null, so grouping files it under the key (no
    father, no mother).  This holds for every dialogue that specifies no
    parent: the question about parents refused, or accepted and each
    parent's name left blank or not found with the creation declined,
    whatever entries had to be asked again.  Conversely every call that
    adds a member whose father and mother pointers are null has put that
    member under the root in this way. *)
Theorem C7_unparented_member :
  (∀ fuel w r name eg gk ea ak ep rest,
     reachable w →
     FamilyTree.root (tree w) = Some r →
     input w = Line name :: eg ++ ea ++ ep ++ rest →
     length name < 64 →
     emptyName name = false →
     findByName (tree w) name = None →
     answers isGender eg gk →
     answers isYesNo ea ak →
     specifiesNoParent (tree w) ep →
     length (FamilyTree.memberPool (tree w)) ≤ fuel →
     ∃ w' out,
       addMemberInteractive fuel w = Some (tt, w')
       ∧ input w' = rest
       ∧ output w'
         = out ++ [lit "No parents specified; member attached under root for visibility."
                   ++ nl;
                   lit "Member '"; c_str name; lit "' added successfully." ++ nl]
       ∧ addedUnderRoot fuel r name (tree w) (tree w'))
  ∧ (∀ fuel w r u w' x,
       reachable w →
       FamilyTree.root (tree w) = Some r →
       length (FamilyTree.memberPool (tree w)) ≤ fuel →
       addMemberInteractive fuel w = Some (u, w') →
       tree w' ≠ tree w →
       last (FamilyTree.memberPool (tree w')) = Some x →
       FamilyMember.father x = None → FamilyMember.mother x = None →
       ∃ name rest,
         input w = Line name :: rest
         ∧ addedUnderRoot fuel r name (tree w) (tree w')).
Proof.
  split.
  - intros fuel w r name eg gk ea ak ep rest Hreach Hroot Hinput Hlen Hname Hfind Hg Ha Hp
      Hfuel.
    pose proof (reachable_uni _ Hreach) as Huni. unfold tree_uni in Huni.
    rewrite Hroot in Huni.
    destruct (addMember_nobody fuel w r name eg gk ea ak ep rest) as [out Hrun]; try done.
    set (w5 := {| tree := tree w; input := rest; output := out |}) in *.
    destruct (linkMember_unparented fuel name
                (if bool_decide (gk = "M"%char) || bool_decide (gk = "m"%char)
                 then "M"%char else "F"%char) (isYes ak) w5 r (uni_inv _ _ Huni) Hfuel)
      as (w' & kids & Hlink & _).
    destruct (linkMember_addedUnderRoot fuel name _ _ w5 r tt w' Huni Hfuel Hlink)
      as [Hin Hadded].
    exists w', out. split; [by rewrite Hrun|]. split; [done|].
    split; [exact (linkMember_unparented_output _ _ _ _ _ _ _ Hlink)|done].
  - intros fuel w r u w' x Hreach Hroot Hfuel Hrun Hne Hlast Hxf Hxm.
    pose proof (reachable_uni _ Hreach) as Huni. unfold tree_uni in Huni.
    rewrite Hroot in Huni.
    destruct (addMemberInteractive_link _ _ _ _ Hrun)
      as [Heq|(name & rest & g & al & f & m & w1 & Hin & Hlink & Hsame)]; [done|].
    destruct (linkMember_effect (tree w1) name g al fuel f m w1 u w' eq_refl Hlink)
      as (_ & Hlen' & _ & x' & Hx' & _ & _ & _ & Hf' & Hm').
    assert (x' = x) as ->.
    { rewrite last_lookup, Hlen' in Hlast. simpl in Hlast. congruence. }
    assert (f = None) as -> by congruence. assert (m = None) as -> by congruence.
    specialize (Hsame eq_refl eq_refl).
    exists name, rest. split; [done|]. rewrite <- Hsame.
    rewrite <- Hsame in Huni, Hfuel.
    by destruct (linkMember_addedUnderRoot fuel name g al w1 r u w' Huni Hfuel Hlink).
Qed.

Lemma bobNobody_added :
  ∃ w', addMemberInteractive 1 (aliceWorld bobNobodyInput) = Some (tt, w')
    ∧ (λ m, (FamilyMember.father m, FamilyMember.mother m, FamilyMember.firstChild m))
        <$> FamilyTree.memberPool (tree w')
      = [(None, None, Some 1); (None, None, None)].
Proof. eexists. split; [vm_compute; reflexivity|reflexivity]. Qed.

Lemma C7_unparented_member_witness :
  ∃ w', addMemberInteractive 1 (aliceWorld bobNobodyInput) = Some (tt, w')
    ∧ input w' = []
    ∧ (λ m, (FamilyMember.father m, FamilyMember.mother m, FamilyMember.firstChild m))
        <$> FamilyTree.memberPool (tree w')
      = [(None, None, Some 1); (None, None, None)]
    ∧ addedUnderRoot 1 0 (lit "Bob") (tree (aliceWorld bobNobodyInput)) (tree w').
Proof.
  destruct C7_unparented_member as [H _].
  destruct (H 1 (aliceWorld bobNobodyInput) 0 (lit "Bob")
              [Key "?"%char; Key "m"%char] "m"%char [Key "y"%char] "y"%char
              [Key "y"%char; Line []; Line (lit "Eve"); Key "x"%char; Key "n"%char] [])
    as (w' & out & Hrun & Hin & _ & Hadded).
  - apply aliceWorld_reachable.
  - reflexivity.
  - reflexivity.
  - simpl. lia.
  - reflexivity.
  - reflexivity.
  - exists ["?"%char]. split; [reflexivity|]. split; [|reflexivity].
    constructor; [reflexivity|constructor].
  - exists []. split; [reflexivity|]. split; [constructor|reflexivity].
  - apply (nobody_named _ [Key "y"%char] "y"%char [Line []]
             [Line (lit "Eve"); Key "x"%char; Key "n"%char]).
    + exists []. split; [reflexivity|]. split; [constructor|reflexivity].
    + reflexivity.
    + apply blank_name; [simpl; lia|reflexivity].
    + apply (declined_name _ (lit "Eve") [Key "x"%char; Key "n"%char] "n"%char);
        [simpl; lia|reflexivity|reflexivity| |reflexivity].
      exists ["x"%char]. split; [reflexivity|]. split; [|reflexivity].
      constructor; [reflexivity|constructor].
  - simpl. lia.
  - destruct bobNobody_added as (w'' & Hrun' & Hpool).
    assert (w'' = w') as -> by congruence.
    exists w'. split; [exact Hrun|]. split; [exact Hin|]. split; [exact Hpool|exact Hadded].
Defined.

(** ** The blocks of a row *)

Lemma blockStart_nonneg ws i : Forall (λ w, 0 ≤ w)%Z ws → (0 ≤ blockStart ws i)%Z.
Proof.
  intros H. revert i. induction H as [|w ws Hw _ IH]; intros [|i]; cbn [blockStart]; try lia.
  specialize (IH i). lia.
Qed.

Lemma row_cons b b' bs :
  row (b :: b' :: bs) = b ++ spaces (Z.of_nat HSPACE) ++ row (b' :: bs).
Proof. done. Qed.

(** In a row every block stands at its column, and [HSPACE] spaces follow
    every block but the last. *)
Lemma row_columns bs ws i b :
  Forall2 (λ b w, strlen b = w) bs ws →
  bs !! i = Some b →
  columns (blockStart ws i) (strlen b) (row bs) = b
  ∧ (S i < length bs →
     columns (blockStart ws i + strlen b) (Z.of_nat HSPACE) (row bs)
     = spaces (Z.of_nat HSPACE)).
Proof.
  intros HF. revert i. induction HF as [|b0 w0 bs ws Hw HF IH]; intros i Hi; [done|].
  assert (Forall (λ w, 0 ≤ w)%Z ws) as Hpos.
  { clear -HF. induction HF as [|???? H]; constructor; [unfold strlen in H; lia|done]. }
  unfold columns in *. destruct i as [|i].
  - injection Hi as ->. cbn [blockStart]. unfold strlen. rewrite Nat2Z.id.
    change (Z.to_nat 0) with 0. rewrite drop_0.
    split.
    + destruct bs as [|b' bs]; [simpl; by rewrite take_ge|].
      rewrite row_cons. by rewrite take_app_length.
    + intros Hlen. destruct bs as [|b' bs]; [simpl in Hlen; lia|].
      rewrite row_cons. replace (Z.to_nat (0 + Z.of_nat (length b))) with (length b) by lia.
      rewrite drop_app_length. rewrite Nat2Z.id.
      rewrite take_app_length'; [done|]. unfold spaces. rewrite length_replicate. lia.
  - simpl in Hi. destruct bs as [|b' bs]; [done|].
    destruct (IH i Hi) as [IH1 IH2]. rewrite row_cons. cbn [blockStart].
    pose proof (blockStart_nonneg ws i Hpos) as Hbs.
    assert (∀ z, (0 ≤ z)%Z →
              drop (Z.to_nat (w0 + Z.of_nat HSPACE + z))
                (b0 ++ spaces (Z.of_nat HSPACE) ++ row (b' :: bs))
              = drop (Z.to_nat z) (row (b' :: bs))) as Hdrop.
    { intros z Hz. unfold strlen in Hw.
      replace (Z.to_nat (w0 + Z.of_nat HSPACE + z))
        with (length b0 + (HSPACE + Z.to_nat z)) by lia.
      rewrite drop_app_add. 
      replace HSPACE with (length (spaces (Z.of_nat HSPACE))) at 1
        by (unfold spaces; rewrite length_replicate; lia).
      by rewrite drop_app_add. }
    split.
    + by rewrite Hdrop.
    + intros Hlen. rewrite <- Z.add_assoc, Hdrop by (unfold strlen; lia).
      apply IH2. simpl in *. lia.
Qed.

Lemma childrenLine_names h p cl :
  childrenLine h p 256 = Some cl →
  ∃ cs names, cells p = Some cs ∧ namesOf h cs = Some names
              ∧ cl = take 255 (joinNames (map first15 names)).
Proof.
  intros Hcl. pose proof Hcl as Hcl0. unfold childrenLine in Hcl.
  destruct (cells p) as [cs|] eqn:Hcs; [|done]. cbn [mbind option_bind] in Hcl.
  destruct (childrenLine_from h 256 cs []) as [out|] eqn:Hout; [|done]. clear Hcl.
  assert (∃ names, namesOf h cs = Some names) as [names Hn].
  { clear Hcs Hcl0. revert out Hout. generalize (@nil ascii).
    induction cs as [|c rest IH]; intros pre out Hout; [by exists []|].
    cbn [childrenLine_from] in Hout. destruct c as [a|]; [|done].
    cbn [mbind option_bind] in Hout. destruct (h !! a) as [m|] eqn:Hm; [|done].
    cbn [mbind option_bind] in Hout. apply IH in Hout as [names Hn].
    exists (FamilyMember.name m :: names). unfold namesOf in *. cbn [mapM].
    cbn [mbind option_bind]. rewrite Hm. cbn [fmap option_fmap option_map mbind option_bind].
    by rewrite Hn. }
  exists cs, names. split; [done|]. split; [done|].
  rewrite (childrenLine_spec h p 256 cs names) in Hcl0 by (done || lia).
  by injection Hcl0 as <-.
Qed.

Lemma centered_blocks (sel : text * text → text) ls :
  (∀ l, strlen (sel l) ≤ unitWidth l.1 l.2)%Z →
  Forall2 (λ b w, strlen b = w)
    (map (λ l, centered (unitWidth l.1 l.2) (sel l)) ls) (widthsOf ls).
Proof.
  intros Hsel. unfold widthsOf. induction ls as [|l ls IH]; [constructor|].
  cbn [map]. constructor; [|done]. by apply centered_length.
Qed.

(** C5 (amended). The display width of a unit is the largest of the length
    of its parent line, the length of its children line as its 256-byte
    buffer holds it, that is of the first 255 characters of the children's
    truncated names joined by spaces, and 6.  In the parents row and in the
    children row of a generation the block of a unit starts at the column
    given by the widths of the units before it, six spaces after each of
    them; it is the line padded on both sides, has exactly the width of the
    unit, and its left padding is the floor of half the space left over.
    Six spaces follow every block but the last. *)
Theorem C5_width_and_centering h gen ls :
  linesOf h gen = Some ls →
  let ws := widthsOf ls in
  let prow := row (map (λ l, centered (unitWidth l.1 l.2) l.1) ls) in
  let crow := row (map (λ l, centered (unitWidth l.1 l.2) l.2) ls) in
  renderGeneration h gen
  = Some (prow ++ nl ++ row (map (λ l, connector (unitWidth l.1 l.2) l.1) ls) ++ nl
          ++ crow ++ nl ++ nl)
  ∧ length ls = length gen
  ∧ (ls ≠ [] → strlen prow = totalLineWidth ws ∧ strlen crow = totalLineWidth ws)
  ∧ ∀ i p l, gen !! i = Some p → ls !! i = Some l →
      let w := unitWidth l.1 l.2 in
      parentLine h p 256 = Some l.1
      ∧ childrenLine h p 256 = Some l.2
      ∧ (∃ cs names,
           cells p = Some cs ∧ namesOf h cs = Some names
           ∧ l.2 = take 255 (joinNames (map first15 names))
           ∧ w = Z.max (Z.max (strlen l.1)
                          (Z.min (strlen (joinNames (map first15 names))) 255)) 6)
      ∧ w = Z.max (Z.max (strlen l.1) (strlen l.2)) 6
      ∧ padLeft w l.1 = ((w - strlen l.1) / 2)%Z
      ∧ padLeft w l.2 = ((w - strlen l.2) / 2)%Z
      ∧ columns (blockStart ws i) w prow
        = spaces (padLeft w l.1) ++ l.1 ++ spaces (w - padLeft w l.1 - strlen l.1)
      ∧ columns (blockStart ws i) w crow
        = spaces (padLeft w l.2) ++ l.2 ++ spaces (w - padLeft w l.2 - strlen l.2)
      ∧ strlen (columns (blockStart ws i) w prow) = w
      ∧ strlen (columns (blockStart ws i) w crow) = w
      ∧ (S i < length ls →
         columns (blockStart ws i + w) (Z.of_nat HSPACE) prow = spaces (Z.of_nat HSPACE)
         ∧ columns (blockStart ws i + w) (Z.of_nat HSPACE) crow
           = spaces (Z.of_nat HSPACE)).
Proof.
  intros Hls ws prow crow.
  pose proof Hls as HF. unfold linesOf in HF. apply mapM_Some_1 in HF.
  split; [unfold renderGeneration; by rewrite Hls|].
  split; [symmetry; by eapply Forall2_length|].
  assert (HFp : Forall2 (λ b w, strlen b = w)
                  (map (λ l, centered (unitWidth l.1 l.2) l.1) ls) ws).
  { apply (centered_blocks fst). intros l. apply unitWidth_bounds. }
  assert (HFc : Forall2 (λ b w, strlen b = w)
                  (map (λ l, centered (unitWidth l.1 l.2) l.2) ls) ws).
  { apply (centered_blocks snd). intros l. apply unitWidth_bounds. }
  split.
  { intros Hne. unfold prow, crow. rewrite !row_strlen by (by destruct ls).
    rewrite !length_map, !map_map. unfold ws, totalLineWidth, widthsOf.
    rewrite length_map.
    split; do 2 f_equal; apply map_ext; intros [pl cl]; simpl;
      apply centered_length; apply unitWidth_bounds. }
  intros i p l Hp Hl w.
  destruct (Forall2_lookup_l _ _ _ _ _ HF Hp) as (l' & Hl' & Hlines).
  assert (l' = l) as -> by congruence. clear Hl'.
  destruct (parentLine h p 256) as [pl|] eqn:Hpl; [|done].
  cbn [mbind option_bind] in Hlines.
  destruct (childrenLine h p 256) as [cl|] eqn:Hcl; [|done].
  cbn [mbind option_bind] in Hlines. injection Hlines as <-. cbn [fst snd] in *.
  pose proof (unitWidth_max pl cl) as Hw. fold w in Hw.
  destruct (centered_length w pl) as [Hlp Hpp]; [lia|].
  destruct (centered_length w cl) as [Hlc Hpc]; [lia|].
  destruct (childrenLine_names h p cl Hcl) as (cs & names & Hcs & Hn & Hcut).
  assert (Hbp : map (λ l, centered (unitWidth l.1 l.2) l.1) ls !! i = Some (centered w pl)).
  { by rewrite list_lookup_fmap, Hl. }
  assert (Hbc : map (λ l, centered (unitWidth l.1 l.2) l.2) ls !! i = Some (centered w cl)).
  { by rewrite list_lookup_fmap, Hl. }
  destruct (row_columns _ ws i _ HFp Hbp) as [Hcp Hgp].
  destruct (row_columns _ ws i _ HFc Hbc) as [Hcc Hgc].
  rewrite Hlp in Hcp, Hgp. rewrite Hlc in Hcc, Hgc. rewrite length_map in Hgp, Hgc.
  fold prow in Hcp, Hgp. fold crow in Hcc, Hgc.
  split; [done|]. split; [done|]. split.
  { exists cs, names. split; [done|]. split; [done|]. split; [done|].
    rewrite Hw. rewrite Hcut at 1. unfold strlen. rewrite length_take. lia. }
  split; [done|]. split; [done|]. split; [done|].
  split; [by rewrite Hcp|]. split; [by rewrite Hcc|].
  split; [by rewrite Hcp|]. split; [by rewrite Hcc|].
  intros Hlen. split; [by apply Hgp|by apply Hgc].
Qed.

Lemma C5_width_and_centering_witness :
  linesOf carolDave (startGeneration carolDave 0)
  = Some [(lit "Unknown (M) - Unknown (F)", lit "Carol");
          (lit "Carol (F) - Unknown (F)", lit "Dave")]
  ∧ unitWidth (lit "Carol (F) - Unknown (F)") (lit "Dave") = 23%Z
  ∧ columns 31 23
      (row (map (λ l, centered (unitWidth l.1 l.2) l.2)
              [(lit "Unknown (M) - Unknown (F)", lit "Carol");
               (lit "Carol (F) - Unknown (F)", lit "Dave")]))
    = lit "         Dave          "
  ∧ columns 25 6
      (row (map (λ l, centered (unitWidth l.1 l.2) l.1)
              [(lit "Unknown (M) - Unknown (F)", lit "Carol");
               (lit "Carol (F) - Unknown (F)", lit "Dave")]))
    = lit "      ".
Proof.
  assert (linesOf carolDave (startGeneration carolDave 0)
          = Some [(lit "Unknown (M) - Unknown (F)", lit "Carol");
                  (lit "Carol (F) - Unknown (F)", lit "Dave")]) as Hls by reflexivity.
  destruct (C5_width_and_centering carolDave (startGeneration carolDave 0) _ Hls)
    as (_ & _ & _ & H).
  split; [exact Hls|].
  destruct (H 1 davePair (lit "Carol (F) - Unknown (F)", lit "Dave") eq_refl eq_refl)
    as (_ & _ & _ & Hw & _ & _ & _ & Hc & _).
  destruct (H 0 (FamilyPair.addChild (Some 0) (FamilyPair.new None None))
              (lit "Unknown (M) - Unknown (F)", lit "Carol") eq_refl eq_refl)
    as (_ & _ & _ & _ & _ & _ & _ & _ & _ & _ & Hg).
  split; [exact Hw|]. split; [exact Hc|]. exact (proj1 (Hg ltac:(simpl; lia))).
Defined.

(** C5 as stated fails for a unit whose children line does not fit its
    buffer: for the root with seventeen long-named children the children
    line has 271 characters, the buffer keeps 255 of them, and the width of
    the unit is 255. *)
Lemma C5_width_of_a_cut_line :
  ∃ w gens p cs names pl cl,
    crowdWorld = Some w
    ∧ walk 20 (FamilyTree.memberPool (tree w))
        (startGeneration (FamilyTree.memberPool (tree w)) 0) = Some gens
    ∧ fst <$> gens !! 1 = Some [p]
    ∧ cells p = Some cs
    ∧ namesOf (FamilyTree.memberPool (tree w)) cs = Some names
    ∧ parentLine (FamilyTree.memberPool (tree w)) p 256 = Some pl
    ∧ childrenLine (FamilyTree.memberPool (tree w)) p 256 = Some cl
    ∧ strlen pl = 25%Z
    ∧ strlen (joinNames (map first15 names)) = 271%Z
    ∧ unitWidth pl cl = 255%Z
    ∧ unitWidth pl cl
      ≠ Z.max (Z.max (strlen pl) (strlen (joinNames (map first15 names)))) 6.
Proof.
  eexists _, _, _, _, _, _, _.
  split; [vm_compute; reflexivity|].
  split; [vm_compute; reflexivity|].
  split; [vm_compute; reflexivity|].
  split; [vm_compute; reflexivity|].
  split; [vm_compute; reflexivity|].
  split; [vm_compute; reflexivity|].
  split; [vm_compute; reflexivity|].
  split; [vm_compute; reflexivity|].
  split; [vm_compute; reflexivity|].
  split; [vm_compute; reflexivity|].
  vm_compute. discriminate.
Qed.

(** ** The children of one generation, each once *)

Lemma addToPairs_kids_perm f m c head :
  Forall FamilyPair.wf head →
  addToPairs f m (Some c) head ≫= FamilyPair.kids
  ≡ₚ (head ≫= FamilyPair.kids) ++ [Some c].
Proof.
  intros Hwf. induction Hwf as [|cur rest Hcur Hrest IH]; cbn [addToPairs].
  - rewrite bind_singleton.
    destruct (addChild_spec c (FamilyPair.new f m) (wf_new f m)) as (_ & -> & _).
    by rewrite kids_new.
  - destruct (bool_decide _ && bool_decide _).
    + rewrite !bind_cons. destruct (addChild_spec c cur Hcur) as (_ & -> & _).
      rewrite <- !app_assoc. apply Permutation_app_head, Permutation_app_comm.
    + rewrite !bind_cons, IH. by rewrite app_assoc.
Qed.

Lemma buildFamilyPairs_from_kids_perm h ms head units :
  Forall FamilyPair.wf head →
  buildFamilyPairs_from h ms head = Some units →
  units ≫= FamilyPair.kids ≡ₚ (head ≫= FamilyPair.kids) ++ ms.
Proof.
  revert head. induction ms as [|c ms IH]; intros head Hwf; cbn [buildFamilyPairs_from].
  - intros [= <-]. by rewrite app_nil_r.
  - destruct c as [c|]; [|done]. cbn [mbind option_bind].
    destruct (h !! c) as [cm|]; [|done]. cbn [mbind option_bind]. intros Hb.
    destruct (addToPairs_view (FamilyMember.father cm) (FamilyMember.mother cm) c head Hwf)
      as [Hwf' _].
    rewrite (IH _ Hwf' Hb), addToPairs_kids_perm by done. by rewrite <- app_assoc.
Qed.

Lemma increasing_NoDup l : increasing l → NoDup l.
Proof.
  intros Hinc. apply NoDup_alt. intros i j x Hi Hj.
  destruct (Nat.lt_trichotomy i j) as [Hlt|[->|Hlt]]; [|done|].
  - pose proof (Hinc i j x x Hi Hj Hlt). lia.
  - pose proof (Hinc j i x x Hj Hi Hlt). lia.
Qed.

Lemma chains_NoDup b h k cl ls :
  ordered b h → single_linked h → NoDup cl →
  Forall2 (λ (p : option nat) l, (a ← p; childrenOf k h a) = Some l) cl ls →
  NoDup (concat ls).
Proof.
  intros Hord Hs Hnd Hall. induction Hall as [|p l cl ls Hl Hall IH]; [constructor|].
  apply NoDup_cons in Hnd as [Hp Hnd]. cbn [concat].
  destruct p as [p|]; [|done]. cbn [mbind option_bind] in Hl.
  apply NoDup_app. split; [|split; [|by apply IH]].
  - apply increasing_NoDup. by destruct (childrenOf_sorted k h b p l Hord Hl).
  - intros x Hx Hin. apply elem_of_concat in Hin as (l' & Hl' & Hx').
    apply list_elem_of_lookup in Hl' as [i Hi].
    destruct (Forall2_lookup_r _ _ _ _ _ Hall Hi) as (q & Hq & Hfq).
    destruct q as [q|]; [|done]. cbn [mbind option_bind] in Hfq.
    assert (p = q) as ->.
    { apply (child_unique h p q x Hs); [by exists k, l|by exists k, l']. }
    apply Hp. by eapply list_elem_of_lookup_2.
Qed.

Lemma nextGeneration_NoDup b k h gen ng :
  ordered b h → single_linked h →
  Forall FamilyPair.wf gen →
  nextGeneration k h gen = Some ng →
  NoDup (ng ≫= FamilyPair.kids).
Proof.
  intros Hord Hs Hwf Hng. unfold nextGeneration in Hng.
  rewrite collectChildren_spec in Hng by done. cbn [mbind option_bind] in Hng.
  rewrite expandAll_chains in Hng.
  destruct (mapM _ _) as [ls|] eqn:Hls; [|done]. cbn [mbind option_bind] in Hng.
  rewrite (buildFamilyPairs_from_kids_perm _ _ _ _ (Forall_nil_2 _) Hng).
  cbn [mbind list_bind app]. apply (NoDup_fmap_2 Some).
  apply mapM_Some in Hls.
  eapply (chains_NoDup b h k _ ls Hord Hs); [|exact Hls].
  apply addDistinct_NoDup. constructor.
Qed.

Lemma startGeneration_NoDup h r : NoDup (startGeneration h r ≫= FamilyPair.kids).
Proof.
  pose proof (seedGeneration_build h r) as Hb. unfold buildFamilyPairsForMembers in Hb.
  pose proof (buildFamilyPairs_from_kids_perm _ _ _ _ (Forall_nil_2 _) Hb) as Hp.
  unfold startGeneration. destruct (seedGeneration h r) as [|u gen0] eqn:E.
  - rewrite bind_singleton.
    destruct (addChild_spec r (FamilyPair.new None None) (wf_new None None)) as (_ & -> & _).
    rewrite kids_new. apply NoDup_singleton.
  - rewrite Hp. cbn [mbind list_bind app]. unfold seedMembers.
    apply (NoDup_fmap_2 Some), NoDup_filter, NoDup_seq.
Qed.

Lemma walk_head fuel h u gen0 gens :
  walk fuel h (u :: gen0) = Some gens →
  ∃ block later, gens = (u :: gen0, block) :: later.
Proof.
  destruct fuel as [|k]; [done|]. cbn [walk].
  destruct (renderGeneration h (u :: gen0)) as [block|]; [|done].
  cbn [mbind option_bind].
  destruct (nextGeneration k h (u :: gen0)) as [ng|]; [|done].
  cbn [mbind option_bind].
  destruct (walk k h ng) as [later|]; [|done].
  cbn [mbind option_bind]. intros [= <-]. by eexists _, _.
Qed.

Lemma walk_NoDup b h r fuel gens :
  ordered b h → single_linked h →
  walk fuel h (startGeneration h r) = Some gens →
  Forall (λ g, NoDup (g.1 ≫= FamilyPair.kids)) gens.
Proof.
  intros Hord Hs Hw. destruct (startGeneration_kids h r) as [Hwf _].
  apply Forall_lookup. intros i g Hg. destruct i as [|i].
  - pose proof (startGeneration_NoDup h r) as Hnd.
    destruct (startGeneration h r) as [|u gen0] eqn:E.
    { destruct fuel; injection Hw as <-; by rewrite lookup_nil in Hg. }
    destruct (walk_head _ _ _ _ _ Hw) as (block & later & ->).
    by injection Hg as <-.
  - destruct (lookup_lt_is_Some_2 gens i) as [g0 Hg0];
      [apply lookup_lt_Some in Hg; lia|].
    destruct (walk_consecutive h fuel _ gens Hwf Hw i g0 Hg0) as (Hwf0 & k & ng & Hng & Hnext).
    rewrite Hg in Hnext. rewrite Hnext.
    by apply (nextGeneration_NoDup b k h g0.1 ng).
Qed.

Lemma placed_visits gens a : placed gens a ↔ 1 ≤ visits gens a.
Proof.
  unfold placed, visits. split.
  - intros (g & Hg & Ha).
    assert (Some a ∈ filter (λ k, k = Some a) (gens ≫= λ g, g.1 ≫= FamilyPair.kids)) as Hin.
    { apply list_elem_of_filter. split; [done|]. apply list_elem_of_bind. by exists g. }
    destruct (filter _ _); [by apply elem_of_nil in Hin|simpl; lia].
  - intros Hv.
    destruct (filter (λ k, k = Some a) (gens ≫= λ g, g.1 ≫= FamilyPair.kids))
      as [|x l] eqn:E; [simpl in Hv; lia|].
    assert (x ∈ filter (λ k, k = Some a) (gens ≫= λ g, g.1 ≫= FamilyPair.kids)) as Hin
      by (rewrite E; apply elem_of_cons; by left).
    apply list_elem_of_filter in Hin as [-> Hin].
    apply list_elem_of_bind in Hin as (g & Ha & Hg). by exists g.
Qed.

Lemma walk_children h r fuel gens i g p a :
  walk fuel h (startGeneration h r) = Some gens →
  gens !! i = Some g →
  Some p ∈ g.1 ≫= FamilyPair.kids →
  child h p a →
  ∃ g', gens !! S i = Some g' ∧ Some a ∈ g'.1 ≫= FamilyPair.kids.
Proof.
  intros Hw Hg Hp Hc. destruct (startGeneration_kids h r) as [Hwf _].
  destruct (walk_consecutive h fuel _ gens Hwf Hw i g Hg) as (Hwfg & k & ng & Hng & Hnext).
  destruct (nextGeneration_kids k h _ ng Hwfg Hng) as [_ Hkids].
  assert (Some a ∈ ng ≫= FamilyPair.kids) as Hin by (apply Hkids; by exists p).
  destruct (gens !! S i) as [g'|].
  - exists g'. split; [done|]. by rewrite Hnext.
  - subst ng. by apply elem_of_nil in Hin.
Qed.

(** C4 (amended). On a finite registry whose child-list links are acyclic
    the generation walk terminates; it begins with generation 0, expands
    every child of a generation once in that generation, and whoever is on
    the child list of a child of one generation is a child of the next.  Every registry the program can
    reach is of that kind: showing the tree always returns, every member,
    and so every child of every member, is visited as a child of some
    generation at least once, and within one generation nobody is visited
    twice.  Across the whole walk a member can be visited more than
    once. *)
Theorem C4_walk_terminates :
  (∀ h r, heap_linked h → acyclic h → r < length h →
     ∃ n gens,
       (∀ fuel, n ≤ fuel → walk fuel h (startGeneration h r) = Some gens)
       ∧ (∃ block later, gens = (startGeneration h r, block) :: later)
       ∧ Forall (λ g, ∃ cl, collectChildren g.1 [] = Some cl ∧ NoDup cl) gens
       ∧ (∀ i g p a,
            gens !! i = Some g → Some p ∈ g.1 ≫= FamilyPair.kids → child h p a →
            ∃ g', gens !! S i = Some g' ∧ Some a ∈ g'.1 ≫= FamilyPair.kids))
  ∧ (∀ w r, reachable w → FamilyTree.root (tree w) = Some r →
       let h := FamilyTree.memberPool (tree w) in
       heap_linked h ∧ acyclic h ∧ r < length h
       ∧ ∃ n gens,
           (∀ fuel, n ≤ fuel →
              walk fuel h (startGeneration h r) = Some gens
              ∧ showCenteredTree fuel w
                = Some (tt, {| tree := tree w; input := input w;
                               output := output w
                                 ++ [nl ++ lit "=== CENTERED FAMILY TREE ===" ++ nl ++ nl;
                                     concat (map snd gens);
                                     lit "=== END OF TREE ===" ++ nl] |}))
           ∧ (∀ a, a < length h → 1 ≤ visits gens a)
           ∧ (∀ p a, child h p a → 1 ≤ visits gens a)
           ∧ Forall (λ g, NoDup (g.1 ≫= FamilyPair.kids)) gens).
Proof.
  assert (∀ h r, heap_linked h → acyclic h → r < length h →
     ∃ n gens,
       (∀ fuel, n ≤ fuel → walk fuel h (startGeneration h r) = Some gens)
       ∧ (∃ block later, gens = (startGeneration h r, block) :: later)
       ∧ Forall (λ g, ∃ cl, collectChildren g.1 [] = Some cl ∧ NoDup cl) gens
       ∧ (∀ i g p a,
            gens !! i = Some g → Some p ∈ g.1 ≫= FamilyPair.kids → child h p a →
            ∃ g', gens !! S i = Some g' ∧ Some a ∈ g'.1 ≫= FamilyPair.kids)) as Hwalk.
  { intros h r Hl Hac Hr. destruct (acyclic_bounded h Hl Hac) as [n Hn].
    destruct (walk_total h n Hl (S n) (startGeneration h r)) as (gens & Hw & _ & Hall);
      [by apply startGeneration_ok|lia|].
    exists (S n), gens. split; [intros fuel Hfuel; by eapply walk_mono|].
    split.
    { assert (startGeneration h r ≠ []) as Hne
        by (unfold startGeneration; by destruct (seedGeneration h r)).
      destruct (startGeneration h r) as [|u gen0]; [done|].
      destruct (walk_head _ _ _ _ _ Hw) as (block & later & ->). by eexists _, _. }
    split; [done|]. intros i g p a. by apply (walk_children h r (S n)). }
  split; [done|].
  intros w r Hreach Hroot h.
  pose proof (reachable_conn _ Hreach) as Hconn. unfold tree_conn in Hconn.
  rewrite Hroot in Hconn. pose proof Hconn as [(_ & Hr & Hord & Hun) Hatt].
  pose proof (reachable_single _ Hreach) as Hs.
  fold h in Hr, Hord, Hun, Hatt, Hs.
  pose proof (ordered_linked _ Hord) as Hl. pose proof (ordered_acyclic _ _ Hord) as Hac.
  split; [done|]. split; [done|]. split; [done|].
  destruct (Hwalk h r Hl Hac Hr) as (n & gens & Hw & _). exists n, gens.
  pose proof (Hw n (le_n n)) as Hwn.
  assert (∀ a, a < length h → 1 ≤ visits gens a) as Hall.
  { intros a Ha. apply placed_visits.
    destruct (startGeneration_kids h r) as [Hwf Hseed].
    apply (walk_placed h n _ gens Hwf Hwn). exists r. split.
    - assert (Some r ∈ seedMembers h r) as Hrs.
      { apply seedMembers_elem. destruct Hun as (rm & Hrm & Hf & Hm).
        exists r, rm. split; [done|]. split; [done|]. right. right. done. }
      apply Hseed; [|done]. intros E. rewrite E in Hrs. by apply elem_of_nil in Hrs.
    - by apply (conn_from_root r (tree w)). }
  split; [|split; [done|split]].
  - intros fuel Hfuel. split; [by apply Hw|].
    unfold showCenteredTree, bind, getTree, say, lift. rewrite Hroot.
    cbn [tree input output]. fold h. rewrite (Hw fuel Hfuel). cbn [tree input output].
    by rewrite <- !app_assoc.
  - intros p a Hc. apply Hall. by destruct (child_lt _ _ p a Hord Hc).
  - by apply (walk_NoDup (length h) h r n).
Qed.

Lemma C4_walk_terminates_witness :
  ∃ w n gens,
    reachable w
    ∧ FamilyTree.memberPool (tree w) = threeGenerations
    ∧ (∀ fuel, n ≤ fuel →
         walk fuel threeGenerations (startGeneration threeGenerations 0) = Some gens
         ∧ showCenteredTree fuel w
           = Some (tt, {| tree := tree w; input := input w;
                          output := output w
                            ++ [nl ++ lit "=== CENTERED FAMILY TREE ===" ++ nl ++ nl;
                                concat (map snd gens);
                                lit "=== END OF TREE ===" ++ nl] |}))
    ∧ (∀ a, a < 3 → 1 ≤ visits gens a)
    ∧ (∀ p a, child threeGenerations p a → 1 ≤ visits gens a)
    ∧ Forall (λ g, NoDup (g.1 ≫= FamilyPair.kids)) gens.
Proof.
  destruct threeGenerations_world as (w & Hreach & Ht).
  destruct C4_walk_terminates as [_ H].
  destruct (H w 0 Hreach) as (_ & _ & _ & n & gens & Hw & Hall & Hch & Hnd).
  - rewrite Ht. reflexivity.
  - exists w, n, gens. split; [exact Hreach|].
    rewrite Ht in Hw, Hall, Hch. rewrite Ht.
    cbn [FamilyTree.memberPool] in Hw, Hall, Hch.
    split; [reflexivity|].
    split; [exact Hw|]. split; [exact Hall|]. split; [exact Hch|exact Hnd].
Defined.

(** ** Nobody is left out of the units *)

Lemma linesOf_childrenLine h gen ls u :
  linesOf h gen = Some ls → u ∈ gen → is_Some (childrenLine h u 256).
Proof.
  intros Hls Hu. unfold linesOf in Hls. apply mapM_Some in Hls.
  apply list_elem_of_lookup in Hu as [i Hi].
  destruct (Forall2_lookup_l _ _ _ _ _ Hls Hi) as (l & _ & Hl).
  destruct (parentLine h u 256); [|done]. cbn [mbind option_bind] in Hl.
  by destruct (childrenLine h u 256).
Qed.

(** X22. [showCenteredTree] leaves nobody out of the units it builds: in
    every registry a run of the menu can reach, the walk over the
    generations ends, and the members it places in a unit as children,
    taking all generations together, are exactly the members of the pool;
    the root is among those of generation 0.  The text of a generation is
    rendered from its units, and the line of children printed for a unit is
    made of the names of the children it holds, in their order, each by its
    first 15 characters, with a space between two names, cut after 255
    characters. *)
Theorem every_member_in_a_unit w r :
  reachable w →
  FamilyTree.root (tree w) = Some r →
  let h := FamilyTree.memberPool (tree w) in
  ∃ n gens,
    (∀ fuel, n ≤ fuel → walk fuel h (startGeneration h r) = Some gens)
    ∧ (∀ a, placed gens a ↔ a < length h)
    ∧ (∃ g rest, gens = g :: rest ∧ g.1 = startGeneration h r
                 ∧ Some r ∈ g.1 ≫= FamilyPair.kids)
    ∧ (∀ g u, g ∈ gens → u ∈ g.1 →
         renderGeneration h g.1 = Some g.2
         ∧ ∃ names,
             namesOf h (FamilyPair.kids u) = Some names
             ∧ childrenLine h u 256
               = Some (take 255 (joinNames (map first15 names)))).
Proof.
  intros Hreach Hroot h.
  pose proof (reachable_conn _ Hreach) as Hconn. unfold tree_conn in Hconn.
  rewrite Hroot in Hconn. pose proof Hconn as [(_ & Hr & Hord & Hun) Hatt].
  fold h in Hr, Hord, Hun, Hatt.
  pose proof (ordered_linked _ Hord) as Hl. pose proof (ordered_acyclic _ _ Hord) as Hac.
  destruct (acyclic_bounded h Hl Hac) as [n Hn].
  destruct (walk_total h n Hl (S n) (startGeneration h r)) as (gens & Hw & _);
    [by apply startGeneration_ok|lia|].
  exists (S n), gens. split; [intros fuel Hfuel; by eapply walk_mono|].
  destruct (startGeneration_kids h r) as [Hwf Hseed].
  assert (Some r ∈ seedMembers h r) as Hrs.
  { apply seedMembers_elem. destruct Hun as (rm & Hrm & Hf & Hm).
    exists r, rm. split; [done|]. split; [done|]. right. right. done. }
  assert (seedMembers h r ≠ []) as Hne by (intros E; rewrite E in Hrs; by apply elem_of_nil in Hrs).
  specialize (Hseed Hne).
  pose proof (walk_placed h (S n) _ gens Hwf Hw) as Hplaced.
  split; [|split].
  - intros a. rewrite Hplaced. split.
    + intros (p & Hp & Hrtc). apply Hseed in Hp.
      apply seedMembers_elem in Hp as (i & ch & [= <-] & Hch & _).
      apply lookup_lt_Some in Hch. clear Hplaced.
      induction Hrtc as [|x y z Hxy _ IH]; [done|]. apply IH.
      by destruct (child_lt _ _ x y Hord Hxy).
    + intros Ha. exists r. split; [by apply Hseed|]. by apply (conn_from_root r (tree w)).
  - destruct (startGeneration h r) as [|u gen0] eqn:E.
    { apply (Hseed (Some r)) in Hrs. change (Some r ∈ @nil (option nat)) in Hrs.
      by apply elem_of_nil in Hrs. }
    destruct (walk_head _ _ _ _ _ Hw) as (block & later & ->).
    eexists _, _. split; [done|]. split; [done|]. by apply Hseed.
  - intros g u Hg Hu.
    pose proof (walk_blocks _ _ _ _ Hw) as Hb. rewrite Forall_forall in Hb.
    destruct (Hb g Hg) as [_ Hrender]. split; [done|].
    apply list_elem_of_lookup in Hg as [i Hi].
    destruct (walk_consecutive h (S n) _ gens Hwf Hw i g Hi) as (Hwfg & _).
    rewrite Forall_forall in Hwfg. pose proof (Hwfg u Hu) as Hwfu.
    unfold renderGeneration in Hrender.
    destruct (linesOf h g.1) as [ls|] eqn:Hls; [|done].
    destruct (linesOf_childrenLine h g.1 ls u Hls Hu) as [cl Hcl].
    destruct (childrenLine_names h u cl Hcl) as (cs & names & Hcs & Hnames & ->).
    rewrite (cells_wf u Hwfu) in Hcs. injection Hcs as <-.
    by exists names.
Qed.

Lemma every_member_in_a_unit_witness :
  ∃ n gens,
    (∀ fuel, n ≤ fuel →
       walk fuel threeGenerations (startGeneration threeGenerations 0) = Some gens)
    ∧ (∀ a, placed gens a ↔ a < 3)
    ∧ (∃ g rest, gens = g :: rest ∧ g.1 = startGeneration threeGenerations 0
                 ∧ Some 0 ∈ g.1 ≫= FamilyPair.kids)
    ∧ (∀ g u, g ∈ gens → u ∈ g.1 →
         renderGeneration threeGenerations g.1 = Some g.2
         ∧ ∃ names,
             namesOf threeGenerations (FamilyPair.kids u) = Some names
             ∧ childrenLine threeGenerations u 256
               = Some (take 255 (joinNames (map first15 names)))).
Proof.
  destruct threeGenerations_world as (w & Hreach & Ht).
  assert (FamilyTree.root (tree w) = Some 0) as Hroot by (rewrite Ht; reflexivity).
  pose proof (every_member_in_a_unit w 0 Hreach Hroot) as H.
  rewrite Ht in H. exact H.
Defined.

(** ** Runs of the menu on example registries *)

Lemma aliceBobZed_run :
  ∃ w1 w2 w3,
    exec 4 AddMember
      (aliceWorld (bobNobodyInput
                   ++ [Line (lit "Alice"); Key "y"%char;
                       Line (lit "Zed"); Key "f"%char; Key "n"%char; Key "n"%char]))
    = Some (tt, w1)
    ∧ exec 4 MarkLate w1 = Some (tt, w2)
    ∧ exec 4 AddMember w2 = Some (tt, w3)
    ∧ FamilyMember.alive <$> FamilyTree.memberPool (tree w1) = [true; true]
    ∧ FamilyMember.alive <$> FamilyTree.memberPool (tree w2) = [false; true]
    ∧ FamilyMember.alive <$> FamilyTree.memberPool (tree w3) = [false; true; false]
    ∧ c_str ∘ FamilyMember.name <$> FamilyTree.memberPool (tree w3)
      = [lit "Alice"; lit "Bob"; lit "Zed"].
Proof.
  eexists _, _, _. split; [vm_compute; reflexivity|].
  split; [vm_compute; reflexivity|]. split; [vm_compute; reflexivity|].
  repeat split.
Qed.

Lemma members_are_permanent_witness :
  ∃ w1 w2 w3,
    let w0 := aliceWorld (bobNobodyInput
                          ++ [Line (lit "Alice"); Key "y"%char;
                              Line (lit "Zed"); Key "f"%char; Key "n"%char; Key "n"%char]) in
    exec 4 AddMember w0 = Some (tt, w1)
    ∧ exec 4 MarkLate w1 = Some (tt, w2)
    ∧ exec 4 AddMember w2 = Some (tt, w3)
    ∧ FamilyMember.alive <$> FamilyTree.memberPool (tree w1) = [true; true]
    ∧ FamilyMember.alive <$> FamilyTree.memberPool (tree w2) = [false; true]
    ∧ FamilyMember.alive <$> FamilyTree.memberPool (tree w3) = [false; true; false]
    ∧ (length (FamilyTree.memberPool (tree w0)) ≤ length (FamilyTree.memberPool (tree w1))
       ≤ length (FamilyTree.memberPool (tree w0)) + 3)
    ∧ (∀ a m, FamilyTree.memberPool (tree w1) !! a = Some m →
         ∃ m', FamilyTree.memberPool (tree w2) !! a = Some m'
           ∧ FamilyMember.name m' = FamilyMember.name m
           ∧ FamilyMember.gender m' = FamilyMember.gender m
           ∧ FamilyMember.father m' = FamilyMember.father m
           ∧ FamilyMember.mother m' = FamilyMember.mother m
           ∧ (FamilyMember.alive m' = FamilyMember.alive m
              ∨ MarkLate = MarkLate ∧ FamilyMember.alive m = true
                ∧ FamilyMember.alive m' = false))
    ∧ (∀ r, FamilyTree.root (tree w0) = Some r → FamilyTree.root (tree w3) = Some r)
    ∧ (∀ a m, FamilyTree.memberPool (tree w1) !! a = Some m →
         ∃ m', FamilyTree.memberPool (tree w3) !! a = Some m'
           ∧ FamilyMember.name m' = FamilyMember.name m
           ∧ FamilyMember.gender m' = FamilyMember.gender m
           ∧ FamilyMember.father m' = FamilyMember.father m
           ∧ FamilyMember.mother m' = FamilyMember.mother m
           ∧ (FamilyMember.alive m = false → FamilyMember.alive m' = false))
    ∧ (∀ a m, FamilyTree.memberPool (tree w2) !! a = Some m →
         ∃ m', FamilyTree.memberPool (tree w3) !! a = Some m'
           ∧ FamilyMember.name m' = FamilyMember.name m
           ∧ FamilyMember.gender m' = FamilyMember.gender m
           ∧ FamilyMember.father m' = FamilyMember.father m
           ∧ FamilyMember.mother m' = FamilyMember.mother m
           ∧ (FamilyMember.alive m = false → FamilyMember.alive m' = false)).
Proof.
  destruct aliceBobZed_run as (w1 & w2 & w3 & H1 & H2 & H3 & A1 & A2 & A3 & _).
  exists w1, w2, w3. intros w0.
  destruct members_are_permanent as [Hexec Hrtc].
  destruct (Hexec _ _ _ _ _ H1) as (R01 & L01 & _).
  destruct (Hexec _ _ _ _ _ H2) as (_ & _ & M12).
  assert (step w0 w1) as S01 by (by exists 4, AddMember).
  assert (step w1 w2) as S12 by (by exists 4, MarkLate).
  assert (step w2 w3) as S23 by (by exists 4, AddMember).
  destruct (Hrtc w0 w3) as (R03 & _ & _).
  { eapply rtc_l; [exact S01|]. eapply rtc_l; [exact S12|]. by apply rtc_once. }
  destruct (Hrtc w1 w3) as (_ & _ & M13).
  { eapply rtc_l; [exact S12|]. by apply rtc_once. }
  destruct (Hrtc w2 w3) as (_ & _ & M23); [by apply rtc_once|].
  split; [exact H1|]. split; [exact H2|]. split; [exact H3|].
  split; [exact A1|]. split; [exact A2|]. split; [exact A3|].
  split; [exact L01|]. split; [exact M12|]. split; [exact R03|].
  split; [exact M13|exact M23].
Defined.

Lemma markLateInteractive_effect_witness :
  ∃ w',
    let w := {| tree := {| FamilyTree.root := Some 0; FamilyTree.memberPool := carolDave |};
                input := [Line (lit "Dave"); Key "y"%char]; output := [] |} in
    markLateInteractive w = Some (tt, w')
    ∧ FamilyMember.alive <$> FamilyTree.memberPool (tree w') = [true; false]
    ∧ FamilyTree.root (tree w') = Some 0
    ∧ length (FamilyTree.memberPool (tree w')) = 2
    ∧ (tree w' = tree w
       ∨ ∃ name rest a m,
           input w = Line name :: rest
           ∧ findByName (tree w) name = Some a
           ∧ c_str (FamilyMember.name m) = c_str name
           ∧ FamilyTree.memberPool (tree w) !! a = Some m
           ∧ FamilyMember.alive m = true
           ∧ FamilyTree.memberPool (tree w')
             = <[a := FamilyMember.setAlive false m]> (FamilyTree.memberPool (tree w)))
    ∧ (∀ a m, carolDave !! a = Some m →
         ∃ m', FamilyTree.memberPool (tree w') !! a = Some m'
           ∧ FamilyMember.firstChild m' = FamilyMember.firstChild m
           ∧ FamilyMember.nextSibling m' = FamilyMember.nextSibling m
           ∧ FamilyMember.father m' = FamilyMember.father m
           ∧ FamilyMember.mother m' = FamilyMember.mother m).
Proof.
  eexists. intros w. split; [reflexivity|]. split; [reflexivity|].
  match goal with |- FamilyTree.root (tree ?w') = _ ∧ _ =>
    destruct (markLateInteractive_effect w tt w' eq_refl) as (H1 & H2 & H3 & H4)
  end.
  split; [exact H1|]. split; [exact H2|]. split; [exact H3|exact H4].
Defined.

Lemma generation0_begins_with_root_witness :
  ∃ rest rm,
    startGeneration carolDave 0
    = FamilyPair.addChild (Some 0) (FamilyPair.new None None) :: rest
    ∧ FamilyPair.kids (FamilyPair.addChild (Some 0) (FamilyPair.new None None)) = [Some 0]
    ∧ Forall (λ u, FamilyPair.father u = Some 0 ∨ FamilyPair.mother u = Some 0) rest
    ∧ carolDave !! 0 = Some rm
    ∧ parentLine carolDave (FamilyPair.addChild (Some 0) (FamilyPair.new None None)) 256
      = Some (lit "Unknown (M) - Unknown (F)")
    ∧ childrenLine carolDave (FamilyPair.addChild (Some 0) (FamilyPair.new None None)) 256
      = Some (first15 (FamilyMember.name rm))
    ∧ length rest = 1.
Proof.
  destruct carolDave_world as (w & Hreach & Ht).
  assert (FamilyTree.root (tree w) = Some 0) as Hroot by (rewrite Ht; reflexivity).
  pose proof (generation0_begins_with_root w 0 Hreach Hroot) as H.
  rewrite Ht in H. cbv zeta in H. cbn [FamilyTree.memberPool] in H.
  destruct H as (rest & rm & H1 & H2 & H3 & H4 & H5 & H6).
  exists rest, rm. split; [exact H1|]. split; [exact H2|]. split; [exact H3|].
  split; [exact H4|]. split; [exact H5|]. split; [exact H6|].
  vm_compute in H1. injection H1 as <-. reflexivity.
Defined.

(** ** Lines and the characters behind them *)



